(** * The reactive runtime of the quiz bundle (src/bundle.js, lines 1-418)

    A shallow embedding of the generic runtime prologue of the bundle:
    the change test [safe_not_equal], the DOM helpers [set_data] and
    [attr], the hydration reorder [init_hydrate] with [upper_bound],
    the scheduler / component lifecycle / outro groups ([flush], [update],
    [make_dirty], [mount_component], [destroy_component],
    [transition_out], [check_outros], the [$$invalidate] closure of
    [init]), the placement helpers [append] and [insert], the methods
    [$set] and [$on] of [SvelteComponent], and the handlers of the quiz
    component (lines 1678-1742), with the binary64 product that picks
    the next entry.  Each definition follows the JavaScript function of
    the same name statement by statement. *)

From Stdlib Require Import ZArith Lia Bool String List.
From Stdlib Require Import Floats.SpecFloat.
From stdpp Require Import base option list gmap strings sorting.

Local Open Scope Z_scope.

(** ** JavaScript values *)

Module JS.

(** A JavaScript value.  Numbers are IEEE-754 doubles ([spec_float]);
    objects and functions are references, compared by identity. *)
Inductive value :=
| VUndefined
| VNull
| VBool (b : bool)
| VNum (x : spec_float)
| VBigInt (z : Z)
| VStr (s : string)
| VSymbol (id : nat)
| VObj (ref : nat)
| VFun (ref : nat).

Definition is_nan (v : value) : bool :=
  match v with VNum S754_nan => true | _ => false end.

(** [typeof v] *)
Definition typeof (v : value) : string :=
  match v with
  | VUndefined => "undefined"
  | VNull => "object"
  | VBool _ => "boolean"
  | VNum _ => "number"
  | VBigInt _ => "bigint"
  | VStr _ => "string"
  | VSymbol _ => "symbol"
  | VObj _ => "object"
  | VFun _ => "function"
  end.

(** ToBoolean *)
Definition truthy (v : value) : bool :=
  match v with
  | VUndefined | VNull => false
  | VBool b => b
  | VNum (S754_zero _) | VNum S754_nan => false
  | VNum _ => true
  | VBigInt z => negb (z =? 0)
  | VStr s => negb (String.eqb s "")
  | VSymbol _ | VObj _ | VFun _ => true
  end.

(** [a === b] (IsStrictlyEqual): same type and same value; numbers are
    compared as doubles, so NaN differs from itself and +0 equals -0. *)
Definition strict_eq (a b : value) : bool :=
  match a, b with
  | VUndefined, VUndefined => true
  | VNull, VNull => true
  | VBool x, VBool y => Bool.eqb x y
  | VNum x, VNum y => SFeqb x y
  | VBigInt x, VBigInt y => x =? y
  | VStr x, VStr y => String.eqb x y
  | VSymbol x, VSymbol y => Nat.eqb x y
  | VObj x, VObj y => Nat.eqb x y
  | VFun x, VFun y => Nat.eqb x y
  | _, _ => false
  end.

(** [a !== b] *)
Definition strict_neq (a b : value) : bool := negb (strict_eq a b).

(** [a == a]: both operands of the loose comparison are the same value,
    hence of the same type, and IsLooselyEqual is IsStrictlyEqual. *)
Definition loose_eq_self (a : value) : bool := strict_eq a a.

(** [v == null]: true of [null] and [undefined] only. *)
Definition loose_eq_null (v : value) : bool :=
  match v with VUndefined | VNull => true | _ => false end.

(** [x || y] and [x && y] return one of their operands. *)
Definition js_or (x y : value) : value := if truthy x then x else y.
Definition js_and (x y : value) : value := if truthy x then y else x.

(** [[
    function safe_not_equal(a, b) {
        return a != a ? b == b
             : a !== b || ((a && typeof a === 'object') || typeof a === 'function');
    }
    ]] *)
Definition safe_not_equal (a b : value) : value :=
  if negb (loose_eq_self a) then VBool (loose_eq_self b)
  else js_or (VBool (strict_neq a b))
             (js_or (js_and a (VBool (String.eqb (typeof a) "object")))
                    (VBool (String.eqb (typeof a) "function"))).

(** The change test as the specification words it. *)
Definition is_object (v : value) : bool :=
  match v with VObj _ => true | _ => false end.
Definition is_function (v : value) : bool :=
  match v with VFun _ => true | _ => false end.

Definition spec_changed (old new : value) : bool :=
  if is_nan old && is_nan new then false
  else strict_neq old new || is_object old || is_function old.

Lemma SFcompare_refl x : x <> S754_nan -> SFcompare x x = Some Eq.
Proof.
  destruct x as [[]|[]| |[] m e]; simpl; try congruence; intros _;
    rewrite Z.compare_refl; simpl; try rewrite Pos.compare_refl; reflexivity.
Qed.

Lemma SFeqb_refl x : x <> S754_nan -> SFeqb x x = true.
Proof. intros H. unfold SFeqb. now rewrite SFcompare_refl. Qed.

Lemma strict_eq_refl a : is_nan a = false -> strict_eq a a = true.
Proof.
  destruct a; simpl; intros H; try reflexivity.
  - now destruct b.
  - apply SFeqb_refl. intros ->. discriminate.
  - apply Z.eqb_refl.
  - apply String.eqb_refl.
  - apply Nat.eqb_refl.
  - apply Nat.eqb_refl.
  - apply Nat.eqb_refl.
Qed.

Lemma strict_eq_nan_l b : strict_eq (VNum S754_nan) b = false.
Proof. now destruct b. Qed.

Lemma strict_eq_nan_r a : strict_eq a (VNum S754_nan) = false.
Proof. destruct a; try reflexivity. now destruct x as [[]|[]| |[] ? ?]. Qed.

Lemma is_nan_inv a : is_nan a = true -> a = VNum S754_nan.
Proof. destruct a as [| | |[]| | | | |]; simpl; congruence. Qed.

(** [x != x] holds of NaN only. *)
Lemma loose_eq_self_nan a : loose_eq_self a = negb (is_nan a).
Proof.
  unfold loose_eq_self. destruct (is_nan a) eqn:E.
  - apply is_nan_inv in E. subst. reflexivity.
  - now rewrite strict_eq_refl.
Qed.

(** [ToInt32]: the 32-bit integers of the bit operators and of
    [Int32Array]. *)
Definition to_int32 (z : Z) : Z := (z + 2 ^ 31) mod 2 ^ 32 - 2 ^ 31.

Lemma to_int32_small z : - 2 ^ 31 <= z < 2 ^ 31 -> to_int32 z = z.
Proof. intros H. unfold to_int32. rewrite Z.mod_small; lia. Qed.

End JS.

(** ** DOM helpers: [set_data] and [attr] *)

Module Dom.
Import JS.

(** One call of a mutating DOM method or setter, as a spy would record it. *)
Inductive mutation :=
| SetData (s : string)                        (* text.data = s *)
| RemoveAttribute (a : string)                (* node.removeAttribute(a) *)
| SetAttribute (a : string) (s : string).     (* node.setAttribute(a, s) *)

(** A text node together with the text of the Text nodes logically
    adjacent to it: [wholeText] is their concatenation in document order. *)
Record text_node := TextNode {
  before_text : string;
  data : string;
  after_text : string
}.

Definition wholeText (t : text_node) : string :=
  (before_text t ++ data t ++ after_text t)%string.

Definition write_data (t : text_node) (s : string) : text_node :=
  {| before_text := before_text t; data := s; after_text := after_text t |}.

(** An element, reduced to its attribute map. *)
Record element := Element { attributes : gmap string string }.

Definition getAttribute (n : element) (a : string) : value :=
  match attributes n !! a with Some s => VStr s | None => VNull end.

Section Helpers.

(** ToString, used by ['' + data] and by [setAttribute]. *)
Variable to_string : value -> string.

(** [[
    function set_data(text, data) {
        data = '' + data;
        if (text.wholeText !== data)
            text.data = data;
    }
    ]] *)
Definition set_data (text : text_node) (data : value) : text_node * list mutation :=
  let data := ("" ++ to_string data)%string in
  if strict_neq (VStr (wholeText text)) (VStr data)
  then (write_data text data, [SetData data])
  else (text, []).

(** [[
    function attr(node, attribute, value) {
        if (value == null)
            node.removeAttribute(attribute);
        else if (node.getAttribute(attribute) !== value)
            node.setAttribute(attribute, value);
    }
    ]] *)
Definition attr (node : element) (attribute : string) (value : value)
  : element * list mutation :=
  if loose_eq_null value then
    (Element (delete attribute (attributes node)), [RemoveAttribute attribute])
  else if strict_neq (getAttribute node attribute) value then
    (Element (<[attribute := to_string value]> (attributes node)),
     [SetAttribute attribute (to_string value)])
  else (node, []).

End Helpers.

(** C8. Patching with unchanged content leaves the DOM untouched:
    [set_data] records no mutation when the computed string equals the
    node's [wholeText] and writes [data] exactly when it differs; [attr]
    calls [removeAttribute] when the value is [null] or [undefined], makes
    no call when the current attribute value is already the computed
    value, and calls [setAttribute] in every other case. *)
Theorem patch_skips_unchanged_content :
  forall (to_string : value -> string),
    (forall t d,
        (wholeText t = to_string d -> set_data to_string t d = (t, [])) /\
        (wholeText t <> to_string d ->
         set_data to_string t d
         = (write_data t (to_string d), [SetData (to_string d)]))) /\
    (forall n a v,
        (loose_eq_null v = true ->
         attr to_string n a v
         = (Element (delete a (attributes n)), [RemoveAttribute a])) /\
        (forall s, loose_eq_null v = false ->
                   attributes n !! a = Some s -> v = VStr s ->
                   attr to_string n a v = (n, [])) /\
        (loose_eq_null v = false ->
         (forall s, attributes n !! a = Some s -> v <> VStr s) ->
         attr to_string n a v
         = (Element (<[a := to_string v]> (attributes n)),
            [SetAttribute a (to_string v)]))).
Proof.
  intros to_string. split.
  - intros t d. unfold set_data, strict_neq, strict_eq.
    change ("" ++ to_string d)%string with (to_string d). split.
    + intros ->. now rewrite String.eqb_refl.
    + intros H. apply String.eqb_neq in H. now rewrite H.
  - intros n a v. unfold attr. repeat split.
    + now intros ->.
    + intros s -> Hs ->. unfold getAttribute, strict_neq, strict_eq.
      rewrite Hs. now rewrite String.eqb_refl.
    + intros Hn Hne. rewrite Hn. unfold getAttribute, strict_neq, strict_eq.
      destruct (attributes n !! a) as [s|] eqn:Hs.
      * destruct v; try reflexivity.
        destruct (String.eqb_spec s s0) as [->|]; [|reflexivity].
        now destruct (Hne _ eq_refl).
      * now destruct v.
Qed.

(** A stand-in for ToString on the values used below. *)
Definition show (v : value) : string :=
  match v with VStr s => s | VNull => "null" | _ => "?" end.

Lemma patch_skips_witness :
  set_data show (TextNode "a" "b" "c") (VStr "abc") = (TextNode "a" "b" "c", []) /\
  attr show (Element {["id" := "x"]}) "id" (VStr "x")
  = (Element {["id" := "x"]}, []).
Proof.
  split.
  - apply (proj1 (proj1 (patch_skips_unchanged_content show) _ _)). reflexivity.
  - apply (proj1 (proj2 (proj2 (patch_skips_unchanged_content show) _ _ _))
             "x"%string); reflexivity.
Defined.

Lemma length_append (s1 s2 : string) :
  String.length (s1 ++ s2)%string = (String.length s1 + String.length s2)%nat.
Proof.
  induction s1 as [|c s1 IH]; [reflexivity|].
  change (String c s1 ++ s2)%string with (String c (s1 ++ s2)).
  cbn [String.length]. now rewrite IH.
Qed.

Lemma append_empty_r (s : string) : (s ++ "")%string = s.
Proof.
  induction s as [|c s IH]; [reflexivity|].
  change (String c s ++ "")%string with (String c (s ++ "")). now rewrite IH.
Qed.

Lemma whole_after_write t s :
  wholeText (write_data t s) = s <->
  before_text t = ""%string /\ after_text t = ""%string.
Proof.
  unfold wholeText, write_data. cbn [before_text data after_text]. split.
  - intros H. apply (f_equal String.length) in H.
    rewrite !length_append in H.
    destruct (before_text t), (after_text t); cbn [String.length] in H;
      try lia. now split.
  - intros [-> ->]. change ("" ++ s ++ "")%string with (s ++ "")%string.
    apply append_empty_r.
Qed.

(** Patching twice with the same content.  The second call never changes
    the node.  [set_data] is silent the second time on a text node with
    no adjacent text, but writes [data] again on every call when the node
    has adjacent text and the content differs from [wholeText]; [attr] is
    silent the second time for a string value, and repeats its call
    for [null] or [undefined] ([removeAttribute]) and for a value that is
    not a string ([setAttribute]). *)
Theorem patch_repeated (to_string : value -> string) :
  (forall s, to_string (VStr s) = s) ->
  (forall t d,
      let r1 := set_data to_string t d in
      let r2 := set_data to_string r1.1 d in
      r2.1 = r1.1 /\
      (before_text t = ""%string -> after_text t = ""%string -> r2.2 = []) /\
      (r1.2 = [] -> r2.2 = []) /\
      (r1.2 <> [] -> (before_text t ++ after_text t)%string <> ""%string ->
       r2.2 = [SetData (to_string d)])) /\
  (forall n a v,
      let r1 := attr to_string n a v in
      let r2 := attr to_string r1.1 a v in
      r2.1 = r1.1 /\
      (forall s, v = VStr s -> r2.2 = []) /\
      (loose_eq_null v = true -> r2.2 = [RemoveAttribute a]) /\
      (loose_eq_null v = false -> (forall s, v <> VStr s) ->
       r2.2 = [SetAttribute a (to_string v)])).
Proof.
  intros Hstr. split.
  - intros t d r1 r2. subst r1 r2. unfold set_data, strict_neq, strict_eq.
    change ("" ++ to_string d)%string with (to_string d).
    destruct (String.eqb_spec (wholeText t) (to_string d)) as [E|E];
      cbn [negb fst snd].
    + apply String.eqb_eq in E. rewrite E. cbn [negb fst snd].
      repeat split; auto. intros H. now destruct H.
    + destruct (String.eqb_spec (wholeText (write_data t (to_string d)))
                  (to_string d)) as [E2|E2]; cbn [negb fst snd].
      * apply whole_after_write in E2 as [Hb Ha].
        repeat split; auto. intros _ H. rewrite Hb, Ha in H. now destruct H.
      * split; [reflexivity|]. split; [|split; [discriminate|reflexivity]].
        intros Hb Ha. destruct E2. apply whole_after_write. now split.
  - intros n a v r1 r2. subst r1 r2. unfold attr.
    destruct (loose_eq_null v) eqn:Hn; cbn [fst snd attributes].
    + repeat split.
      * f_equal. apply delete_delete_eq.
      * intros s ->. discriminate.
      * discriminate.
    + destruct (strict_neq (getAttribute n a) v) eqn:Hne; cbn [fst snd attributes].
      * unfold getAttribute. cbn [attributes].
        rewrite lookup_insert_eq.
        destruct v; try discriminate; unfold strict_neq, strict_eq;
          cbn [negb fst snd attributes];
          try (split; [f_equal; apply insert_insert_eq|];
               split; [intros s0 Hs0; discriminate|];
               split; [discriminate|reflexivity]).
        rewrite Hstr, String.eqb_refl. cbn [negb fst snd].
        repeat split; try discriminate. intros _ H. now destruct (H s).
      * rewrite Hne. cbn [fst snd]. repeat split; try discriminate.
        intros _ H. unfold strict_neq, strict_eq, getAttribute in Hne.
        destruct (attributes n !! a), v; try discriminate.
        now destruct (H s0).
Qed.

Lemma patch_repeated_witness :
  (set_data show (set_data show (TextNode "a" "b" "") (VStr "x")).1 (VStr "x")).2
  = [SetData "x"] /\
  (attr show (attr show (Element {["id" := "x"]}) "id" (VStr "y")).1 "id" (VStr "y")).2
  = [].
Proof.
  assert (Hs : forall s, show (VStr s) = s) by reflexivity.
  split.
  - apply (proj2 (proj2 (proj2 (proj1 (patch_repeated show Hs)
                                   (TextNode "a" "b" "") (VStr "x")))));
      vm_compute; discriminate.
  - apply (proj1 (proj2 (proj2 (patch_repeated show Hs) (Element {["id" := "x"]})
                           "id"%string (VStr "y"))) "y"%string). reflexivity.
Defined.

End Dom.

(** ** The change test *)

Module Change.
Import JS.

(** C6. [safe_not_equal old new] is the boolean that is true exactly
    when [old !== new], except that NaN against NaN is no change, and
    that is always true when [old] is an object or a function. *)
Theorem safe_not_equal_spec :
  forall old new : value, safe_not_equal old new = VBool (spec_changed old new).
Proof.
  intros a b. unfold safe_not_equal, spec_changed.
  rewrite !loose_eq_self_nan, negb_involutive.
  destruct (is_nan a) eqn:Ea.
  - apply is_nan_inv in Ea. subst a. simpl.
    unfold strict_neq. rewrite strict_eq_nan_l. simpl.
    now destruct (is_nan b).
  - simpl. unfold strict_neq, js_or, js_and.
    destruct (strict_eq a b) eqn:E; simpl.
    + destruct a as [| |[]|[[]|[]| |[] ? ?]| | | | |]; simpl in *;
        try reflexivity; try discriminate.
      * destruct (z =? 0) eqn:Ez; simpl; rewrite ?Ez; reflexivity.
      * destruct (String.eqb s "") eqn:Es; simpl; rewrite ?Es; reflexivity.
    + reflexivity.
Qed.

End Change.

(** ** The scheduler, the component lifecycle and the outro groups *)

Module Runtime.
Import JS.

(** Objects are known by identity. *)
Abbreviation comp := nat (only parsing).    (* a component instance *)
Abbreviation block := nat (only parsing).   (* a fragment object *)
Abbreviation ufn := nat (only parsing).     (* a function supplied by component code *)
Abbreviation loc := nat (only parsing).     (* a callback array *)
Abbreviation gid := nat (only parsing).     (* an outro group record *)
Abbreviation node := nat (only parsing).    (* a DOM node *)

(** [$$.fragment]: [null] before creation and after destruction, [false]
    for a component without DOM, or a fragment object. *)
Inductive fragment_ref := FragNull | FragFalse | Frag (b : block).

(** [component.$$], with the [ready] variable of the closure built by
    [init] and the [$destroy] slot of the instance itself. *)
Record comp_state := CompState {
  fragment : fragment_ref;
  ctx : option (list value);          (* null until instance() returns *)
  bound : gmap nat ufn;
  on_mount : loc;
  on_destroy : option loc;            (* nulled by destroy_component *)
  before_update : loc;
  after_update : loc;
  dirty : list (option Z);            (* None is a hole of the array *)
  skip_bound : bool;
  not_equal : value -> value -> value;
  ready : bool;
  destroy_is_noop : bool              (* this.$destroy = noop *)
}.

(** A render callback: a function of component code, or the closure that
    [mount_component] creates; [mc_id] is the identity of that closure,
    the other fields are the variables it captured. *)
Inductive rcb :=
| RUser (f : ufn)
| RMount (mc_id : nat) (c : comp) (mc_on_mount : loc) (mc_on_destroy : option loc).

#[global] Instance rcb_eq_dec : EqDecision rcb.
Proof. solve_decision. Defined.

(** The completion closure that [transition_out] pushes on [outros.c],
    with the variables it captured. *)
Record outro_cb := OutroCb {
  oc_block : block;
  oc_detach : bool;
  oc_callback : option ufn
}.

(** An outro group [{ r, c, p }]. *)
Record group := Group {
  g_r : Z;
  g_c : list outro_cb;
  g_p : option gid
}.

(** The calls the runtime makes into component code, one constructor per
    call site. *)
Inductive call :=
| CUpdate (c : comp)                                   (* $$.update() *)
| CBeforeUpdate (c : comp) (f : ufn)                   (* run_all($$.before_update) *)
| CPatch (c : comp) (b : block) (cx : option (list value)) (d : list (option Z))
                                                       (* $$.fragment.p($$.ctx, dirty) *)
| CBinding (f : ufn)                                   (* binding_callbacks.pop()() *)
| CRender (f : ufn)                                    (* callback() in flush *)
| CFlushCb (f : ufn)                                   (* flush_callbacks.pop()() *)
| COnMount (f : ufn)                                   (* on_mount.map(run) *)
| CCleanup (f : ufn)                                   (* run_all(new_on_destroy) *)
| COnDestroy (c : comp) (f : ufn)                      (* run_all($$.on_destroy) *)
| CFragMount (b : block) (target : node) (anchor : option node)
                                                       (* fragment.m(target, anchor) *)
| CFragDestroy (b : block) (detaching : bool)          (* fragment.d(detaching), block.d(1) *)
| CIntro (b : block) (local : bool)                    (* block.i(local) *)
| COutro (b : block) (local : bool)                    (* block.o(local) *)
| COutroCallback (f : ufn)                             (* callback() of transition_out *)
| CBound (c : comp) (i : nat) (f : ufn) (v : value)    (* $$.bound[i](value) *)
| CSet (c : comp).                                     (* this.$$set($$props) *)

(** What a spy on the runtime records: every call into component code,
    every render callback that [flush] runs, every completion closure
    that [check_outros] runs. *)
Inductive event :=
| Call (c : call)
| Render (r : rcb)
| OutroDone (k : outro_cb).

(** How a computation ends: normally, by a thrown exception, or with the
    loop budget of the model exhausted. *)
Inductive status (A : Type) :=
| Done (a : A)
| Thrown
| NoFuel.
Arguments Done {A} a.
Arguments Thrown {A}.
Arguments NoFuel {A}.

(** 32-bit integer arithmetic of the bit operators. *)
Definition js_bitor (a b : Z) : Z := to_int32 (Z.lor (to_int32 a) (to_int32 b)).
Definition js_shl (a b : Z) : Z := to_int32 (Z.shiftl (to_int32 a) (Z.land b 31)).

(** [arr[k] = x]: an assignment past the end extends the array, leaving
    holes. *)
Definition array_set {A} (hole : A) (l : list A) (k : nat) (x : A) : list A :=
  if (k <? length l)%nat then <[k := x]> l
  else l ++ replicate (k - length l) hole ++ [x].

(** A hole or [undefined] is 0 under the bit operators. *)
Definition dirty_word (d : list (option Z)) (k : nat) : Z :=
  match d !! k with Some (Some z) => z | _ => 0 end.

(** Bit [i] of a dirty mask, as generated code tests it:
    [dirty[(i / 31) | 0] & (1 << (i % 31))]. *)
Definition dirty_bit (d : list (option Z)) (i : nat) : bool :=
  Z.testbit (dirty_word d (i / 31)) (Z.of_nat (i mod 31)).

Section Runtime.

(** The state of the application outside the runtime (its own
    variables, the DOM). *)
Context {App : Type}.

Record Sched := MkSched {
  current_component : option comp;
  dirty_components : list comp;
  binding_callbacks : list ufn;
  render_callbacks : list rcb;
  flush_callbacks : list ufn;
  update_scheduled : bool;
  pending_flushes : nat;             (* resolved_promise.then(flush) *)
  flushing : bool;
  seen_callbacks : list rcb
}.

Record World := MkWorld {
  app : App;
  comps : gmap comp comp_state;
  arrays : gmap loc (list ufn);
  next_loc : loc;
  next_closure : nat;
  sched : Sched;
  outroing : gset block;
  groups : gmap gid group;
  next_gid : gid;
  outros : option gid;               (* undefined before the first group *)
  trace : list event
}.


(** Field updates. *)
Definition set_current_component' (x : option comp) (s : Sched) : Sched :=
  MkSched x (dirty_components s) (binding_callbacks s) (render_callbacks s)
    (flush_callbacks s) (update_scheduled s) (pending_flushes s) (flushing s)
    (seen_callbacks s).
Definition set_dirty_components (x : list comp) (s : Sched) : Sched :=
  MkSched (current_component s) x (binding_callbacks s) (render_callbacks s)
    (flush_callbacks s) (update_scheduled s) (pending_flushes s) (flushing s)
    (seen_callbacks s).
Definition set_binding_callbacks (x : list ufn) (s : Sched) : Sched :=
  MkSched (current_component s) (dirty_components s) x (render_callbacks s)
    (flush_callbacks s) (update_scheduled s) (pending_flushes s) (flushing s)
    (seen_callbacks s).
Definition set_render_callbacks (x : list rcb) (s : Sched) : Sched :=
  MkSched (current_component s) (dirty_components s) (binding_callbacks s) x
    (flush_callbacks s) (update_scheduled s) (pending_flushes s) (flushing s)
    (seen_callbacks s).
Definition set_flush_callbacks (x : list ufn) (s : Sched) : Sched :=
  MkSched (current_component s) (dirty_components s) (binding_callbacks s)
    (render_callbacks s) x (update_scheduled s) (pending_flushes s) (flushing s)
    (seen_callbacks s).
Definition set_update_scheduled (x : bool) (s : Sched) : Sched :=
  MkSched (current_component s) (dirty_components s) (binding_callbacks s)
    (render_callbacks s) (flush_callbacks s) x (pending_flushes s) (flushing s)
    (seen_callbacks s).
Definition set_pending_flushes (x : nat) (s : Sched) : Sched :=
  MkSched (current_component s) (dirty_components s) (binding_callbacks s)
    (render_callbacks s) (flush_callbacks s) (update_scheduled s) x (flushing s)
    (seen_callbacks s).
Definition set_flushing (x : bool) (s : Sched) : Sched :=
  MkSched (current_component s) (dirty_components s) (binding_callbacks s)
    (render_callbacks s) (flush_callbacks s) (update_scheduled s)
    (pending_flushes s) x (seen_callbacks s).
Definition set_seen_callbacks (x : list rcb) (s : Sched) : Sched :=
  MkSched (current_component s) (dirty_components s) (binding_callbacks s)
    (render_callbacks s) (flush_callbacks s) (update_scheduled s)
    (pending_flushes s) (flushing s) x.

Definition set_app (x : App) (w : World) : World :=
  MkWorld x (comps w) (arrays w) (next_loc w) (next_closure w) (sched w)
    (outroing w) (groups w) (next_gid w) (outros w) (trace w).
Definition set_comps (x : gmap comp comp_state) (w : World) : World :=
  MkWorld (app w) x (arrays w) (next_loc w) (next_closure w) (sched w)
    (outroing w) (groups w) (next_gid w) (outros w) (trace w).
Definition set_arrays (x : gmap loc (list ufn)) (w : World) : World :=
  MkWorld (app w) (comps w) x (next_loc w) (next_closure w) (sched w)
    (outroing w) (groups w) (next_gid w) (outros w) (trace w).
Definition set_next_loc (x : loc) (w : World) : World :=
  MkWorld (app w) (comps w) (arrays w) x (next_closure w) (sched w)
    (outroing w) (groups w) (next_gid w) (outros w) (trace w).
Definition set_next_closure (x : nat) (w : World) : World :=
  MkWorld (app w) (comps w) (arrays w) (next_loc w) x (sched w)
    (outroing w) (groups w) (next_gid w) (outros w) (trace w).
Definition upd_sched (f : Sched -> Sched) (w : World) : World :=
  MkWorld (app w) (comps w) (arrays w) (next_loc w) (next_closure w)
    (f (sched w)) (outroing w) (groups w) (next_gid w) (outros w) (trace w).
Definition set_outroing (x : gset block) (w : World) : World :=
  MkWorld (app w) (comps w) (arrays w) (next_loc w) (next_closure w) (sched w)
    x (groups w) (next_gid w) (outros w) (trace w).
Definition set_groups (x : gmap gid group) (w : World) : World :=
  MkWorld (app w) (comps w) (arrays w) (next_loc w) (next_closure w) (sched w)
    (outroing w) x (next_gid w) (outros w) (trace w).
Definition set_next_gid (x : gid) (w : World) : World :=
  MkWorld (app w) (comps w) (arrays w) (next_loc w) (next_closure w) (sched w)
    (outroing w) (groups w) x (outros w) (trace w).
Definition set_outros (x : option gid) (w : World) : World :=
  MkWorld (app w) (comps w) (arrays w) (next_loc w) (next_closure w) (sched w)
    (outroing w) (groups w) (next_gid w) x (trace w).
Definition set_trace (x : list event) (w : World) : World :=
  MkWorld (app w) (comps w) (arrays w) (next_loc w) (next_closure w) (sched w)
    (outroing w) (groups w) (next_gid w) (outros w) x.

Definition set_fragment (x : fragment_ref) (s : comp_state) : comp_state :=
  CompState x (ctx s) (bound s) (on_mount s) (on_destroy s) (before_update s)
    (after_update s) (dirty s) (skip_bound s) (not_equal s) (ready s)
    (destroy_is_noop s).
Definition set_ctx (x : option (list value)) (s : comp_state) : comp_state :=
  CompState (fragment s) x (bound s) (on_mount s) (on_destroy s)
    (before_update s) (after_update s) (dirty s) (skip_bound s) (not_equal s)
    (ready s) (destroy_is_noop s).
Definition set_on_mount (x : loc) (s : comp_state) : comp_state :=
  CompState (fragment s) (ctx s) (bound s) x (on_destroy s) (before_update s)
    (after_update s) (dirty s) (skip_bound s) (not_equal s) (ready s)
    (destroy_is_noop s).
Definition set_on_destroy (x : option loc) (s : comp_state) : comp_state :=
  CompState (fragment s) (ctx s) (bound s) (on_mount s) x (before_update s)
    (after_update s) (dirty s) (skip_bound s) (not_equal s) (ready s)
    (destroy_is_noop s).
Definition set_dirty (x : list (option Z)) (s : comp_state) : comp_state :=
  CompState (fragment s) (ctx s) (bound s) (on_mount s) (on_destroy s)
    (before_update s) (after_update s) x (skip_bound s) (not_equal s) (ready s)
    (destroy_is_noop s).
Definition set_skip_bound (x : bool) (s : comp_state) : comp_state :=
  CompState (fragment s) (ctx s) (bound s) (on_mount s) (on_destroy s)
    (before_update s) (after_update s) (dirty s) x (not_equal s) (ready s)
    (destroy_is_noop s).
Definition set_destroy_is_noop (x : bool) (s : comp_state) : comp_state :=
  CompState (fragment s) (ctx s) (bound s) (on_mount s) (on_destroy s)
    (before_update s) (after_update s) (dirty s) (skip_bound s) (not_equal s)
    (ready s) x.

(** *** Computations over the world *)

Definition M (A : Type) : Type := World -> World * status A.

#[global] Instance M_ret : MRet M := fun A a w => (w, Done a).
#[global] Instance M_bind : MBind M := fun A B k m w =>
  match m w with
  | (w', Done a) => k a w'
  | (w', Thrown) => (w', Thrown)
  | (w', NoFuel) => (w', NoFuel)
  end.

Definition get : M World := fun w => (w, Done w).
Definition modify (f : World -> World) : M unit := fun w => (f w, Done tt).
Definition throw {A} : M A := fun w => (w, Thrown).
Definition out_of_fuel {A} : M A := fun w => (w, NoFuel).

Definition log (e : event) : M unit :=
  modify (fun w => set_trace (trace w ++ [e]) w).

(** [component.$$]; a component that does not exist has no [$$]. *)
Definition get_comp (c : comp) : M comp_state := fun w =>
  match comps w !! c with
  | Some cs => (w, Done cs)
  | None => (w, Thrown)
  end.

(** An assignment to a field of [component.$$]. *)
Definition set_comp (c : comp) (f : comp_state -> comp_state) : M unit :=
  modify (fun w => set_comps (alter f c (comps w)) w).

Definition read_array (l : loc) : M (list ufn) := fun w =>
  match arrays w !! l with
  | Some fs => (w, Done fs)
  | None => (w, Thrown)
  end.

(** [arr.push(...fs)] *)
Definition push_array (l : loc) (fs : list ufn) : M unit :=
  modify (fun w => set_arrays (alter (fun old => old ++ fs) l (arrays w)) w).

(** A fresh array [[]]. *)
Definition alloc_array : M loc := fun w =>
  (set_next_loc (S (next_loc w)) (set_arrays (<[next_loc w := []]> (arrays w)) w),
   Done (next_loc w)).

(** *** Component code *)

(** What a call into component code does to the world, and the function
    it returns when it returns one ([on_mount] callbacks may return a
    cleanup function). *)
Variable callf : call -> World -> World * status (option ufn).

(** Whether a fragment object has an [o] (outro) and an [i] (intro)
    method. *)
Variable has_outro : block -> bool.
Variable has_intro : block -> bool.

Definition invoke (c : call) : M (option ufn) :=
  _ ← log (Call c); callf c.

Definition call_ (c : call) : M unit :=
  _ ← invoke c; mret tt.

(** [fns.forEach(run)] on a shared array: the range is fixed when the
    loop starts, each element is read when its turn comes, and an index
    that is no longer in the array is skipped. *)
Fixpoint forEach_run (l : loc) (mk : ufn -> call) (k todo : nat) : M unit :=
  match todo with
  | O => mret tt
  | S todo' =>
      fs ← read_array l;
      match fs !! k with
      | Some f => _ ← invoke (mk f); forEach_run l mk (S k) todo'
      | None => forEach_run l mk (S k) todo'
      end
  end.

(** [run_all(fns)]; [fns] may be [null], and [null.forEach] throws. *)
Definition run_all (fns : option loc) (mk : ufn -> call) : M unit :=
  match fns with
  | None => throw
  | Some l => fs ← read_array l; forEach_run l mk 0 (length fs)
  end.

(** [run_all] on an array that nothing else can reach. *)
Fixpoint run_all_fresh (mk : ufn -> call) (fs : list ufn) : M unit :=
  match fs with
  | [] => mret tt
  | f :: fs' => _ ← invoke (mk f); run_all_fresh mk fs'
  end.

(** *** The scheduler *)

Definition set_current_component (c : option comp) : M unit :=
  modify (upd_sched (set_current_component' c)).

(** [[
    function schedule_update() {
        if (!update_scheduled) {
            update_scheduled = true;
            resolved_promise.then(flush);
        }
    }
    ]] *)
Definition schedule_update : M unit :=
  w ← get;
  if update_scheduled (sched w) then mret tt
  else modify (upd_sched (fun s =>
         set_pending_flushes (S (pending_flushes s)) (set_update_scheduled true s))).

(** [[ function add_render_callback(fn) { render_callbacks.push(fn); } ]] *)
Definition add_render_callback (fn : rcb) : M unit :=
  modify (upd_sched (fun s => set_render_callbacks (render_callbacks s ++ [fn]) s)).

(** [[
    function make_dirty(component, i) {
        if (component.$$.dirty[0] === -1) {
            dirty_components.push(component);
            schedule_update();
            component.$$.dirty.fill(0);
        }
        component.$$.dirty[(i / 31) | 0] |= (1 << (i % 31));
    }
    ]] *)
Definition make_dirty (c : comp) (i : nat) : M unit :=
  cs ← get_comp c;
  _ ← (if decide (dirty cs !! 0%nat = Some (Some (-1))) then
         _ ← modify (upd_sched (fun s =>
               set_dirty_components (dirty_components s ++ [c]) s));
         _ ← schedule_update;
         set_comp c (fun cs => set_dirty (replicate (length (dirty cs)) (Some 0)) cs)
       else mret tt);
  let k := Z.to_nat (js_bitor (Z.of_nat i / 31) 0) in
  set_comp c (fun cs =>
    set_dirty (array_set None (dirty cs) k
                 (Some (js_bitor (dirty_word (dirty cs) k)
                                 (js_shl 1 (Z.of_nat i mod 31))))) cs).

(** [[
    function update($$) {
        if ($$.fragment !== null) {
            $$.update();
            run_all($$.before_update);
            const dirty = $$.dirty;
            $$.dirty = [-1];
            $$.fragment && $$.fragment.p($$.ctx, dirty);
            $$.after_update.forEach(add_render_callback);
        }
    }
    ]] *)
Definition update (c : comp) : M unit :=
  cs ← get_comp c;
  match fragment cs with
  | FragNull => mret tt
  | _ =>
      _ ← call_ (CUpdate c);
      cs ← get_comp c;
      _ ← run_all (Some (before_update cs)) (CBeforeUpdate c);
      cs ← get_comp c;
      let dirty := dirty cs in
      _ ← set_comp c (set_dirty [Some (-1)]);
      cs ← get_comp c;
      _ ← match fragment cs with
          | Frag b => call_ (CPatch c b (ctx cs) dirty)
          | _ => mret tt
          end;
      cs ← get_comp c;
      fs ← read_array (after_update cs);
      modify (upd_sched (fun s =>
        set_render_callbacks (render_callbacks s ++ (RUser <$> fs)) s))
  end.

(** The closure of [mount_component]:
    [[
    () => {
        const new_on_destroy = on_mount.map(run).filter(is_function);
        if (on_destroy) {
            on_destroy.push(...new_on_destroy);
        }
        else {
            run_all(new_on_destroy);
        }
        component.$$.on_mount = [];
    }
    ]]
    [on_mount] and [on_destroy] are the variables captured when
    [mount_component] ran. *)
Fixpoint map_run (l : loc) (k todo : nat) : M (list ufn) :=
  match todo with
  | O => mret []
  | S todo' =>
      fs ← read_array l;
      match fs !! k with
      | Some f =>
          r ← invoke (COnMount f);
          rest ← map_run l (S k) todo';
          mret (match r with Some g => g :: rest | None => rest end)
      | None => map_run l (S k) todo'
      end
  end.

Definition mount_callback (c : comp) (on_mount : loc) (on_destroy : option loc)
  : M unit :=
  fs ← read_array on_mount;
  new_on_destroy ← map_run on_mount 0 (length fs);
  _ ← match on_destroy with
      | Some l => push_array l new_on_destroy
      | None => run_all_fresh CCleanup new_on_destroy
      end;
  l ← alloc_array;
  set_comp c (set_on_mount l).

(** A render callback is run. *)
Definition run_rcb (r : rcb) : M unit :=
  _ ← log (Render r);
  match r with
  | RUser f => call_ (CRender f)
  | RMount _ c on_mount on_destroy => mount_callback c on_mount on_destroy
  end.

(** [flush].  Every loop of it walks a queue that the calls it makes may
    extend, so each loop takes a budget of iterations:
    [[
    function flush() {
        if (flushing)
            return;
        flushing = true;
        do {
            for (let i = 0; i < dirty_components.length; i += 1) {
                const component = dirty_components[i];
                set_current_component(component);
                update(component.$$);
            }
            set_current_component(null);
            dirty_components.length = 0;
            while (binding_callbacks.length)
                binding_callbacks.pop()();
            for (let i = 0; i < render_callbacks.length; i += 1) {
                const callback = render_callbacks[i];
                if (!seen_callbacks.has(callback)) {
                    seen_callbacks.add(callback);
                    callback();
                }
            }
            render_callbacks.length = 0;
        } while (dirty_components.length);
        while (flush_callbacks.length) {
            flush_callbacks.pop()();
        }
        update_scheduled = false;
        flushing = false;
        seen_callbacks.clear();
    }
    ]] *)
Fixpoint update_dirty (fuel i : nat) : M unit :=
  match fuel with
  | O => out_of_fuel
  | S fuel' =>
      w ← get;
      match dirty_components (sched w) !! i with
      | None => mret tt
      | Some component =>
          _ ← set_current_component (Some component);
          _ ← update component;
          update_dirty fuel' (S i)
      end
  end.

Fixpoint run_binding_callbacks (fuel : nat) : M unit :=
  match fuel with
  | O => out_of_fuel
  | S fuel' =>
      w ← get;
      match last (binding_callbacks (sched w)) with
      | None => mret tt
      | Some f =>
          _ ← modify (upd_sched (fun s =>
                set_binding_callbacks (removelast (binding_callbacks s)) s));
          _ ← call_ (CBinding f);
          run_binding_callbacks fuel'
      end
  end.

Fixpoint run_render_callbacks (fuel i : nat) : M unit :=
  match fuel with
  | O => out_of_fuel
  | S fuel' =>
      w ← get;
      match render_callbacks (sched w) !! i with
      | None => mret tt
      | Some callback =>
          if decide (callback ∈ seen_callbacks (sched w)) then
            run_render_callbacks fuel' (S i)
          else
            _ ← modify (upd_sched (fun s =>
                  set_seen_callbacks (seen_callbacks s ++ [callback]) s));
            _ ← run_rcb callback;
            run_render_callbacks fuel' (S i)
      end
  end.

Fixpoint run_flush_callbacks (fuel : nat) : M unit :=
  match fuel with
  | O => out_of_fuel
  | S fuel' =>
      w ← get;
      match last (flush_callbacks (sched w)) with
      | None => mret tt
      | Some f =>
          _ ← modify (upd_sched (fun s =>
                set_flush_callbacks (removelast (flush_callbacks s)) s));
          _ ← call_ (CFlushCb f);
          run_flush_callbacks fuel'
      end
  end.

(** One pass of the body of the [do ... while]. *)
Definition drain_pass (fuel : nat) : M unit :=
  _ ← update_dirty fuel 0;
  _ ← set_current_component None;
  _ ← modify (upd_sched (set_dirty_components []));
  _ ← run_binding_callbacks fuel;
  _ ← run_render_callbacks fuel 0;
  modify (upd_sched (set_render_callbacks [])).

Fixpoint drain (passes fuel : nat) : M unit :=
  match passes with
  | O => out_of_fuel
  | S passes' =>
      _ ← drain_pass fuel;
      w ← get;
      match dirty_components (sched w) with
      | [] => mret tt
      | _ :: _ => drain passes' fuel
      end
  end.

Definition flush (fuel : nat) : M unit :=
  w ← get;
  if flushing (sched w) then mret tt
  else
    _ ← modify (upd_sched (set_flushing true));
    _ ← drain fuel fuel;
    _ ← run_flush_callbacks fuel;
    _ ← modify (upd_sched (set_update_scheduled false));
    _ ← modify (upd_sched (set_flushing false));
    modify (upd_sched (set_seen_callbacks [])).

(** *** Mounting and destroying *)

(** [[
    function mount_component(component, target, anchor, customElement) {
        const { fragment, on_mount, on_destroy, after_update } = component.$$;
        fragment && fragment.m(target, anchor);
        if (!customElement) {
            add_render_callback(() => { ... });
        }
        after_update.forEach(add_render_callback);
    }
    ]] *)
Definition mount_component (c : comp) (target : node) (anchor : option node)
    (customElement : bool) : M unit :=
  cs ← get_comp c;
  _ ← match fragment cs with
      | Frag b => call_ (CFragMount b target anchor)
      | _ => mret tt
      end;
  _ ← (if customElement then mret tt
       else
         w ← get;
         _ ← modify (set_next_closure (S (next_closure w)));
         add_render_callback
           (RMount (next_closure w) c (on_mount cs) (on_destroy cs)));
  fs ← read_array (after_update cs);
  modify (upd_sched (fun s =>
    set_render_callbacks (render_callbacks s ++ (RUser <$> fs)) s)).

(** [[
    function destroy_component(component, detaching) {
        const $$ = component.$$;
        if ($$.fragment !== null) {
            run_all($$.on_destroy);
            $$.fragment && $$.fragment.d(detaching);
            $$.on_destroy = $$.fragment = null;
            $$.ctx = [];
        }
    }
    ]] *)
Definition destroy_component (c : comp) (detaching : bool) : M unit :=
  cs ← get_comp c;
  match fragment cs with
  | FragNull => mret tt
  | _ =>
      _ ← run_all (on_destroy cs) (COnDestroy c);
      cs ← get_comp c;
      _ ← match fragment cs with
          | Frag b => call_ (CFragDestroy b detaching)
          | _ => mret tt
          end;
      _ ← set_comp c (fun cs => set_on_destroy None (set_fragment FragNull cs));
      set_comp c (set_ctx (Some []))
  end.


(** *** Outro groups *)

(** [[
    function group_outros() {
        outros = { r: 0, c: [], p: outros };
    }
    ]] *)
Definition group_outros : M unit :=
  modify (fun w =>
    set_outros (Some (next_gid w))
      (set_next_gid (S (next_gid w))
         (set_groups (<[next_gid w := Group 0 [] (outros w)]> (groups w)) w))).

(** The record [outros] points to; [outros.c] throws when [outros] is
    undefined. *)
Definition current_group : M (gid * group) := fun w =>
  match outros w with
  | Some g =>
      match groups w !! g with
      | Some gr => (w, Done (g, gr))
      | None => (w, Thrown)
      end
  | None => (w, Thrown)
  end.

(** The completion closure of [transition_out]:
    [[
    () => {
        outroing.delete(block);
        if (callback) {
            if (detach)
                block.d(1);
            callback();
        }
    }
    ]] *)
Definition run_outro_cb (k : outro_cb) : M unit :=
  _ ← log (OutroDone k);
  _ ← modify (fun w => set_outroing (outroing w ∖ {[oc_block k]}) w);
  match oc_callback k with
  | Some f =>
      _ ← (if oc_detach k then call_ (CFragDestroy (oc_block k) true)
           else mret tt);
      call_ (COutroCallback f)
  | None => mret tt
  end.

(** [run_all(outros.c)]: [forEach] over the array of group [g]. *)
Fixpoint forEach_outro (g : gid) (k todo : nat) : M unit :=
  match todo with
  | O => mret tt
  | S todo' =>
      w ← get;
      match groups w !! g with
      | None => throw
      | Some gr =>
          match g_c gr !! k with
          | Some cb => _ ← run_outro_cb cb; forEach_outro g (S k) todo'
          | None => forEach_outro g (S k) todo'
          end
      end
  end.

(** [[
    function check_outros() {
        if (!outros.r) {
            run_all(outros.c);
        }
        outros = outros.p;
    }
    ]] *)
Definition check_outros : M unit :=
  cur ← current_group;
  _ ← (if g_r cur.2 =? 0 then forEach_outro cur.1 0 (length (g_c cur.2))
       else mret tt);
  cur' ← current_group;
  modify (set_outros (g_p cur'.2)).

(** [[
    function transition_in(block, local) {
        if (block && block.i) {
            outroing.delete(block);
            block.i(local);
        }
    }
    ]] *)
Definition transition_in (block : option block) (local : bool) : M unit :=
  match block with
  | Some b =>
      if has_intro b then
        _ ← modify (fun w => set_outroing (outroing w ∖ {[b]}) w);
        call_ (CIntro b local)
      else mret tt
  | None => mret tt
  end.

(** [[
    function transition_out(block, local, detach, callback) {
        if (block && block.o) {
            if (outroing.has(block))
                return;
            outroing.add(block);
            outros.c.push(() => { ... });
            block.o(local);
        }
    }
    ]] *)
Definition transition_out (block : option block) (local detach : bool)
    (callback : option ufn) : M unit :=
  match block with
  | Some b =>
      if has_outro b then
        w ← get;
        if decide (b ∈ outroing w) then mret tt
        else
          _ ← modify (fun w => set_outroing (outroing w ∪ {[b]}) w);
          cur ← current_group;
          _ ← modify (fun w =>
                set_groups (<[cur.1 := Group (g_r cur.2)
                                         (g_c cur.2 ++ [OutroCb b detach callback])
                                         (g_p cur.2)]> (groups w)) w);
          call_ (COutro b local)
      else mret tt
  | None => mret tt
  end.

(** *** The slot setter *)

(** The closure [init] hands to [instance] as [$$invalidate]:
    [[
    (i, ret, ...rest) => {
        const value = rest.length ? rest[0] : ret;
        if ($$.ctx && not_equal($$.ctx[i], $$.ctx[i] = value)) {
            if (!$$.skip_bound && $$.bound[i])
                $$.bound[i](value);
            if (ready)
                make_dirty(component, i);
        }
        return ret;
    }
    ]] *)
Definition invalidate (c : comp) (i : nat) (ret : value) (rest : list value)
  : M value :=
  let value := match rest with v :: _ => v | [] => ret end in
  cs ← get_comp c;
  match ctx cs with
  | None => mret ret
  | Some cx =>
      let old := default VUndefined (cx !! i) in
      _ ← set_comp c (set_ctx (Some (array_set VUndefined cx i value)));
      if truthy (not_equal cs old value) then
        cs ← get_comp c;
        _ ← (if negb (skip_bound cs) then
               match bound cs !! i with
               | Some f => call_ (CBound c i f value)
               | None => mret tt
               end
             else mret tt);
        cs ← get_comp c;
        _ ← (if ready cs then make_dirty c i else mret tt);
        mret ret
      else mret ret
  end.

(** [[
    $set($$props) {
        if (this.$$set && !is_empty($$props)) {
            this.$$.skip_bound = true;
            this.$$set($$props);
            this.$$.skip_bound = false;
        }
    }
    ]] *)
Definition dollar_set (c : comp) (has_set props_empty : bool) : M unit :=
  if has_set && negb props_empty then
    _ ← set_comp c (set_skip_bound true);
    _ ← call_ (CSet c);
    set_comp c (set_skip_bound false)
  else mret tt.

(** *** Stepping through computations *)

Lemma bind_eq {A B} (m : M A) (k : A -> M B) w :
  (m ≫= k) w = match m w with
               | (w', Done a) => k a w'
               | (w', Thrown) => (w', Thrown)
               | (w', NoFuel) => (w', NoFuel)
               end.
Proof. reflexivity. Qed.

Lemma bind_done {A B} (m : M A) (k : A -> M B) w w' a :
  m w = (w', Done a) -> (m ≫= k) w = k a w'.
Proof. intros H. rewrite bind_eq, H. reflexivity. Qed.

Lemma ret_eq {A} (a : A) w : (mret a : M A) w = (w, Done a).
Proof. reflexivity. Qed.

Lemma get_comp_some c cs w :
  comps w !! c = Some cs -> get_comp c w = (w, Done cs).
Proof. intros H. unfold get_comp. now rewrite H. Qed.

Lemma read_array_some l fs w :
  arrays w !! l = Some fs -> read_array l w = (w, Done fs).
Proof. intros H. unfold read_array. now rewrite H. Qed.

(** A call that only changes the application's own state and returns. *)
Definition inert (c : call) : Prop :=
  forall w, exists a r, callf c w = (set_app a w, Done r).

Lemma invoke_inert c w :
  inert c ->
  exists a r,
    invoke c w = (set_app a (set_trace (trace w ++ [Call c]) w), Done r).
Proof.
  intros H. unfold invoke, log, modify. rewrite bind_eq.
  destruct (H (set_trace (trace w ++ [Call c]) w)) as (a & r & E).
  exists a, r. exact E.
Qed.

Lemma call_inert c w :
  inert c ->
  exists a,
    call_ c w = (set_app a (set_trace (trace w ++ [Call c]) w), Done tt).
Proof.
  intros H. destruct (invoke_inert c w H) as (a & r & E).
  exists a. unfold call_. rewrite (bind_done _ _ _ _ _ E). reflexivity.
Qed.

(** Reduction of field accesses on updated records, leaving the maps
    and sets alone. *)
Ltac wsimpl :=
  cbn [set_app set_comps set_arrays set_next_loc set_next_closure upd_sched
       set_outroing set_groups set_next_gid set_outros set_trace
       app comps arrays next_loc next_closure sched outroing groups next_gid
       outros trace
       set_current_component' set_dirty_components set_binding_callbacks
       set_render_callbacks set_flush_callbacks set_update_scheduled
       set_pending_flushes set_flushing set_seen_callbacks
       current_component dirty_components binding_callbacks render_callbacks
       flush_callbacks update_scheduled pending_flushes flushing seen_callbacks
       set_fragment set_ctx set_on_mount set_on_destroy set_dirty
       set_skip_bound set_destroy_is_noop
       fragment ctx bound on_mount on_destroy before_update after_update dirty
       skip_bound not_equal ready destroy_is_noop fst snd].

Tactic Notation "wsimpl" "in" hyp(H) :=
  cbn [set_app set_comps set_arrays set_next_loc set_next_closure upd_sched
       set_outroing set_groups set_next_gid set_outros set_trace
       app comps arrays next_loc next_closure sched outroing groups next_gid
       outros trace
       set_current_component' set_dirty_components set_binding_callbacks
       set_render_callbacks set_flush_callbacks set_update_scheduled
       set_pending_flushes set_flushing set_seen_callbacks
       current_component dirty_components binding_callbacks render_callbacks
       flush_callbacks update_scheduled pending_flushes flushing seen_callbacks
       set_fragment set_ctx set_on_mount set_on_destroy set_dirty
       set_skip_bound set_destroy_is_noop
       fragment ctx bound on_mount on_destroy before_update after_update dirty
       skip_bound not_equal ready destroy_is_noop fst snd] in H.

(** Normal form of an updated world whose fields are known. *)
Ltac wnorm :=
  cbv [set_app set_comps set_arrays set_next_loc set_next_closure upd_sched
       set_outroing set_groups set_next_gid set_outros set_trace
       app comps arrays next_loc next_closure sched outroing groups next_gid
       outros trace
       set_current_component' set_dirty_components set_binding_callbacks
       set_render_callbacks set_flush_callbacks set_update_scheduled
       set_pending_flushes set_flushing set_seen_callbacks
       current_component dirty_components binding_callbacks render_callbacks
       flush_callbacks update_scheduled pending_flushes flushing seen_callbacks].

(** One step of a computation whose first action is a primitive
    ([get], [modify], ...), or whose result [E] is known. *)
Ltac mprim := erewrite bind_done by reflexivity; cbv beta.
Ltac muse E := rewrite (bind_done _ _ _ _ _ E); cbv beta.

(** Traces compared up to the bracketing of [++]. *)
Ltac trace_eq :=
  repeat (rewrite <- app_assoc || rewrite <- app_comm_cons); reflexivity.

(** The world after component code changed the application state and the
    runtime extended the trace. *)
Definition touch (a : App) (t : list event) (w : World) : World :=
  set_app a (set_trace t w).

Lemma touch_id w : touch (app w) (trace w) w = w.
Proof. now destruct w. Qed.

Lemma touch_touch a t a' t' w : touch a' t' (touch a t w) = touch a' t' w.
Proof. reflexivity. Qed.

Lemma invoke_touch c w :
  inert c -> exists a r, invoke c w = (touch a (trace w ++ [Call c]) w, Done r).
Proof. apply invoke_inert. Qed.

Lemma call_touch c w :
  inert c -> exists a, call_ c w = (touch a (trace w ++ [Call c]) w, Done tt).
Proof. apply call_inert. Qed.

Lemma forEach_run_inert l mk fs :
  (forall f, inert (mk f)) ->
  forall todo k w,
    arrays w !! l = Some fs ->
    exists a,
      forEach_run l mk k todo w
      = (touch a (trace w ++ (Call ∘ mk <$> take todo (drop k fs))) w, Done tt).
Proof.
  intros Hin. induction todo as [|todo IH]; intros k w Hl.
  - exists (app w). simpl. rewrite app_nil_r, touch_id. reflexivity.
  - simpl. rewrite (bind_done _ _ _ _ _ (read_array_some _ _ _ Hl)).
    destruct (fs !! k) as [f|] eqn:Hk.
    + destruct (invoke_touch (mk f) w (Hin f)) as (a & r & E).
      rewrite (bind_done _ _ _ _ _ E).
      destruct (IH (S k) (touch a (trace w ++ [Call (mk f)]) w) Hl) as (a' & E').
      exists a'. rewrite E'. rewrite touch_touch.
      rewrite (drop_S _ _ _ Hk). simpl.
      now rewrite <- app_assoc.
    + destruct (IH (S k) w Hl) as (a' & E'). exists a'. rewrite E'.
      apply lookup_ge_None in Hk.
      rewrite !drop_ge by lia. now rewrite !take_nil.
Qed.

Lemma run_all_inert l mk fs w :
  (forall f, inert (mk f)) ->
  arrays w !! l = Some fs ->
  exists a,
    run_all (Some l) mk w = (touch a (trace w ++ (Call ∘ mk <$> fs)) w, Done tt).
Proof.
  intros Hin Hl. unfold run_all.
  rewrite (bind_done _ _ _ _ _ (read_array_some _ _ _ Hl)).
  destruct (forEach_run_inert l mk fs Hin (length fs) 0 w Hl) as (a & E).
  exists a. rewrite E. now rewrite drop_0, firstn_all.
Qed.

Lemma run_all_fresh_inert mk fs :
  (forall f, inert (mk f)) ->
  forall w, exists a,
    run_all_fresh mk fs w = (touch a (trace w ++ (Call ∘ mk <$> fs)) w, Done tt).
Proof.
  intros Hin. induction fs as [|f fs IH]; intros w.
  - exists (app w). simpl. now rewrite app_nil_r, touch_id.
  - simpl. destruct (invoke_touch (mk f) w (Hin f)) as (a & r & E).
    rewrite (bind_done _ _ _ _ _ E).
    destruct (IH (touch a (trace w ++ [Call (mk f)]) w)) as (a' & E').
    exists a'. rewrite E', touch_touch. simpl. now rewrite <- app_assoc.
Qed.

(** *** Destroying twice *)

(** The [on_destroy] callbacks of component [c] that a trace shows as
    called, in call order. *)
Definition on_destroy_calls (c : comp) (t : list event) : list ufn :=
  omap (fun e => match e with
                 | Call (COnDestroy c' f) => if decide (c' = c) then Some f else None
                 | _ => None
                 end) t.

Lemma on_destroy_calls_app c t1 t2 :
  on_destroy_calls c (t1 ++ t2) = on_destroy_calls c t1 ++ on_destroy_calls c t2.
Proof. apply omap_app. Qed.

Lemma on_destroy_calls_run c fs :
  on_destroy_calls c (Call ∘ COnDestroy c <$> fs) = fs.
Proof.
  induction fs as [|f fs IH]; [reflexivity|].
  change (on_destroy_calls c (Call ∘ COnDestroy c <$> f :: fs))
    with (match (if decide (c = c) then Some f else None) with
          | Some y => y :: on_destroy_calls c (Call ∘ COnDestroy c <$> fs)
          | None => on_destroy_calls c (Call ∘ COnDestroy c <$> fs)
          end).
  rewrite decide_True by reflexivity. now rewrite IH.
Qed.


Lemma destroy_component_live c d w cs l fs :
  (forall c' f, inert (COnDestroy c' f)) ->
  (forall b d', inert (CFragDestroy b d')) ->
  comps w !! c = Some cs -> fragment cs <> FragNull ->
  on_destroy cs = Some l -> arrays w !! l = Some fs ->
  exists a t,
    destroy_component c d w
    = (set_comps (<[c := set_ctx (Some []) (set_on_destroy None (set_fragment FragNull cs))]>
                   (comps w))
         (touch a (trace w ++ (Call ∘ COnDestroy c <$> fs) ++ t) w), Done tt)
    /\ on_destroy_calls c t = [].
Proof.
  intros Hod Hfd Hc Hf Hl Ha. unfold destroy_component.
  rewrite (bind_done _ _ _ _ _ (get_comp_some _ _ _ Hc)).
  destruct (run_all_inert l (COnDestroy c) fs w (Hod c) Ha) as (a & E).
  assert (Hfin : forall a' t' , 
    (set_comp c (fun cs0 => set_on_destroy None (set_fragment FragNull cs0)) ≫=
       (fun _ => set_comp c (set_ctx (Some [])))) (touch a' t' w)
    = (set_comps (<[c := set_ctx (Some []) (set_on_destroy None (set_fragment FragNull cs))]>
                   (comps w)) (touch a' t' w), Done tt)).
  { intros a' t'. unfold set_comp, modify. rewrite bind_eq. simpl.
    f_equal. unfold set_comps, touch. simpl. f_equal.
    rewrite (alter_alt_Some _ _ _ _ Hc).
    rewrite (alter_alt_Some _ _ _ _ (lookup_insert_eq _ _ _)).
    now rewrite insert_insert_eq. }
  destruct (fragment cs) as [| |b] eqn:Ef; [congruence| |].
  - rewrite Hl, (bind_done _ _ _ _ _ E).
    rewrite (bind_done _ _ _ _ _ (get_comp_some c cs (touch a _ w) Hc)). rewrite Ef.
    rewrite bind_eq, ret_eq. exists a, []. split; [|reflexivity].
    rewrite app_nil_r. apply Hfin.
  - rewrite Hl, (bind_done _ _ _ _ _ E).
    rewrite (bind_done _ _ _ _ _ (get_comp_some c cs (touch a _ w) Hc)). rewrite Ef.
    destruct (call_touch (CFragDestroy b d)
                (touch a (trace w ++ (Call ∘ COnDestroy c <$> fs)) w) (Hfd b d))
      as (a' & E').
    rewrite (bind_done _ _ _ _ _ E'). rewrite touch_touch.
    exists a', [Call (CFragDestroy b d)]. split; [|reflexivity].
    simpl. rewrite <- app_assoc. apply Hfin.
Qed.


(** *** The slot setter on a change *)

(** The tail of the closure, after the binding callback:
    [if (ready) make_dirty(component, i); ... return ret;]. *)
Definition mark_if_ready (c : comp) (i : nat) (ret : value) : M value :=
  cs ← get_comp c;
  _ ← (if ready cs then make_dirty c i else mret tt);
  mret ret.

(** The world once [$$.ctx[i] = value] is done. *)
Definition slot_written (c : comp) (cs : comp_state) (cx : list value)
    (i : nat) (value : value) (w : World) : World :=
  set_comps (<[c := set_ctx (Some (array_set VUndefined cx i value)) cs]> (comps w)) w.

Lemma slot_written_comp c cs cx i v w :
  comps (slot_written c cs cx i v w) !! c
  = Some (set_ctx (Some (array_set VUndefined cx i v)) cs).
Proof. unfold slot_written. simpl. apply lookup_insert_eq. Qed.

Lemma invalidate_unfold c i ret rest w cs cx :
  comps w !! c = Some cs ->
  ctx cs = Some cx ->
  let value := match rest with v :: _ => v | [] => ret end in
  truthy (not_equal cs (default VUndefined (cx !! i)) value) = true ->
  invalidate c i ret rest w
  = ((if negb (skip_bound cs) then
        match bound cs !! i with
        | Some f => call_ (CBound c i f value)
        | None => mret tt
        end
      else mret tt) ≫= fun _ => mark_if_ready c i ret)
      (slot_written c cs cx i value w).
Proof.
  intros Hc Hx value Hne. unfold invalidate. fold value.
  rewrite (bind_done _ _ _ _ _ (get_comp_some _ _ _ Hc)), Hx.
  assert (Hw : set_comp c (set_ctx (Some (array_set VUndefined cx i value))) w
               = (slot_written c cs cx i value w, Done tt)).
  { unfold set_comp, modify, slot_written.
    now rewrite (alter_alt_Some _ _ _ _ Hc). }
  rewrite (bind_done _ _ _ _ _ Hw), Hne.
  rewrite (bind_done _ _ _ _ _ (get_comp_some _ _ _ (slot_written_comp _ _ _ _ _ _))).
  reflexivity.
Qed.

(** C7, amended. When the slot setter detects a change it (a) calls
    the binding callback registered for the slot, with the new value and
    before anything is marked, provided [skip_bound] is not set (the
    call is the one event the trace gains); with
    [skip_bound] set (inside [$set]) or with no callback registered it
    calls nothing; and (b) it then calls [make_dirty] for the slot exactly
    when [ready] is set: before readiness it returns the world as the
    callback left it. *)
Theorem invalidate_on_change c i ret rest w cs cx :
  comps w !! c = Some cs ->
  ctx cs = Some cx ->
  let value := match rest with v :: _ => v | [] => ret end in
  let w0 := slot_written c cs cx i value w in
  truthy (not_equal cs (default VUndefined (cx !! i)) value) = true ->
  (forall f, skip_bound cs = false -> bound cs !! i = Some f ->
     invalidate c i ret rest w
     = (call_ (CBound c i f value) ≫= fun _ => mark_if_ready c i ret) w0) /\
  (forall f, skip_bound cs = false -> bound cs !! i = Some f ->
     inert (CBound c i f value) ->
     exists a,
       invalidate c i ret rest w
       = mark_if_ready c i ret
           (touch a (trace w ++ [Call (CBound c i f value)]) w0)) /\
  (skip_bound cs = true \/ bound cs !! i = None ->
     invalidate c i ret rest w = mark_if_ready c i ret w0) /\
  (forall w' cs', comps w' !! c = Some cs' -> ready cs' = true ->
     mark_if_ready c i ret w' = (make_dirty c i ≫= fun _ => mret ret) w') /\
  (forall w' cs', comps w' !! c = Some cs' -> ready cs' = false ->
     mark_if_ready c i ret w' = (w', Done ret)).
Proof.
  intros Hc Hx value w0 Hne.
  pose proof (invalidate_unfold c i ret rest w cs cx Hc Hx Hne) as E.
  fold value in E. fold w0 in E.
  repeat split.
  - intros f Hs Hb. rewrite E, Hs, Hb. reflexivity.
  - intros f Hs Hb Hin. rewrite E, Hs, Hb. simpl negb. cbv iota.
    destruct (call_touch _ w0 Hin) as (a & Ea). exists a.
    now rewrite (bind_done _ _ _ _ _ Ea).
  - intros [Hs|Hb]; rewrite E.
    + rewrite Hs. reflexivity.
    + rewrite Hb. destruct (negb (skip_bound cs)); reflexivity.
  - intros w' cs' Hc' Hr. unfold mark_if_ready.
    rewrite (bind_done _ _ _ _ _ (get_comp_some _ _ _ Hc')), Hr. reflexivity.
  - intros w' cs' Hc' Hr. unfold mark_if_ready.
    rewrite (bind_done _ _ _ _ _ (get_comp_some _ _ _ Hc')), Hr. reflexivity.
Qed.

(** *** Outro groups: bookkeeping and resolution *)

(** The arguments of one [transition_out] call on a fragment object. *)
Record outro_args := OutroArgs {
  oa_block : block;
  oa_local : bool;
  oa_detach : bool;
  oa_callback : option ufn
}.

Definition closure_of (x : outro_args) : outro_cb :=
  OutroCb (oa_block x) (oa_detach x) (oa_callback x).

(** A run of consecutive [transition_out] calls. *)
Fixpoint transition_out_all (xs : list outro_args) : M unit :=
  match xs with
  | [] => mret tt
  | x :: xs' =>
      _ ← transition_out (Some (oa_block x)) (oa_local x) (oa_detach x)
            (oa_callback x);
      transition_out_all xs'
  end.

(** The completion closures a trace shows as run, in order. *)
Definition outro_done (t : list event) : list outro_cb :=
  omap (fun e => match e with OutroDone k => Some k | _ => None end) t.

Lemma outro_done_app t1 t2 : outro_done (t1 ++ t2) = outro_done t1 ++ outro_done t2.
Proof. apply omap_app. Qed.

Lemma outro_done_calls (cs : list call) : outro_done (Call <$> cs) = [].
Proof. induction cs; [reflexivity|exact IHcs]. Qed.

(** The world in which [transition_out] calls the outro hook: the
    fragment is marked, the closure is registered, and the [r] field of
    the group is what it was. *)
Definition outro_started (x : outro_args) (g : gid) (gr : group) (w : World)
  : World :=
  set_groups (<[g := Group (g_r gr) (g_c gr ++ [closure_of x]) (g_p gr)]> (groups w))
    (set_outroing (outroing w ∪ {[oa_block x]}) w).

Lemma transition_out_none local detach callback w :
  transition_out None local detach callback w = (w, Done tt).
Proof. reflexivity. Qed.

Lemma transition_out_no_outro b local detach callback w :
  has_outro b = false ->
  transition_out (Some b) local detach callback w = (w, Done tt).
Proof. intros H. unfold transition_out. now rewrite H. Qed.

Lemma transition_out_outroing b local detach callback w :
  b ∈ outroing w ->
  transition_out (Some b) local detach callback w = (w, Done tt).
Proof.
  intros H. unfold transition_out. destruct (has_outro b); [|reflexivity].
  rewrite bind_eq. unfold get. now rewrite decide_True.
Qed.

Lemma transition_out_start x g gr w :
  has_outro (oa_block x) = true ->
  oa_block x ∉ outroing w ->
  outros w = Some g -> groups w !! g = Some gr ->
  transition_out (Some (oa_block x)) (oa_local x) (oa_detach x) (oa_callback x) w
  = call_ (COutro (oa_block x) (oa_local x)) (outro_started x g gr w).
Proof.
  intros Ho Hn Hg Hgr. unfold transition_out. rewrite Ho.
  rewrite bind_eq. unfold get. rewrite decide_False by exact Hn.
  rewrite bind_eq. unfold modify at 1.
  assert (E : current_group (set_outroing (outroing w ∪ {[oa_block x]}) w)
              = (set_outroing (outroing w ∪ {[oa_block x]}) w, Done (g, gr))).
  { unfold current_group. simpl. now rewrite Hg, Hgr. }
  rewrite (bind_done _ _ _ _ _ E). reflexivity.
Qed.


(** *** Outro groups with nested fragments *)

(** The call of the outro hook that [transition_out] makes. *)
Definition hook_call (x : outro_args) : call :=
  COutro (oa_block x) (oa_local x).

(** What a completion closure leaves in the trace: its own mark, then,
    if it was given a callback, [block.d(1)] when [detach] is set, and
    the callback; [td] and [tc] are what those two calls do themselves. *)
Definition closure_ran (k : outro_cb) (t : list event) : Prop :=
  match oc_callback k with
  | None => t = [OutroDone k]
  | Some f =>
      exists td tc,
        t = OutroDone k
            :: (if oc_detach k
                then Call (CFragDestroy (oc_block k) true) :: td else [])
            ++ Call (COutroCallback f) :: tc
        /\ (oc_detach k = false -> td = [])
        /\ outro_done td = [] /\ outro_done tc = []
  end.

Lemma closure_ran_done k t : closure_ran k t -> outro_done t = [k].
Proof.
  unfold closure_ran. destruct (oc_callback k) as [f|]; [|now intros ->].
  intros (td & tc & -> & _ & Hd & Hc).
  change (outro_done (OutroDone k :: ?l)) with (k :: outro_done l).
  f_equal. rewrite outro_done_app.
  change (outro_done (Call (COutroCallback f) :: tc)) with (outro_done tc).
  rewrite Hc, app_nil_r. destruct (oc_detach k); [exact Hd|reflexivity].
Qed.

Lemma closures_ran_done ks ts :
  Forall2 closure_ran ks ts -> outro_done (concat ts) = ks.
Proof.
  induction 1 as [|k t ks ts Hk _ IH]; [reflexivity|].
  cbn [concat]. rewrite outro_done_app, (closure_ran_done k t Hk), IH.
  reflexivity.
Qed.

Section Nested.

(** The fragments whose outro the outro hook of a fragment starts, with
    the arguments of the [transition_out] call made for each. *)
Variable kids : block -> bool -> list outro_args.

(** Every [transition_out] call that a run of calls on [xs] leads to,
    in call order, down to [n] levels of nesting. *)
Fixpoint started (n : nat) (xs : list outro_args) : list outro_args :=
  match n with
  | O => []
  | S n' =>
      flat_map (fun x => x :: started n' (kids (oa_block x) (oa_local x))) xs
  end.

(** The nesting under [xs] is at most [n] levels deep. *)
Fixpoint within (n : nat) (xs : list outro_args) : Prop :=
  match n with
  | O => xs = []
  | S n' => Forall (fun x => within n' (kids (oa_block x) (oa_local x))) xs
  end.

(** An outro hook starts the outros of the nested fragments and then
    changes the state of its own component. *)
Hypothesis Ho : forall b l w,
  exists a,
    callf (COutro b l) w
    = (_ ← transition_out_all (kids b l); _ ← modify (set_app a); mret None) w.

Lemma transition_out_nested n :
  forall xs w g gr,
    within n xs ->
    Forall (fun x => has_outro (oa_block x) = true) (started n xs) ->
    NoDup (oa_block <$> started n xs) ->
    (forall x, x ∈ started n xs -> oa_block x ∉ outroing w) ->
    outros w = Some g -> groups w !! g = Some gr ->
    exists a,
      transition_out_all xs w
      = (touch a (trace w ++ (Call <$> (hook_call <$> started n xs)))
           (set_groups
              (<[g := Group (g_r gr) (g_c gr ++ (closure_of <$> started n xs))
                        (g_p gr)]> (groups w))
              (set_outroing
                 (outroing w ∪ list_to_set (oa_block <$> started n xs)) w)),
         Done tt).
Proof.
  assert (Hnil : forall w g gr, groups w !! g = Some gr ->
            exists a,
              (w, Done tt)
              = (touch a (trace w ++ (Call <$> (hook_call <$> [])))
                   (set_groups
                      (<[g := Group (g_r gr) (g_c gr ++ (closure_of <$> []))
                                (g_p gr)]> (groups w))
                      (set_outroing (outroing w ∪ list_to_set (oa_block <$> [])) w)),
                 Done tt)).
  { intros w g gr Hgr. exists (app w).
    rewrite !fmap_nil, list_to_set_nil, !app_nil_r.
    replace (Group (g_r gr) (g_c gr) (g_p gr)) with gr by now destruct gr.
    rewrite insert_id by exact Hgr. rewrite (right_id_L ∅ (∪)).
    now destruct w. }
  induction n as [|n IHn].
  - intros xs w g gr Hw _ _ _ _ Hgr. cbn [within] in Hw. subst xs.
    cbn [started transition_out_all]. now apply Hnil.
  - induction xs as [|x xs IHxs]; intros w g gr Hw Hall Hnd Hfresh Hg Hgr.
    + cbn [started flat_map transition_out_all]. now apply Hnil.
    + cbn [within] in Hw. apply Forall_cons in Hw as [Hwk Hwx].
      change (started (S n) (x :: xs))
        with (x :: started n (kids (oa_block x) (oa_local x)) ++ started (S n) xs)
        in Hall, Hnd, Hfresh |- *.
      set (S1 := started n (kids (oa_block x) (oa_local x))) in *.
      set (S2 := started (S n) xs) in *.
      apply Forall_cons in Hall as [Hx Hall].
      apply Forall_app in Hall as [Hall1 Hall2].
      rewrite fmap_cons, fmap_app in Hnd.
      apply NoDup_cons in Hnd as [Hnx Hnd].
      apply NoDup_app in Hnd as (Hnd1 & Hdisj & Hnd2).
      assert (Hx' : oa_block x ∉ outroing w) by (apply Hfresh; left).
      change (transition_out_all (x :: xs))
        with (transition_out (Some (oa_block x)) (oa_local x) (oa_detach x)
                (oa_callback x) ≫= fun _ => transition_out_all xs).
      rewrite bind_eq, (transition_out_start x g gr w Hx Hx' Hg Hgr).
      set (w1 := outro_started x g gr w).
      set (w2 := set_trace (trace w1 ++ [Call (hook_call x)]) w1).
      set (gr1 := Group (g_r gr) (g_c gr ++ [closure_of x]) (g_p gr)).
      destruct (Ho (oa_block x) (oa_local x) w2) as (a & Ea).
      destruct (IHn (kids (oa_block x) (oa_local x)) w2 g gr1 Hwk Hall1 Hnd1)
        as (a1 & E1).
      { intros y Hy. subst w2 w1. unfold outro_started. wsimpl. intros Hin.
        apply elem_of_union in Hin as [Hin|Hin].
        - revert Hin. apply Hfresh. right. apply elem_of_app. now left.
        - apply elem_of_singleton in Hin. apply Hnx. rewrite <- Hin.
          apply elem_of_app. left. apply list_elem_of_fmap. now exists y. }
      { exact Hg. }
      { subst w2 w1. unfold outro_started. wsimpl. apply lookup_insert_eq. }
      fold S1 in E1. cbn [g_r g_c g_p gr1] in E1.
      match type of E1 with _ = (?y, _) => set (w3 := y) in E1 end.
      assert (Ecall : call_ (hook_call x) w1 = (set_app a w3, Done tt)).
      { unfold call_, invoke, log, modify. rewrite !bind_eq. fold w2.
        unfold hook_call at 1. rewrite Ea. rewrite bind_eq, E1. reflexivity. }
      unfold hook_call in Ecall at 1. rewrite Ecall.
      set (w4 := set_app a w3).
      set (gr2 := Group (g_r gr) ((g_c gr ++ [closure_of x]) ++ (closure_of <$> S1))
                    (g_p gr)).
      destruct (IHxs w4 g gr2 Hwx Hall2 Hnd2) as (a2 & E2).
      { intros y Hy. subst w4 w3 w2 w1. unfold touch, outro_started. wsimpl.
        intros Hin. apply elem_of_union in Hin as [Hin|Hin];
          [apply elem_of_union in Hin as [Hin|Hin]|].
        - revert Hin. apply Hfresh. right. apply elem_of_app. now right.
        - apply elem_of_singleton in Hin. apply Hnx. rewrite <- Hin.
          apply elem_of_app. right. apply list_elem_of_fmap. now exists y.
        - apply elem_of_list_to_set in Hin.
          apply (Hdisj (oa_block y) Hin). apply list_elem_of_fmap. now exists y. }
      { exact Hg. }
      { subst w4 w3 w2 w1. unfold touch, outro_started. wsimpl.
        apply lookup_insert_eq. }
      fold S2 in E2. exists a2. rewrite E2. f_equal.
      subst w4 w3 w2 w1 gr2. clear.
      rewrite !fmap_cons, !fmap_app, list_to_set_cons, list_to_set_app_L.
      destruct w. unfold touch, outro_started. wnorm. cbn [g_r g_c g_p].
      f_equal.
      * rewrite <- !(assoc_L (∪)). reflexivity.
      * rewrite !insert_insert_eq. f_equal. f_equal.
        rewrite <- !app_assoc. reflexivity.
      * rewrite <- !app_assoc. reflexivity.
Qed.

(** What the calls made by a completion closure may do: anything that
    returns and keeps to the state an invariant [I] describes, as long as
    it leaves the outro bookkeeping alone. *)
Variable I : World -> Prop.
Hypothesis I_ext : forall w w',
  comps w' = comps w -> arrays w' = arrays w -> I w -> I w'.

Definition framed (c : call) : Prop :=
  forall w, I w ->
    exists w' r t,
      callf c w = (w', Done r) /\ I w' /\
      groups w' = groups w /\ outros w' = outros w /\
      outroing w' = outroing w /\
      trace w' = trace w ++ t /\ outro_done t = [].

Hypothesis Hd : forall b, framed (CFragDestroy b true).
Hypothesis Hc : forall f, framed (COutroCallback f).

Lemma call_framed c w :
  framed c -> I w ->
  exists w' t,
    call_ c w = (w', Done tt) /\ I w' /\
    groups w' = groups w /\ outros w' = outros w /\
    outroing w' = outroing w /\
    trace w' = trace w ++ Call c :: t /\ outro_done t = [].
Proof.
  intros Hf Hw. unfold call_, invoke, log, modify. rewrite !bind_eq.
  set (w1 := set_trace _ w).
  destruct (Hf w1) as (w' & r & t & E & HI & H1 & H2 & H3 & H4 & H5).
  { now apply (I_ext w). }
  rewrite E. exists w', t. split; [reflexivity|]. split; [exact HI|].
  split; [exact H1|]. split; [exact H2|]. split; [exact H3|].
  split; [|exact H5]. rewrite H4. subst w1. wsimpl. now rewrite <- app_assoc.
Qed.

Lemma run_outro_cb_framed k w :
  I w ->
  exists w' t,
    run_outro_cb k w = (w', Done tt) /\ I w' /\
    groups w' = groups w /\ outros w' = outros w /\
    outroing w' = outroing w ∖ {[oc_block k]} /\
    trace w' = trace w ++ t /\ closure_ran k t.
Proof.
  intros Hw. unfold run_outro_cb, log.
  rewrite bind_eq. unfold modify at 1. rewrite bind_eq. unfold modify at 1.
  set (w1 := set_outroing _ _).
  assert (Hw1 : I w1) by now apply (I_ext w).
  unfold closure_ran. destruct (oc_callback k) as [f|].
  - destruct (oc_detach k).
    + destruct (call_framed (CFragDestroy (oc_block k) true) w1 (Hd _) Hw1)
        as (w2 & td & E2 & HI2 & G2 & O2 & R2 & T2 & D2).
      rewrite (bind_done _ _ _ _ _ E2).
      destruct (call_framed (COutroCallback f) w2 (Hc _) HI2)
        as (w3 & tc & E3 & HI3 & G3 & O3 & R3 & T3 & D3).
      rewrite E3. exists w3, (OutroDone k :: (Call (CFragDestroy (oc_block k) true) :: td)
                                ++ Call (COutroCallback f) :: tc).
      split; [reflexivity|]. split; [exact HI3|].
      split; [now rewrite G3, G2|]. split; [now rewrite O3, O2|].
      split; [now rewrite R3, R2|]. split.
      * rewrite T3, T2. subst w1. wsimpl. trace_eq.
      * exists td, tc. repeat split; auto. discriminate.
    + rewrite bind_eq, ret_eq.
      destruct (call_framed (COutroCallback f) w1 (Hc _) Hw1)
        as (w3 & tc & E3 & HI3 & G3 & O3 & R3 & T3 & D3).
      rewrite E3. exists w3, (OutroDone k :: [] ++ Call (COutroCallback f) :: tc).
      split; [reflexivity|]. split; [exact HI3|].
      split; [exact G3|]. split; [exact O3|]. split; [exact R3|]. split.
      * rewrite T3. subst w1. wsimpl. trace_eq.
      * exists [], tc. now repeat split.
  - rewrite ret_eq. exists w1, [OutroDone k]. now repeat split.
Qed.

Lemma forEach_outro_framed g gr :
  forall todo k w,
    I w -> groups w !! g = Some gr ->
    exists w' ts,
      forEach_outro g k todo w = (w', Done tt) /\ I w' /\
      groups w' = groups w /\ outros w' = outros w /\
      outroing w'
      = outroing w ∖ list_to_set (oc_block <$> take todo (drop k (g_c gr))) /\
      trace w' = trace w ++ concat ts /\
      Forall2 closure_ran (take todo (drop k (g_c gr))) ts.
Proof.
  induction todo as [|todo IH]; intros k w Hw Hg.
  - exists w, []. cbn [forEach_outro concat]. rewrite ret_eq, take_0, app_nil_r.
    rewrite fmap_nil, list_to_set_nil, difference_empty_L.
    repeat split; auto.
  - cbn [forEach_outro]. rewrite bind_eq. unfold get. rewrite Hg.
    destruct (g_c gr !! k) as [cb|] eqn:Hk.
    + destruct (run_outro_cb_framed cb w Hw)
        as (w1 & t & E1 & HI1 & G1 & O1 & R1 & T1 & C1).
      rewrite (bind_done _ _ _ _ _ E1).
      destruct (IH (S k) w1 HI1) as (w2 & ts & E2 & HI2 & G2 & O2 & R2 & T2 & C2).
      { now rewrite G1. }
      rewrite E2. exists w2, (t :: ts).
      rewrite (drop_S _ _ _ Hk), firstn_cons, fmap_cons, list_to_set_cons.
      split; [reflexivity|]. split; [exact HI2|].
      split; [now rewrite G2, G1|]. split; [now rewrite O2, O1|].
      split; [|split].
      * rewrite R2, R1. now rewrite difference_difference_l_L.
      * rewrite T2, T1. cbn [concat]. now rewrite <- app_assoc.
      * now constructor.
    + destruct (IH (S k) w Hw Hg) as (w2 & ts & E2 & HI2 & G2 & O2 & R2 & T2 & C2).
      exists w2, ts. apply lookup_ge_None in Hk.
      rewrite !drop_ge in * by lia. rewrite !take_nil in *.
      now repeat split.
Qed.

Lemma check_outros_framed g gr w :
  I w -> outros w = Some g -> groups w !! g = Some gr -> g_r gr = 0 ->
  exists w' ts,
    check_outros w = (w', Done tt) /\ I w' /\
    groups w' = groups w /\ outros w' = g_p gr /\
    outroing w' = outroing w ∖ list_to_set (oc_block <$> g_c gr) /\
    trace w' = trace w ++ concat ts /\
    Forall2 closure_ran (g_c gr) ts.
Proof.
  intros Hw Hg Hgr Hr. unfold check_outros.
  assert (E : current_group w = (w, Done (g, gr))).
  { unfold current_group. now rewrite Hg, Hgr. }
  rewrite (bind_done _ _ _ _ _ E). cbn [fst snd]. rewrite Hr. cbn [Z.eqb].
  destruct (forEach_outro_framed g gr (length (g_c gr)) 0 w Hw Hgr)
    as (w1 & ts & E1 & HI1 & G1 & O1 & R1 & T1 & C1).
  rewrite drop_0, firstn_all in R1, C1.
  rewrite (bind_done _ _ _ _ _ E1).
  assert (E2 : current_group w1 = (w1, Done (g, gr))).
  { unfold current_group. now rewrite O1, Hg, G1, Hgr. }
  rewrite (bind_done _ _ _ _ _ E2). cbn [fst snd]. unfold modify.
  eexists _, ts. split; [reflexivity|]. wsimpl.
  split; [now apply (I_ext w1)|]. now repeat split.
Qed.

End Nested.

(** C5, amended. [transition_out] does nothing on a missing fragment,
    on a fragment without outro method and on a fragment that is already
    outroing; otherwise it marks the fragment as outroing, appends the
    completion closure to the callbacks of the current group, leaves the
    group's count [r] as it is, and calls the outro hook.  After
    [group_outros], a run of [transition_out] calls on distinct fresh
    fragments, whose outro hooks may start the outros of nested
    fragments, and [check_outros] (the count being zero): every
    completion closure registered, nested ones included, has run exactly
    once, in registration order; each one unmarks its fragment and, if
    it was given a callback, calls [block.d(1)] when [detach] is set and
    then the callback; the fragments are unmarked and [outros] is the
    parent group again. *)
Theorem outro_group_protocol :
  (forall local detach callback w,
      transition_out None local detach callback w = (w, Done tt)) /\
  (forall b local detach callback w,
      has_outro b = false ->
      transition_out (Some b) local detach callback w = (w, Done tt)) /\
  (forall b local detach callback w,
      b ∈ outroing w ->
      transition_out (Some b) local detach callback w = (w, Done tt)) /\
  (forall x g gr w,
      has_outro (oa_block x) = true ->
      oa_block x ∉ outroing w ->
      outros w = Some g -> groups w !! g = Some gr ->
      transition_out (Some (oa_block x)) (oa_local x) (oa_detach x)
        (oa_callback x) w
      = call_ (COutro (oa_block x) (oa_local x)) (outro_started x g gr w)
      /\ oa_block x ∈ outroing (outro_started x g gr w)
      /\ groups (outro_started x g gr w) !! g
         = Some (Group (g_r gr) (g_c gr ++ [closure_of x]) (g_p gr))) /\
  (forall (kids : block -> bool -> list outro_args) (I : World -> Prop),
   (forall w w', comps w' = comps w -> arrays w' = arrays w -> I w -> I w') ->
   (forall b l w,
      exists a,
        callf (COutro b l) w
        = (_ ← transition_out_all (kids b l); _ ← modify (set_app a);
           mret None) w) ->
   (forall b, framed I (CFragDestroy b true)) ->
   (forall f, framed I (COutroCallback f)) ->
   forall n xs w,
     I w ->
     within kids n xs ->
     Forall (fun x => has_outro (oa_block x) = true) (started kids n xs) ->
     NoDup (oa_block <$> started kids n xs) ->
     (forall x, x ∈ started kids n xs -> oa_block x ∉ outroing w) ->
     exists w' ts,
       (group_outros ≫= fun _ => transition_out_all xs ≫= fun _ => check_outros) w
       = (w', Done tt)
       /\ trace w'
          = trace w ++ (Call <$> (hook_call <$> started kids n xs)) ++ concat ts
       /\ Forall2 closure_ran (closure_of <$> started kids n xs) ts
       /\ outro_done (trace w')
          = outro_done (trace w) ++ (closure_of <$> started kids n xs)
       /\ outroing w' = outroing w
       /\ outros w' = outros w).
Proof.
  split; [exact transition_out_none|].
  split; [exact transition_out_no_outro|].
  split; [exact transition_out_outroing|].
  split.
  { intros x g gr w Ho Hn Hg Hgr. split; [now apply transition_out_start|].
    unfold outro_started. wsimpl. split; [|apply lookup_insert_eq].
    apply elem_of_union_r. now apply elem_of_singleton. }
  intros kids I I_ext Ho Hd Hc n xs w Hw Hin Hall Hnd Hfresh.
  rewrite bind_eq. unfold group_outros, modify.
  set (g := next_gid w). set (w0 := set_outros _ _).
  assert (Hg0 : outros w0 = Some g) by reflexivity.
  assert (Hgr0 : groups w0 !! g = Some (Group 0 [] (outros w))).
  { subst w0. wsimpl. apply lookup_insert_eq. }
  destruct (transition_out_nested kids Ho n xs w0 g _ Hin Hall Hnd Hfresh Hg0 Hgr0)
    as (a & E).
  rewrite (bind_done _ _ _ _ _ E). cbn [g_r g_c g_p app].
  set (ks := closure_of <$> started kids n xs) in *.
  set (w1 := touch a _ _).
  destruct (check_outros_framed I I_ext Hd Hc g (Group 0 ks (outros w)) w1)
    as (w' & ts & E' & _ & _ & O' & R' & T' & C'); [|reflexivity| |reflexivity|].
  { apply (I_ext w); [reflexivity|reflexivity|exact Hw]. }
  { subst w1. unfold touch. wsimpl. apply lookup_insert_eq. }
  rewrite E'. exists w', ts. cbn [g_r g_c g_p] in O', R', C'.
  split; [reflexivity|].
  assert (Ht : trace w'
               = trace w ++ (Call <$> (hook_call <$> started kids n xs)) ++ concat ts).
  { rewrite T'. subst w1 w0. unfold touch. wsimpl. now rewrite <- app_assoc. }
  split; [exact Ht|]. split; [exact C'|]. split; [|split; [|exact O']].
  - rewrite Ht, !outro_done_app, outro_done_calls, (closures_ran_done _ _ C').
    reflexivity.
  - rewrite R'. subst w1 w0 ks. unfold touch. wsimpl.
    rewrite <- list_fmap_compose.
    assert (Hd' : outroing w
                  ## list_to_set (C:=gset nat) (oa_block <$> started kids n xs)).
    { intros b Hb Hb'. apply elem_of_list_to_set in Hb'.
      apply list_elem_of_fmap in Hb' as (x & -> & Hx).
      exact (Hfresh x Hx Hb). }
    change (oc_block ∘ closure_of) with oa_block.
    rewrite difference_union_distr_l_L, difference_diag_L, (right_id_L ∅ (∪)).
    now apply difference_disjoint_L.
Qed.

(** *** Dirty masks *)

Lemma lor_bound a b n :
  0 <= n -> 0 <= a < 2 ^ n -> 0 <= b < 2 ^ n -> 0 <= Z.lor a b < 2 ^ n.
Proof.
  intros Hn Ha Hb. split.
  - apply Z.lor_nonneg. lia.
  - destruct (Z.eq_dec a 0) as [->|Ha0]; [rewrite Z.lor_0_l; lia|].
    destruct (Z.eq_dec b 0) as [->|Hb0]; [rewrite Z.lor_0_r; lia|].
    apply Z.log2_lt_pow2.
    + assert (0 <= Z.lor a b) by (apply Z.lor_nonneg; lia).
      assert (Z.lor a b <> 0) by (intros E; apply Z.lor_eq_0_iff in E; lia).
      lia.
    + rewrite Z.log2_lor by lia.
      assert (Z.log2 a < n) by (apply Z.log2_lt_pow2; lia).
      assert (Z.log2 b < n) by (apply Z.log2_lt_pow2; lia).
      lia.
Qed.

Lemma js_shl_bit b : 0 <= b <= 30 -> js_shl 1 b = 2 ^ b.
Proof.
  intros Hb. unfold js_shl. rewrite (to_int32_small 1) by lia.
  change 31 with (Z.ones 5). rewrite Z.land_ones by lia.
  rewrite Z.mod_small by lia. rewrite Z.shiftl_1_l.
  apply to_int32_small. split.
  - assert (0 < 2 ^ b) by (apply Z.pow_pos_nonneg; lia). lia.
  - apply Z.pow_lt_mono_r; lia.
Qed.

Lemma js_bitor_small a b :
  0 <= a < 2 ^ 31 -> 0 <= b < 2 ^ 31 ->
  js_bitor a b = Z.lor a b /\ 0 <= Z.lor a b < 2 ^ 31.
Proof.
  intros Ha Hb. unfold js_bitor.
  rewrite (to_int32_small a), (to_int32_small b) by lia.
  pose proof (lor_bound a b 31 ltac:(lia) Ha Hb) as H.
  split; [apply to_int32_small; lia|exact H].
Qed.

(** [(i / 31) | 0] is the quotient for every array index [i]. *)
Lemma word_index i :
  Z.of_nat i < 2 ^ 32 -> Z.to_nat (js_bitor (Z.of_nat i / 31) 0) = (i / 31)%nat.
Proof.
  intros Hi.
  assert (Hq : 0 <= Z.of_nat i / 31 < 2 ^ 31).
  { split; [apply Z.div_pos; lia|].
    apply Z.div_lt_upper_bound; lia. }
  destruct (js_bitor_small (Z.of_nat i / 31) 0 Hq ltac:(lia)) as [E _].
  rewrite E, Z.lor_0_r.
  change 31 with (Z.of_nat 31). rewrite <- Nat2Z.inj_div. apply Nat2Z.id.
Qed.

Lemma dirty_word_array_set d k v k' :
  dirty_word (array_set None d k (Some v)) k'
  = if decide (k = k') then v else dirty_word d k'.
Proof.
  unfold dirty_word, array_set.
  destruct (Nat.ltb_spec k (length d)) as [Hlt|Hge].
  - destruct (decide (k = k')) as [<-|Hne].
    + now rewrite list_lookup_insert_eq.
    + now rewrite list_lookup_insert_ne.
  - destruct (decide (k = k')) as [<-|Hne].
    + rewrite lookup_app_r by lia.
      rewrite lookup_app_r by (rewrite length_replicate; lia).
      rewrite length_replicate.
      now replace (k - length d - (k - length d))%nat with 0%nat by lia.
    + destruct (Nat.lt_ge_cases k' (length d)) as [Hlt'|Hge'].
      * now rewrite lookup_app_l.
      * rewrite (lookup_ge_None_2 d k') by lia.
        rewrite lookup_app_r by lia.
        destruct (Nat.lt_ge_cases (k' - length d) (k - length d)) as [Hin|Hout].
        -- rewrite lookup_app_l by (rewrite length_replicate; lia).
           now rewrite lookup_replicate_2.
        -- rewrite lookup_app_r by (rewrite length_replicate; lia).
           rewrite length_replicate.
           destruct (k' - length d - (k - length d))%nat as [|n] eqn:En; [lia|].
           reflexivity.
Qed.

Lemma dirty_word_zeros n k : dirty_word (replicate n (Some 0)) k = 0.
Proof.
  unfold dirty_word. destruct (replicate n (Some 0) !! k) as [o|] eqn:E;
    [|reflexivity].
  apply lookup_replicate in E as [-> _]. reflexivity.
Qed.

(** Marking slot [i] in a mask whose words are non-negative 31-bit
    numbers sets bit [i] and no other. *)
Lemma mark_bit d i :
  Z.of_nat i < 2 ^ 32 ->
  (forall k, 0 <= dirty_word d k < 2 ^ 31) ->
  let k := Z.to_nat (js_bitor (Z.of_nat i / 31) 0) in
  let d' := array_set None d k
              (Some (js_bitor (dirty_word d k) (js_shl 1 (Z.of_nat i mod 31)))) in
  (forall k', 0 <= dirty_word d' k' < 2 ^ 31) /\
  (forall j, dirty_bit d' j = dirty_bit d j || bool_decide (j = i)).
Proof.
  intros Hi Hd k d'. subst d'. subst k. rewrite word_index by exact Hi.
  assert (Hb : 0 <= Z.of_nat i mod 31 <= 30).
  { pose proof (Z.mod_pos_bound (Z.of_nat i) 31 ltac:(lia)). lia. }
  rewrite js_shl_bit by exact Hb.
  assert (Hp : 0 <= 2 ^ (Z.of_nat i mod 31) < 2 ^ 31).
  { split; [apply Z.pow_nonneg; lia|apply Z.pow_lt_mono_r; lia]. }
  destruct (js_bitor_small _ _ (Hd (i / 31)%nat) Hp) as [E Hr]. rewrite E.
  split.
  - intros k'. rewrite dirty_word_array_set. case_decide; [exact Hr|apply Hd].
  - intros j. unfold dirty_bit. rewrite dirty_word_array_set.
    destruct (decide ((i / 31)%nat = (j / 31)%nat)) as [Hq|Hq].
    + rewrite Z.lor_spec, <- Hq. f_equal.
      rewrite Z.pow2_bits_eqb by lia.
      change 31 with (Z.of_nat 31). rewrite <- Nat2Z.inj_mod.
      destruct (bool_decide_reflect (j = i)) as [->|Hne].
      * apply Z.eqb_refl.
      * apply Z.eqb_neq. intros Hm. apply Hne.
        apply Nat2Z.inj in Hm.
        rewrite (Nat.div_mod_eq j 31), (Nat.div_mod_eq i 31). lia.
    + rewrite bool_decide_eq_false_2; [now rewrite orb_false_r|].
      intros ->. now apply Hq.
Qed.

(** Marking a run of slots of one component. *)
Fixpoint make_dirty_all (c : comp) (slots : list nat) : M unit :=
  match slots with
  | [] => mret tt
  | i :: slots' => _ ← make_dirty c i; make_dirty_all c slots'
  end.

(** The scheduler once a clean component was queued:
    [dirty_components.push(component); schedule_update()]. *)
Definition queued (c : comp) (s : Sched) : Sched :=
  let s' := set_dirty_components (dirty_components s ++ [c]) s in
  if update_scheduled s' then s'
  else set_pending_flushes (S (pending_flushes s')) (set_update_scheduled true s').

(** The word a mark writes. *)
Definition marked (d : list (option Z)) (i : nat) : list (option Z) :=
  let k := Z.to_nat (js_bitor (Z.of_nat i / 31) 0) in
  array_set None d k
    (Some (js_bitor (dirty_word d k) (js_shl 1 (Z.of_nat i mod 31)))).

Lemma make_dirty_clean c i w cs :
  comps w !! c = Some cs ->
  dirty cs !! 0%nat = Some (Some (-1)) ->
  make_dirty c i w
  = (set_comps
       (<[c := set_dirty (marked (replicate (length (dirty cs)) (Some 0)) i) cs]>
          (comps w))
       (upd_sched (queued c) w), Done tt).
Proof.
  intros Hc Hd. unfold make_dirty.
  rewrite (bind_done _ _ _ _ _ (get_comp_some _ _ _ Hc)).
  rewrite decide_True by exact Hd.
  rewrite bind_eq. rewrite bind_eq. unfold modify at 1.
  rewrite bind_eq. unfold schedule_update. rewrite bind_eq. unfold get.
  unfold set_comp, modify, marked.
  destruct w as [a cm ar nl nc s o g ng os t]. wsimpl in Hc.
  destruct s as [cur dc bc rc fc us pf fl seen]. wsimpl.
  destruct us; unfold queued; wnorm; unfold mret, M_ret; f_equal; f_equal;
    rewrite (alter_alt_Some _ _ _ _ Hc);
    rewrite (alter_alt_Some _ _ _ _ (lookup_insert_eq _ _ _));
    now rewrite insert_insert_eq.
Qed.

Lemma make_dirty_again c i w cs :
  comps w !! c = Some cs ->
  dirty cs !! 0%nat <> Some (Some (-1)) ->
  make_dirty c i w
  = (set_comps (<[c := set_dirty (marked (dirty cs) i) cs]> (comps w)) w, Done tt).
Proof.
  intros Hc Hd. unfold make_dirty.
  rewrite (bind_done _ _ _ _ _ (get_comp_some _ _ _ Hc)).
  rewrite decide_False by exact Hd.
  rewrite bind_eq, ret_eq. unfold set_comp, modify, marked.
  now rewrite (alter_alt_Some _ _ _ _ Hc).
Qed.

Lemma word_range_not_clean d :
  (forall k, 0 <= dirty_word d k < 2 ^ 31) -> d !! 0%nat <> Some (Some (-1)).
Proof.
  intros H E. specialize (H 0%nat). unfold dirty_word in H. rewrite E in H. lia.
Qed.

Lemma make_dirty_all_again c slots :
  Forall (fun i => Z.of_nat i < 2 ^ 32) slots ->
  forall w cs,
    comps w !! c = Some cs ->
    (forall k, 0 <= dirty_word (dirty cs) k < 2 ^ 31) ->
    exists D,
      make_dirty_all c slots w
      = (set_comps (<[c := set_dirty D cs]> (comps w)) w, Done tt)
      /\ (forall k, 0 <= dirty_word D k < 2 ^ 31)
      /\ (forall j, dirty_bit D j
                    = dirty_bit (dirty cs) j || bool_decide (j ∈ slots)).
Proof using Type.
  induction slots as [|i slots IH]; intros Hall' w cs Hc Hr;
    [|pose proof (Forall_inv Hall') as Hi; pose proof (Forall_inv_tail Hall') as Hall;
      specialize (IH Hall)].
  - exists (dirty cs). split; [|split; [exact Hr|]].
    + cbn [make_dirty_all]. rewrite ret_eq. f_equal.
      replace (set_dirty (dirty cs) cs) with cs by now destruct cs.
      rewrite insert_id by exact Hc. now destruct w.
    + intros j. rewrite bool_decide_eq_false_2; [now rewrite orb_false_r|].
      apply not_elem_of_nil.
  - cbn [make_dirty_all].
    rewrite (bind_done _ _ _ _ _
               (make_dirty_again c i w cs Hc (word_range_not_clean _ Hr))).
    destruct (mark_bit (dirty cs) i Hi Hr) as [Hr' Hb].
    fold (marked (dirty cs) i) in Hr', Hb |- *.
    set (cs' := set_dirty (marked (dirty cs) i) cs).
    destruct (IH (set_comps (<[c := cs']> (comps w)) w) cs') as (D & E & HD & HDb).
    { wsimpl. apply lookup_insert_eq. }
    { exact Hr'. }
    exists D. split; [|split; [exact HD|]].
    + rewrite E. f_equal. destruct w. wnorm. f_equal.
      rewrite insert_insert_eq. now destruct cs.
    + intros j. rewrite HDb. subst cs'. cbn [dirty set_dirty]. rewrite Hb.
      rewrite <- orb_assoc. f_equal.
      destruct (bool_decide_reflect (j = i)) as [->|Hne].
      * symmetry. apply bool_decide_eq_true_2. now left.
      * cbn [orb]. apply bool_decide_ext. rewrite elem_of_cons.
        split; [intros H; now right|intros [H|H]; [contradiction|exact H]].
Qed.

Lemma make_dirty_all_clean c i slots w cs :
  Forall (fun i => Z.of_nat i < 2 ^ 32) (i :: slots) ->
  comps w !! c = Some cs ->
  dirty cs !! 0%nat = Some (Some (-1)) ->
  exists D,
    make_dirty_all c (i :: slots) w
    = (set_comps (<[c := set_dirty D cs]> (comps w)) (upd_sched (queued c) w),
       Done tt)
    /\ (forall j, dirty_bit D j = bool_decide (j ∈ i :: slots)).
Proof using Type.
  intros Hall Hc Hd. inversion Hall as [|? ? Hi Hall']; subst.
  cbn [make_dirty_all].
  rewrite (bind_done _ _ _ _ _ (make_dirty_clean c i w cs Hc Hd)).
  set (z := replicate (length (dirty cs)) (Some 0)).
  destruct (mark_bit z i Hi) as [Hr Hb].
  { intros k. subst z. rewrite dirty_word_zeros. lia. }
  fold (marked z i) in Hr, Hb |- *.
  set (cs' := set_dirty (marked z i) cs).
  destruct (make_dirty_all_again c slots Hall'
              (set_comps (<[c := cs']> (comps w)) (upd_sched (queued c) w)) cs')
    as (D & E & _ & HDb).
  { wsimpl. apply lookup_insert_eq. }
  { exact Hr. }
  exists D. split.
  - rewrite E. f_equal. destruct w. wnorm. f_equal.
    rewrite insert_insert_eq. now destruct cs.
  - intros j. rewrite HDb. subst cs'. cbn [dirty set_dirty]. rewrite Hb.
    unfold dirty_bit. subst z. rewrite dirty_word_zeros, Z.bits_0. cbn [orb].
    destruct (bool_decide_reflect (j = i)) as [->|Hne].
    + symmetry. apply bool_decide_eq_true_2. now left.
    + cbn [orb]. apply bool_decide_ext. rewrite elem_of_cons.
        split; [intros H; now right|intros [H|H]; [contradiction|exact H]].
Qed.

(** *** One update of a component and one flush of an idle scheduler *)

(** The [$$.update()] and [fragment.p(...)] calls for component [c] that
    a trace shows, in call order. *)
Definition update_calls (c : comp) (t : list event) : list call :=
  omap (fun e => match e with
                 | Call (CUpdate c') =>
                     if decide (c' = c) then Some (CUpdate c') else None
                 | Call (CPatch c' b cx d) =>
                     if decide (c' = c) then Some (CPatch c' b cx d) else None
                 | _ => None
                 end) t.

Lemma update_calls_app c t1 t2 :
  update_calls c (t1 ++ t2) = update_calls c t1 ++ update_calls c t2.
Proof. apply omap_app. Qed.

Lemma update_calls_before_update c c' fs :
  update_calls c (Call ∘ CBeforeUpdate c' <$> fs) = [].
Proof. induction fs as [|f fs IH]; [reflexivity|exact IH]. Qed.

Lemma update_calls_update c :
  update_calls c [Call (CUpdate c)] = [CUpdate c].
Proof. unfold update_calls. cbn [omap list_omap]. now rewrite decide_True. Qed.

Lemma update_calls_patch c b cx d :
  update_calls c [Call (CPatch c b cx d)] = [CPatch c b cx d].
Proof. unfold update_calls. cbn [omap list_omap]. now rewrite decide_True. Qed.

Lemma update_live c w cs b bu au :
  (forall x, inert x) ->
  comps w !! c = Some cs -> fragment cs = Frag b ->
  arrays w !! before_update cs = Some bu ->
  arrays w !! after_update cs = Some au ->
  exists a,
    update c w
    = (touch a
         (trace w ++ Call (CUpdate c) :: (Call ∘ CBeforeUpdate c <$> bu)
                  ++ [Call (CPatch c b (ctx cs) (dirty cs))])
         (upd_sched (fun s =>
            set_render_callbacks (render_callbacks s ++ (RUser <$> au)) s)
            (set_comps (<[c := set_dirty [Some (-1)] cs]> (comps w)) w)),
       Done tt).
Proof.
  intros Hin Hc Hf Hbu Hau. unfold update.
  rewrite (bind_done _ _ _ _ _ (get_comp_some _ _ _ Hc)), Hf.
  destruct (call_touch (CUpdate c) w (Hin _)) as (a1 & E1).
  rewrite (bind_done _ _ _ _ _ E1).
  set (w1 := touch a1 _ w).
  rewrite (bind_done _ _ _ _ _ (get_comp_some c cs w1 Hc)).
  destruct (run_all_inert (before_update cs) (CBeforeUpdate c) bu w1
              (fun f => Hin _) Hbu) as (a2 & E2).
  rewrite (bind_done _ _ _ _ _ E2).
  set (w2 := touch a2 _ w1).
  rewrite (bind_done _ _ _ _ _ (get_comp_some c cs w2 Hc)).
  rewrite bind_eq. unfold set_comp at 1, modify at 1.
  set (w3 := set_comps _ w2).
  assert (Hc3 : comps w3 !! c = Some (set_dirty [Some (-1)] cs)).
  { subst w3 w2 w1. unfold touch. wsimpl.
    rewrite (alter_alt_Some _ _ _ _ Hc). apply lookup_insert_eq. }
  rewrite (bind_done _ _ _ _ _ (get_comp_some _ _ _ Hc3)).
  cbn [fragment set_dirty ctx]. rewrite Hf.
  destruct (call_touch (CPatch c b (ctx cs) (dirty cs)) w3 (Hin _)) as (a4 & E4).
  rewrite (bind_done _ _ _ _ _ E4).
  set (w4 := touch a4 _ w3).
  rewrite (bind_done _ _ _ _ _ (get_comp_some c _ w4 Hc3)).
  cbn [after_update set_dirty].
  rewrite (bind_done _ _ _ _ _ (read_array_some _ _ w4 Hau)).
  exists a4. unfold modify. f_equal.
  subst w4 w3 w2 w1. rewrite (alter_alt_Some _ _ _ _ Hc).
  destruct w. unfold touch. wnorm. f_equal.
  rewrite <- !app_assoc. reflexivity.
Qed.

Definition is_user (r : rcb) : Prop :=
  match r with RUser _ => True | RMount _ _ _ _ => False end.

Lemma run_render_user rs :
  (forall x, inert x) ->
  Forall is_user rs ->
  forall n i w,
    render_callbacks (sched w) = rs ->
    (length rs - i < n)%nat ->
    exists a t s,
      run_render_callbacks n i w
      = (touch a (trace w ++ t) (upd_sched (set_seen_callbacks s) w), Done tt)
      /\ forall c, update_calls c t = [].
Proof.
  intros Hin Hu. induction n as [|n IH]; intros i w Hrs Hlen; [lia|].
  cbn [run_render_callbacks]. rewrite bind_eq. unfold get. rewrite Hrs.
  destruct (rs !! i) as [cb|] eqn:Hi.
  - assert (Hlt : (i < length rs)%nat) by (eapply lookup_lt_Some; eauto).
    destruct (decide (cb ∈ seen_callbacks (sched w))) as [Hs|Hs].
    + apply (IH (S i) w Hrs). lia.
    + rewrite bind_eq. unfold modify at 1.
      set (w1 := upd_sched _ w).
      assert (Hcb : is_user cb).
      { eapply Forall_lookup_1 in Hu; eauto. }
      destruct cb as [f|]; [|contradiction].
      unfold run_rcb, log. rewrite !bind_eq. unfold modify at 1.
      destruct (call_touch (CRender f)
                  (set_trace (trace w1 ++ [Render (RUser f)]) w1) (Hin _))
        as (a & E).
      rewrite E.
      set (w2 := touch a _ _).
      destruct (IH (S i) w2) as (a' & t' & s' & E' & Hq).
      { subst w2 w1. unfold touch. wsimpl. exact Hrs. }
      { lia. }
      rewrite E'.
      exists a', (Render (RUser f) :: Call (CRender f) :: t'), s'. split.
      * f_equal. subst w2 w1. destruct w as [? ? ? ? ? s ? ? ? ? ?].
        destruct s. unfold touch. wnorm. f_equal.
        rewrite <- !app_assoc. reflexivity.
      * intros c. exact (Hq c).
  - exists (app w), [], (seen_callbacks (sched w)). split; [|reflexivity].
    rewrite ret_eq. f_equal. destruct w as [? ? ? ? ? s ? ? ? ? ?].
    destruct s. unfold touch. wnorm. now rewrite app_nil_r.
Qed.

Lemma flush_single c w cs b bu au fuel :
  (forall x, inert x) ->
  flushing (sched w) = false ->
  dirty_components (sched w) = [c] ->
  binding_callbacks (sched w) = [] ->
  render_callbacks (sched w) = [] ->
  flush_callbacks (sched w) = [] ->
  comps w !! c = Some cs -> fragment cs = Frag b ->
  arrays w !! before_update cs = Some bu ->
  arrays w !! after_update cs = Some au ->
  (2 <= fuel)%nat -> (length au < fuel)%nat ->
  exists w',
    flush fuel w = (w', Done tt)
    /\ update_calls c (trace w')
       = update_calls c (trace w) ++ [CUpdate c; CPatch c b (ctx cs) (dirty cs)]
    /\ dirty <$> comps w' !! c = Some [Some (-1)]
    /\ dirty_components (sched w') = []
    /\ flushing (sched w') = false.
Proof.
  intros Hin Hfl Hdc Hbc Hrc Hfc Hc Hf Hbu Hau Hfuel Hlen.
  destruct fuel as [|[|n]]; [lia|lia|].
  unfold flush. mprim. rewrite Hfl. mprim.
  set (w0 := upd_sched (set_flushing true) w).
  (* the pass *)
  assert (Hpass : exists a t s,
    drain_pass (S (S n)) w0
    = (touch a (trace w ++ Call (CUpdate c) :: (Call ∘ CBeforeUpdate c <$> bu)
                  ++ Call (CPatch c b (ctx cs) (dirty cs)) :: t)
         (upd_sched (fun s0 =>
              set_seen_callbacks s
                (set_render_callbacks []
                   (set_current_component' None (set_dirty_components [] s0))))
            (set_comps (<[c := set_dirty [Some (-1)] cs]> (comps w)) w0)),
       Done tt)
    /\ update_calls c t = []).
  { unfold drain_pass. cbn [update_dirty]. 
    assert (Hud : exists a,
      (get ≫= λ w2 : World,
         match dirty_components (sched w2) !! 0%nat with
         | Some component =>
             set_current_component (Some component)
             ≫= λ _ : (), update component ≫= λ _ : (), update_dirty (S n) 1
         | None => mret ()
         end) w0
      = (touch a (trace w ++ Call (CUpdate c) :: (Call ∘ CBeforeUpdate c <$> bu)
                    ++ [Call (CPatch c b (ctx cs) (dirty cs))])
           (upd_sched (fun s0 =>
              set_render_callbacks (RUser <$> au)
                (set_current_component' (Some c) s0))
              (set_comps (<[c := set_dirty [Some (-1)] cs]> (comps w)) w0)),
         Done tt)).
    { mprim.
      replace (dirty_components (sched w0)) with [c]
        by (subst w0; wsimpl; now rewrite Hdc).
      cbn [lookup list_lookup]. mprim.
      set (w1 := upd_sched _ w0).
      destruct (update_live c w1 cs b bu au Hin Hc Hf Hbu Hau) as (a & E).
      muse E. set (w2 := touch a _ _).
      cbn [update_dirty]. mprim.
      replace (dirty_components (sched w2)) with [c]
        by (subst w2 w1 w0; unfold touch; wsimpl; now rewrite Hdc).
      cbn [lookup list_lookup]. rewrite ret_eq. exists a. f_equal.
      subst w2 w1 w0. destruct w as [? ? ? ? ? s0 ? ? ? ? ?]. destruct s0.
      wsimpl in Hrc. subst. unfold touch. now wnorm. }
    destruct Hud as (a & Eud). muse Eud. set (w2 := touch a _ _).
    mprim. mprim.
    set (w3 := upd_sched (set_dirty_components []) _).
    cbn [run_binding_callbacks]. 
    assert (Hb : (get ≫= λ w4 : World,
         match last (binding_callbacks (sched w4)) with
         | Some f =>
             modify (upd_sched (λ s : Sched,
                  set_binding_callbacks (removelast (binding_callbacks s)) s))
             ≫= λ _ : (), call_ (CBinding f) ≫= λ _ : (), run_binding_callbacks (S n)
         | None => mret ()
         end) w3 = (w3, Done tt)).
    { mprim.
      replace (binding_callbacks (sched w3)) with (@nil nat)
        by (subst w3 w2 w0; unfold touch; wsimpl; now rewrite Hbc).
      reflexivity. }
    muse Hb.
    destruct (run_render_user (RUser <$> au) Hin
                ltac:(apply Forall_fmap, Forall_true; intros ?; exact I)
                (S (S n)) 0%nat w3) as (a' & t & s & E' & Hq).
    { subst w3 w2 w0. unfold touch. now wsimpl. }
    { rewrite length_fmap. lia. }
    muse E'. exists a', t, s. split; [|apply Hq].
    unfold modify. f_equal. subst w3 w2 w0.
    destruct w as [? ? ? ? ? s0 ? ? ? ? ?]. destruct s0.
    unfold touch. wnorm. f_equal. trace_eq. }
  destruct Hpass as (a & t & s & Ep & Hq).
  match type of Ep with _ = (?x, _) => set (w1 := x) in Ep |- * end.
  assert (Hdr : drain (S (S n)) (S (S n)) w0 = (w1, Done tt)).
  { cbn [drain]. muse Ep. mprim.
    replace (dirty_components (sched w1)) with (@nil nat)
      by (subst w1 w0; unfold touch; now wsimpl).
    reflexivity. }
  muse Hdr.
  assert (Hfcb : (get ≫= λ w2 : World,
         match last (flush_callbacks (sched w2)) with
         | Some f =>
             modify (upd_sched (λ s0 : Sched,
                  set_flush_callbacks (removelast (flush_callbacks s0)) s0))
             ≫= λ _ : (), call_ (CFlushCb f) ≫= λ _ : (), run_flush_callbacks (S n)
         | None => mret ()
         end) w1 = (w1, Done tt)).
  { mprim.
    replace (flush_callbacks (sched w1)) with (@nil nat)
      by (subst w1 w0; unfold touch; wsimpl; now rewrite Hfc).
    reflexivity. }
  assert (Hfcb' : run_flush_callbacks (S (S n)) w1 = (w1, Done tt)) by exact Hfcb.
  clear Hfcb. muse Hfcb'. mprim. mprim. unfold modify.
  eexists. split; [reflexivity|].
  subst w1 w0. unfold touch. wsimpl. repeat split.
  - rewrite update_calls_app.
    change (Call (CUpdate c) :: (Call ∘ CBeforeUpdate c <$> bu)
              ++ Call (CPatch c b (ctx cs) (dirty cs)) :: t)
      with ([Call (CUpdate c)] ++ (Call ∘ CBeforeUpdate c <$> bu)
              ++ [Call (CPatch c b (ctx cs) (dirty cs))] ++ t).
    rewrite !update_calls_app, update_calls_update, update_calls_before_update,
      update_calls_patch, Hq.
    reflexivity.
  - now rewrite lookup_insert_eq.
Qed.

(** C1. Coalescing.  In a settled scheduler, marking any non-empty run
    of slots of a clean, live component [c] queues [c] once; with
    callbacks that dirty nothing further, the following [flush] returns
    and has called [$$.update] of [c] exactly once and the [p] method of
    its fragment exactly once, with a dirty mask whose set bits are
    exactly the marked slots. *)
Theorem coalescing w c cs b bu au slots fuel :
  (forall x, inert x) ->
  flushing (sched w) = false ->
  dirty_components (sched w) = [] ->
  binding_callbacks (sched w) = [] ->
  render_callbacks (sched w) = [] ->
  flush_callbacks (sched w) = [] ->
  comps w !! c = Some cs ->
  fragment cs = Frag b ->
  dirty cs !! 0%nat = Some (Some (-1)) ->
  arrays w !! before_update cs = Some bu ->
  arrays w !! after_update cs = Some au ->
  slots <> [] ->
  Forall (fun i => Z.of_nat i < 2 ^ 32) slots ->
  (2 <= fuel)%nat -> (length au < fuel)%nat ->
  exists w1 w2 D,
    make_dirty_all c slots w = (w1, Done tt) /\
    dirty_components (sched w1) = [c] /\
    flush fuel w1 = (w2, Done tt) /\
    update_calls c (trace w2)
    = update_calls c (trace w) ++ [CUpdate c; CPatch c b (ctx cs) D] /\
    (forall j, dirty_bit D j = true <-> j ∈ slots).
Proof.
  intros Hin Hfl Hdc Hbc Hrc Hfc Hc Hf Hd Hbu Hau Hne Hall Hfuel Hlen.
  destruct slots as [|i slots]; [congruence|].
  destruct (make_dirty_all_clean c i slots w cs Hall Hc Hd) as (D & E & HD).
  set (w1 := set_comps _ _) in E.
  assert (Hdc1 : dirty_components (sched w1) = [c]).
  { subst w1. unfold queued. wsimpl. rewrite Hdc.
    destruct (update_scheduled (sched w)); reflexivity. }
  destruct (flush_single c w1 (set_dirty D cs) b bu au fuel Hin)
    as (w2 & E2 & Hu & _); try assumption.
  - subst w1. unfold queued. wsimpl.
    destruct (update_scheduled (sched w)); wsimpl; exact Hfl.
  - subst w1. unfold queued. wsimpl.
    destruct (update_scheduled (sched w)); wsimpl; exact Hbc.
  - subst w1. unfold queued. wsimpl.
    destruct (update_scheduled (sched w)); wsimpl; exact Hrc.
  - subst w1. unfold queued. wsimpl.
    destruct (update_scheduled (sched w)); wsimpl; exact Hfc.
  - subst w1. wsimpl. apply lookup_insert_eq.
  - exists w1, w2, D. split; [exact E|]. split; [exact Hdc1|].
    split; [exact E2|]. split; [exact Hu|].
    intros j. rewrite HD. apply bool_decide_eq_true.
Qed.

(** *** Reentrancy *)

Lemma flush_while_flushing fuel w :
  flushing (sched w) = true -> flush fuel w = (w, Done tt).
Proof. intros H. unfold flush. mprim. now rewrite H. Qed.

End Runtime.

Arguments inert {App} callf c.

(** The tactics of the section above, again. *)
Ltac wsimpl :=
  cbn [set_app set_comps set_arrays set_next_loc set_next_closure upd_sched
       set_outroing set_groups set_next_gid set_outros set_trace
       app comps arrays next_loc next_closure sched outroing groups next_gid
       outros trace
       set_current_component' set_dirty_components set_binding_callbacks
       set_render_callbacks set_flush_callbacks set_update_scheduled
       set_pending_flushes set_flushing set_seen_callbacks
       current_component dirty_components binding_callbacks render_callbacks
       flush_callbacks update_scheduled pending_flushes flushing seen_callbacks
       set_fragment set_ctx set_on_mount set_on_destroy set_dirty
       set_skip_bound set_destroy_is_noop
       fragment ctx bound on_mount on_destroy before_update after_update dirty
       skip_bound not_equal ready destroy_is_noop fst snd].

Tactic Notation "wsimpl" "in" hyp(H) :=
  cbn [set_app set_comps set_arrays set_next_loc set_next_closure upd_sched
       set_outroing set_groups set_next_gid set_outros set_trace
       app comps arrays next_loc next_closure sched outroing groups next_gid
       outros trace
       set_current_component' set_dirty_components set_binding_callbacks
       set_render_callbacks set_flush_callbacks set_update_scheduled
       set_pending_flushes set_flushing set_seen_callbacks
       current_component dirty_components binding_callbacks render_callbacks
       flush_callbacks update_scheduled pending_flushes flushing seen_callbacks
       set_fragment set_ctx set_on_mount set_on_destroy set_dirty
       set_skip_bound set_destroy_is_noop
       fragment ctx bound on_mount on_destroy before_update after_update dirty
       skip_bound not_equal ready destroy_is_noop fst snd] in H.

(** Normal form of an updated world whose fields are known. *)
Ltac wnorm :=
  cbv [set_app set_comps set_arrays set_next_loc set_next_closure upd_sched
       set_outroing set_groups set_next_gid set_outros set_trace
       app comps arrays next_loc next_closure sched outroing groups next_gid
       outros trace
       set_current_component' set_dirty_components set_binding_callbacks
       set_render_callbacks set_flush_callbacks set_update_scheduled
       set_pending_flushes set_flushing set_seen_callbacks
       current_component dirty_components binding_callbacks render_callbacks
       flush_callbacks update_scheduled pending_flushes flushing seen_callbacks].

(** One step of a computation whose first action is a primitive
    ([get], [modify], ...), or whose result [E] is known. *)
Ltac mprim := erewrite bind_done by reflexivity; cbv beta.
Ltac muse E := rewrite (bind_done _ _ _ _ _ E); cbv beta.

(** Traces compared up to the bracketing of [++]. *)
Ltac trace_eq :=
  repeat (rewrite <- app_assoc || rewrite <- app_comm_cons); reflexivity.

(** *** Two sets of callbacks that agree under an invariant *)

Section Frame.

Context {App : Type}.
Variables callf1 callf2 : call -> @World App -> @World App * status (option ufn).

(** An invariant of the world that the bookkeeping of the runtime does
    not disturb. *)
Variable I : @World App -> Prop.
Hypothesis I_comps : forall x w, I w -> I (set_comps x w).
Hypothesis I_arrays : forall x w, I w -> I (set_arrays x w).
Hypothesis I_next_loc : forall x w, I w -> I (set_next_loc x w).
Hypothesis I_call : forall c w, I w -> I (set_trace (trace w ++ [Call c]) w).
Hypothesis I_sched : forall f w,
  (forall s, flushing (f s) = flushing s
             /\ seen_callbacks (f s) = seen_callbacks s) ->
  I w -> I (upd_sched f w).
Hypothesis I_render : forall r w, I w -> I (set_trace (trace w ++ [Render r]) w).
Hypothesis I_seen : forall x w,
  I w -> I (upd_sched (set_seen_callbacks x) w).

(** Under the invariant the two sets of callbacks do the same, and keep
    the invariant. *)
Hypothesis Hcall : forall c w,
  I w -> callf1 c w = callf2 c w /\ I (callf1 c w).1.

Definition agree {A} (m1 m2 : M A) : Prop :=
  forall w, I w -> m1 w = m2 w /\ I (m1 w).1.

Lemma agree_ret {A} (a : A) : agree (mret a) (mret a).
Proof. intros w Hw. now split. Qed.

Lemma agree_bind {A B} (m1 m2 : M A) (k1 k2 : A -> M B) :
  agree m1 m2 -> (forall a, agree (k1 a) (k2 a)) ->
  agree (m1 ≫= k1) (m2 ≫= k2).
Proof.
  intros Hm Hk w Hw. destruct (Hm w Hw) as [E Hi].
  rewrite !bind_eq, <- E. destruct (m1 w) as [w' [a| |]]; cbn [fst] in *.
  - apply Hk, Hi.
  - now split.
  - now split.
Qed.

Lemma agree_same {A} (m : M A) :
  (forall w, I w -> I (m w).1) -> agree m m.
Proof. intros H w Hw. split; [reflexivity|now apply H]. Qed.

Lemma agree_get : agree get get.
Proof. now apply agree_same. Qed.

Lemma agree_throw {A} : agree (throw : M A) throw.
Proof. now apply agree_same. Qed.

Lemma agree_out_of_fuel {A} : agree (out_of_fuel : M A) out_of_fuel.
Proof. now apply agree_same. Qed.

Lemma agree_modify f : (forall w, I w -> I (f w)) -> agree (modify f) (modify f).
Proof. intros H. now apply agree_same. Qed.

Lemma agree_get_comp c : agree (get_comp c) (get_comp c).
Proof.
  apply agree_same. intros w Hw. unfold get_comp.
  now destruct (comps w !! c).
Qed.

Lemma agree_read_array l : agree (read_array l) (read_array l).
Proof.
  apply agree_same. intros w Hw. unfold read_array.
  now destruct (arrays w !! l).
Qed.

Lemma agree_set_comp c f : agree (set_comp c f) (set_comp c f).
Proof. apply agree_modify. intros w. apply I_comps. Qed.

Lemma agree_sched f :
  (forall s, flushing (f s) = flushing s
             /\ seen_callbacks (f s) = seen_callbacks s) ->
  agree (modify (upd_sched f)) (modify (upd_sched f)).
Proof. intros H. apply agree_modify. intros w. now apply I_sched. Qed.

Lemma agree_invoke c : agree (invoke callf1 c) (invoke callf2 c).
Proof.
  intros w Hw. unfold invoke, log, modify. rewrite !bind_eq.
  apply Hcall. now apply I_call.
Qed.

Lemma agree_call c : agree (call_ callf1 c) (call_ callf2 c).
Proof.
  unfold call_. apply agree_bind; [apply agree_invoke|].
  intros _. apply agree_ret.
Qed.

(** The structure of a computation, taken apart. *)
Ltac agree_step :=
  match goal with
  | |- agree (mret _) (mret _) => apply agree_ret
  | |- agree (_ ≫= _) (_ ≫= _) => apply agree_bind; [|intros ?]
  | |- agree get get => apply agree_get
  | |- agree throw throw => apply agree_throw
  | |- agree out_of_fuel out_of_fuel => apply agree_out_of_fuel
  | |- agree (get_comp _) (get_comp _) => apply agree_get_comp
  | |- agree (read_array _) (read_array _) => apply agree_read_array
  | |- agree (set_comp _ _) (set_comp _ _) => apply agree_set_comp
  | |- agree (invoke _ _) (invoke _ _) => apply agree_invoke
  | |- agree (call_ _ _) (call_ _ _) => apply agree_call
  | |- agree (modify (upd_sched _)) (modify (upd_sched _)) =>
      apply agree_sched; intros []; now split
  | |- agree (match ?x with _ => _ end) (match ?x with _ => _ end) =>
      destruct x
  | |- agree (if ?b then _ else _) (if ?b then _ else _) => destruct b
  end.

Lemma agree_forEach_run l mk todo :
  forall k, agree (forEach_run callf1 l mk k todo) (forEach_run callf2 l mk k todo).
Proof.
  induction todo as [|todo IH]; intros k; cbn [forEach_run];
    repeat agree_step; apply IH.
Qed.

Lemma agree_run_all fns mk : agree (run_all callf1 fns mk) (run_all callf2 fns mk).
Proof. unfold run_all. repeat agree_step. apply agree_forEach_run. Qed.

Lemma agree_run_all_fresh mk fs :
  agree (run_all_fresh callf1 mk fs) (run_all_fresh callf2 mk fs).
Proof. induction fs as [|f fs IH]; cbn [run_all_fresh]; repeat agree_step. exact IH. Qed.

Lemma agree_update c : agree (update callf1 c) (update callf2 c).
Proof. unfold update. repeat agree_step; apply agree_run_all. Qed.

Lemma agree_push_array l fs : agree (push_array l fs) (push_array l fs).
Proof. apply agree_modify. intros w. apply I_arrays. Qed.

Lemma agree_alloc_array : agree alloc_array alloc_array.
Proof.
  apply agree_same. intros w Hw. unfold alloc_array. cbn [fst].
  now apply I_next_loc, I_arrays.
Qed.

Lemma agree_map_run l todo :
  forall k, agree (map_run callf1 l k todo) (map_run callf2 l k todo).
Proof.
  induction todo as [|todo IH]; intros k; cbn [map_run];
    repeat agree_step; apply IH.
Qed.

Lemma agree_mount_callback c om od :
  agree (mount_callback callf1 c om od) (mount_callback callf2 c om od).
Proof.
  unfold mount_callback. repeat agree_step.
  - apply agree_map_run.
  - apply agree_push_array.
  - apply agree_run_all_fresh.
  - apply agree_alloc_array.
Qed.

Lemma agree_set_current_component c :
  agree (set_current_component c) (set_current_component c).
Proof. unfold set_current_component. agree_step. Qed.

Lemma agree_update_dirty fuel :
  forall i, agree (update_dirty callf1 fuel i) (update_dirty callf2 fuel i).
Proof.
  induction fuel as [|fuel IH]; intros i; cbn [update_dirty]; repeat agree_step.
  - apply agree_set_current_component.
  - apply agree_update.
  - apply IH.
Qed.

Lemma agree_run_binding_callbacks fuel :
  agree (run_binding_callbacks callf1 fuel) (run_binding_callbacks callf2 fuel).
Proof.
  induction fuel as [|fuel IH]; cbn [run_binding_callbacks]; repeat agree_step.
  exact IH.
Qed.

Lemma agree_run_flush_callbacks fuel :
  agree (run_flush_callbacks callf1 fuel) (run_flush_callbacks callf2 fuel).
Proof.
  induction fuel as [|fuel IH]; cbn [run_flush_callbacks]; repeat agree_step.
  exact IH.
Qed.

Lemma agree_run_rcb r : agree (run_rcb callf1 r) (run_rcb callf2 r).
Proof.
  unfold run_rcb. repeat agree_step.
  - apply agree_modify. intros w. apply I_render.
  - apply agree_mount_callback.
Qed.

Lemma agree_run_render_callbacks fuel :
  forall i,
    agree (run_render_callbacks callf1 fuel i) (run_render_callbacks callf2 fuel i).
Proof.
  induction fuel as [|fuel IH]; intros i; cbn [run_render_callbacks];
    repeat agree_step; try apply IH.
  - apply agree_modify. intros w. apply I_seen.
  - apply agree_run_rcb.
Qed.

Lemma agree_drain_pass fuel : agree (drain_pass callf1 fuel) (drain_pass callf2 fuel).
Proof.
  unfold drain_pass. repeat agree_step.
  - apply agree_update_dirty.
  - apply agree_set_current_component.
  - apply agree_run_binding_callbacks.
  - apply agree_run_render_callbacks.
Qed.

Lemma agree_drain passes fuel : agree (drain callf1 passes fuel) (drain callf2 passes fuel).
Proof.
  induction passes as [|passes IH]; cbn [drain]; repeat agree_step.
  - apply agree_drain_pass.
  - exact IH.
Qed.

Lemma agree_bind_eq {A B} (m1 m2 : M A) (k1 k2 : A -> M B) :
  agree m1 m2 -> (forall a w, I w -> k1 a w = k2 a w) ->
  forall w, I w -> (m1 ≫= k1) w = (m2 ≫= k2) w.
Proof.
  intros Hm Hk w Hw. destruct (Hm w Hw) as [E Hi].
  rewrite !bind_eq, <- E. destruct (m1 w) as [w' [a| |]]; cbn [fst] in *;
    [now apply Hk|reflexivity|reflexivity].
Qed.

(** When the invariant holds as soon as the [flushing] flag is up, the
    two sets of callbacks give the same [flush]. *)
Hypothesis I_flushing : forall w, I (upd_sched (set_flushing true) w).

Lemma agree_flush fuel w : flush callf1 fuel w = flush callf2 fuel w.
Proof.
  unfold flush. rewrite !(bind_eq get). unfold get.
  destruct (flushing (sched w)); [reflexivity|].
  rewrite !(bind_eq (modify _)). unfold modify at 1 7.
  apply agree_bind_eq; [apply agree_drain| |apply I_flushing].
  intros _ w1 Hw1.
  apply agree_bind_eq; [apply agree_run_flush_callbacks| |exact Hw1].
  reflexivity.
Qed.

End Frame.

(** A callback that also calls [flush], before and after its own work;
    the nested [flush] may run with any callbacks [inner]. *)
Definition reentrant {App} (inner callf : call -> @World App -> World * status (option ufn))
    (fuel : nat) (c : call) : M (option ufn) :=
  _ ← flush inner fuel;
  r ← callf c;
  _ ← flush inner fuel;
  mret r.

(** C3. [flush] is guarded against reentrancy: called while the
    [flushing] flag is set it returns at once and leaves the world as it
    is (no queue drained, no callback called, no scheduler field changed).
    Consequently a [flush] with callbacks that themselves call [flush] is
    the same computation as without those nested calls: no second drain
    ever starts inside the first. *)
Theorem flush_is_reentrancy_guarded {App}
    (callf : call -> @World App -> World * status (option ufn)) :
  (forall fuel w,
      flushing (sched w) = true -> flush callf fuel w = (w, Done tt)) /\
  (forall inner fuel' fuel w,
      (forall c w, flushing (sched w) = true ->
                   flushing (sched (callf c w).1) = true) ->
      flush (reentrant inner callf fuel') fuel w = flush callf fuel w).
Proof.
  split; [intros fuel w; apply flush_while_flushing|].
  intros inner fuel' fuel w Hkeep.
  apply (agree_flush _ _ (fun w => flushing (sched w) = true)).
  - intros x w0 H. exact H.
  - intros x w0 H. exact H.
  - intros x w0 H. exact H.
  - intros c w0 H. exact H.
  - intros f w0 Hf H. wsimpl. now rewrite (proj1 (Hf _)).
  - intros r w0 H. exact H.
  - intros x w0 H. exact H.
  - intros c w0 H. unfold reentrant.
    rewrite (bind_done _ _ _ _ _ (flush_while_flushing inner fuel' w0 H)).
    rewrite bind_eq. specialize (Hkeep c w0 H).
    destruct (callf c w0) as [w1 [r| |]]; cbn [fst] in *; [|now split|now split].
    rewrite (bind_done _ _ _ _ _ (flush_while_flushing inner fuel' w1 Hkeep)).
    now split.
  - intros w0. reflexivity.
Qed.

(** *** Render callbacks fire once per flush *)

(** The render callbacks a trace shows as run by [flush], in order. *)
Definition render_runs (t : list event) : list rcb :=
  omap (fun e => match e with Render r => Some r | _ => None end) t.

Lemma render_runs_app t1 t2 : render_runs (t1 ++ t2) = render_runs t1 ++ render_runs t2.
Proof. apply omap_app. Qed.

Section SingleFire.

Context {App : Type}.
Variable callf : call -> @World App -> @World App * status (option ufn).

(** Component code cannot reach the [seen_callbacks] set, and it is
    [flush] that runs render callbacks. *)
Hypothesis Hframe : forall c w,
  seen_callbacks (sched (callf c w).1) = seen_callbacks (sched w) /\
  render_runs (trace (callf c w).1) = render_runs (trace w).

Definition preserves {A} (P : @World App -> Prop) (m : M A) : Prop :=
  forall w, P w -> P (m w).1.

Lemma preserves_bind {A B} P (m : M A) (k : A -> M B) :
  preserves P m -> (forall a, preserves P (k a)) -> preserves P (m ≫= k).
Proof.
  intros Hm Hk w Hw. specialize (Hm w Hw). rewrite bind_eq.
  destruct (m w) as [w' [a| |]]; cbn [fst] in *; [now apply Hk|exact Hm|exact Hm].
Qed.

Lemma bind_post {A B} (Q : @World App -> Prop) (m : M A) (k : A -> M B) w :
  Q (m w).1 -> (forall a, preserves Q (k a)) -> Q ((m ≫= k) w).1.
Proof.
  intros Hm Hk. rewrite bind_eq.
  destruct (m w) as [w' [a| |]]; cbn [fst] in *; [now apply Hk|exact Hm|exact Hm].
Qed.

(** The part of the world the argument is about. *)
Definition same_fired (s0 r0 : list rcb) (w : @World App) : Prop :=
  seen_callbacks (sched w) = s0 /\ render_runs (trace w) = r0.

Ltac frame_side :=
  let x := fresh "x" in
  let v := fresh "v" in
  let Hf := fresh "Hf" in
  match goal with
  | |- forall _ w, same_fired _ _ w -> _ = _ /\ same_fired _ _ _ =>
      intros x v [<- <-]; split; [reflexivity|exact (Hframe x v)]
  | |- forall _ w, (forall s, _) -> same_fired _ _ w -> same_fired _ _ _ =>
      intros x v Hf [<- <-]; split; [exact (proj2 (Hf _))|reflexivity]
  | |- forall _ w, same_fired _ _ w -> same_fired _ _ _ =>
      intros x v [<- <-]; split; [reflexivity|];
      cbn [trace set_trace set_comps set_arrays set_next_loc];
      rewrite ?render_runs_app; cbn [render_runs omap list_omap];
      rewrite ?app_nil_r; reflexivity
  end.

(** Everything [flush] calls below the render loop leaves the set and
    the runs alone. *)
Lemma keeps_update_dirty fuel i s0 r0 :
  preserves (same_fired s0 r0) (update_dirty callf fuel i).
Proof.
  intros w Hw.
  apply (agree_update_dirty callf callf (same_fired s0 r0)); try frame_side.
  exact Hw.
Qed.

Lemma keeps_run_binding_callbacks fuel s0 r0 :
  preserves (same_fired s0 r0) (run_binding_callbacks callf fuel).
Proof.
  intros w Hw.
  apply (agree_run_binding_callbacks callf callf (same_fired s0 r0)); try frame_side.
  exact Hw.
Qed.

Lemma keeps_run_flush_callbacks fuel s0 r0 :
  preserves (same_fired s0 r0) (run_flush_callbacks callf fuel).
Proof.
  intros w Hw.
  apply (agree_run_flush_callbacks callf callf (same_fired s0 r0)); try frame_side.
  exact Hw.
Qed.

Lemma keeps_mount_callback c om od s0 r0 :
  preserves (same_fired s0 r0) (mount_callback callf c om od).
Proof.
  intros w Hw.
  apply (agree_mount_callback callf callf (same_fired s0 r0)); try frame_side.
  exact Hw.
Qed.

Lemma keeps_call c s0 r0 : preserves (same_fired s0 r0) (call_ callf c).
Proof.
  intros w Hw.
  apply (agree_call callf callf (same_fired s0 r0)); try frame_side.
  exact Hw.
Qed.

(** Since [base], every render callback was run at most once, and each
    one that was run is in the [seen_callbacks] set. *)
Definition fired_once (base : list rcb) (w : @World App) : Prop :=
  exists new,
    render_runs (trace w) = base ++ new /\
    NoDup new /\
    forall r, r ∈ new -> r ∈ seen_callbacks (sched w).

Lemma fired_once_same base w w' :
  seen_callbacks (sched w') = seen_callbacks (sched w) ->
  render_runs (trace w') = render_runs (trace w) ->
  fired_once base w -> fired_once base w'.
Proof.
  intros Hs Hr (new & E & Hnd & Hin). exists new.
  rewrite Hr, Hs. auto.
Qed.

Lemma fired_of_keeps {A} (m : M A) base :
  (forall s0 r0, preserves (same_fired s0 r0) m) ->
  preserves (fired_once base) m.
Proof.
  intros H w Hw. destruct (H _ _ w (conj eq_refl eq_refl)) as [Hs Hr].
  eapply fired_once_same; eauto.
Qed.

Lemma fired_sched base f :
  (forall s, seen_callbacks (f s) = seen_callbacks s) ->
  preserves (fired_once base) (modify (upd_sched f)).
Proof.
  intros Hf w Hw. unfold modify. cbn [fst].
  eapply fired_once_same; [| |exact Hw]; wsimpl; [apply Hf|reflexivity].
Qed.

Lemma run_rcb_fired base cb w :
  fired_once base w ->
  cb ∉ seen_callbacks (sched w) ->
  fired_once base
    (run_rcb callf cb
       (upd_sched (fun s => set_seen_callbacks (seen_callbacks s ++ [cb]) s) w)).1.
Proof.
  intros (new & E & Hnd & Hin) Hcb. unfold run_rcb, log. mprim.
  set (w2 := set_trace _ _).
  assert (H2 : fired_once base w2).
  { exists (new ++ [cb]). subst w2. wsimpl. repeat split.
    - rewrite render_runs_app, E. cbn [render_runs omap list_omap].
      now rewrite app_assoc.
    - apply NoDup_app. split; [exact Hnd|]. split.
      + intros r Hr Hr'. apply list_elem_of_singleton in Hr'. subst r.
        apply Hcb, Hin, Hr.
      + apply NoDup_singleton.
    - intros r Hr. apply elem_of_app in Hr as [Hr|Hr].
      + apply elem_of_app. left. now apply Hin.
      + apply elem_of_app. now right. }
  destruct cb as [f|id c om od].
  - apply (fired_of_keeps _ base (keeps_call _)), H2.
  - apply (fired_of_keeps _ base (keeps_mount_callback _ _ _)), H2.
Qed.

Lemma fired_run_render_callbacks base fuel :
  forall i, preserves (fired_once base) (run_render_callbacks callf fuel i).
Proof.
  induction fuel as [|fuel IH]; intros i w Hw; [exact Hw|].
  cbn [run_render_callbacks]. mprim.
  destruct (render_callbacks (sched w) !! i) as [cb|]; [|exact Hw].
  destruct (decide (cb ∈ seen_callbacks (sched w))) as [Hs|Hs].
  - now apply IH.
  - mprim. apply bind_post.
    + now apply run_rcb_fired.
    + intros _. apply IH.
Qed.

Lemma fired_drain_pass base fuel :
  preserves (fired_once base) (drain_pass callf fuel).
Proof.
  unfold drain_pass.
  apply preserves_bind; [apply fired_of_keeps, keeps_update_dirty|intros _].
  apply preserves_bind; [apply fired_sched; now intros []|intros _].
  apply preserves_bind; [apply fired_sched; now intros []|intros _].
  apply preserves_bind;
    [apply fired_of_keeps, keeps_run_binding_callbacks|intros _].
  apply preserves_bind; [apply fired_run_render_callbacks|intros _].
  apply fired_sched. now intros [].
Qed.

Lemma fired_drain base passes fuel :
  preserves (fired_once base) (drain callf passes fuel).
Proof.
  induction passes as [|passes IH]; [now intros w Hw|].
  cbn [drain]. apply preserves_bind; [apply fired_drain_pass|intros _].
  intros w Hw. mprim. destruct (dirty_components (sched w)); [exact Hw|].
  now apply IH.
Qed.

(** The part of [flush] between raising and lowering the flag. *)
Definition flush_body (fuel : nat) : M unit :=
  _ ← drain callf fuel fuel;
  run_flush_callbacks callf fuel.

Lemma fired_flush_body base fuel : preserves (fired_once base) (flush_body fuel).
Proof.
  unfold flush_body.
  apply preserves_bind; [apply fired_drain|intros _].
  apply fired_of_keeps, keeps_run_flush_callbacks.
Qed.

Lemma flush_unfold fuel w :
  flushing (sched w) = false ->
  flush callf fuel w
  = match flush_body fuel (upd_sched (set_flushing true) w) with
    | (w', Done _) =>
        (upd_sched (set_seen_callbacks [])
           (upd_sched (set_flushing false)
              (upd_sched (set_update_scheduled false) w')), Done tt)
    | (w', Thrown) => (w', Thrown)
    | (w', NoFuel) => (w', NoFuel)
    end.
Proof.
  intros Hfl. unfold flush, flush_body. mprim. rewrite Hfl. mprim.
  rewrite !bind_eq.
  destruct (drain callf fuel fuel _) as [w1 [[]| |]]; try reflexivity.
Qed.

(** C4. Within one outer [flush], whatever the callbacks queue and
    however many passes the [do ... while] makes, every render callback
    (a function, by identity) is run at most once: the runs the trace
    gains have no repetition.  The [seen_callbacks] set is emptied only
    when that [flush] completes; while it has not, every callback already
    run is still in the set. *)
Theorem render_callbacks_fire_once fuel w :
  exists new,
    render_runs (trace (flush callf fuel w).1) = render_runs (trace w) ++ new /\
    NoDup new /\
    ((flush callf fuel w).2 = Done tt -> flushing (sched w) = false ->
     seen_callbacks (sched (flush callf fuel w).1) = []) /\
    ((flush callf fuel w).2 <> Done tt ->
     forall r, r ∈ new -> r ∈ seen_callbacks (sched (flush callf fuel w).1)).
Proof.
  destruct (flushing (sched w)) eqn:Hfl.
  - rewrite (flush_while_flushing callf fuel w Hfl). cbn [fst snd].
    exists []. rewrite app_nil_r. repeat split; try congruence.
    apply NoDup_nil_2.
  - rewrite (flush_unfold fuel w Hfl).
    assert (H0 : fired_once (render_runs (trace w))
                   (upd_sched (set_flushing true) w)).
    { exists []. wsimpl. rewrite app_nil_r. repeat split.
      - apply NoDup_nil_2.
      - intros r Hr. now apply not_elem_of_nil in Hr. }
    apply (fired_flush_body _ fuel) in H0.
    destruct (flush_body fuel (upd_sched (set_flushing true) w))
      as [w' [[]| |]]; cbn [fst snd] in *;
      destruct H0 as (new & E & Hnd & Hin); exists new.
    + wsimpl. repeat split; auto. congruence.
    + repeat split; auto. congruence.
    + repeat split; auto. congruence.
Qed.

End SingleFire.

(** *** Concrete worlds *)

(** Component code that does nothing and returns [undefined]. *)
Definition quiet (c : call) : M (App:=unit) (option ufn) :=
  fun w => (w, Done None).

Lemma quiet_inert c : inert quiet c.
Proof. intros w. exists tt, None. now destruct w as [[] ? ? ? ? ? ? ? ? ? ?]. Defined.

Definition idle : Sched := MkSched None [] [] [] [] false 0 false [].

(** A mounted component: fragment 7, three slots, a binding on slot 1,
    [on_mount] at array 0, [on_destroy] at 1 (callbacks 20 and 21),
    [before_update] at 2 (callback 10), [after_update] at 3 (callback 11). *)
Definition demo_comp : comp_state :=
  CompState (Frag 7) (Some [VBool false; VStr "a"; VNull]) {[1%nat := 30%nat]}
    0 (Some 1%nat) 2 3 [Some (-1)] false safe_not_equal true false.

Definition demo_world : @World unit :=
  MkWorld tt {[0%nat := demo_comp]}
    {[0%nat := []; 1%nat := [20%nat; 21%nat]; 2%nat := [10%nat]; 3%nat := [11%nat]]}
    4 0 idle ∅ ∅ 0 None [].

Lemma coalescing_witness :
  exists w1 w2 D,
    make_dirty_all 0 [0; 3; 40]%nat demo_world = (w1, Done tt) /\
    dirty_components (sched w1) = [0%nat] /\
    flush quiet 5 w1 = (w2, Done tt) /\
    update_calls 0 (trace w2)
    = update_calls 0 (trace demo_world)
      ++ [CUpdate 0; CPatch 0 7 (ctx demo_comp) D] /\
    (forall j, dirty_bit D j = true <-> j ∈ [0; 3; 40]%nat).
Proof.
  apply (coalescing quiet demo_world 0%nat demo_comp 7%nat [10%nat] [11%nat]
           [0; 3; 40]%nat 5%nat).
  - exact quiet_inert.
  - reflexivity.
  - reflexivity.
  - reflexivity.
  - reflexivity.
  - reflexivity.
  - reflexivity.
  - reflexivity.
  - reflexivity.
  - reflexivity.
  - reflexivity.
  - discriminate.
  - repeat constructor.
  - lia.
  - simpl. lia.
Defined.


(** [$$set] of component 0 assigns slot 1 through [$$invalidate]; every
    other piece of component code is quiet. *)
Definition set_assigns_slot (c : call) : M (App:=unit) (option ufn) :=
  match c with
  | CSet 0 => _ ← invalidate quiet 0 1 (VStr "b") []; mret None
  | _ => quiet c
  end.

(** C7, as stated, fails.  Inside [$set] the setter detects the change
    of slot 1 (from "a" to "b"), a binding callback is registered for
    that slot, and yet the only call into component code is [$$set]
    itself: the binding callback is not called.  The slot is marked all
    the same. *)
Lemma binding_skipped_inside_set :
  truthy (not_equal demo_comp (VStr "a") (VStr "b")) = true /\
  bound demo_comp !! 1%nat = Some 30%nat /\
  (dollar_set set_assigns_slot 0 true false demo_world).2 = Done tt /\
  trace (dollar_set set_assigns_slot 0 true false demo_world).1 = [Call (CSet 0)] /\
  dirty_components (sched (dollar_set set_assigns_slot 0 true false demo_world).1)
  = [0%nat].
Proof. vm_compute. repeat split. Qed.

Lemma invalidate_on_change_witness :
  exists a,
    invalidate quiet 0 1 (VStr "b") [] demo_world
    = mark_if_ready 0 1 (VStr "b")
        (touch a (trace demo_world ++ [Call (CBound 0 1 30 (VStr "b"))])
           (slot_written 0 demo_comp [VBool false; VStr "a"; VNull] 1
              (VStr "b") demo_world)).
Proof.
  exact (proj1 (proj2 (invalidate_on_change quiet 0%nat 1%nat (VStr "b") []
                         demo_world demo_comp [VBool false; VStr "a"; VNull]
                         eq_refl eq_refl eq_refl))
           30%nat eq_refl eq_refl (quiet_inert _)).
Defined.

(** C5, as stated, fails.  After [group_outros], a [transition_out] on a
    fragment with an outro method registers its completion closure, and
    the remaining count [r] of the group is still 0: it is not
    incremented. *)
Lemma transition_out_keeps_count :
  groups ((group_outros ≫= fun _ =>
             transition_out quiet (fun _ => true) (Some 5%nat) true true
               (Some 40%nat)) demo_world).1 !! 0%nat
  = Some (Group 0 [OutroCb 5 true (Some 40%nat)] None).
Proof. vm_compute. reflexivity. Qed.

(** A block (fragment 5) whose outro hook starts the outros of the two
    fragments nested in it, 6 and 7, and whose destroy function changes
    component 0; the hooks of 6 and 7 do nothing, as [noop]. *)
Definition outro_kids (b : block) (l : bool) : list outro_args :=
  if Nat.eqb b 5 then [OutroArgs 6 l false None; OutroArgs 7 l false None]
  else [].

Definition nested_outros (c : call) : M (App:=unit) (option ufn) :=
  match c with
  | COutro b l =>
      _ ← transition_out_all quiet (fun _ => true) (outro_kids b l); mret None
  | CFragDestroy b d =>
      if Nat.eqb b 5 && d then
        _ ← set_comp 0 (fun cs => set_on_destroy None (set_fragment FragNull cs));
        mret None
      else quiet c
  | _ => quiet c
  end.

Lemma nested_outros_hook b l w :
  exists a,
    nested_outros (COutro b l) w
    = (_ ← transition_out_all nested_outros (fun _ => true) (outro_kids b l);
       _ ← modify (set_app a); mret None) w.
Proof.
  exists tt. cbn [nested_outros]. unfold outro_kids.
  destruct (Nat.eqb b 5).
  - change (transition_out_all nested_outros (fun _ => true)
              [OutroArgs 6 l false None; OutroArgs 7 l false None])
      with (transition_out_all quiet (fun _ => true)
              [OutroArgs 6 l false None; OutroArgs 7 l false None]).
    rewrite !bind_eq.
    destruct (transition_out_all quiet (fun _ => true)
                [OutroArgs 6 l false None; OutroArgs 7 l false None] w)
      as [[[] ? ? ? ? ? ? ? ? ? ?] [[]| |]]; reflexivity.
  - destruct w as [[] ? ? ? ? ? ? ? ? ? ?]. reflexivity.
Defined.

Lemma nested_outros_framed c :
  match c with CFragDestroy _ _ | COutroCallback _ => True | _ => False end ->
  framed nested_outros (fun _ => True) c.
Proof.
  intros H w _. destruct c; try contradiction.
  - cbn [nested_outros]. destruct (Nat.eqb b 5 && detaching).
    + eexists _, None, []. split; [reflexivity|]. rewrite app_nil_r.
      now repeat split.
    + exists w, None, []. rewrite app_nil_r. now repeat split.
  - exists w, None, []. rewrite app_nil_r. now repeat split.
Defined.

Lemma outro_group_witness :
  exists w' ts,
    (group_outros ≫= fun _ =>
       transition_out_all nested_outros (fun _ => true)
         [OutroArgs 5 true true (Some 40%nat)]
       ≫= fun _ => check_outros nested_outros) demo_world
    = (w', Done tt)
    /\ trace w'
       = trace demo_world
         ++ (Call <$> [COutro 5 true; COutro 6 true; COutro 7 true])
         ++ concat ts
    /\ Forall2 closure_ran
         [OutroCb 5 true (Some 40%nat); OutroCb 6 false None; OutroCb 7 false None]
         ts
    /\ outro_done (trace w')
       = outro_done (trace demo_world)
         ++ [OutroCb 5 true (Some 40%nat); OutroCb 6 false None;
             OutroCb 7 false None]
    /\ outroing w' = outroing demo_world
    /\ outros w' = outros demo_world.
Proof.
  apply (proj2 (proj2 (proj2 (proj2 (outro_group_protocol nested_outros
                                        (fun _ => true)))))
           outro_kids (fun _ => True) (fun _ _ _ _ H => H)
           nested_outros_hook
           (fun b => nested_outros_framed (CFragDestroy b true) I)
           (fun f => nested_outros_framed (COutroCallback f) I)
           2%nat [OutroArgs 5 true true (Some 40%nat)] demo_world I).
  - repeat constructor.
  - repeat constructor.
  - cbn. repeat (apply NoDup_cons; split;
                 [rewrite ?elem_of_cons, elem_of_nil; intuition discriminate|]).
    apply NoDup_nil_2.
  - intros x _. apply not_elem_of_empty.
Defined.
(** A world in the middle of a flush. *)
Definition busy_world : @World unit := upd_sched (set_flushing true) demo_world.

Lemma flush_guard_witness :
  flush quiet 5 busy_world = (busy_world, Done tt) /\
  flush (reentrant quiet quiet 5) 5 demo_world = flush quiet 5 demo_world.
Proof.
  split.
  - apply (proj1 (flush_is_reentrancy_guarded quiet)). reflexivity.
  - apply (proj2 (flush_is_reentrancy_guarded quiet)). intros c w H. exact H.
Defined.


(** The [after_update] callback 11 of component 0 marks slot 0 of that
    component dirty again. *)
Definition redirty (c : call) : M (App:=unit) (option ufn) :=
  match c with
  | CRender 11 => _ ← make_dirty 0 0; mret None
  | _ => quiet c
  end.

Lemma make_dirty_frame {App} c i (w : @World App) :
  seen_callbacks (sched (make_dirty c i w).1) = seen_callbacks (sched w) /\
  trace (make_dirty c i w).1 = trace w.
Proof.
  destruct (comps w !! c) as [cs|] eqn:Hc.
  - destruct (decide (dirty cs !! 0%nat = Some (Some (-1)))) as [Hd|Hd].
    + rewrite (make_dirty_clean c i w cs Hc Hd). unfold queued. wsimpl.
      destruct (update_scheduled (sched w)); now wsimpl.
    + rewrite (make_dirty_again c i w cs Hc Hd). now wsimpl.
  - unfold make_dirty, get_comp. rewrite bind_eq, Hc. now split.
Qed.

Lemma redirty_frame c w :
  seen_callbacks (sched (redirty c w).1) = seen_callbacks (sched w) /\
  render_runs (trace (redirty c w).1) = render_runs (trace w).
Proof.
  assert (Hq : forall c',
    seen_callbacks (sched (quiet c' w).1) = seen_callbacks (sched w) /\
    render_runs (trace (quiet c' w).1) = render_runs (trace w)) by now split.
  destruct c; try apply Hq.
  unfold redirty.
  do 11 (destruct f as [|f]; [apply Hq|]).
  destruct f; [clear Hq|apply Hq].
  destruct (make_dirty_frame 0 0 w) as [Hs Ht].
  rewrite bind_eq. destruct (make_dirty 0 0 w) as [w' [[]| |]];
    cbn [fst] in *; rewrite ?ret_eq; cbn [fst]; now rewrite Hs, Ht.
Defined.

(** Component 0 of [demo_world], slot 2 marked. *)
Definition dirty_world : @World unit := (make_dirty 0 2 demo_world).1.

Lemma render_callbacks_fire_once_witness :
  exists new,
    render_runs (trace (flush redirty 5 dirty_world).1)
    = render_runs (trace dirty_world) ++ new /\
    NoDup new /\
    ((flush redirty 5 dirty_world).2 = Done tt ->
     flushing (sched dirty_world) = false ->
     seen_callbacks (sched (flush redirty 5 dirty_world).1) = []) /\
    ((flush redirty 5 dirty_world).2 <> Done tt ->
     forall r, r ∈ new ->
               r ∈ seen_callbacks (sched (flush redirty 5 dirty_world).1)).
Proof. exact (render_callbacks_fire_once redirty redirty_frame 5 dirty_world). Defined.

(** In that run the callback dirties the component, the loop makes a
    second pass that updates the component again, and the callback has
    been run once. *)
Example second_pass_does_not_refire :
  (flush redirty 5 dirty_world).2 = Done tt /\
  render_runs (trace (flush redirty 5 dirty_world).1) = [RUser 11] /\
  update_calls 0 (trace (flush redirty 5 dirty_world).1)
  = [CUpdate 0; CPatch 0 7 (ctx demo_comp) [Some 4];
     CUpdate 0; CPatch 0 7 (ctx demo_comp) [Some 1]].
Proof. vm_compute. repeat split. Qed.

(** The [on_mount] callback 50 returns the cleanup function 51. *)
Definition returns_cleanup (c : call) : M (App:=unit) (option ufn) :=
  fun w => (w, Done match c with COnMount 50 => Some 51%nat | _ => None end).

Definition mountable_world : @World unit :=
  set_arrays (<[0%nat := [50%nat]]> (arrays demo_world)) demo_world.

(** The cleanup functions a trace shows as called, from either place
    that calls them. *)
Definition cleanup_calls (t : list event) : list ufn :=
  omap (fun e => match e with
                 | Call (CCleanup f) => Some f
                 | Call (COnDestroy _ f) => Some f
                 | _ => None
                 end) t.

(** C10 on the code.  A component destroyed between [mount_component]
    and the flush that runs the mount closure: the closure tests the
    [on_destroy] array it captured at mount time, which is not [null], so
    the cleanup function 51 that [on_mount] returned is pushed on that
    orphaned array and is never called, although the component is
    destroyed.  Destroyed before [mount_component], the closure captures
    [null] and calls 51 at once. *)
Theorem cleanup_lost_when_destroyed_after_mount :
  let late :=
    (mount_component returns_cleanup 0 100 None false ≫= fun _ =>
     destroy_component returns_cleanup 0 true ≫= fun _ =>
     flush returns_cleanup 5) mountable_world in
  let early :=
    (destroy_component returns_cleanup 0 true ≫= fun _ =>
     mount_component returns_cleanup 0 100 None false ≫= fun _ =>
     flush returns_cleanup 5) mountable_world in
  late.2 = Done tt /\
  render_runs (trace late.1) = [RMount 0 0 0 (Some 1%nat); RUser 11] /\
  cleanup_calls (trace late.1) = [20; 21]%nat /\
  arrays late.1 !! 1%nat = Some [20; 21; 51]%nat /\
  on_destroy <$> comps late.1 !! 0%nat = Some None /\
  early.2 = Done tt /\
  cleanup_calls (trace early.1) = [20; 21; 51]%nat.
Proof. vm_compute. repeat split. Qed.

(** *** More of the scheduler and of the lifecycle *)

Section More.

Context {App : Type}.
Variable callf : call -> @World App -> @World App * status (option ufn).
Variable has_outro : block -> bool.

Lemma update_dead c w cs :
  comps w !! c = Some cs -> fragment cs = FragNull ->
  update callf c w = (w, Done tt).
Proof.
  intros Hc Hf. unfold update.
  rewrite (bind_done _ _ _ _ _ (get_comp_some _ _ _ Hc)). now rewrite Hf.
Qed.

(** The loops of [flush], one turn at a time. *)
Lemma update_dirty_end fuel i w :
  dirty_components (sched w) !! i = None ->
  update_dirty callf (S fuel) i w = (w, Done tt).
Proof. intros H. cbn [update_dirty]. mprim. now rewrite H. Qed.

Lemma update_dirty_step fuel i w c :
  dirty_components (sched w) !! i = Some c ->
  update_dirty callf (S fuel) i w
  = (_ ← set_current_component (Some c);
     _ ← update callf c;
     update_dirty callf fuel (S i)) w.
Proof. intros H. cbn [update_dirty]. mprim. now rewrite H. Qed.

Lemma run_binding_callbacks_none fuel w :
  binding_callbacks (sched w) = [] ->
  run_binding_callbacks callf (S fuel) w = (w, Done tt).
Proof. intros H. cbn [run_binding_callbacks]. mprim. now rewrite H. Qed.

Lemma run_flush_callbacks_none fuel w :
  flush_callbacks (sched w) = [] ->
  run_flush_callbacks callf (S fuel) w = (w, Done tt).
Proof. intros H. cbn [run_flush_callbacks]. mprim. now rewrite H. Qed.

Lemma run_render_callbacks_end fuel i w :
  render_callbacks (sched w) !! i = None ->
  run_render_callbacks callf (S fuel) i w = (w, Done tt).
Proof. intros H. cbn [run_render_callbacks]. mprim. now rewrite H. Qed.

Lemma drain_once passes fuel w w' :
  drain_pass callf fuel w = (w', Done tt) ->
  dirty_components (sched w') = [] ->
  drain callf (S passes) fuel w = (w', Done tt).
Proof. intros E H. cbn [drain]. muse E. mprim. now rewrite H. Qed.

(** [flush] on an idle scheduler, given what its one pass does. *)
Lemma flush_one_pass fuel w w' :
  flushing (sched w) = false ->
  drain_pass callf (S fuel) (upd_sched (set_flushing true) w) = (w', Done tt) ->
  dirty_components (sched w') = [] ->
  flush_callbacks (sched w') = [] ->
  flush callf (S fuel) w
  = (upd_sched (fun s => set_seen_callbacks []
                  (set_flushing false (set_update_scheduled false s))) w',
     Done tt).
Proof.
  intros Hfl Ep Hdc Hfc. unfold flush. mprim. rewrite Hfl. mprim.
  muse (drain_once fuel (S fuel) _ _ Ep Hdc).
  muse (run_flush_callbacks_none fuel w' Hfc).
  mprim. mprim. reflexivity.
Qed.

(** The scheduler after a [flush] that found nothing to call. *)
Definition settled (s : Sched) : Sched :=
  set_seen_callbacks []
    (set_flushing false
       (set_update_scheduled false
          (set_render_callbacks []
             (set_dirty_components [] (set_current_component' None s))))).

Lemma flush_dead c w cs fuel :
  flushing (sched w) = false ->
  dirty_components (sched w) = [c] ->
  binding_callbacks (sched w) = [] ->
  render_callbacks (sched w) = [] ->
  flush_callbacks (sched w) = [] ->
  comps w !! c = Some cs -> fragment cs = FragNull ->
  (2 <= fuel)%nat ->
  flush callf fuel w = (upd_sched settled w, Done tt).
Proof.
  intros Hfl Hdc Hbc Hrc Hfc Hc Hf Hfuel.
  destruct fuel as [|[|n]]; [lia|lia|].
  set (w0 := upd_sched (set_flushing true) w).
  assert (Hpass : drain_pass callf (S (S n)) w0
    = (upd_sched (fun s => set_render_callbacks []
                    (set_dirty_components [] (set_current_component' None s))) w0,
       Done tt)).
  { unfold drain_pass.
    rewrite (bind_eq (update_dirty _ _ _)), (update_dirty_step _ _ _ c)
      by (subst w0; wsimpl; now rewrite Hdc).
    mprim. set (w1 := upd_sched _ w0).
    assert (Hc1 : comps w1 !! c = Some cs) by exact Hc.
    muse (update_dead c w1 cs Hc1 Hf).
    rewrite update_dirty_end by (subst w1 w0; wsimpl; now rewrite Hdc).
    mprim. mprim. set (w3 := upd_sched (set_dirty_components []) _).
    muse (run_binding_callbacks_none (S n) w3
            ltac:(subst w3 w1 w0; wsimpl; now rewrite Hbc)).
    muse (run_render_callbacks_end (S n) 0 w3
            ltac:(subst w3 w1 w0; wsimpl; now rewrite Hrc)).
    reflexivity. }
  rewrite (flush_one_pass _ _ _ Hfl Hpass); [| |subst w0; wsimpl; now rewrite Hfc].
  - reflexivity.
  - reflexivity.
Qed.

(** A component that is marked dirty and then destroyed before the
    flush: [destroy_component] leaves it in [dirty_components], and the
    [flush] that follows returns without a single call into component
    code, so the component is neither updated nor patched. *)
Theorem destroyed_component_is_not_updated c i d w cs b l fs fuel :
  (forall c' f, inert callf (COnDestroy c' f)) ->
  (forall b' d', inert callf (CFragDestroy b' d')) ->
  flushing (sched w) = false ->
  dirty_components (sched w) = [] ->
  binding_callbacks (sched w) = [] ->
  render_callbacks (sched w) = [] ->
  flush_callbacks (sched w) = [] ->
  comps w !! c = Some cs ->
  fragment cs = Frag b ->
  dirty cs !! 0%nat = Some (Some (-1)) ->
  on_destroy cs = Some l ->
  arrays w !! l = Some fs ->
  (2 <= fuel)%nat ->
  exists w1 w2 w3,
    make_dirty c i w = (w1, Done tt) /\
    destroy_component callf c d w1 = (w2, Done tt) /\
    dirty_components (sched w2) = [c] /\
    flush callf fuel w2 = (w3, Done tt) /\
    trace w3 = trace w2 /\
    app w3 = app w2 /\
    comps w3 = comps w2 /\
    dirty_components (sched w3) = [].
Proof.
  intros Hod Hfd Hfl Hdc Hbc Hrc Hfc Hc Hf Hd Hl Ha Hfuel.
  pose proof (make_dirty_clean c i w cs Hc Hd) as E1.
  match type of E1 with _ = (?x, _) => set (w1 := x) in E1 end.
  set (cs1 := set_dirty (marked (replicate (length (dirty cs)) (Some 0)) i) cs)
    in w1.
  assert (Hc1 : comps w1 !! c = Some cs1) by (subst w1; wsimpl; apply lookup_insert_eq).
  destruct (destroy_component_live callf c d w1 cs1 l fs Hod Hfd Hc1)
    as (a & t & E2 & _).
  { subst cs1. cbn [fragment set_dirty]. now rewrite Hf. }
  { exact Hl. }
  { exact Ha. }
  match type of E2 with _ = (?x, _) => set (w2 := x) in E2 end.
  assert (Hs2 : sched w2 = queued c (sched w)) by reflexivity.
  assert (Hq : forall s, dirty_components (queued c s) = dirty_components s ++ [c]
                         /\ flushing (queued c s) = flushing s
                         /\ binding_callbacks (queued c s) = binding_callbacks s
                         /\ render_callbacks (queued c s) = render_callbacks s
                         /\ flush_callbacks (queued c s) = flush_callbacks s).
  { intros s. unfold queued. cbn [update_scheduled set_dirty_components].
    destruct (update_scheduled s); now wsimpl. }
  destruct (Hq (sched w)) as (Q1 & Q2 & Q3 & Q4 & Q5).
  exists w1, w2, (upd_sched settled w2).
  split; [exact E1|]. split; [exact E2|].
  split; [rewrite Hs2, Q1, Hdc; reflexivity|].
  split; [|now repeat split].
  apply (flush_dead c w2 (set_ctx (Some []) (set_on_destroy None
                                               (set_fragment FragNull cs1))));
    rewrite ?Hs2; try congruence.
  - rewrite Q1, Hdc. reflexivity.
  - subst w2. wsimpl. apply lookup_insert_eq.
  - reflexivity.
Qed.

(** No outro group was ever opened ([outros] is undefined):
    [check_outros] throws and changes nothing; [transition_out] of a
    block with an outro throws too, but only after it has put the block
    in [outroing], so that a later [transition_out] of that block returns
    at once: no [o] call, no completion registered. *)
Theorem outros_undefined (w : @World App) :
  outros w = None ->
  check_outros callf w = (w, Thrown) /\
  (forall b local detach callback,
     has_outro b = true -> b ∉ outroing w ->
     let w' := set_outroing (outroing w ∪ {[b]}) w in
     transition_out callf has_outro (Some b) local detach callback w
     = (w', Thrown) /\
     forall local' detach' callback',
       transition_out callf has_outro (Some b) local' detach' callback' w'
       = (w', Done tt)).
Proof.
  intros Ho. split.
  - unfold check_outros. rewrite bind_eq. unfold current_group. now rewrite Ho.
  - intros b local detach callback Hb Hn w'. split.
    + unfold transition_out. rewrite Hb. mprim. rewrite decide_False by exact Hn.
      mprim. rewrite bind_eq. unfold current_group. fold w'.
      change (outros w') with (outros w). now rewrite Ho.
    + intros local' detach' callback'. unfold transition_out. rewrite Hb. mprim.
      rewrite decide_True; [reflexivity|].
      subst w'. wsimpl. apply elem_of_union_r. now apply elem_of_singleton.
Qed.

End More.

(** *** From [onMount] to [onDestroy] *)

(** The [on_mount] callbacks a trace shows as called, in call order. *)
Definition on_mount_calls (t : list event) : list ufn :=
  omap (fun e => match e with Call (COnMount f) => Some f | _ => None end) t.

(** The events of the user render callbacks that [flush] runs. *)
Definition render_only (t : list event) : Prop :=
  Forall (fun e => match e with
                   | Render (RUser _) | Call (CRender _) => True
                   | _ => False
                   end) t.

Lemma on_mount_calls_app t1 t2 :
  on_mount_calls (t1 ++ t2) = on_mount_calls t1 ++ on_mount_calls t2.
Proof. apply omap_app. Qed.

Lemma on_mount_calls_run fs : on_mount_calls (Call ∘ COnMount <$> fs) = fs.
Proof.
  induction fs as [|f fs IH]; [reflexivity|].
  change (on_mount_calls (Call ∘ COnMount <$> f :: fs))
    with (f :: on_mount_calls (Call ∘ COnMount <$> fs)).
  now rewrite IH.
Qed.

Lemma render_only_quiet t c :
  render_only t -> on_mount_calls t = [] /\ on_destroy_calls c t = [].
Proof.
  induction 1 as [|e t He _ [IH1 IH2]]; [now split|].
  destruct e as [[]|[]|]; try contradiction; now split.
Qed.

(** The user render callbacks of one pass of [flush]. *)
Section Rendering.

Context {App : Type}.
Variable callf : call -> @World App -> @World App * status (option ufn).
Hypothesis Hrender : forall f, inert callf (CRender f).

Lemma run_rcb_user f w :
  exists a,
    run_rcb callf (RUser f) w
    = (touch a (trace w ++ [Render (RUser f); Call (CRender f)]) w, Done tt).
Proof.
  unfold run_rcb, log, modify. mprim.
  set (w1 := set_trace _ _).
  destruct (call_touch callf (CRender f) w1 (Hrender f)) as (a & E).
  exists a. rewrite E. f_equal. subst w1. unfold touch. wsimpl.
  now rewrite <- app_assoc.
Qed.

Lemma run_render_users :
  forall n i w,
    (forall j r, (i <= j)%nat -> render_callbacks (sched w) !! j = Some r ->
                 is_user r) ->
    (length (render_callbacks (sched w)) - i < n)%nat ->
    exists a t s,
      run_render_callbacks callf n i w
      = (touch a (trace w ++ t) (upd_sched (set_seen_callbacks s) w), Done tt) /\
      render_only t.
Proof.
  induction n as [|n IH]; intros i w Hu Hlen; [lia|].
  cbn [run_render_callbacks]. mprim.
  destruct (render_callbacks (sched w) !! i) as [cb|] eqn:Hi.
  - assert (Hnext : forall w',
      render_callbacks (sched w') = render_callbacks (sched w) ->
      exists a t s,
        run_render_callbacks callf n (S i) w'
        = (touch a (trace w' ++ t) (upd_sched (set_seen_callbacks s) w'), Done tt)
        /\ render_only t).
    { intros w' E. apply IH.
      - intros j r Hj. rewrite E. apply Hu. lia.
      - rewrite E. apply lookup_lt_Some in Hi. lia. }
    destruct (decide (cb ∈ seen_callbacks (sched w))) as [Hs|Hs].
    + destruct (Hnext w eq_refl) as (a & t & s & E & Ht).
      exists a, t, s. now split.
    + pose proof (Hu i cb (le_n i) Hi) as Hcb. destruct cb as [f|]; [|contradiction].
      mprim. set (w0 := upd_sched _ w).
      destruct (run_rcb_user f w0) as (a1 & E1). muse E1.
      set (w2 := touch a1 _ w0).
      destruct (Hnext w2 eq_refl) as (a & t & s & E & Ht).
      rewrite E. exists a, (Render (RUser f) :: Call (CRender f) :: t), s.
      split.
      * f_equal. subst w2 w0. destruct w as [? ? ? ? ? s0 ? ? ? ? ?]. destruct s0.
        unfold touch. wnorm. f_equal. trace_eq.
      * repeat constructor. exact Ht.
  - exists (app w), [], (seen_callbacks (sched w)). rewrite ret_eq, app_nil_r.
    split; [|constructor]. f_equal.
    destruct w as [? ? ? ? ? s0 ? ? ? ? ?]. now destruct s0.
Qed.

End Rendering.

Section Mounting.

Context {App : Type}.
Variable callf : call -> @World App -> @World App * status (option ufn).

(** The cleanup function an [on_mount] callback returns, if any. *)
Variable cleanup : ufn -> option ufn.

Hypothesis Hinert : forall x, inert callf x.
Hypothesis Hmount : forall f w,
  exists a, callf (COnMount f) w = (set_app a w, Done (cleanup f)).

Lemma invoke_on_mount f w :
  exists a,
    invoke callf (COnMount f) w
    = (touch a (trace w ++ [Call (COnMount f)]) w, Done (cleanup f)).
Proof.
  unfold invoke, log, modify. rewrite bind_eq.
  destruct (Hmount f (set_trace (trace w ++ [Call (COnMount f)]) w)) as (a & E).
  exists a. exact E.
Qed.

Lemma map_run_cleanup l fs :
  forall todo k w,
    arrays w !! l = Some fs ->
    exists a,
      map_run callf l k todo w
      = (touch a (trace w ++ (Call ∘ COnMount <$> take todo (drop k fs))) w,
         Done (omap cleanup (take todo (drop k fs)))).
Proof.
  induction todo as [|todo IH]; intros k w Hl.
  - exists (app w). cbn [map_run take fmap list_fmap omap list_omap].
    rewrite app_nil_r, touch_id. reflexivity.
  - cbn [map_run]. rewrite (bind_done _ _ _ _ _ (read_array_some _ _ _ Hl)).
    destruct (fs !! k) as [f|] eqn:Hk.
    + destruct (invoke_on_mount f w) as (a & E). rewrite (bind_done _ _ _ _ _ E).
      destruct (IH (S k) (touch a (trace w ++ [Call (COnMount f)]) w) Hl)
        as (a' & E').
      rewrite (bind_done _ _ _ _ _ E'). exists a'. rewrite ret_eq, touch_touch.
      rewrite (drop_S _ _ _ Hk). cbn [take fmap list_fmap omap list_omap].
      unfold touch; wsimpl. rewrite <- app_assoc. cbn [app].
      now destruct (cleanup f).
    + destruct (IH (S k) w Hl) as (a' & E'). exists a'. rewrite E'.
      apply lookup_ge_None in Hk.
      rewrite !drop_ge by lia. now rewrite !take_nil.
Qed.

Lemma mount_callback_live c lm ld ms w :
  arrays w !! lm = Some ms ->
  exists a,
    mount_callback callf c lm (Some ld) w
    = (set_comps (alter (set_on_mount (next_loc w)) c (comps w))
         (set_next_loc (S (next_loc w))
            (set_arrays
               (<[next_loc w := []]>
                  (alter (fun old => old ++ omap cleanup ms) ld (arrays w)))
               (touch a (trace w ++ (Call ∘ COnMount <$> ms)) w))),
       Done tt).
Proof.
  intros Hl. unfold mount_callback.
  rewrite (bind_done _ _ _ _ _ (read_array_some _ _ _ Hl)).
  destruct (map_run_cleanup lm ms (length ms) 0 w Hl) as (a & E).
  rewrite drop_0, firstn_all in E. rewrite (bind_done _ _ _ _ _ E).
  exists a. unfold push_array. mprim. unfold alloc_array. mprim.
  unfold set_comp, modify. reflexivity.
Qed.

Lemma run_rcb_mount id c lm ld ms w :
  arrays w !! lm = Some ms ->
  exists a,
    run_rcb callf (RMount id c lm (Some ld)) w
    = (set_comps (alter (set_on_mount (next_loc w)) c (comps w))
         (set_next_loc (S (next_loc w))
            (set_arrays
               (<[next_loc w := []]>
                  (alter (fun old => old ++ omap cleanup ms) ld (arrays w)))
               (touch a (trace w ++ Render (RMount id c lm (Some ld))
                                    :: (Call ∘ COnMount <$> ms)) w))),
       Done tt).
Proof.
  intros Hl. unfold run_rcb, log, modify. mprim.
  set (w1 := set_trace _ _).
  destruct (mount_callback_live c lm ld ms w1 Hl) as (a & E).
  exists a. rewrite E. f_equal. subst w1. unfold touch. wsimpl.
  now rewrite <- app_assoc.
Qed.

Lemma mount_component_live c target anchor w cs b au :
  comps w !! c = Some cs -> fragment cs = Frag b ->
  arrays w !! after_update cs = Some au ->
  exists a,
    mount_component callf c target anchor false w
    = (upd_sched (fun s =>
         set_render_callbacks
           ((render_callbacks s
             ++ [RMount (next_closure w) c (on_mount cs) (on_destroy cs)])
            ++ (RUser <$> au)) s)
         (set_next_closure (S (next_closure w))
            (touch a (trace w ++ [Call (CFragMount b target anchor)]) w)),
       Done tt).
Proof.
  intros Hc Hf Hau. unfold mount_component.
  rewrite (bind_done _ _ _ _ _ (get_comp_some _ _ _ Hc)), Hf.
  destruct (call_touch callf (CFragMount b target anchor) w (Hinert _)) as (a & E).
  muse E. set (w1 := touch a _ w). exists a.
  assert (Hrc : (w0 ← get;
                 _ ← modify (set_next_closure (S (next_closure w0)));
                 add_render_callback
                   (RMount (next_closure w0) c (on_mount cs) (on_destroy cs))) w1
    = (upd_sched (fun s =>
         set_render_callbacks
           (render_callbacks s
            ++ [RMount (next_closure w) c (on_mount cs) (on_destroy cs)]) s)
         (set_next_closure (S (next_closure w)) w1), Done tt)).
  { mprim. mprim. reflexivity. }
  muse Hrc.
  match goal with |- (_ ≫= _) ?x = _ => set (w2 := x) end.
  assert (Hau2 : arrays w2 !! after_update cs = Some au) by exact Hau.
  rewrite (bind_done _ _ _ _ _ (read_array_some _ _ _ Hau2)).
  unfold modify. reflexivity.
Qed.

(** From mount to destroy.  On an idle scheduler, [mount_component]
    followed by [flush] calls every [on_mount] callback once, in order;
    the functions they return are appended to [on_destroy], and
    [on_mount] is replaced by an empty array; [destroy_component] then
    calls the earlier [on_destroy] callbacks followed by those returned
    functions, each once. *)
Theorem mounted_callbacks_run_once c target anchor d w cs b ms ld ds au fuel :
  flushing (sched w) = false ->
  dirty_components (sched w) = [] ->
  binding_callbacks (sched w) = [] ->
  render_callbacks (sched w) = [] ->
  flush_callbacks (sched w) = [] ->
  seen_callbacks (sched w) = [] ->
  comps w !! c = Some cs ->
  fragment cs = Frag b ->
  arrays w !! on_mount cs = Some ms ->
  on_destroy cs = Some ld ->
  arrays w !! ld = Some ds ->
  arrays w !! after_update cs = Some au ->
  arrays w !! next_loc w = None ->
  (length au + 1 < fuel)%nat ->
  exists w1 w2 w3,
    mount_component callf c target anchor false w = (w1, Done tt) /\
    flush callf fuel w1 = (w2, Done tt) /\
    on_mount_calls (trace w2) = on_mount_calls (trace w) ++ ms /\
    arrays w2 !! ld = Some (ds ++ omap cleanup ms) /\
    (exists cs2, comps w2 !! c = Some cs2 /\ arrays w2 !! on_mount cs2 = Some []) /\
    destroy_component callf c d w2 = (w3, Done tt) /\
    on_destroy_calls c (trace w3)
    = on_destroy_calls c (trace w) ++ ds ++ omap cleanup ms.
Proof.
  intros Hfl Hdc Hbc Hrc Hfc Hsc Hc Hf Hm Hd Hds Hau Hfresh Hfuel.
  destruct fuel as [|n]; [lia|].
  destruct (mount_component_live c target anchor w cs b au Hc Hf Hau) as (a1 & E1).
  match type of E1 with _ = (?x, _) => set (w1 := x) in E1 end.
  set (mc := RMount (next_closure w) c (on_mount cs) (Some ld)).
  assert (Hrc1 : render_callbacks (sched w1) = mc :: (RUser <$> au)).
  { subst w1 mc. unfold touch. wsimpl. now rewrite Hrc, Hd. }
  set (w0 := upd_sched (set_flushing true) w1).
  (* the pass *)
  set (w3 := upd_sched (set_dirty_components [])
               (upd_sched (set_current_component' None) w0)).
  set (w4 := upd_sched (fun s => set_seen_callbacks (seen_callbacks s ++ [mc]) s) w3).
  assert (Hm4 : arrays w4 !! on_mount cs = Some ms) by exact Hm.
  destruct (run_rcb_mount (next_closure w) c (on_mount cs) ld ms w4 Hm4) as (a2 & E2).
  fold mc in E2.
  match type of E2 with _ = (?x, _) => set (w5 := x) in E2 end.
  destruct (run_render_users callf (fun f => Hinert _) n 1 w5) as (a3 & t3 & s3 & E3 & Ht3).
  { intros j r Hj Hr. change (render_callbacks (sched w5))
      with (render_callbacks (sched w1)) in Hr. rewrite Hrc1 in Hr.
    destruct j as [|j]; [lia|]. change ((RUser <$> au) !! j = Some r) in Hr.
    rewrite list_lookup_fmap in Hr.
    destruct (au !! j); [|discriminate]. injection Hr as <-. exact I. }
  { change (render_callbacks (sched w5)) with (render_callbacks (sched w1)).
    rewrite Hrc1. cbn [length]. rewrite length_fmap. lia. }
  match type of E3 with _ = (?x, _) => set (w6 := x) in E3 end.
  assert (Hpass : drain_pass callf (S n) w0
                  = (upd_sched (set_render_callbacks []) w6, Done tt)).
  { unfold drain_pass.
    rewrite (bind_eq (update_dirty _ _ _)), update_dirty_end
      by (subst w0 w1; unfold touch; wsimpl; now rewrite Hdc).
    mprim. mprim. fold w3.
    muse (run_binding_callbacks_none callf n w3
            ltac:(subst w3 w0 w1; unfold touch; wsimpl; now rewrite Hbc)).
    assert (Hrr : run_render_callbacks callf (S n) 0 w3 = (w6, Done tt)).
    { cbn [run_render_callbacks]. mprim.
      change (render_callbacks (sched w3)) with (render_callbacks (sched w1)).
      rewrite Hrc1. cbn [lookup list_lookup].
      rewrite decide_False.
      2:{ change (seen_callbacks (sched w3)) with (seen_callbacks (sched w)).
          rewrite Hsc. apply not_elem_of_nil. }
      mprim. fold w4. muse E2. exact E3. }
    muse Hrr. reflexivity. }
  pose proof (flush_one_pass callf n w1 _ Hfl Hpass eq_refl Hfc) as Efl.
  match type of Efl with _ = (?x, _) => set (w2 := x) in Efl end.
  assert (Htr : trace w2 = trace w ++ [Call (CFragMount b target anchor)]
                  ++ Render mc :: (Call ∘ COnMount <$> ms) ++ t3).
  { subst w2 w6 w5 w4 w3 w0 w1. unfold touch. wsimpl. trace_eq. }
  assert (Hne : next_loc w <> ld).
  { intros E. rewrite E in Hfresh. congruence. }
  assert (Har : arrays w2
                = <[next_loc w := []]>
                    (alter (fun old => old ++ omap cleanup ms) ld (arrays w)))
    by reflexivity.
  assert (Hcm : comps w2 = alter (set_on_mount (next_loc w)) c (comps w))
    by reflexivity.
  assert (Hld : arrays w2 !! ld = Some (ds ++ omap cleanup ms)).
  { rewrite Har, lookup_insert_ne, lookup_alter_eq, Hds by exact Hne. reflexivity. }
  assert (Hc2 : comps w2 !! c = Some (set_on_mount (next_loc w) cs)).
  { rewrite Hcm, lookup_alter_eq, Hc. reflexivity. }
  destruct (destroy_component_live callf c d w2 (set_on_mount (next_loc w) cs) ld
              (ds ++ omap cleanup ms)) as (a4 & t4 & E4 & Ht4); auto.
  { cbn [fragment set_on_mount]. rewrite Hf. discriminate. }
  destruct (render_only_quiet t3 c Ht3) as [Hq1 Hq2].
  eexists w1, w2, _. split; [exact E1|]. split; [exact Efl|].
  split.
  { rewrite Htr. rewrite !on_mount_calls_app.
    change (Render mc :: (Call ∘ COnMount <$> ms) ++ t3)
      with ([Render mc] ++ (Call ∘ COnMount <$> ms) ++ t3).
    rewrite !on_mount_calls_app, on_mount_calls_run, Hq1.
    cbn [on_mount_calls omap list_omap app]. now rewrite app_nil_r. }
  split; [exact Hld|]. split.
  { eexists. split; [exact Hc2|]. cbn [on_mount set_on_mount].
    rewrite Har. apply lookup_insert_eq. }
  split; [exact E4|].
  unfold touch. wsimpl. rewrite Htr.
  change (Render mc :: (Call ∘ COnMount <$> ms) ++ t3)
    with ([Render mc] ++ (Call ∘ COnMount <$> ms) ++ t3).
  rewrite !on_destroy_calls_app, on_destroy_calls_run, Ht4, Hq2.
  replace (on_destroy_calls c (Call ∘ COnMount <$> ms)) with (@nil nat).
  - cbn [on_destroy_calls omap list_omap app]. now rewrite !app_nil_r.
  - clear. induction ms as [|m ms IH]; [reflexivity|exact IH].
Qed.
End Mounting.

(** *** Concrete worlds, continued *)

Lemma destroyed_not_updated_witness :
  exists w1 w2 w3,
    make_dirty 0 1 demo_world = (w1, Done tt) /\
    destroy_component quiet 0 true w1 = (w2, Done tt) /\
    dirty_components (sched w2) = [0%nat] /\
    flush quiet 5 w2 = (w3, Done tt) /\
    trace w3 = trace w2 /\
    app w3 = app w2 /\
    comps w3 = comps w2 /\
    dirty_components (sched w3) = [].
Proof.
  apply (destroyed_component_is_not_updated quiet 0%nat 1%nat true demo_world
           demo_comp 7%nat 1%nat [20; 21]%nat 5%nat).
  - intros c f. apply quiet_inert.
  - intros b d. apply quiet_inert.
  - reflexivity.
  - reflexivity.
  - reflexivity.
  - reflexivity.
  - reflexivity.
  - reflexivity.
  - reflexivity.
  - reflexivity.
  - reflexivity.
  - reflexivity.
  - lia.
Defined.

Lemma outros_undefined_witness :
  check_outros quiet demo_world = (demo_world, Thrown) /\
  transition_out quiet (fun _ => true) (Some 7%nat) true true None demo_world
  = (set_outroing (outroing demo_world ∪ {[7%nat]}) demo_world, Thrown).
Proof.
  destruct (outros_undefined quiet (fun _ => true) demo_world eq_refl) as [H1 H2].
  split; [exact H1|].
  apply (H2 7%nat true true None eq_refl). apply not_elem_of_empty.
Defined.

(** What the [on_mount] callbacks of [returns_cleanup] return. *)
Definition cleanup_of (f : ufn) : option ufn :=
  match f with 50%nat => Some 51%nat | _ => None end.

Lemma returns_cleanup_inert c : inert returns_cleanup c.
Proof.
  intros w. exists tt. eexists. destruct w as [[] ? ? ? ? ? ? ? ? ? ?]. reflexivity.
Defined.

Lemma returns_cleanup_on_mount f w :
  exists a, returns_cleanup (COnMount f) w = (set_app a w, Done (cleanup_of f)).
Proof. exists tt. destruct w as [[] ? ? ? ? ? ? ? ? ? ?]. reflexivity. Defined.

Lemma mounted_callbacks_witness :
  exists w1 w2 w3,
    mount_component returns_cleanup 0 100 None false mountable_world
    = (w1, Done tt) /\
    flush returns_cleanup 5 w1 = (w2, Done tt) /\
    on_mount_calls (trace w2) = on_mount_calls (trace mountable_world) ++ [50%nat] /\
    arrays w2 !! 1%nat = Some ([20; 21]%nat ++ omap cleanup_of [50%nat]) /\
    (exists cs2, comps w2 !! 0%nat = Some cs2 /\
                 arrays w2 !! on_mount cs2 = Some []) /\
    destroy_component returns_cleanup 0 true w2 = (w3, Done tt) /\
    on_destroy_calls 0 (trace w3)
    = on_destroy_calls 0 (trace mountable_world)
      ++ [20; 21]%nat ++ omap cleanup_of [50%nat].
Proof.
  apply (mounted_callbacks_run_once returns_cleanup cleanup_of
           returns_cleanup_inert returns_cleanup_on_mount
           0%nat 100%nat None true mountable_world demo_comp 7%nat [50%nat]
           1%nat [20; 21]%nat [11%nat] 5%nat); try reflexivity.
  cbn. lia.
Defined.

(** *** The order of updates *)

(** The components whose [$$.update] a trace shows as called, and those
    whose fragment was patched, in call order. *)
Definition updated (t : list event) : list comp :=
  omap (fun e => match e with Call (CUpdate c) => Some c | _ => None end) t.

Definition patched (t : list event) : list comp :=
  omap (fun e => match e with Call (CPatch c _ _ _) => Some c | _ => None end) t.

Lemma updated_app t1 t2 : updated (t1 ++ t2) = updated t1 ++ updated t2.
Proof. apply omap_app. Qed.

Lemma patched_app t1 t2 : patched (t1 ++ t2) = patched t1 ++ patched t2.
Proof. apply omap_app. Qed.

Lemma render_only_no_update t : render_only t -> updated t = [] /\ patched t = [].
Proof.
  induction 1 as [|e t He _ [IH1 IH2]]; [now split|].
  destruct e as [[]|[]|]; try contradiction; now split.
Qed.

Lemma before_update_no_update c fs :
  updated (Call ∘ CBeforeUpdate c <$> fs) = [] /\
  patched (Call ∘ CBeforeUpdate c <$> fs) = [].
Proof. induction fs as [|f fs IH]; [now split|exact IH]. Qed.

Section Order.

Context {App : Type}.
Variable callf : call -> @World App -> @World App * status (option ufn).
Hypothesis Hinert : forall x, inert callf x.

(** A component that [update] can run: it has a fragment, and its
    callback arrays exist. *)
Definition live (w : @World App) (c : comp) : Prop :=
  exists cs b bu au,
    comps w !! c = Some cs /\ fragment cs = Frag b /\
    arrays w !! before_update cs = Some bu /\
    arrays w !! after_update cs = Some au.

(** The number of [after_update] callbacks of a component. *)
Definition after_count (w : @World App) (c : comp) : nat :=
  match comps w !! c with
  | Some cs => match arrays w !! after_update cs with
               | Some au => length au
               | None => 0
               end
  | None => 0
  end.

(** What one [update] leaves alone. *)
Record update_frame (w w' : @World App) : Prop := UpdateFrame {
  uf_live : forall c, live w c -> live w' c;
  uf_count : forall c, after_count w' c = after_count w c;
  uf_dirty : dirty_components (sched w') = dirty_components (sched w);
  uf_binding : binding_callbacks (sched w') = binding_callbacks (sched w);
  uf_flush : flush_callbacks (sched w') = flush_callbacks (sched w);
  uf_flushing : flushing (sched w') = flushing (sched w);
  uf_seen : seen_callbacks (sched w') = seen_callbacks (sched w);
  uf_clean : forall c, dirty <$> comps w !! c = Some [Some (-1)] ->
                       dirty <$> comps w' !! c = Some [Some (-1)]
}.

Lemma update_frame_refl w : update_frame w w.
Proof. now split. Qed.

Lemma update_frame_trans w1 w2 w3 :
  update_frame w1 w2 -> update_frame w2 w3 -> update_frame w1 w3.
Proof.
  intros [L1 C1 D1 B1 F1 G1 S1 K1] [L2 C2 D2 B2 F2 G2 S2 K2].
  split; [auto| |congruence..|auto].
  intros c. rewrite C2. apply C1.
Qed.

Lemma update_one c w :
  live w c ->
  Forall is_user (render_callbacks (sched w)) ->
  exists w',
    update callf c w = (w', Done tt) /\
    updated (trace w') = updated (trace w) ++ [c] /\
    patched (trace w') = patched (trace w) ++ [c] /\
    update_frame w w' /\
    Forall is_user (render_callbacks (sched w')) /\
    length (render_callbacks (sched w'))
    = (length (render_callbacks (sched w)) + after_count w c)%nat /\
    dirty <$> comps w' !! c = Some [Some (-1)].
Proof.
  intros (cs & b & bu & au & Hc & Hf & Hbu & Hau) Hu.
  destruct (update_live callf c w cs b bu au Hinert Hc Hf Hbu Hau) as (a & E).
  eexists. split; [exact E|].
  assert (Hlk : forall c', (<[c := set_dirty [Some (-1)] cs]> (comps w)) !! c'
                           = if decide (c' = c) then Some (set_dirty [Some (-1)] cs)
                             else comps w !! c').
  { intros c'. destruct (decide (c' = c)) as [->|Hne].
    - apply lookup_insert_eq.
    - now apply lookup_insert_ne. }
  unfold touch. wsimpl. repeat split.
  - rewrite updated_app.
    change (Call (CUpdate c) :: (Call ∘ CBeforeUpdate c <$> bu)
              ++ [Call (CPatch c b (ctx cs) (dirty cs))])
      with ([Call (CUpdate c)] ++ (Call ∘ CBeforeUpdate c <$> bu)
              ++ [Call (CPatch c b (ctx cs) (dirty cs))]).
    rewrite !updated_app, (proj1 (before_update_no_update c bu)). reflexivity.
  - rewrite patched_app.
    change (Call (CUpdate c) :: (Call ∘ CBeforeUpdate c <$> bu)
              ++ [Call (CPatch c b (ctx cs) (dirty cs))])
      with ([Call (CUpdate c)] ++ (Call ∘ CBeforeUpdate c <$> bu)
              ++ [Call (CPatch c b (ctx cs) (dirty cs))]).
    rewrite !patched_app, (proj2 (before_update_no_update c bu)). reflexivity.
  - intros c' (cs' & b' & bu' & au' & Hc' & Hf' & Hbu' & Hau').
    unfold live. wsimpl. rewrite Hlk. destruct (decide (c' = c)) as [->|Hne].
    + exists (set_dirty [Some (-1)] cs), b, bu, au. now repeat split.
    + exists cs', b', bu', au'. now repeat split.
  - intros c'. unfold after_count. wsimpl. rewrite Hlk.
    destruct (decide (c' = c)) as [->|Hne]; [|reflexivity].
    rewrite Hc. reflexivity.
  - intros c' Hcl. rewrite Hlk. destruct (decide (c' = c)); [reflexivity|exact Hcl].
  - apply Forall_app. split; [exact Hu|].
    apply Forall_fmap, Forall_true. intros ?. exact I.
  - rewrite length_app, length_fmap. unfold after_count. now rewrite Hc, Hau.
  - rewrite Hlk, decide_True by reflexivity. reflexivity.
Qed.

Lemma update_dirty_all q :
  forall fuel i w,
    dirty_components (sched w) = q ->
    (forall c, c ∈ q -> live w c) ->
    Forall is_user (render_callbacks (sched w)) ->
    (length q - i < fuel)%nat ->
    exists w',
      update_dirty callf fuel i w = (w', Done tt) /\
      updated (trace w') = updated (trace w) ++ drop i q /\
      patched (trace w') = patched (trace w) ++ drop i q /\
      update_frame w w' /\
      Forall is_user (render_callbacks (sched w')) /\
      length (render_callbacks (sched w'))
      = (length (render_callbacks (sched w))
         + sum_list (after_count w <$> drop i q))%nat /\
      (forall c, c ∈ drop i q -> dirty <$> comps w' !! c = Some [Some (-1)]).
Proof.
  induction fuel as [|fuel IH]; intros i w Hq Hlive Hu Hfuel; [lia|].
  destruct (q !! i) as [c|] eqn:Hi.
  - rewrite (update_dirty_step callf fuel i w c) by now rewrite Hq.
    mprim. set (w1 := upd_sched _ w).
    assert (Hlive1 : forall c', live w c' -> live w1 c') by (intros c' H; exact H).
    destruct (update_one c w1) as (w2 & E2 & Hup & Hpa & Hfr & Hu2 & Hlen & Hcl).
    { apply Hlive1, Hlive. eapply list_elem_of_lookup_2. exact Hi. }
    { exact Hu. }
    muse E2.
    destruct (IH (S i) w2) as (w3 & E3 & Hup3 & Hpa3 & Hfr3 & Hu3 & Hlen3 & Hcl3).
    { rewrite (uf_dirty _ _ Hfr). exact Hq. }
    { intros c' Hc'. apply (uf_live _ _ Hfr), Hlive1, Hlive, Hc'. }
    { exact Hu2. }
    { apply lookup_lt_Some in Hi. lia. }
    exists w3. split; [exact E3|]. rewrite (drop_S _ _ _ Hi).
    split; [rewrite Hup3, Hup; cbn [app]; now rewrite <- app_assoc|].
    split; [rewrite Hpa3, Hpa; cbn [app]; now rewrite <- app_assoc|].
    split.
    { apply (update_frame_trans w w2); [|exact Hfr3].
      destruct Hfr. split; auto. }
    split; [exact Hu3|]. split.
    { rewrite Hlen3, Hlen. cbn [fmap list_fmap sum_list].
      change (render_callbacks (sched w1)) with (render_callbacks (sched w)).
      change (after_count w1 c) with (after_count w c).
      replace (after_count w2 <$> drop (S i) q)
        with (after_count w <$> drop (S i) q); [unfold id; lia|].
      apply list_fmap_ext. intros ? c' _. symmetry. apply (uf_count _ _ Hfr). }
    intros c' Hc'. apply elem_of_cons in Hc' as [->|Hc'].
    + apply (uf_clean _ _ Hfr3), Hcl.
    + now apply Hcl3.
  - rewrite (update_dirty_end callf fuel i w) by now rewrite Hq.
    apply lookup_ge_None in Hi. rewrite drop_ge by lia.
    exists w. rewrite !app_nil_r. cbn [fmap list_fmap sum_list].
    repeat split; auto; try lia.
    intros c Hc. now apply not_elem_of_nil in Hc.
Qed.

(** [flush] on an idle scheduler whose dirty queue holds live
    components, with callbacks that dirty nothing: every queued component
    is updated and patched exactly once, in the order of the queue; the
    flush returns with the queue empty and every one of them clean. *)
Theorem flush_updates_in_queue_order w q fuel :
  flushing (sched w) = false ->
  dirty_components (sched w) = q ->
  binding_callbacks (sched w) = [] ->
  render_callbacks (sched w) = [] ->
  flush_callbacks (sched w) = [] ->
  (forall c, c ∈ q -> live w c) ->
  (length q < fuel)%nat ->
  (sum_list (after_count w <$> q) < fuel)%nat ->
  exists w',
    flush callf fuel w = (w', Done tt) /\
    updated (trace w') = updated (trace w) ++ q /\
    patched (trace w') = patched (trace w) ++ q /\
    dirty_components (sched w') = [] /\
    (forall c, c ∈ q -> dirty <$> comps w' !! c = Some [Some (-1)]).
Proof.
  intros Hfl Hq Hbc Hrc Hfc Hlive Hf1 Hf2.
  destruct fuel as [|n]; [lia|].
  set (w0 := upd_sched (set_flushing true) w).
  destruct (update_dirty_all q (S n) 0 w0 Hq Hlive)
    as (w1 & E1 & Hup & Hpa & Hfr & Hu & Hlen & Hcl).
  { change (render_callbacks (sched w0)) with (render_callbacks (sched w)).
    rewrite Hrc. constructor. }
  { lia. }
  rewrite drop_0 in Hup, Hpa, Hlen, Hcl.
  set (w3 := upd_sched (set_dirty_components [])
               (upd_sched (set_current_component' None) w1)).
  destruct (run_render_users callf (fun f => Hinert _) (S n) 0 w3)
    as (a & t & s & E3 & Ht).
  { intros j r _ Hr. rewrite Forall_forall in Hu. apply Hu.
    eapply list_elem_of_lookup_2. exact Hr. }
  { change (render_callbacks (sched w3)) with (render_callbacks (sched w1)).
    rewrite Hlen.
    change (render_callbacks (sched w0)) with (render_callbacks (sched w)).
    rewrite Hrc. cbn [length].
    change (after_count w0) with (after_count w). lia. }
  match type of E3 with _ = (?x, _) => set (w6 := x) in E3 end.
  assert (Hpass : drain_pass callf (S n) w0
                  = (upd_sched (set_render_callbacks []) w6, Done tt)).
  { unfold drain_pass. muse E1. mprim. mprim. fold w3.
    muse (run_binding_callbacks_none callf n w3
            ltac:(change (binding_callbacks (sched w3))
                    with (binding_callbacks (sched w1));
                  rewrite (uf_binding _ _ Hfr); exact Hbc)).
    muse E3. reflexivity. }
  pose proof (flush_one_pass callf n w _ Hfl Hpass eq_refl) as Efl.
  rewrite Efl.
  2:{ change (flush_callbacks (sched (upd_sched (set_render_callbacks []) w6)))
        with (flush_callbacks (sched w1)).
      rewrite (uf_flush _ _ Hfr). exact Hfc. }
  eexists. split; [reflexivity|].
  destruct (render_only_no_update t Ht) as [Ht1 Ht2].
  subst w6 w3. unfold touch. wsimpl.
  rewrite updated_app, patched_app, Ht1, Ht2, !app_nil_r.
  repeat split; auto.
Qed.

End Order.

(** Two live components, queued in the order 1, 0. *)
Definition two_world : @World unit :=
  upd_sched (set_dirty_components [1; 0]%nat)
    (set_comps (<[1%nat := set_fragment (Frag 8) demo_comp]> (comps demo_world))
       demo_world).

Lemma flush_order_witness :
  exists w',
    flush quiet 5 two_world = (w', Done tt) /\
    updated (trace w') = updated (trace two_world) ++ [1; 0]%nat /\
    patched (trace w') = patched (trace two_world) ++ [1; 0]%nat /\
    dirty_components (sched w') = [] /\
    (forall c, c ∈ [1; 0]%nat -> dirty <$> comps w' !! c = Some [Some (-1)]).
Proof.
  apply (flush_updates_in_queue_order quiet quiet_inert two_world [1; 0]%nat 5%nat);
    try reflexivity.
  - intros c Hc. apply elem_of_cons in Hc as [->|Hc].
    + exists (set_fragment (Frag 8) demo_comp), 8%nat, [10%nat], [11%nat].
      repeat split; reflexivity.
    + apply list_elem_of_singleton in Hc. subst c.
      exists demo_comp, 7%nat, [10%nat], [11%nat]. repeat split; reflexivity.
  - cbn. lia.
  - vm_compute. lia.
Defined.

(** *** Assigning a slot the value it holds *)

Lemma safe_not_equal_same v :
  truthy (safe_not_equal v v) = is_object v || is_function v.
Proof.
  unfold safe_not_equal. rewrite loose_eq_self_nan.
  destruct (is_nan v) eqn:En.
  - apply is_nan_inv in En. subst v. reflexivity.
  - cbn [negb]. unfold strict_neq. rewrite (strict_eq_refl v En).
    cbn [negb js_or truthy].
    assert (H : forall u, truthy (js_or (js_and u (VBool false)) (VBool false))
                          = false).
    { intros u. unfold js_and, js_or. destruct (truthy u) eqn:E.
      - reflexivity.
      - now rewrite E. }
    destruct v as [| |[]|x|z|s| | |]; try reflexivity; apply H.
Qed.

Section SameValue.

Context {App : Type}.
Variable callf : call -> @World App -> @World App * status (option ufn).

Lemma slot_written_same c cs cx i v (w : @World App) :
  comps w !! c = Some cs -> ctx cs = Some cx -> cx !! i = Some v ->
  slot_written c cs cx i v w = w.
Proof.
  intros Hc Hx Hi. unfold slot_written, array_set.
  pose proof (lookup_lt_Some _ _ _ Hi) as Hlt.
  destruct (Nat.ltb_spec i (length cx)) as [_|]; [|lia].
  rewrite (list_insert_id _ _ _ Hi).
  replace (set_ctx (Some cx) cs) with cs
    by (destruct cs; cbn in Hx; now subst).
  rewrite (insert_id _ _ _ Hc). now destruct w.
Qed.

Lemma invalidate_unchanged c i ret rest (w : @World App) cs cx :
  comps w !! c = Some cs ->
  ctx cs = Some cx ->
  let value := match rest with v :: _ => v | [] => ret end in
  truthy (not_equal cs (default VUndefined (cx !! i)) value) = false ->
  invalidate callf c i ret rest w = (slot_written c cs cx i value w, Done ret).
Proof.
  intros Hc Hx value Hne. unfold invalidate. fold value.
  rewrite (bind_done _ _ _ _ _ (get_comp_some _ _ _ Hc)), Hx.
  assert (Hw : set_comp c (set_ctx (Some (array_set VUndefined cx i value))) w
               = (slot_written c cs cx i value w, Done tt)).
  { unfold set_comp, modify, slot_written.
    now rewrite (alter_alt_Some _ _ _ _ Hc). }
  rewrite (bind_done _ _ _ _ _ Hw), Hne. reflexivity.
Qed.

(** [$$invalidate(i, v)] when slot [i] already holds [v] and the change
    test is [safe_not_equal].  For a primitive (NaN included) nothing
    happens at all: no callback, no mark, the world is as before.  For an
    object or a function the assignment counts as a change although the
    reference is the same: the binding callback is called (unless
    [skip_bound] is set) and the slot is marked dirty once the component
    is ready. *)
Theorem invalidate_same_value c i v (w : @World App) cs cx :
  comps w !! c = Some cs ->
  ctx cs = Some cx ->
  cx !! i = Some v ->
  not_equal cs = safe_not_equal ->
  (is_object v || is_function v = false ->
   invalidate callf c i v [] w = (w, Done v)) /\
  (is_object v || is_function v = true ->
   invalidate callf c i v [] w
   = (_ ← (if negb (skip_bound cs) then
             match bound cs !! i with
             | Some f => call_ callf (CBound c i f v)
             | None => mret tt
             end
           else mret tt);
      cs' ← get_comp c;
      _ ← (if ready cs' then make_dirty c i else mret tt);
      mret v) w).
Proof.
  intros Hc Hx Hi Hne.
  assert (Ht : truthy (not_equal cs (default VUndefined (cx !! i)) v)
               = is_object v || is_function v).
  { rewrite Hne, Hi. apply safe_not_equal_same. }
  split; intros Hv; rewrite Hv in Ht.
  - rewrite (invalidate_unchanged c i v [] w cs cx Hc Hx Ht).
    now rewrite (slot_written_same c cs cx i v w Hc Hx Hi).
  - rewrite (invalidate_unfold callf c i v [] w cs cx Hc Hx Ht).
    now rewrite (slot_written_same c cs cx i v w Hc Hx Hi).
Qed.

End SameValue.

Lemma invalidate_same_value_witness :
  invalidate quiet 0 1 (VStr "a") [] demo_world = (demo_world, Done (VStr "a")).
Proof.
  apply (proj1 (invalidate_same_value quiet 0%nat 1%nat (VStr "a") demo_world
                  demo_comp [VBool false; VStr "a"; VNull]
                  eq_refl eq_refl eq_refl eq_refl)).
  reflexivity.
Defined.

(** *** Props passed down during a flush *)

Lemma queued_fields c (s : Sched) :
  dirty_components (queued c s) = dirty_components s ++ [c] /\
  binding_callbacks (queued c s) = binding_callbacks s /\
  render_callbacks (queued c s) = render_callbacks s /\
  flush_callbacks (queued c s) = flush_callbacks s /\
  flushing (queued c s) = flushing s.
Proof. unfold queued. destruct s as [? ? ? ? ? [] ? ? ?]; now repeat split. Qed.

Section PropsDown.

Context {App : Type}.
Variable callf : call -> @World App -> @World App * status (option ufn).
Variables (p c : comp) (bp bc : block) (i : nat) (v : value).

(** The patch function of [p] calls [c.$set] with an object that is not
    empty, and [c.$$set] assigns slot [i] through [$$invalidate]; the
    other functions of the two components keep to their own state. *)
Hypothesis Hpatch : forall cx d w,
  callf (CPatch p bp cx d) w = (_ ← dollar_set callf c true false; mret None) w.
Hypothesis Hset : forall w,
  callf (CSet c) w = (_ ← invalidate callf c i v []; mret None) w.
Hypothesis Hupdate : forall x, inert callf (CUpdate x).
Hypothesis Hbefore : forall x f, inert callf (CBeforeUpdate x f).
Hypothesis Hchild : forall cx d, inert callf (CPatch c bc cx d).
Hypothesis Hrender : forall f, inert callf (CRender f).

(** [update] up to the call of the patch function. *)
Lemma update_prefix x w xs b bu :
  comps w !! x = Some xs -> fragment xs = Frag b ->
  arrays w !! before_update xs = Some bu ->
  exists a,
    update callf x w
    = (_ ← call_ callf (CPatch x b (ctx xs) (dirty xs));
       xs' ← get_comp x;
       fs ← read_array (after_update xs');
       modify (upd_sched (fun s =>
         set_render_callbacks (render_callbacks s ++ (RUser <$> fs)) s)))
        (touch a (trace w ++ Call (CUpdate x) :: (Call ∘ CBeforeUpdate x <$> bu))
           (set_comps (<[x := set_dirty [Some (-1)] xs]> (comps w)) w)).
Proof.
  intros Hc Hf Hbu. unfold update.
  rewrite (bind_done _ _ _ _ _ (get_comp_some _ _ _ Hc)), Hf.
  destruct (call_touch callf (CUpdate x) w (Hupdate _)) as (a1 & E1).
  rewrite (bind_done _ _ _ _ _ E1).
  set (w1 := touch a1 _ w).
  rewrite (bind_done _ _ _ _ _ (get_comp_some x xs w1 Hc)).
  destruct (run_all_inert callf (before_update xs) (CBeforeUpdate x) bu w1
              (fun f => Hbefore _ _) Hbu) as (a2 & E2).
  rewrite (bind_done _ _ _ _ _ E2).
  set (w2 := touch a2 _ w1).
  rewrite (bind_done _ _ _ _ _ (get_comp_some x xs w2 Hc)).
  rewrite bind_eq. unfold set_comp at 1, modify at 1.
  set (w3 := set_comps _ w2).
  assert (Hc3 : comps w3 !! x = Some (set_dirty [Some (-1)] xs)).
  { subst w3 w2 w1. unfold touch. wsimpl.
    rewrite (alter_alt_Some _ _ _ _ Hc). apply lookup_insert_eq. }
  rewrite (bind_done _ _ _ _ _ (get_comp_some _ _ _ Hc3)).
  cbn [fragment set_dirty ctx]. rewrite Hf.
  exists a2.
  replace w3 with (touch a2 (trace w ++ Call (CUpdate x) :: (Call ∘ CBeforeUpdate x <$> bu))
           (set_comps (<[x := set_dirty [Some (-1)] xs]> (comps w)) w)).
  - reflexivity.
  - subst w3 w2 w1. rewrite (alter_alt_Some _ _ _ _ Hc).
    destruct w. unfold touch. wnorm. f_equal.
    rewrite <- !app_assoc. reflexivity.
Qed.

(** The child once [$set] has returned: the slot holds [v], the mask has
    the bit of the slot, and [skip_bound] is off again. *)
Definition child_set (cs : comp_state) (cx : list value) : comp_state :=
  set_skip_bound false
    (set_dirty (marked (replicate (length (dirty cs)) (Some 0)) i)
       (set_ctx (Some (array_set VUndefined cx i v)) (set_skip_bound true cs))).

Lemma patch_sets_child w cs cx pcx d :
  comps w !! c = Some cs -> ctx cs = Some cx -> ready cs = true ->
  dirty cs !! 0%nat = Some (Some (-1)) ->
  truthy (not_equal cs (default VUndefined (cx !! i)) v) = true ->
  call_ callf (CPatch p bp pcx d) w
  = (set_comps (<[c := child_set cs cx]> (comps w))
       (upd_sched (queued c)
          (set_trace (trace w ++ [Call (CPatch p bp pcx d); Call (CSet c)]) w)),
     Done tt).
Proof.
  intros Hc Hx Hr Hd Hne.
  set (w1 := set_trace (trace w ++ [Call (CPatch p bp pcx d)]) w).
  set (csa := set_skip_bound true cs).
  set (w2 := set_comps (<[c := csa]> (comps w1)) w1).
  set (w3 := set_trace (trace w2 ++ [Call (CSet c)]) w2).
  assert (Hc3 : comps w3 !! c = Some csa) by apply lookup_insert_eq.
  assert (Einv : invalidate callf c i v [] w3
                 = (set_comps
                      (<[c := set_dirty (marked (replicate (length (dirty cs)) (Some 0)) i)
                                (set_ctx (Some (array_set VUndefined cx i v)) csa)]>
                         (comps w3))
                      (upd_sched (queued c) w3), Done v)).
  { rewrite (invalidate_unfold callf c i v [] w3 csa cx Hc3 Hx Hne).
    cbn [skip_bound set_skip_bound csa negb]. unfold csa at 1. cbn [skip_bound set_skip_bound negb].
    mprim. unfold mark_if_ready.
    rewrite (bind_done _ _ _ _ _
               (get_comp_some _ _ _ (slot_written_comp c csa cx i v w3))).
    cbn [ready set_ctx]. unfold csa at 1. cbn [ready set_skip_bound]. rewrite Hr.
    rewrite (bind_done _ _ _ _ _
               (make_dirty_clean c i _ _ (slot_written_comp c csa cx i v w3) Hd)).
    rewrite ret_eq. f_equal. unfold slot_written. wsimpl.
    now rewrite insert_insert_eq. }
  assert (Eset : dollar_set callf c true false w1
                 = (set_comps (<[c := child_set cs cx]> (comps w))
                      (upd_sched (queued c)
                         (set_trace (trace w ++ [Call (CPatch p bp pcx d); Call (CSet c)]) w)),
                    Done tt)).
  { unfold dollar_set. cbn [andb negb].
    assert (E1 : set_comp c (set_skip_bound true) w1 = (w2, Done tt)).
    { unfold set_comp, modify, w2. now rewrite (alter_alt_Some _ _ _ _ Hc). }
    muse E1.
    assert (E2 : call_ callf (CSet c) w2
                 = (set_comps
                      (<[c := set_dirty (marked (replicate (length (dirty cs)) (Some 0)) i)
                                (set_ctx (Some (array_set VUndefined cx i v)) csa)]>
                         (comps w3))
                      (upd_sched (queued c) w3), Done tt)).
    { unfold call_, invoke, log, modify. rewrite !bind_eq. fold w3.
      rewrite Hset, bind_eq, Einv. reflexivity. }
    muse E2. unfold set_comp, modify. f_equal.
    wsimpl. rewrite (alter_alt_Some _ _ _ _ (lookup_insert_eq _ _ _)).
    rewrite !insert_insert_eq.
    subst w3 w2 w1. clear. destruct w. wnorm. f_equal.
    - now rewrite insert_insert_eq.
    - rewrite <- app_assoc. reflexivity. }
  unfold call_, invoke, log, modify. rewrite !bind_eq. fold w1.
  rewrite Hpatch, bind_eq, Eset. reflexivity.
Qed.

Lemma update_child w cs buc auc :
  comps w !! c = Some cs -> fragment cs = Frag bc ->
  arrays w !! before_update cs = Some buc ->
  arrays w !! after_update cs = Some auc ->
  exists a,
    update callf c w
    = (upd_sched (fun s =>
         set_render_callbacks (render_callbacks s ++ (RUser <$> auc)) s)
         (touch a
            (trace w ++ Call (CUpdate c) :: (Call ∘ CBeforeUpdate c <$> buc)
                     ++ [Call (CPatch c bc (ctx cs) (dirty cs))])
            (set_comps (<[c := set_dirty [Some (-1)] cs]> (comps w)) w)),
       Done tt).
Proof.
  intros Hc Hf Hbu Hau.
  destruct (update_prefix c w cs bc buc Hc Hf Hbu) as (a & E). rewrite E.
  set (w1 := touch a _ _).
  destruct (call_touch callf (CPatch c bc (ctx cs) (dirty cs)) w1 (Hchild _ _))
    as (a' & E').
  muse E'. set (w2 := touch a' _ w1).
  assert (Hc2 : comps w2 !! c = Some (set_dirty [Some (-1)] cs))
    by apply lookup_insert_eq.
  muse (get_comp_some _ _ _ Hc2). cbn [after_update set_dirty].
  assert (Hau2 : arrays w2 !! after_update cs = Some auc) by exact Hau.
  muse (read_array_some _ _ _ Hau2).
  exists a'. unfold modify. f_equal. subst w2 w1. clear.
  destruct w. unfold touch. wnorm. f_equal.
  rewrite <- !app_assoc. reflexivity.
Qed.

Lemma update_parent w ps bup aup cs cx :
  p <> c ->
  comps w !! p = Some ps -> fragment ps = Frag bp ->
  arrays w !! before_update ps = Some bup ->
  arrays w !! after_update ps = Some aup ->
  comps w !! c = Some cs -> ctx cs = Some cx -> ready cs = true ->
  dirty cs !! 0%nat = Some (Some (-1)) ->
  truthy (not_equal cs (default VUndefined (cx !! i)) v) = true ->
  exists a,
    update callf p w
    = (upd_sched (fun s =>
         set_render_callbacks (render_callbacks s ++ (RUser <$> aup)) s)
         (set_comps
            (<[c := child_set cs cx]> (<[p := set_dirty [Some (-1)] ps]> (comps w)))
            (upd_sched (queued c)
               (touch a
                  (trace w ++ Call (CUpdate p) :: (Call ∘ CBeforeUpdate p <$> bup)
                           ++ [Call (CPatch p bp (ctx ps) (dirty ps)); Call (CSet c)])
                  w))),
       Done tt).
Proof.
  intros Hpc Hp Hf Hbu Hau Hc Hx Hr Hd Hne.
  destruct (update_prefix p w ps bp bup Hp Hf Hbu) as (a & E). rewrite E.
  set (w1 := touch a _ _).
  assert (Hc1 : comps w1 !! c = Some cs).
  { subst w1. unfold touch. wsimpl. now rewrite lookup_insert_ne. }
  muse (patch_sets_child w1 cs cx (ctx ps) (dirty ps) Hc1 Hx Hr Hd Hne).
  set (w2 := set_comps _ _).
  assert (Hp2 : comps w2 !! p = Some (set_dirty [Some (-1)] ps)).
  { subst w2 w1. unfold touch. wsimpl.
    rewrite lookup_insert_ne by congruence. apply lookup_insert_eq. }
  muse (get_comp_some _ _ _ Hp2). cbn [after_update set_dirty].
  assert (Hau2 : arrays w2 !! after_update ps = Some aup) by exact Hau.
  muse (read_array_some _ _ _ Hau2).
  exists a. unfold modify. f_equal. subst w2 w1. clear.
  destruct w. unfold touch. wnorm. f_equal.
  rewrite <- !app_assoc. reflexivity.
Qed.

(** A child whose prop changes while its parent is patched is updated in
    the same [flush], after the parent.  [flush] on an idle scheduler
    with the parent [p] queued: [p] is updated, its patch function calls
    [c.$set], whose [$$set] assigns slot [i] a changed value; no
    [$$.bound] callback is called for it; the clean child [c] is queued
    behind [p] and updated in the same pass, its patch function getting
    the new [ctx] and a mask with the bit of slot [i] and no other; the
    [after_update] callbacks of both run once the two are patched. *)
Theorem child_props_update_in_same_flush w ps cs cx bup aup buc auc fuel :
  p <> c ->
  flushing (sched w) = false ->
  dirty_components (sched w) = [p] ->
  binding_callbacks (sched w) = [] ->
  render_callbacks (sched w) = [] ->
  flush_callbacks (sched w) = [] ->
  comps w !! p = Some ps -> fragment ps = Frag bp ->
  arrays w !! before_update ps = Some bup ->
  arrays w !! after_update ps = Some aup ->
  comps w !! c = Some cs -> fragment cs = Frag bc ->
  arrays w !! before_update cs = Some buc ->
  arrays w !! after_update cs = Some auc ->
  ctx cs = Some cx -> ready cs = true ->
  dirty cs !! 0%nat = Some (Some (-1)) ->
  truthy (not_equal cs (default VUndefined (cx !! i)) v) = true ->
  Z.of_nat i < 2 ^ 32 ->
  (2 < fuel)%nat -> (length aup + length auc < fuel)%nat ->
  exists w' d t,
    flush callf fuel w = (w', Done tt) /\
    trace w'
    = trace w ++ Call (CUpdate p) :: (Call ∘ CBeforeUpdate p <$> bup)
        ++ [Call (CPatch p bp (ctx ps) (dirty ps)); Call (CSet c);
            Call (CUpdate c)]
        ++ (Call ∘ CBeforeUpdate c <$> buc)
        ++ Call (CPatch c bc (Some (array_set VUndefined cx i v)) d) :: t /\
    render_only t /\
    (forall j, dirty_bit d j = bool_decide (j = i)) /\
    (exists cs', comps w' !! c = Some cs' /\
                 ctx cs' = Some (array_set VUndefined cx i v) /\
                 skip_bound cs' = false /\ dirty cs' = [Some (-1)]) /\
    dirty_components (sched w') = [].
Proof.
  intros Hpc Hfl Hdc Hbc Hrc Hfc Hp Hfp Hbup Haup Hc Hfcc Hbuc Hauc Hx Hr Hd Hne
    Hi Hfuel1 Hfuel2.
  destruct fuel as [|[|[|n]]]; try lia.
  set (w0 := upd_sched (set_flushing true) w).
  set (w1 := upd_sched (set_current_component' (Some p)) w0).
  destruct (update_parent w1 ps bup aup cs cx Hpc Hp Hfp Hbup Haup Hc Hx Hr Hd Hne)
    as (a1 & E1).
  match type of E1 with _ = (?x, _) => set (w2 := x) in E1 end.
  assert (Hs2 : dirty_components (sched w2) = [p; c] /\
                binding_callbacks (sched w2) = [] /\
                render_callbacks (sched w2) = RUser <$> aup /\
                flush_callbacks (sched w2) = [] /\
                flushing (sched w2) = true).
  { subst w2 w1 w0. unfold touch. wsimpl.
    destruct (queued_fields c
                (set_current_component' (Some p) (set_flushing true (sched w))))
      as (Q1 & Q2 & Q3 & Q4 & Q5).
    rewrite Q1, Q2, Q3, Q4, Q5. wsimpl. rewrite Hdc, Hbc, Hrc, Hfc.
    now repeat split. }
  destruct Hs2 as (Hdc2 & Hbc2 & Hrc2 & Hfc2 & Hfl2).
  set (w3 := upd_sched (set_current_component' (Some c)) w2).
  set (d := marked (replicate (length (dirty cs)) (Some 0)) i).
  destruct (update_child w3 (child_set cs cx) buc auc) as (a2 & E2).
  { apply lookup_insert_eq. }
  { exact Hfcc. }
  { exact Hbuc. }
  { exact Hauc. }
  cbn [ctx dirty child_set set_skip_bound set_dirty set_ctx] in E2. fold d in E2.
  match type of E2 with _ = (?x, _) => set (w4 := x) in E2 end.
  assert (Hs4 : dirty_components (sched w4) = [p; c] /\
                binding_callbacks (sched w4) = [] /\
                render_callbacks (sched w4) = (RUser <$> aup) ++ (RUser <$> auc) /\
                flush_callbacks (sched w4) = []).
  { subst w4 w3. unfold touch. wsimpl. rewrite Hdc2, Hbc2, Hrc2, Hfc2.
    now repeat split. }
  destruct Hs4 as (Hdc4 & Hbc4 & Hrc4 & Hfc4).
  assert (Eud : update_dirty callf (S (S (S n))) 0 w0 = (w4, Done tt)).
  { rewrite (update_dirty_step callf _ 0 w0 p)
      by (subst w0; wsimpl; now rewrite Hdc).
    unfold set_current_component. mprim. fold w1. muse E1.
    rewrite (update_dirty_step callf _ 1 w2 c) by now rewrite Hdc2.
    unfold set_current_component. mprim. fold w3. muse E2.
    apply update_dirty_end. now rewrite Hdc4. }
  set (w5 := upd_sched (set_dirty_components [])
               (upd_sched (set_current_component' None) w4)).
  destruct (run_render_users callf Hrender (S (S (S n))) 0 w5)
    as (a3 & t & s & E3 & Ht).
  { intros j r _ Hj.
    change (render_callbacks (sched w5)) with (render_callbacks (sched w4)) in Hj.
    rewrite Hrc4, <- fmap_app in Hj.
    apply list_elem_of_lookup_2, list_elem_of_fmap in Hj.
    destruct Hj as (f & -> & _). exact I. }
  { change (render_callbacks (sched w5)) with (render_callbacks (sched w4)).
    rewrite Hrc4, length_app, !length_fmap. lia. }
  match type of E3 with _ = (?x, _) => set (w6 := x) in E3 end.
  assert (Hpass : drain_pass callf (S (S (S n))) w0
                  = (upd_sched (set_render_callbacks []) w6, Done tt)).
  { unfold drain_pass. muse Eud. unfold set_current_component. mprim. mprim.
    fold w5.
    muse (run_binding_callbacks_none callf (S (S n)) w5
            ltac:(change (binding_callbacks (sched w5))
                    with (binding_callbacks (sched w4)); exact Hbc4)).
    muse E3. reflexivity. }
  rewrite (flush_one_pass callf _ w _ Hfl Hpass eq_refl).
  2:{ change (flush_callbacks (sched (upd_sched (set_render_callbacks []) w6)))
        with (flush_callbacks (sched w4)). exact Hfc4. }
  eexists. exists d, t. split; [reflexivity|].
  split; [|split; [exact Ht|split; [|split]]].
  - subst w6 w5 w4 w3 w2 w1 w0. unfold touch. wsimpl.
    repeat (rewrite <- app_assoc || rewrite <- app_comm_cons). reflexivity.
  - intros j. unfold d, marked.
    destruct (mark_bit (replicate (length (dirty cs)) (Some 0)) i Hi) as [_ Hb].
    { intros k. rewrite dirty_word_zeros. lia. }
    rewrite Hb. unfold dirty_bit at 1. rewrite dirty_word_zeros, Z.testbit_0_l.
    reflexivity.
  - exists (set_dirty [Some (-1)] (child_set cs cx)).
    split; [|now repeat split].
    subst w6 w5 w4 w3. unfold touch. wsimpl. apply lookup_insert_eq.
  - reflexivity.
Qed.

End PropsDown.

(** A parent (component 1, fragment 8) and its child (component 0), with
    the parent queued. *)
Definition family_world : @World unit :=
  upd_sched (set_dirty_components [1%nat])
    (set_comps (<[1%nat := set_fragment (Frag 8) demo_comp]> (comps demo_world))
       demo_world).

(** [$$set] of the child assigns slot 1. *)
Definition child_code (x : call) : M (App:=unit) (option ufn) :=
  match x with
  | CSet 0 => _ ← invalidate quiet 0 1 (VStr "b") []; mret None
  | _ => quiet x
  end.

(** The patch function of the parent passes the prop down. *)
Definition props_down (x : call) : M (App:=unit) (option ufn) :=
  match x with
  | CPatch 1 8 _ _ => _ ← dollar_set child_code 0 true false; mret None
  | _ => child_code x
  end.

Lemma props_down_quiet x :
  match x with CPatch 1 8 _ _ | CSet 0 => False | _ => True end ->
  inert props_down x.
Proof.
  intros H w. exists tt, None.
  destruct w as [[] ? ? ? ? ? ? ? ? ? ?].
  destruct x as [| |c0 b0 ? ?| | | | | | | | | | | | |c0]; try reflexivity.
  - destruct c0 as [|[|?]]; try reflexivity.
    do 9 (destruct b0 as [|b0]; try reflexivity). destruct H.
  - destruct c0; [destruct H|reflexivity].
Defined.

Lemma child_props_witness :
  exists w' d t,
    flush props_down 5 family_world = (w', Done tt) /\
    trace w'
    = trace family_world ++ Call (CUpdate 1) :: (Call ∘ CBeforeUpdate 1 <$> [10%nat])
        ++ [Call (CPatch 1 8 (ctx demo_comp) (dirty demo_comp)); Call (CSet 0);
            Call (CUpdate 0)]
        ++ (Call ∘ CBeforeUpdate 0 <$> [10%nat])
        ++ Call (CPatch 0 7
                   (Some (array_set VUndefined [VBool false; VStr "a"; VNull] 1
                            (VStr "b"))) d) :: t /\
    render_only t /\
    (forall j, dirty_bit d j = bool_decide (j = 1%nat)) /\
    (exists cs', comps w' !! 0%nat = Some cs' /\
                 ctx cs' = Some (array_set VUndefined [VBool false; VStr "a"; VNull]
                                   1 (VStr "b")) /\
                 skip_bound cs' = false /\ dirty cs' = [Some (-1)]) /\
    dirty_components (sched w') = [].
Proof.
  apply (child_props_update_in_same_flush props_down 1%nat 0%nat 8%nat 7%nat
           1%nat (VStr "b")
           (fun cx d w => eq_refl) (fun w => eq_refl)
           (fun x => props_down_quiet (CUpdate x) I)
           (fun x f => props_down_quiet (CBeforeUpdate x f) I)
           (fun cx d => props_down_quiet (CPatch 0 7 cx d) I)
           (fun f => props_down_quiet (CRender f) I)
           family_world (set_fragment (Frag 8) demo_comp) demo_comp
           [VBool false; VStr "a"; VNull] [10%nat] [11%nat] [10%nat] [11%nat]
           5%nat);
    try reflexivity; try discriminate; try lia; cbn; lia.
Defined.


(** *** Mounting a component with a child *)

Section MountOrder.

Context {App : Type}.
Variable callf : call -> @World App -> @World App * status (option ufn).

(** The cleanup function an [on_mount] callback returns, if any. *)
Variable cleanup : ufn -> option ufn.

Hypothesis Hmount : forall f w,
  exists a, callf (COnMount f) w = (set_app a w, Done (cleanup f)).
Hypothesis Hrender : forall f, inert callf (CRender f).

(** [mount_component], given what [fragment.m] does. *)
Lemma mount_component_after c target anchor w cs b au w1 :
  comps w !! c = Some cs -> fragment cs = Frag b ->
  call_ callf (CFragMount b target anchor) w = (w1, Done tt) ->
  arrays w1 !! after_update cs = Some au ->
  mount_component callf c target anchor false w
  = (upd_sched (fun s =>
       set_render_callbacks
         ((render_callbacks s
           ++ [RMount (next_closure w1) c (on_mount cs) (on_destroy cs)])
          ++ (RUser <$> au)) s)
       (set_next_closure (S (next_closure w1)) w1),
     Done tt).
Proof.
  intros Hc Hf E Hau. unfold mount_component.
  rewrite (bind_done _ _ _ _ _ (get_comp_some _ _ _ Hc)), Hf.
  muse E.
  assert (Hrc : (w0 ← get;
                 _ ← modify (set_next_closure (S (next_closure w0)));
                 add_render_callback
                   (RMount (next_closure w0) c (on_mount cs) (on_destroy cs))) w1
    = (upd_sched (fun s =>
         set_render_callbacks
           (render_callbacks s
            ++ [RMount (next_closure w1) c (on_mount cs) (on_destroy cs)]) s)
         (set_next_closure (S (next_closure w1)) w1), Done tt)).
  { mprim. mprim. reflexivity. }
  muse Hrc.
  match goal with |- (_ ≫= _) ?x = _ => set (w2 := x) end.
  assert (Hau2 : arrays w2 !! after_update cs = Some au) by exact Hau.
  rewrite (bind_done _ _ _ _ _ (read_array_some _ _ _ Hau2)).
  unfold modify. reflexivity.
Qed.

(** A run of user callbacks in [render_callbacks]. *)
Lemma run_render_block us :
  forall n i w,
    (forall j u, us !! j = Some u ->
                 render_callbacks (sched w) !! (i + j)%nat = Some (RUser u)) ->
    exists a t s,
      run_render_callbacks callf (length us + n) i w
      = run_render_callbacks callf n (i + length us)
          (touch a (trace w ++ t)
             (upd_sched (set_seen_callbacks
                           (seen_callbacks (sched w) ++ (RUser <$> s))) w)) /\
      render_only t.
Proof.
  induction us as [|u us IH]; intros n i w Hus.
  - exists (app w), [], []. split; [|constructor].
    cbn [length Nat.add fmap list_fmap]. rewrite !app_nil_r, Nat.add_0_r.
    f_equal. destruct w as [? ? ? ? ? s0 ? ? ? ? ?]. now destruct s0.
  - cbn [length Nat.add run_render_callbacks]. mprim.
    pose proof (Hus 0%nat u eq_refl) as H0. rewrite Nat.add_0_r in H0. rewrite H0.
    assert (Hnext : forall w',
      render_callbacks (sched w') = render_callbacks (sched w) ->
      exists a t s,
        run_render_callbacks callf (length us + n) (S i) w'
        = run_render_callbacks callf n (i + S (length us))
            (touch a (trace w' ++ t)
               (upd_sched (set_seen_callbacks
                             (seen_callbacks (sched w') ++ (RUser <$> s))) w')) /\
        render_only t).
    { intros w' E. replace (i + S (length us))%nat with (S i + length us)%nat by lia.
      apply IH. intros j u' Hj. rewrite E.
      replace (S i + j)%nat with (i + S j)%nat by lia. now apply Hus. }
    destruct (decide (RUser u ∈ seen_callbacks (sched w))) as [Hs|Hs].
    + destruct (Hnext w eq_refl) as (a & t & s & E & Ht).
      exists a, t, s. now split.
    + mprim. set (w0 := upd_sched _ w).
      destruct (run_rcb_user callf Hrender u w0) as (a1 & E1). muse E1.
      set (w2 := touch a1 _ w0).
      destruct (Hnext w2 eq_refl) as (a & t & s & E & Ht).
      rewrite E. exists a, (Render (RUser u) :: Call (CRender u) :: t), (u :: s).
      split.
      * f_equal. subst w2 w0. destruct w as [? ? ? ? ? s0 ? ? ? ? ?]. destruct s0.
        unfold touch. wnorm. cbn [fmap list_fmap]. f_equal.
        -- f_equal. now rewrite <- app_assoc.
        -- trace_eq.
      * repeat constructor. exact Ht.
Qed.

Lemma run_render_callbacks_step fuel i w cb :
  render_callbacks (sched w) !! i = Some cb ->
  cb ∉ seen_callbacks (sched w) ->
  run_render_callbacks callf (S fuel) i w
  = (_ ← run_rcb callf cb; run_render_callbacks callf fuel (S i))
      (upd_sched (fun s => set_seen_callbacks (seen_callbacks s ++ [cb]) s) w).
Proof.
  intros Hi Hs. cbn [run_render_callbacks]. mprim. rewrite Hi.
  rewrite decide_False by exact Hs. mprim. reflexivity.
Qed.

Variables (p c : comp) (bp bc : block) (tc : node) (ac : option node).

(** The mount function of the fragment of [p] mounts the child [c],
    whose fragment is [bc]; the mount function of [bc] only inserts
    nodes. *)
Hypothesis Hm : forall target anchor w,
  fragment <$> comps w !! c = Some (Frag bc) ->
  callf (CFragMount bp target anchor) w
  = (_ ← mount_component callf c tc ac false; mret None) w.
Hypothesis Hmc : forall target anchor, inert callf (CFragMount bc target anchor).

(** The [on_mount] callbacks of a child run before those of its parent.
    [mount_component] of [p] calls the mount function of its fragment,
    which mounts [c], and only then registers its own closure; the
    [flush] that follows therefore calls the [on_mount] callbacks of [c],
    then the [after_update] callbacks of [c], then the [on_mount]
    callbacks of [p], then its [after_update] callbacks, each [on_mount]
    callback once. *)
Theorem child_on_mount_runs_first target anchor w ps cs msp msc ldp ldc
    aup auc fuel :
  flushing (sched w) = false ->
  dirty_components (sched w) = [] ->
  binding_callbacks (sched w) = [] ->
  render_callbacks (sched w) = [] ->
  flush_callbacks (sched w) = [] ->
  seen_callbacks (sched w) = [] ->
  comps w !! p = Some ps -> fragment ps = Frag bp ->
  arrays w !! on_mount ps = Some msp -> on_destroy ps = Some ldp ->
  arrays w !! after_update ps = Some aup ->
  comps w !! c = Some cs -> fragment cs = Frag bc ->
  arrays w !! on_mount cs = Some msc -> on_destroy cs = Some ldc ->
  arrays w !! after_update cs = Some auc ->
  on_mount ps <> ldc ->
  arrays w !! next_loc w = None ->
  (length auc + length aup + 2 < fuel)%nat ->
  exists w1 w2 t1 t2,
    mount_component callf p target anchor false w = (w1, Done tt) /\
    trace w1 = trace w ++ [Call (CFragMount bp target anchor);
                           Call (CFragMount bc tc ac)] /\
    flush callf fuel w1 = (w2, Done tt) /\
    trace w2
    = trace w1
        ++ Render (RMount (next_closure w) c (on_mount cs) (Some ldc))
        :: (Call ∘ COnMount <$> msc) ++ t1
        ++ Render (RMount (S (next_closure w)) p (on_mount ps) (Some ldp))
        :: (Call ∘ COnMount <$> msp) ++ t2 /\
    render_only t1 /\ render_only t2 /\
    on_mount_calls (trace w2) = on_mount_calls (trace w) ++ msc ++ msp.
Proof.
  intros Hfl Hdc Hbc Hrc Hfc Hsc Hp Hfp Hmp Hdp Haup Hc Hfcc Hmcc Hdcc Hauc
    Hne Hfresh Hfuel.
  assert (Hm' : exists m, fuel = S (length auc + S (length aup + S m))).
  { exists (fuel - (length auc + length aup + 3))%nat. lia. }
  destruct Hm' as (m & ->). clear Hfuel.
  (* mounting *)
  set (wA := set_trace (trace w ++ [Call (CFragMount bp target anchor)]) w).
  destruct (call_touch callf (CFragMount bc tc ac) wA (Hmc _ _)) as (a0 & E0).
  match type of E0 with _ = (?x, _) => set (wA' := x) in E0 end.
  pose proof (mount_component_after c tc ac wA cs bc auc wA' Hc Hfcc E0 Hauc)
    as Enest.
  match type of Enest with _ = (?x, _) => set (wB := x) in Enest end.
  assert (Ecall : call_ callf (CFragMount bp target anchor) w = (wB, Done tt)).
  { unfold call_, invoke, log, modify. rewrite !bind_eq. fold wA.
    rewrite Hm, bind_eq, Enest; [reflexivity|].
    change (comps wA) with (comps w). rewrite Hc. cbn [fmap option_fmap option_map].
    now rewrite Hfcc. }
  pose proof (mount_component_after p target anchor w ps bp aup wB Hp Hfp Ecall Haup)
    as E1.
  match type of E1 with _ = (?x, _) => set (w1 := x) in E1 end.
  set (mc := RMount (next_closure w) c (on_mount cs) (Some ldc)).
  set (mp := RMount (S (next_closure w)) p (on_mount ps) (Some ldp)).
  assert (Hrc1 : render_callbacks (sched w1)
                 = mc :: (RUser <$> auc) ++ mp :: (RUser <$> aup)).
  { subst w1 wB wA' wA mc mp. unfold touch. wsimpl.
    rewrite Hrc, Hdp, Hdcc. cbn [app]. now rewrite <- !app_assoc. }
  assert (Htr1 : trace w1 = trace w ++ [Call (CFragMount bp target anchor);
                                        Call (CFragMount bc tc ac)]).
  { subst w1 wB wA' wA. unfold touch. wsimpl. now rewrite <- app_assoc. }
  (* the pass *)
  set (w0 := upd_sched (set_flushing true) w1).
  set (w3 := upd_sched (set_dirty_components [])
               (upd_sched (set_current_component' None) w0)).
  set (w4 := upd_sched (fun s => set_seen_callbacks (seen_callbacks s ++ [mc]) s) w3).
  assert (Hm4 : arrays w4 !! on_mount cs = Some msc) by exact Hmcc.
  destruct (run_rcb_mount callf cleanup Hmount (next_closure w) c (on_mount cs)
              ldc msc w4 Hm4) as (a2 & E2).
  fold mc in E2.
  match type of E2 with _ = (?x, _) => set (w5 := x) in E2 end.
  destruct (run_render_block auc (S (length aup + S m)) 1 w5)
    as (a3 & t1 & s1 & E3 & Ht1).
  { intros j u Hj.
    change (render_callbacks (sched w5)) with (render_callbacks (sched w1)).
    rewrite Hrc1. cbn [Nat.add lookup list_lookup].
    change (((RUser <$> auc) ++ mp :: (RUser <$> aup)) !! j = Some (RUser u)).
    rewrite lookup_app_l by (rewrite length_fmap; now apply lookup_lt_Some in Hj).
    now rewrite list_lookup_fmap, Hj. }
  match type of E3 with _ = _ _ _ ?x => set (w6 := x) in E3 end.
  set (w7 := upd_sched (fun s => set_seen_callbacks (seen_callbacks s ++ [mp]) s) w6).
  assert (Hm7 : arrays w7 !! on_mount ps = Some msp).
  { change (arrays w7)
      with (<[next_loc w := []]>
              (alter (fun old => old ++ omap cleanup msc) ldc (arrays w))).
    rewrite lookup_insert_ne by (intros E; rewrite E in Hfresh; congruence).
    rewrite lookup_alter_ne by congruence. exact Hmp. }
  destruct (run_rcb_mount callf cleanup Hmount (S (next_closure w)) p (on_mount ps)
              ldp msp w7 Hm7) as (a4 & E4).
  fold mp in E4.
  match type of E4 with _ = (?x, _) => set (w8 := x) in E4 end.
  destruct (run_render_block aup (S m) (S (1 + length auc)) w8)
    as (a5 & t2 & s2 & E5 & Ht2).
  { intros j u Hj.
    change (render_callbacks (sched w8)) with (render_callbacks (sched w1)).
    rewrite Hrc1. cbn [Nat.add lookup list_lookup].
    change (((RUser <$> auc) ++ mp :: (RUser <$> aup)) !! S (length auc + j)
            = Some (RUser u)).
    rewrite lookup_app_r by (rewrite length_fmap; lia).
    rewrite length_fmap.
    replace (S (length auc + j) - length auc)%nat with (S j) by lia.
    change ((mp :: (RUser <$> aup)) !! S j) with ((RUser <$> aup) !! j).
    now rewrite list_lookup_fmap, Hj. }
  match type of E5 with _ = _ _ _ ?x => set (w9 := x) in E5 end.
  assert (Hrr : run_render_callbacks callf
                  (S (length auc + S (length aup + S m))) 0 w3 = (w9, Done tt)).
  { rewrite (run_render_callbacks_step _ 0 w3 mc).
    2:{ change (render_callbacks (sched w3)) with (render_callbacks (sched w1)).
        now rewrite Hrc1. }
    2:{ change (seen_callbacks (sched w3)) with (seen_callbacks (sched w)).
        rewrite Hsc. apply not_elem_of_nil. }
    fold w4. muse E2. rewrite E3.
    rewrite (run_render_callbacks_step _ (1 + length auc) w6 mp).
    2:{ change (render_callbacks (sched w6)) with (render_callbacks (sched w1)).
        rewrite Hrc1. cbn [Nat.add lookup list_lookup].
        change (((RUser <$> auc) ++ mp :: (RUser <$> aup)) !! length auc = Some mp).
        rewrite lookup_app_r by (rewrite length_fmap; lia).
        rewrite length_fmap, Nat.sub_diag. reflexivity. }
    2:{ change (seen_callbacks (sched w6))
          with ((seen_callbacks (sched w) ++ [mc]) ++ (RUser <$> s1)).
        rewrite Hsc. cbn [app]. intros Hin.
        apply elem_of_cons in Hin as [Heq|Hin].
        - subst mp mc. injection Heq. lia.
        - apply list_elem_of_fmap in Hin as (u & Hu & _). discriminate. }
    fold w7. muse E4. rewrite E5.
    apply run_render_callbacks_end.
    change (render_callbacks (sched w9)) with (render_callbacks (sched w1)).
    rewrite Hrc1. apply lookup_ge_None.
    cbn [length]. rewrite length_app. cbn [length]. rewrite !length_fmap. lia. }
  assert (Hpass : drain_pass callf (S (length auc + S (length aup + S m))) w0
                  = (upd_sched (set_render_callbacks []) w9, Done tt)).
  { unfold drain_pass.
    assert (Eud : update_dirty callf (S (length auc + S (length aup + S m))) 0 w0
                  = (w0, Done tt)).
    { apply update_dirty_end.
      change (dirty_components (sched w0)) with (dirty_components (sched w)).
      now rewrite Hdc. }
    muse Eud. unfold set_current_component. mprim. mprim. fold w3.
    muse (run_binding_callbacks_none callf (length auc + S (length aup + S m)) w3
            ltac:(change (binding_callbacks (sched w3))
                    with (binding_callbacks (sched w)); exact Hbc)).
    muse Hrr. reflexivity. }
  pose proof (flush_one_pass callf _ w1 _ Hfl Hpass eq_refl Hfc) as Efl.
  match type of Efl with _ = (?x, _) => set (w2 := x) in Efl end.
  assert (Htr : trace w2 = trace w1 ++ Render mc :: (Call ∘ COnMount <$> msc) ++ t1
                             ++ Render mp :: (Call ∘ COnMount <$> msp) ++ t2).
  { subst w2 w9 w8 w7 w6 w5 w4 w3 w0. unfold touch. wsimpl. trace_eq. }
  exists w1, w2, t1, t2.
  split; [exact E1|]. split; [exact Htr1|]. split; [exact Efl|].
  split; [exact Htr|]. split; [exact Ht1|]. split; [exact Ht2|].
  destruct (render_only_quiet t1 0%nat Ht1) as [Hq1 _].
  destruct (render_only_quiet t2 0%nat Ht2) as [Hq2 _].
  rewrite Htr, Htr1.
  change (Render mc :: (Call ∘ COnMount <$> msc) ++ t1
            ++ Render mp :: (Call ∘ COnMount <$> msp) ++ t2)
    with ([Render mc] ++ (Call ∘ COnMount <$> msc) ++ t1
            ++ [Render mp] ++ (Call ∘ COnMount <$> msp) ++ t2).
  rewrite !on_mount_calls_app, !on_mount_calls_run, Hq1, Hq2.
  cbn [on_mount_calls omap list_omap app]. now rewrite !app_nil_r.
Qed.

End MountOrder.

(** A parent (component 1, fragment 8) and its child (component 0,
    fragment 7), each with one [on_mount] and one [after_update]
    callback. *)
Definition nursery : @World unit :=
  MkWorld tt
    {[0%nat := CompState (Frag 7) (Some []) ∅ 0 (Some 1%nat) 2 3 [Some (-1)]
                 false safe_not_equal true false;
      1%nat := CompState (Frag 8) (Some []) ∅ 4 (Some 5%nat) 6 7 [Some (-1)]
                 false safe_not_equal true false]}
    {[0%nat := [40%nat]; 1%nat := []; 2%nat := []; 3%nat := [11%nat];
      4%nat := [41%nat]; 5%nat := []; 6%nat := []; 7%nat := [12%nat]]}
    8 0 idle ∅ ∅ 0 None [].

(** The mount function of fragment 8 mounts component 0 in node 100. *)
Definition mounts_child (x : call) : M (App:=unit) (option ufn) :=
  match x with
  | CFragMount 8 _ _ => _ ← mount_component quiet 0 100 None false; mret None
  | _ => quiet x
  end.

Lemma mounts_child_quiet x :
  match x with CFragMount 8 _ _ => False | _ => True end ->
  inert mounts_child x.
Proof.
  intros H w. exists tt, None.
  destruct w as [[] ? ? ? ? ? ? ? ? ? ?].
  destruct x as [| | | | | | | | |b0 ? ?| | | | | |]; try reflexivity.
  do 9 (destruct b0 as [|b0]; try reflexivity). destruct H.
Defined.

Lemma mounts_child_nested target anchor w :
  fragment <$> comps w !! 0%nat = Some (Frag 7) ->
  mounts_child (CFragMount 8 target anchor) w
  = (_ ← mount_component mounts_child 0 100 None false; mret None) w.
Proof.
  intros H.
  assert (E : mount_component quiet 0 100 None false w
              = mount_component mounts_child 0 100 None false w).
  { unfold mount_component. rewrite !(bind_eq (get_comp 0)). unfold get_comp.
    destruct (comps w !! 0%nat) as [cs|]; [|discriminate].
    injection H as H. rewrite H. reflexivity. }
  change (mounts_child (CFragMount 8 target anchor) w)
    with ((_ ← mount_component quiet 0 100 None false;
           mret (None : option ufn)) w).
  rewrite (bind_eq (mount_component quiet 0 100 None false)), E.
  reflexivity.
Defined.

Lemma child_on_mount_witness :
  exists w1 w2 t1 t2,
    mount_component mounts_child 1 200 None false nursery = (w1, Done tt) /\
    trace w1 = trace nursery ++ [Call (CFragMount 8 200 None);
                                 Call (CFragMount 7 100 None)] /\
    flush mounts_child 5 w1 = (w2, Done tt) /\
    trace w2
    = trace w1
        ++ Render (RMount (next_closure nursery) 0 0 (Some 1%nat))
        :: (Call ∘ COnMount <$> [40%nat]) ++ t1
        ++ Render (RMount (S (next_closure nursery)) 1 4 (Some 5%nat))
        :: (Call ∘ COnMount <$> [41%nat]) ++ t2 /\
    render_only t1 /\ render_only t2 /\
    on_mount_calls (trace w2) = on_mount_calls (trace nursery) ++ [40%nat] ++ [41%nat].
Proof.
  assert (Hmount : forall f w, exists a : unit,
             mounts_child (COnMount f) w = (set_app a w, Done ((fun _ => None) f))).
  { intros f w. exists tt. now destruct w as [[] ? ? ? ? ? ? ? ? ? ?]. }
  apply (child_on_mount_runs_first mounts_child (fun _ => None) Hmount
           (fun f => mounts_child_quiet (CRender f) I)
           1%nat 0%nat 8%nat 7%nat 100%nat None
           mounts_child_nested
           (fun t a => mounts_child_quiet (CFragMount 7 t a) I)
           200%nat None nursery
           (CompState (Frag 8) (Some []) ∅ 4 (Some 5%nat) 6 7 [Some (-1)]
              false safe_not_equal true false)
           (CompState (Frag 7) (Some []) ∅ 0 (Some 1%nat) 2 3 [Some (-1)]
              false safe_not_equal true false)
           [41%nat] [40%nat] 5%nat 1%nat [12%nat] [11%nat] 5%nat);
    try reflexivity; try discriminate; cbn; lia.
Defined.


(** *** Marks of several components before a flush *)

(** A run of [make_dirty(component, i)] calls. *)
Fixpoint make_dirty_each {App} (l : list (comp * nat)) : M (App:=App) unit :=
  match l with
  | [] => mret tt
  | (c, i) :: l' => _ ← make_dirty c i; make_dirty_each l'
  end.

(** The queue [q] extended by the components of [cs] that it lacks, in
    order. *)
Fixpoint queue_after (q : list comp) (cs : list comp) : list comp :=
  match cs with
  | [] => q
  | c :: cs' => queue_after (if decide (c ∈ q) then q else q ++ [c]) cs'
  end.

Lemma queue_after_NoDup cs :
  forall q, NoDup (q ++ cs) -> queue_after q cs = q ++ cs.
Proof.
  induction cs as [|c cs IH]; intros q Hnd; cbn [queue_after].
  - now rewrite app_nil_r.
  - rewrite decide_False.
    + rewrite IH; rewrite <- app_assoc; [reflexivity|exact Hnd].
    + apply NoDup_app in Hnd as (_ & Hd & _). intros Hin.
      apply (Hd c Hin). now left.
Qed.

Section Batch.

Context {App : Type}.

(** A queued component is marked, with a mask of 31-bit words. *)
Definition in_queue (w : @World App) (c : comp) : Prop :=
  exists cs, comps w !! c = Some cs /\
             forall k, 0 <= dirty_word (dirty cs) k < 2 ^ 31.

Definition clean (w : @World App) (c : comp) : Prop :=
  exists cs, comps w !! c = Some cs /\ dirty cs !! 0%nat = Some (Some (-1)).

Lemma make_dirty_queued c i (w : @World App) :
  Z.of_nat i < 2 ^ 32 -> in_queue w c ->
  exists cs D,
    comps w !! c = Some cs /\
    make_dirty c i w = (set_comps (<[c := set_dirty D cs]> (comps w)) w, Done tt) /\
    forall k, 0 <= dirty_word D k < 2 ^ 31.
Proof.
  intros Hi (cs & Hc & Hr). exists cs, (marked (dirty cs) i).
  split; [exact Hc|]. split.
  - apply make_dirty_again; [exact Hc|]. now apply word_range_not_clean.
  - apply (mark_bit (dirty cs) i Hi Hr).
Qed.

Lemma make_dirty_fresh c i (w : @World App) :
  Z.of_nat i < 2 ^ 32 -> clean w c ->
  exists cs D,
    comps w !! c = Some cs /\
    make_dirty c i w
    = (set_comps (<[c := set_dirty D cs]> (comps w)) (upd_sched (queued c) w),
       Done tt) /\
    forall k, 0 <= dirty_word D k < 2 ^ 31.
Proof.
  intros Hi (cs & Hc & Hd).
  exists cs, (marked (replicate (length (dirty cs)) (Some 0)) i).
  split; [exact Hc|]. split.
  - now apply make_dirty_clean.
  - apply (mark_bit (replicate (length (dirty cs)) (Some 0)) i Hi).
    intros k. rewrite dirty_word_zeros. lia.
Qed.

Lemma make_dirty_each_spec l :
  forall (w : @World App),
    (dirty_components (sched w) <> [] -> update_scheduled (sched w) = true) ->
    (forall c, c ∈ dirty_components (sched w) -> in_queue w c) ->
    Forall (fun ci => Z.of_nat ci.2 < 2 ^ 32 /\
                      (ci.1 ∈ dirty_components (sched w) \/ clean w ci.1)) l ->
    exists w',
      make_dirty_each l w = (w', Done tt) /\
      dirty_components (sched w') = queue_after (dirty_components (sched w)) l.*1 /\
      update_scheduled (sched w')
      = update_scheduled (sched w)
        || negb (bool_decide (dirty_components (sched w') = [])) /\
      pending_flushes (sched w')
      = (if update_scheduled (sched w) then pending_flushes (sched w)
         else if bool_decide (dirty_components (sched w') = [])
              then pending_flushes (sched w)
              else S (pending_flushes (sched w))) /\
      trace w' = trace w /\ arrays w' = arrays w.
Proof.
  induction l as [|[c i] l IH]; intros w Hs Hq Hall.
  - exists w. cbn [make_dirty_each fmap list_fmap queue_after].
    split; [reflexivity|]. split; [reflexivity|].
    destruct (update_scheduled (sched w)) eqn:Eu.
    + now repeat split.
    + destruct (dirty_components (sched w)) as [|x q] eqn:Eq.
      * now repeat split.
      * assert (Hft : false = true) by (apply Hs; discriminate). discriminate.
  - pose proof (Forall_inv Hall) as [Hi Hc]. cbn [fst snd] in Hi, Hc.
    pose proof (Forall_inv_tail Hall) as Hall'.
    cbn [make_dirty_each fmap list_fmap queue_after fst].
    change (list_fmap _ _ fst l) with (l.*1).
    destruct (decide (c ∈ dirty_components (sched w))) as [Hin|Hnin].
    + destruct (make_dirty_queued c i w Hi (Hq c Hin)) as (cs & D & Hcs & E & HD).
      muse E. set (w1 := set_comps _ w).
      destruct (IH w1) as (w' & E' & H1 & H2 & H3 & H4 & H5).
      { exact Hs. }
      { intros c' Hc'. subst w1. unfold in_queue. wsimpl.
        destruct (decide (c' = c)) as [->|Hne].
        - exists (set_dirty D cs). rewrite lookup_insert_eq. now split.
        - rewrite lookup_insert_ne by congruence. now apply Hq. }
      { eapply Forall_impl; [exact Hall'|]. intros [c' i'] [Hi' Hc'].
        cbn [fst snd] in *. split; [exact Hi'|].
        destruct Hc' as [Hc'|(cs' & Hcs' & Hd')]; [now left|].
        destruct (decide (c' = c)) as [->|Hne]; [now left|].
        right. exists cs'. subst w1. wsimpl.
        rewrite lookup_insert_ne by congruence. now split. }
      exists w'. split; [exact E'|]. now repeat split.
    + destruct Hc as [Hc|Hc]; [contradiction|].
      destruct (make_dirty_fresh c i w Hi Hc) as (cs & D & Hcs & E & HD).
      muse E. set (w1 := set_comps _ _).
      destruct (queued_fields c (sched w)) as (Q1 & _).
      assert (Hq1 : dirty_components (sched w1) = dirty_components (sched w) ++ [c])
        by exact Q1.
      assert (Hu1 : update_scheduled (sched w1) = true).
      { subst w1. wsimpl. unfold queued.
        destruct (sched w) as [? ? ? ? ? [] ? ? ?]; reflexivity. }
      assert (Hp1 : pending_flushes (sched w1)
                    = if update_scheduled (sched w) then pending_flushes (sched w)
                      else S (pending_flushes (sched w))).
      { subst w1. wsimpl. unfold queued.
        destruct (sched w) as [? ? ? ? ? [] ? ? ?]; reflexivity. }
      destruct (IH w1) as (w' & E' & H1 & H2 & H3 & H4 & H5).
      { intros _. exact Hu1. }
      { intros c' Hc'. rewrite Hq1 in Hc'. unfold in_queue. subst w1. wsimpl.
        destruct (decide (c' = c)) as [->|Hne].
        - exists (set_dirty D cs). rewrite lookup_insert_eq. now split.
        - rewrite lookup_insert_ne by congruence. apply Hq.
          apply elem_of_app in Hc' as [Hc'|Hc']; [exact Hc'|].
          apply list_elem_of_singleton in Hc'. contradiction. }
      { eapply Forall_impl; [exact Hall'|]. intros [c' i'] [Hi' Hc'].
        cbn [fst snd] in *. split; [exact Hi'|]. rewrite Hq1.
        destruct Hc' as [Hc'|(cs' & Hcs' & Hd')].
        - left. apply elem_of_app. now left.
        - destruct (decide (c' = c)) as [->|Hne].
          + left. apply elem_of_app. right. now left.
          + right. exists cs'. subst w1. wsimpl.
            rewrite lookup_insert_ne by congruence. now split. }
      assert (Hne' : dirty_components (sched w') <> []).
      { rewrite H1, Hq1. clear. generalize (l.*1).
        assert (G : forall cs q, q <> [] -> queue_after q cs <> []).
        { induction cs as [|x cs IHc]; intros q Hq; cbn [queue_after]; [exact Hq|].
          apply IHc. destruct (decide (x ∈ q)); [exact Hq|].
          now destruct q. }
        intros cs0. apply G. now destruct (dirty_components (sched w)). }
      exists w'. split; [exact E'|]. split; [now rewrite H1, Hq1|].
      rewrite H2, H3, Hu1, Hp1, (bool_decide_eq_false_2 _ Hne').
      cbn [negb orb]. rewrite orb_true_r.
      split; [reflexivity|]. split; [reflexivity|]. split; [exact H4|exact H5].
Qed.

(** However many components are marked before the flush, one flush is
    scheduled.  From a scheduler with nothing queued and no flush
    scheduled, a run of [make_dirty] calls on clean components queues
    each component once, in the order of its first mark, schedules
    exactly one flush and calls no component code. *)
Theorem marks_share_one_flush (w : @World App) l :
  update_scheduled (sched w) = false ->
  dirty_components (sched w) = [] ->
  l <> [] ->
  Forall (fun ci => Z.of_nat ci.2 < 2 ^ 32 /\ clean w ci.1) l ->
  exists w',
    make_dirty_each l w = (w', Done tt) /\
    dirty_components (sched w') = queue_after [] l.*1 /\
    (NoDup l.*1 -> dirty_components (sched w') = l.*1) /\
    update_scheduled (sched w') = true /\
    pending_flushes (sched w') = S (pending_flushes (sched w)) /\
    trace w' = trace w.
Proof.
  intros Hu Hdc Hne Hall.
  destruct (make_dirty_each_spec l w) as (w' & E & H1 & H2 & H3 & H4 & _).
  { rewrite Hdc. congruence. }
  { intros c Hc. rewrite Hdc in Hc. now apply not_elem_of_nil in Hc. }
  { eapply Forall_impl; [exact Hall|]. intros ci [Hi Hc]. split; [exact Hi|now right]. }
  rewrite Hdc in H1. rewrite Hu in H2, H3.
  assert (Hq : dirty_components (sched w') <> []).
  { rewrite H1. destruct l as [|[c i] l]; [congruence|].
    cbn [fmap list_fmap queue_after]. rewrite decide_False by apply not_elem_of_nil.
    cbn [app]. clear.
    change (list_fmap _ _ fst l) with (l.*1). generalize (l.*1).
    assert (G : forall cs q, q <> [] -> queue_after q cs <> []).
    { induction cs as [|x cs IHc]; intros q Hq; cbn [queue_after]; [exact Hq|].
      apply IHc. destruct (decide (x ∈ q)); [exact Hq|]. now destruct q. }
    intros cs0. now apply G. }
  rewrite (bool_decide_eq_false_2 _ Hq) in H2, H3.
  exists w'. split; [exact E|]. split; [exact H1|].
  split; [|now repeat split].
  intros Hnd. rewrite H1. now apply (queue_after_NoDup _ []).
Qed.

End Batch.

Lemma marks_share_witness :
  exists w',
    make_dirty_each [(1, 0); (0, 2); (1, 1)]%nat nursery = (w', Done tt) /\
    dirty_components (sched w') = queue_after [] [1; 0; 1]%nat /\
    (NoDup [1; 0; 1]%nat -> dirty_components (sched w') = [1; 0; 1]%nat) /\
    update_scheduled (sched w') = true /\
    pending_flushes (sched w') = S (pending_flushes (sched nursery)) /\
    trace w' = trace nursery.
Proof.
  apply (marks_share_one_flush nursery [(1, 0); (0, 2); (1, 1)]%nat);
    try reflexivity; try discriminate.
  repeat constructor; cbn; try lia; eexists; split; reflexivity.
Defined.


(** *** Destroying a component with a child *)

(** [$$] once [destroy_component] is done with it. *)
Definition destroyed (cs : comp_state) : comp_state :=
  set_ctx (Some []) (set_on_destroy None (set_fragment FragNull cs)).

Section DestroyOrder.

Context {App : Type}.
Variable callf : call -> @World App -> @World App * status (option ufn).
Hypothesis Hod : forall x f, inert callf (COnDestroy x f).

(** [destroy_component] up to the call of [fragment.d]. *)
Lemma destroy_component_prefix x d w xs b l fs :
  comps w !! x = Some xs -> fragment xs = Frag b ->
  on_destroy xs = Some l -> arrays w !! l = Some fs ->
  exists a,
    destroy_component callf x d w
    = (_ ← call_ callf (CFragDestroy b d);
       _ ← set_comp x (fun cs => set_on_destroy None (set_fragment FragNull cs));
       set_comp x (set_ctx (Some [])))
        (touch a (trace w ++ (Call ∘ COnDestroy x <$> fs)) w).
Proof.
  intros Hx Hf Hl Ha. unfold destroy_component.
  rewrite (bind_done _ _ _ _ _ (get_comp_some _ _ _ Hx)), Hf, Hl.
  destruct (run_all_inert callf l (COnDestroy x) fs w (Hod x) Ha) as (a & E).
  muse E. exists a.
  rewrite (bind_done _ _ _ _ _
             (get_comp_some x xs (touch a (trace w ++ (Call ∘ COnDestroy x <$> fs)) w)
                Hx)).
  now rewrite Hf.
Qed.

Lemma destroy_component_end x (w : @World App) xs :
  comps w !! x = Some xs ->
  (_ ← set_comp x (fun cs => set_on_destroy None (set_fragment FragNull cs));
   set_comp x (set_ctx (Some []))) w
  = (set_comps (<[x := destroyed xs]> (comps w)) w, Done tt).
Proof.
  intros Hx. unfold set_comp, modify. rewrite bind_eq. f_equal.
  destruct w. wnorm. f_equal. wsimpl in Hx.
  rewrite (alter_alt_Some _ _ _ _ Hx).
  rewrite (alter_alt_Some _ _ _ _ (lookup_insert_eq _ _ _)).
  now rewrite insert_insert_eq.
Qed.

(** [destroy_component] of a component whose fragment only removes
    nodes. *)
Lemma destroy_component_leaf x d w xs b l fs :
  comps w !! x = Some xs -> fragment xs = Frag b ->
  on_destroy xs = Some l -> arrays w !! l = Some fs ->
  inert callf (CFragDestroy b d) ->
  exists a,
    destroy_component callf x d w
    = (set_comps (<[x := destroyed xs]> (comps w))
         (touch a (trace w ++ (Call ∘ COnDestroy x <$> fs)
                           ++ [Call (CFragDestroy b d)]) w),
       Done tt).
Proof.
  intros Hx Hf Hl Ha Hin.
  destruct (destroy_component_prefix x d w xs b l fs Hx Hf Hl Ha) as (a1 & E1).
  rewrite E1. set (w1 := touch a1 _ w).
  destruct (call_touch callf (CFragDestroy b d) w1 Hin) as (a2 & E2).
  muse E2. exists a2.
  rewrite (destroy_component_end x _ xs) by exact Hx.
  f_equal. subst w1. unfold touch. wsimpl. now rewrite <- app_assoc.
Qed.

Variables (p c : comp) (bp bc : block) (dc : bool).

(** The destroy function of the fragment of [p] destroys the child
    [c], as long as it is alive with fragment [bc]; the destroy function
    of [bc] only removes nodes. *)
Hypothesis Hd : forall d w cs l fs,
  comps w !! c = Some cs -> fragment cs = Frag bc ->
  on_destroy cs = Some l -> arrays w !! l = Some fs ->
  callf (CFragDestroy bp d) w
  = (_ ← destroy_component callf c dc; mret None) w.
Hypothesis Hdc : forall d, inert callf (CFragDestroy bc d).

(** The [on_destroy] callbacks of a parent run before those of its
    child.  [destroy_component] of [p] calls the [on_destroy] callbacks
    of [p] and then the destroy function of its fragment, which destroys
    [c]: the [on_destroy] callbacks of [c], then the destroy function of
    its fragment.  Both components end with no fragment, no [on_destroy]
    and an empty [ctx]. *)
Theorem parent_on_destroy_runs_first d w ps cs lp lc dsp dsc :
  p <> c ->
  comps w !! p = Some ps -> fragment ps = Frag bp ->
  on_destroy ps = Some lp -> arrays w !! lp = Some dsp ->
  comps w !! c = Some cs -> fragment cs = Frag bc ->
  on_destroy cs = Some lc -> arrays w !! lc = Some dsc ->
  exists w',
    destroy_component callf p d w = (w', Done tt) /\
    trace w'
    = trace w ++ (Call ∘ COnDestroy p <$> dsp) ++ [Call (CFragDestroy bp d)]
        ++ (Call ∘ COnDestroy c <$> dsc) ++ [Call (CFragDestroy bc dc)] /\
    comps w' = <[p := destroyed ps]> (<[c := destroyed cs]> (comps w)) /\
    arrays w' = arrays w /\ sched w' = sched w.
Proof.
  intros Hpc Hp Hfp Hlp Hap Hc Hfc Hlc Hac.
  destruct (destroy_component_prefix p d w ps bp lp dsp Hp Hfp Hlp Hap) as (a1 & E1).
  rewrite E1. set (w1 := touch a1 _ w).
  set (w2 := set_trace (trace w1 ++ [Call (CFragDestroy bp d)]) w1).
  destruct (destroy_component_leaf c dc w2 cs bc lc dsc Hc Hfc Hlc Hac (Hdc _))
    as (a2 & Ec).
  match type of Ec with _ = (?x, _) => set (w4 := x) in Ec end.
  assert (Ecall : call_ callf (CFragDestroy bp d) w1 = (w4, Done tt)).
  { unfold call_, invoke, log, modify. rewrite !bind_eq. fold w2.
    rewrite (Hd d w2 cs lc dsc Hc Hfc Hlc Hac), bind_eq, Ec. reflexivity. }
  muse Ecall.
  rewrite (destroy_component_end p _ ps).
  2:{ subst w4. unfold touch. wsimpl.
      rewrite lookup_insert_ne by congruence. exact Hp. }
  eexists. split; [reflexivity|].
  split; [|split; [reflexivity|split; reflexivity]].
  subst w4 w2 w1. unfold touch. wsimpl. trace_eq.
Qed.

End DestroyOrder.

(** The destroy function of fragment 8 destroys component 0. *)
Definition destroys_child (x : call) : M (App:=unit) (option ufn) :=
  match x with
  | CFragDestroy 8 _ => _ ← destroy_component quiet 0 false; mret None
  | _ => quiet x
  end.

Lemma destroys_child_quiet x :
  match x with CFragDestroy 8 _ => False | _ => True end ->
  inert destroys_child x.
Proof.
  intros H w. exists tt, None.
  destruct w as [[] ? ? ? ? ? ? ? ? ? ?].
  destruct x as [| | | | | | | | | |b0 ?| | | | |]; try reflexivity.
  do 9 (destruct b0 as [|b0]; try reflexivity). destruct H.
Defined.

Lemma destroys_child_nested d w cs l fs :
  comps w !! 0%nat = Some cs -> fragment cs = Frag 7 ->
  on_destroy cs = Some l -> arrays w !! l = Some fs ->
  destroys_child (CFragDestroy 8 d) w
  = (_ ← destroy_component destroys_child 0 false; mret None) w.
Proof.
  intros Hc Hf Hl Ha.
  destruct (destroy_component_leaf quiet (fun x f => quiet_inert _)
              0 false w cs 7 l fs Hc Hf Hl Ha (quiet_inert _)) as ([] & E).
  destruct (destroy_component_leaf destroys_child
              (fun x f => destroys_child_quiet (COnDestroy x f) I)
              0 false w cs 7 l fs Hc Hf Hl Ha
              (destroys_child_quiet (CFragDestroy 7 false) I)) as ([] & E').
  change (destroys_child (CFragDestroy 8 d) w)
    with ((_ ← destroy_component quiet 0 false; mret (None : option ufn)) w).
  rewrite (bind_eq (destroy_component quiet 0 false)), E.
  rewrite (bind_eq (destroy_component destroys_child 0 false)), E'.
  reflexivity.
Defined.

(** The world of [nursery] with [on_destroy] callbacks 50 of the child
    and 51 of the parent. *)
Definition nursery_end : @World unit :=
  set_arrays (<[1%nat := [50%nat]]> (<[5%nat := [51%nat]]> (arrays nursery)))
    nursery.

Lemma parent_on_destroy_witness :
  exists w',
    destroy_component destroys_child 1 true nursery_end = (w', Done tt) /\
    trace w'
    = trace nursery_end ++ (Call ∘ COnDestroy 1 <$> [51%nat])
        ++ [Call (CFragDestroy 8 true)]
        ++ (Call ∘ COnDestroy 0 <$> [50%nat]) ++ [Call (CFragDestroy 7 false)] /\
    comps w'
    = <[1%nat := destroyed (CompState (Frag 8) (Some []) ∅ 4 (Some 5%nat) 6 7
                              [Some (-1)] false safe_not_equal true false)]>
        (<[0%nat := destroyed (CompState (Frag 7) (Some []) ∅ 0 (Some 1%nat) 2 3
                                 [Some (-1)] false safe_not_equal true false)]>
           (comps nursery_end)) /\
    arrays w' = arrays nursery_end /\ sched w' = sched nursery_end.
Proof.
  apply (parent_on_destroy_runs_first destroys_child
           (fun x f => destroys_child_quiet (COnDestroy x f) I)
           1%nat 0%nat 8%nat 7%nat false destroys_child_nested
           (fun d => destroys_child_quiet (CFragDestroy 7 d) I)
           true nursery_end _ _ 5%nat 1%nat [51%nat] [50%nat]);
    try reflexivity; discriminate.
Defined.


(** *** Binding callbacks and flush callbacks *)

Section Popped.

Context {App : Type}.
Variable callf : call -> @World App -> @World App * status (option ufn).
Hypothesis Hbinding : forall f, inert callf (CBinding f).
Hypothesis Hflushcb : forall f, inert callf (CFlushCb f).

Lemma run_binding_popped bs :
  forall fuel w,
    binding_callbacks (sched w) = bs ->
    (length bs < fuel)%nat ->
    exists a,
      run_binding_callbacks callf fuel w
      = (touch a (trace w ++ (Call ∘ CBinding <$> rev bs))
           (upd_sched (set_binding_callbacks []) w), Done tt).
Proof.
  induction bs as [|f bs IH] using rev_ind; intros fuel w Hb Hfuel;
    (destruct fuel as [|fuel]; [lia|]).
  - exists (app w). rewrite run_binding_callbacks_none by exact Hb.
    cbn [rev fmap list_fmap]. rewrite app_nil_r. f_equal.
    destruct w as [? ? ? ? ? s0 ? ? ? ? ?]. destruct s0.
    wsimpl in Hb. subst. reflexivity.
  - cbn [run_binding_callbacks]. mprim. rewrite Hb, last_snoc. mprim.
    set (w1 := upd_sched _ w).
    destruct (call_touch callf (CBinding f) w1 (Hbinding f)) as (a1 & E1).
    muse E1. set (w2 := touch a1 _ w1).
    destruct (IH fuel w2) as (a & E).
    { subst w2 w1. unfold touch. wsimpl. rewrite Hb. apply removelast_last. }
    { rewrite length_app in Hfuel. cbn [length] in Hfuel. lia. }
    rewrite E. exists a. f_equal. rewrite rev_unit.
    subst w2 w1. destruct w as [? ? ? ? ? s0 ? ? ? ? ?]. destruct s0.
    unfold touch. wnorm. cbn [fmap list_fmap]. f_equal. trace_eq.
Qed.

Lemma run_flush_popped fs :
  forall fuel w,
    flush_callbacks (sched w) = fs ->
    (length fs < fuel)%nat ->
    exists a,
      run_flush_callbacks callf fuel w
      = (touch a (trace w ++ (Call ∘ CFlushCb <$> rev fs))
           (upd_sched (set_flush_callbacks []) w), Done tt).
Proof.
  induction fs as [|f fs IH] using rev_ind; intros fuel w Hb Hfuel;
    (destruct fuel as [|fuel]; [lia|]).
  - exists (app w). rewrite run_flush_callbacks_none by exact Hb.
    cbn [rev fmap list_fmap]. rewrite app_nil_r. f_equal.
    destruct w as [? ? ? ? ? s0 ? ? ? ? ?]. destruct s0.
    wsimpl in Hb. subst. reflexivity.
  - cbn [run_flush_callbacks]. mprim. rewrite Hb, last_snoc. mprim.
    set (w1 := upd_sched _ w).
    destruct (call_touch callf (CFlushCb f) w1 (Hflushcb f)) as (a1 & E1).
    muse E1. set (w2 := touch a1 _ w1).
    destruct (IH fuel w2) as (a & E).
    { subst w2 w1. unfold touch. wsimpl. rewrite Hb. apply removelast_last. }
    { rewrite length_app in Hfuel. cbn [length] in Hfuel. lia. }
    rewrite E. exists a. f_equal. rewrite rev_unit.
    subst w2 w1. destruct w as [? ? ? ? ? s0 ? ? ? ? ?]. destruct s0.
    unfold touch. wnorm. cbn [fmap list_fmap]. f_equal. trace_eq.
Qed.

(** [flush] pops its two stacks.  With nothing to update or render, the
    binding callbacks are called last registered first, then the flush
    callbacks last registered first, each once, and both stacks end
    empty. *)
Theorem flush_pops_callbacks w bs fs fuel :
  flushing (sched w) = false ->
  dirty_components (sched w) = [] ->
  render_callbacks (sched w) = [] ->
  binding_callbacks (sched w) = bs ->
  flush_callbacks (sched w) = fs ->
  (length bs < fuel)%nat -> (length fs < fuel)%nat ->
  exists w',
    flush callf fuel w = (w', Done tt) /\
    trace w' = trace w ++ (Call ∘ CBinding <$> rev bs)
                 ++ (Call ∘ CFlushCb <$> rev fs) /\
    binding_callbacks (sched w') = [] /\
    flush_callbacks (sched w') = [] /\
    flushing (sched w') = false /\ update_scheduled (sched w') = false.
Proof.
  intros Hfl Hdc Hrc Hbc Hfc Hf1 Hf2.
  destruct fuel as [|n]; [lia|].
  set (w0 := upd_sched (set_flushing true) w).
  set (w3 := upd_sched (set_dirty_components [])
               (upd_sched (set_current_component' None) w0)).
  destruct (run_binding_popped bs (S n) w3 Hbc Hf1) as (a1 & E1).
  match type of E1 with _ = (?x, _) => set (w4 := x) in E1 end.
  assert (Hpass : drain_pass callf (S n) w0
                  = (upd_sched (set_render_callbacks []) w4, Done tt)).
  { unfold drain_pass.
    assert (Eud : update_dirty callf (S n) 0 w0 = (w0, Done tt)).
    { apply update_dirty_end.
      change (dirty_components (sched w0)) with (dirty_components (sched w)).
      now rewrite Hdc. }
    muse Eud. unfold set_current_component. mprim. mprim. fold w3.
    muse E1.
    muse (run_render_callbacks_end callf n 0 w4
            ltac:(change (render_callbacks (sched w4))
                    with (render_callbacks (sched w)); now rewrite Hrc)).
    reflexivity. }
  set (w5 := upd_sched (set_render_callbacks []) w4) in Hpass.
  destruct (run_flush_popped fs (S n) w5 Hfc Hf2) as (a2 & E2).
  unfold flush. mprim. rewrite Hfl. mprim. fold w0.
  muse (drain_once callf n (S n) w0 w5 Hpass eq_refl).
  muse E2. mprim. mprim.
  eexists. split; [reflexivity|].
  split; [|now repeat split].
  subst w5 w4 w3 w0. unfold touch. wsimpl. trace_eq.
Qed.

End Popped.

(** Binding callbacks 60 and 61 and flush callbacks 70 and 71, in the
    order they were registered. *)
Definition stacked : @World unit :=
  upd_sched (fun s => set_flush_callbacks [70; 71]%nat
                        (set_binding_callbacks [60; 61]%nat s)) demo_world.

Lemma flush_pops_witness :
  exists w',
    flush quiet 3 stacked = (w', Done tt) /\
    trace w' = trace stacked ++ (Call ∘ CBinding <$> rev [60; 61]%nat)
                 ++ (Call ∘ CFlushCb <$> rev [70; 71]%nat) /\
    binding_callbacks (sched w') = [] /\
    flush_callbacks (sched w') = [] /\
    flushing (sched w') = false /\ update_scheduled (sched w') = false.
Proof.
  apply (flush_pops_callbacks quiet (fun f => quiet_inert _) (fun f => quiet_inert _)
           stacked [60; 61]%nat [70; 71]%nat 3%nat); try reflexivity; cbn; lia.
Defined.


End Runtime.

(** ** Hydration: reordering claimed children *)

Module Hydrate.
Import JS.

(** A child node: its identity and the [claim_order] stamp. *)
Record dnode := DNode { nid : nat; claim_order : Z }.

#[global] Instance dnode_eq_dec : EqDecision dnode.
Proof. solve_decision. Defined.

(** The target element: the [hydrate_init] flag and [childNodes]. *)
Record target := Target { hydrate_init : bool; childNodes : list dnode }.

(** [>>] on 32-bit integers. *)
Definition js_shr (a b : Z) : Z := Z.shiftr (to_int32 a) (Z.land b 31).

(** [a[k]] on an [Int32Array]: [undefined] ([None]) outside the array. *)
Definition i32_get (a : list Z) (k : Z) : option Z :=
  if k <? 0 then None else a !! Z.to_nat k.

(** [a[k] = v]: the value is stored as a 32-bit integer; a store outside
    the array is ignored. *)
Definition i32_set (a : list Z) (k v : Z) : list Z :=
  if k <? 0 then a else <[Z.to_nat k := to_int32 v]> a.

(** [children[k]] *)
Definition child (children : list dnode) (k : Z) : option dnode :=
  if k <? 0 then None else children !! Z.to_nat k.

(** [[
    function upper_bound(low, high, key, value) {
        while (low < high) {
            const mid = low + ((high - low) >> 1);
            if (key(mid) <= value) {
                low = mid + 1;
            }
            else {
                high = mid;
            }
        }
        return low;
    }
    ]]
    [key] fails when it reads a property of [undefined].  The loop halves
    [high - low], so [high - low] iterations are a budget it never
    exhausts. *)
Fixpoint upper_bound_loop (fuel : nat) (low high : Z) (key : Z -> option Z)
    (value : Z) : option Z :=
  if low <? high then
    match fuel with
    | O => None
    | S fuel' =>
        let mid := low + js_shr (high - low) 1 in
        k ← key mid;
        if k <=? value then upper_bound_loop fuel' (mid + 1) high key value
        else upper_bound_loop fuel' low mid key value
    end
  else Some low.

Definition upper_bound (low high : Z) (key : Z -> option Z) (value : Z)
  : option Z :=
  upper_bound_loop (Z.to_nat (high - low)) low high key value.

(** The state of the first loop of [init_hydrate]. *)
Record lis_state := LisState {
  ls_m : list Z;         (* m: length j => index of the smallest tail *)
  ls_p : list Z;         (* p: predecessor index + 1 *)
  ls_longest : Z
}.

(** [idx => children[m[idx]].claim_order] *)
Definition tail_key (children : list dnode) (m : list Z) (idx : Z) : option Z :=
  k ← i32_get m idx;
  n ← child children k;
  Some (claim_order n).

(** The body of
    [[
    for (let i = 0; i < children.length; i++) {
        const current = children[i].claim_order;
        const seqLen = upper_bound(1, longest + 1,
                                   idx => children[m[idx]].claim_order, current) - 1;
        p[i] = m[seqLen] + 1;
        const newLen = seqLen + 1;
        m[newLen] = i;
        longest = Math.max(newLen, longest);
    }
    ]] *)
Definition lis_step (children : list dnode) (i : nat) (s : lis_state)
  : option lis_state :=
  n ← children !! i;
  let current := claim_order n in
  ub ← upper_bound 1 (ls_longest s + 1) (tail_key children (ls_m s)) current;
  let seqLen := ub - 1 in
  prev ← i32_get (ls_m s) seqLen;
  let p := i32_set (ls_p s) (Z.of_nat i) (prev + 1) in
  let newLen := seqLen + 1 in
  let m := i32_set (ls_m s) newLen (Z.of_nat i) in
  Some (LisState m p (Z.max newLen (ls_longest s))).

Fixpoint lis_loop (children : list dnode) (todo i : nat) (s : lis_state)
  : option lis_state :=
  match todo with
  | O => Some s
  | S todo' => s' ← lis_step children i s; lis_loop children todo' (S i) s'
  end.

(** [[
    const m = new Int32Array(children.length + 1);
    const p = new Int32Array(children.length);
    m[0] = -1;
    let longest = 0;
    ]] *)
Definition lis_init (children : list dnode) : lis_state :=
  LisState (i32_set (replicate (S (length children)) 0) 0 (-1))
           (replicate (length children) 0) 0.

(** [[ for (; last >= cur; last--) { toMove.push(children[last]); } ]]
    The loop runs [last - cur + 1] times when [last >= cur], and not at
    all otherwise. *)
Fixpoint push_down (children : list dnode) (count : nat) (last : Z)
    (toMove : list dnode) : option (list dnode) :=
  match count with
  | O => Some toMove
  | S count' =>
      n ← child children last;
      push_down children count' (last - 1) (toMove ++ [n])
  end.

Definition move_range (children : list dnode) (last cur : Z)
    (toMove : list dnode) : option (list dnode * Z) :=
  let count := Z.to_nat (last - cur + 1) in
  tm ← push_down children count last toMove;
  Some (tm, last - Z.of_nat count).

(** [[
    for (let cur = m[longest] + 1; cur != 0; cur = p[cur - 1]) {
        lis.push(children[cur - 1]);
        for (; last >= cur; last--) {
            toMove.push(children[last]);
        }
        last--;
    }
    ]]
    [cur] decreases, so the loop is given [children.length + 1] rounds. *)
Fixpoint collect (children : list dnode) (p : list Z) (fuel : nat)
    (cur last : Z) (lis toMove : list dnode)
  : option (list dnode * list dnode * Z) :=
  if cur =? 0 then Some (lis, toMove, last)
  else
    match fuel with
    | O => None
    | S fuel' =>
        n ← child children (cur - 1);
        r ← move_range children last cur toMove;
        next ← i32_get p (cur - 1);
        collect children p fuel' next (r.2 - 1) (lis ++ [n]) r.1
    end.

(** [toMove.sort((a, b) => a.claim_order - b.claim_order)] *)
Definition by_claim_order (a b : dnode) : Prop := claim_order a <= claim_order b.

#[global] Instance by_claim_order_dec a b : Decision (by_claim_order a b).
Proof. unfold by_claim_order. apply _. Defined.

Definition sort_by_claim_order (l : list dnode) : list dnode :=
  merge_sort by_claim_order l.

(** [target.insertBefore(node, anchor)]: the node leaves its place and is
    put before the anchor, or last when the anchor is [null]; an anchor
    that is not a child of the target is an error. *)
Definition remove_node (x : dnode) (dom : list dnode) : list dnode :=
  filter (fun y => y <> x) dom.

Fixpoint insert_before (x a : dnode) (dom : list dnode) : option (list dnode) :=
  match dom with
  | [] => None
  | y :: dom' =>
      if decide (y = a) then Some (x :: y :: dom')
      else (fun r => y :: r) <$> insert_before x a dom'
  end.

Definition insertBefore (dom : list dnode) (x : dnode) (anchor : option dnode)
  : option (list dnode) :=
  match anchor with
  | None => Some (remove_node x dom ++ [x])
  | Some a =>
      if decide (a ∈ dom) then
        if decide (a = x) then Some dom
        else insert_before x a (remove_node x dom)
      else None
  end.

(** [[
    for (let i = 0, j = 0; i < toMove.length; i++) {
        while (j < lis.length && toMove[i].claim_order >= lis[j].claim_order) {
            j++;
        }
        const anchor = j < lis.length ? lis[j] : null;
        target.insertBefore(toMove[i], anchor);
    }
    ]]
    The index [j] is kept as the part of [lis] from [j] on. *)
Fixpoint advance (x : dnode) (lis : list dnode) : list dnode :=
  match lis with
  | [] => []
  | l :: lis' =>
      if claim_order x >=? claim_order l then advance x lis' else lis
  end.

Fixpoint move_all (toMove lis dom : list dnode)
    (ops : list (dnode * option dnode))
  : option (list dnode * list (dnode * option dnode)) :=
  match toMove with
  | [] => Some (dom, ops)
  | x :: toMove' =>
      let lis' := advance x lis in
      let anchor := head lis' in
      dom' ← insertBefore dom x anchor;
      move_all toMove' lis' dom' (ops ++ [(x, anchor)])
  end.

(** The two arrays the middle of [init_hydrate] builds. *)
Definition split_lis (children : list dnode) : option (list dnode * list dnode) :=
  s ← lis_loop children (length children) 0 (lis_init children);
  top ← i32_get (ls_m s) (ls_longest s);
  r ← collect children (ls_p s) (S (length children)) (top + 1)
        (Z.of_nat (length children) - 1) [] [];
  rest ← move_range children r.2 0 r.1.2;
  Some (rev r.1.1, sort_by_claim_order rest.1).

(** [init_hydrate(target)]: the new target and the [insertBefore] calls
    made, in order. *)
Definition init_hydrate (t : target)
  : option (target * list (dnode * option dnode)) :=
  if hydrate_init t then Some (t, [])
  else
    let children := childNodes t in
    sp ← split_lis children;
    r ← move_all sp.2 sp.1 children [];
    Some (Target true r.1, r.2).

(** Children stamped with the given claim orders, in document order. *)
Definition stamped (l : list Z) : list dnode :=
  imap (fun i c => DNode i c) l.

Example init_hydrate_20143 :
  init_hydrate (Target false (stamped [2; 0; 1; 4; 3]))
  = Some (Target true [DNode 1 0; DNode 2 1; DNode 0 2; DNode 4 3; DNode 3 4],
          [(DNode 0 2, Some (DNode 4 3)); (DNode 3 4, None)]).
Proof. vm_compute. reflexivity. Qed.

(** *** The binary search *)

Lemma js_shr_half x : 0 <= x < 2 ^ 31 -> js_shr x 1 = x / 2.
Proof.
  intros H. unfold js_shr. rewrite to_int32_small by lia.
  change (Z.land 1 31) with 1. now rewrite Z.shiftr_div_pow2 by lia.
Qed.

Lemma upper_bound_loop_spec (key : Z -> option Z) (f : Z -> Z) value :
  forall fuel low high,
    0 <= low -> high < 2 ^ 31 ->
    (Z.to_nat (high - low) <= fuel)%nat ->
    (forall idx, low <= idx < high -> key idx = Some (f idx)) ->
    (forall a b, low <= a <= b -> b < high -> f a <= f b) ->
    exists r,
      upper_bound_loop fuel low high key value = Some r /\
      low <= r /\ (low <= high -> r <= high) /\
      (forall idx, low <= idx < r -> f idx <= value) /\
      (forall idx, r <= idx < high -> value < f idx).
Proof.
  induction fuel as [|fuel IH]; intros low high Hlow Hhigh Hfuel Hkey Hmono.
  - exists low. cbn [upper_bound_loop].
    destruct (Z.ltb_spec low high); [lia|].
    repeat split; auto; intros; lia.
  - cbn [upper_bound_loop]. destruct (Z.ltb_spec low high) as [Hlt|Hge].
    + rewrite js_shr_half by lia.
      set (mid := low + (high - low) / 2).
      assert (Hmid : low <= mid < high).
      { subst mid. pose proof (Z.div_pos (high - low) 2).
        assert ((high - low) / 2 < high - low)
          by (apply Z.div_lt_upper_bound; lia).
        lia. }
      rewrite (Hkey mid Hmid). cbn [mbind option_bind].
      destruct (Z.leb_spec (f mid) value) as [Hle|Hgt].
      * destruct (IH (mid + 1) high) as (r & E & H1 & H2 & H3 & H4);
          try lia.
        { intros idx Hi. apply Hkey. lia. }
        { intros a b Ha Hb. apply Hmono; lia. }
        exists r. split; [exact E|]. repeat split; try lia.
        -- intros idx Hi. destruct (Z.le_gt_cases idx mid).
           ++ transitivity (f mid); [apply Hmono; lia|exact Hle].
           ++ apply H3. lia.
        -- intros idx Hi. apply H4. lia.
      * destruct (IH low mid) as (r & E & H1 & H2 & H3 & H4); try lia.
        { intros idx Hi. apply Hkey. lia. }
        { intros a b Ha Hb. apply Hmono; lia. }
        exists r. split; [exact E|]. repeat split; try lia.
        -- exact H3.
        -- intros idx Hi. destruct (Z.lt_ge_cases idx mid).
           ++ apply H4. lia.
           ++ assert (f mid <= f idx) by (apply Hmono; lia). lia.
    + exists low. repeat split; auto; intros; lia.
Qed.

Lemma upper_bound_spec (key : Z -> option Z) (f : Z -> Z) value low high :
  0 <= low <= high -> high < 2 ^ 31 ->
  (forall idx, low <= idx < high -> key idx = Some (f idx)) ->
  (forall a b, low <= a <= b -> b < high -> f a <= f b) ->
  exists r,
    upper_bound low high key value = Some r /\
    low <= r <= high /\
    (forall idx, low <= idx < r -> f idx <= value) /\
    (forall idx, r <= idx < high -> value < f idx).
Proof.
  intros Hr Hh Hkey Hmono.
  destruct (upper_bound_loop_spec key f value (Z.to_nat (high - low)) low high)
    as (r & E & H1 & H2 & H3 & H4); try lia; auto.
  exists r. repeat split; auto. lia.
Qed.

(** *** The longest increasing subsequence *)

Section Lis.

Variable children : list dnode.

(** Array lengths fit 32-bit integers, and the stamps are distinct. *)
Hypothesis Hsize : Z.of_nat (length children) < 2 ^ 31.
Hypothesis Hdistinct : NoDup (claim_order <$> children).

(** The stamp of the child at index [k]. *)
Definition co (k : nat) : Z := default 0 (claim_order <$> children !! k).

Lemma co_lookup k nd : children !! k = Some nd -> co k = claim_order nd.
Proof. intros H. unfold co. now rewrite H. Qed.

Lemma co_fmap k :
  (k < length children)%nat -> (claim_order <$> children) !! k = Some (co k).
Proof.
  intros H. destruct (lookup_lt_is_Some_2 children k H) as [nd E].
  rewrite list_lookup_fmap, E. cbn. now rewrite (co_lookup k nd E).
Qed.

Lemma co_inj k k' :
  (k < length children)%nat -> (k' < length children)%nat ->
  co k = co k' -> k = k'.
Proof.
  intros Hk Hk' E.
  eapply NoDup_lookup; [exact Hdistinct|apply co_fmap, Hk|].
  rewrite E. apply co_fmap, Hk'.
Qed.

(** [chain p k j]: following the predecessor links of [p] from index [k]
    visits [j] children, each earlier in the list and with a smaller
    stamp than the one before. *)
Inductive chain (p : list Z) : nat -> nat -> Prop :=
| chain_one k : p !! k = Some 0 -> chain p k 1
| chain_more k k' j :
    p !! k = Some (Z.of_nat k' + 1) -> (k' < k)%nat -> co k' < co k ->
    chain p k' j -> chain p k (S j).

Lemma chain_insert p k j i v :
  chain p k j -> (k < i)%nat -> chain (<[i := v]> p) k j.
Proof.
  induction 1 as [k Hk|k k' j Hk Hlt Hco Hc IH]; intros Hi.
  - apply chain_one. rewrite list_lookup_insert_ne by lia. exact Hk.
  - eapply chain_more; eauto.
    + rewrite list_lookup_insert_ne by lia. exact Hk.
    + apply IH. lia.
Qed.

Lemma chain_pos p k j : chain p k j -> (1 <= j)%nat.
Proof. destruct 1; lia. Qed.

(** What holds of the arrays once the first [i] children are processed. *)
Record inv (i : nat) (s : lis_state) : Prop := Inv {
  inv_len_m : length (ls_m s) = S (length children);
  inv_len_p : length (ls_p s) = length children;
  inv_longest : 0 <= ls_longest s <= Z.of_nat i;
  inv_m0 : ls_m s !! 0%nat = Some (-1);
  inv_tail : forall j : nat,
    1 <= Z.of_nat j <= ls_longest s ->
    exists k : nat,
      ls_m s !! j = Some (Z.of_nat k) /\ (k < i)%nat /\ chain (ls_p s) k j;
  inv_mono : forall j j' k k' : nat,
    1 <= Z.of_nat j -> (j < j')%nat -> Z.of_nat j' <= ls_longest s ->
    ls_m s !! j = Some (Z.of_nat k) -> ls_m s !! j' = Some (Z.of_nat k') ->
    co k < co k';
  inv_best : forall t v,
    t `sublist_of` take i (claim_order <$> children) ->
    StronglySorted Z.lt t -> last t = Some v ->
    Z.of_nat (length t) <= ls_longest s /\
    exists k : nat, ls_m s !! length t = Some (Z.of_nat k) /\ co k <= v
}.

Lemma inv_init : inv 0 (lis_init children).
Proof.
  unfold lis_init, i32_set. cbn [Z.ltb Z.compare Z.to_nat].
  rewrite (to_int32_small (-1)) by lia.
  split; cbn [ls_m ls_p ls_longest].
  - now rewrite length_insert, length_replicate.
  - apply length_replicate.
  - lia.
  - reflexivity.
  - intros j Hj. lia.
  - intros j j' k k' Hj Hlt Hj'. lia.
  - intros t v Ht _ Hl. rewrite take_0 in Ht. apply sublist_nil_r in Ht.
    subst t. discriminate.
Qed.

(** The stamp at the end of the best subsequence of length [idx]. *)
Definition tail_val (m : list Z) (idx : Z) : Z :=
  match m !! Z.to_nat idx with
  | Some k => co (Z.to_nat k)
  | None => 0
  end.

Lemma tail_key_val i s idx :
  inv i s -> (i <= length children)%nat ->
  1 <= idx < ls_longest s + 1 ->
  tail_key children (ls_m s) idx = Some (tail_val (ls_m s) idx).
Proof.
  intros Hinv Hi Hidx.
  destruct (inv_tail i s Hinv (Z.to_nat idx)) as (k & Hk & Hki & _); [lia|].
  unfold tail_key, tail_val, i32_get, child.
  destruct (Z.ltb_spec idx 0); [lia|]. rewrite Hk. cbn [mbind option_bind].
  destruct (Z.ltb_spec (Z.of_nat k) 0); [lia|]. rewrite Nat2Z.id.
  destruct (lookup_lt_is_Some_2 children k) as [nd E]; [lia|].
  rewrite E. cbn [mbind option_bind]. now rewrite (co_lookup k nd E).
Qed.

Lemma tail_val_mono i s a b :
  inv i s -> 1 <= a <= b -> b < ls_longest s + 1 ->
  tail_val (ls_m s) a <= tail_val (ls_m s) b.
Proof.
  intros Hinv Ha Hb.
  destruct (inv_tail i s Hinv (Z.to_nat a)) as (k & Hk & _); [lia|].
  destruct (inv_tail i s Hinv (Z.to_nat b)) as (k' & Hk' & _); [lia|].
  unfold tail_val. rewrite Hk, Hk', !Nat2Z.id.
  destruct (Z.eq_dec a b) as [->|Hne].
  - rewrite Hk in Hk'. injection Hk' as Hk'. apply Nat2Z.inj in Hk'. subst. lia.
  - apply Z.lt_le_incl.
    apply (inv_mono i s Hinv (Z.to_nat a) (Z.to_nat b) k k'); auto; lia.
Qed.

Lemma take_snoc_co i :
  (i < length children)%nat ->
  take (S i) (claim_order <$> children)
  = take i (claim_order <$> children) ++ [co i].
Proof. intros Hi. apply take_S_r, co_fmap, Hi. Qed.

Lemma sublist_snoc {A} (t l : list A) x :
  t `sublist_of` l ++ [x] ->
  t `sublist_of` l \/ exists t', t = t' ++ [x] /\ t' `sublist_of` l.
Proof.
  intros H. apply sublist_app_r in H as (t1 & t2 & -> & H1 & H2).
  apply sublist_cons_r in H2 as [H2|(t' & -> & H2)].
  - apply sublist_nil_r in H2. subst. rewrite app_nil_r. now left.
  - apply sublist_nil_r in H2. subst. right. now exists t1.
Qed.

(** One round of the first loop keeps the invariant. *)
Lemma lis_step_inv i s :
  inv i s -> (i < length children)%nat ->
  exists s', lis_step children i s = Some s' /\ inv (S i) s'.
Proof.
  intros Hinv Hi.
  destruct (lookup_lt_is_Some_2 children i Hi) as [nd End].
  pose proof (inv_longest i s Hinv) as HL.
  unfold lis_step. rewrite End. cbn [mbind option_bind].
  rewrite <- (co_lookup i nd End).
  destruct (upper_bound_spec (tail_key children (ls_m s)) (tail_val (ls_m s))
              (co i) 1 (ls_longest s + 1)) as (r & Eub & Hr & Hle & Hgt);
    [lia|lia| | |].
  { intros idx Hidx. apply (tail_key_val i s); auto; lia. }
  { intros a b Ha Hb. apply (tail_val_mono i s); auto. }
  rewrite Eub. cbn [mbind option_bind].
  (* strictness below r, from distinct stamps *)
  assert (Hlt : forall j k : nat,
             1 <= Z.of_nat j < r -> ls_m s !! j = Some (Z.of_nat k) ->
             (k < i)%nat -> co k < co i).
  { intros j k Hj Hk Hki.
    pose proof (Hle (Z.of_nat j) Hj) as H. unfold tail_val in H.
    rewrite Nat2Z.id, Hk, Nat2Z.id in H.
    assert (co k <> co i); [|lia].
    intros E. apply co_inj in E; lia. }
  assert (Hgt' : forall j k : nat,
             r <= Z.of_nat j <= ls_longest s -> ls_m s !! j = Some (Z.of_nat k) ->
             co i < co k).
  { intros j k Hj Hk.
    pose proof (Hgt (Z.of_nat j) ltac:(lia)) as H. unfold tail_val in H.
    now rewrite Nat2Z.id, Hk, Nat2Z.id in H. }
  (* m[seqLen] *)
  assert (Hprev : exists prev,
             i32_get (ls_m s) (r - 1) = Some prev /\
             ((r = 1 /\ prev = -1) \/
              (1 < r /\ exists k : nat, prev = Z.of_nat k /\ (k < i)%nat /\
                          ls_m s !! Z.to_nat (r - 1) = Some (Z.of_nat k) /\
                          chain (ls_p s) k (Z.to_nat (r - 1))))).
  { unfold i32_get. destruct (Z.ltb_spec (r - 1) 0); [lia|].
    destruct (Z.eq_dec r 1) as [->|Hr1].
    - exists (-1). split; [apply (inv_m0 i s Hinv)|now left].
    - destruct (inv_tail i s Hinv (Z.to_nat (r - 1))) as (k & Hk & Hki & Hc);
        [lia|].
      exists (Z.of_nat k). split; [exact Hk|]. right. split; [lia|].
      exists k. auto. }
  destruct Hprev as (prev & Eprev & Hprev). rewrite Eprev.
  cbn [mbind option_bind]. eexists. split; [reflexivity|].
  replace (r - 1 + 1) with r by lia.
  assert (Hrange : - 2 ^ 31 <= prev + 1 < 2 ^ 31).
  { destruct Hprev as [[_ ->]|(_ & k & -> & Hk & _)]; lia. }
  unfold i32_set.
  destruct (Z.ltb_spec (Z.of_nat i) 0); [lia|].
  destruct (Z.ltb_spec r 0); [lia|].
  rewrite Nat2Z.id, (to_int32_small (prev + 1)) by exact Hrange.
  rewrite (to_int32_small (Z.of_nat i)) by lia.
  set (rn := Z.to_nat r).
  set (m' := <[rn := Z.of_nat i]> (ls_m s)).
  set (p' := <[i := prev + 1]> (ls_p s)).
  assert (Hrn : (rn < length (ls_m s))%nat).
  { rewrite (inv_len_m i s Hinv). subst rn. lia. }
  assert (Hip : (i < length (ls_p s))%nat).
  { rewrite (inv_len_p i s Hinv). lia. }
  assert (Hchain : chain p' i rn).
  { destruct Hprev as [[-> ->]|(Hr1 & k & -> & Hk & Hmk & Hc)].
    - subst rn. change (Z.to_nat 1) with 1%nat. apply chain_one.
      subst p'. now rewrite list_lookup_insert_eq.
    - replace rn with (S (Z.to_nat (r - 1))) by (subst rn; lia).
      eapply (chain_more p' i k).
      + subst p'. now rewrite list_lookup_insert_eq.
      + exact Hk.
      + apply (Hlt (Z.to_nat (r - 1)) k); auto. lia.
      + subst p'. apply chain_insert; auto. }
  split; cbn [ls_m ls_p ls_longest].
  - subst m'. rewrite length_insert. apply (inv_len_m i s Hinv).
  - subst p'. rewrite length_insert. apply (inv_len_p i s Hinv).
  - lia.
  - subst m'. rewrite list_lookup_insert_ne by (subst rn; lia).
    apply (inv_m0 i s Hinv).
  - intros j Hj. destruct (decide (j = rn)) as [->|Hne].
    + exists i. subst m'. rewrite list_lookup_insert_eq by exact Hrn.
      split; [reflexivity|]. split; [lia|exact Hchain].
    + destruct (inv_tail i s Hinv j) as (k & Hk & Hki & Hc);
        [subst rn; lia|].
      exists k. subst m'. rewrite list_lookup_insert_ne by congruence.
      split; [exact Hk|]. split; [lia|].
      subst p'. apply chain_insert; auto.
  - intros j j' k k' Hj Hjj' Hj' Hk Hk'. subst m'.
    destruct (decide (j = rn)) as [->|Hne];
      destruct (decide (j' = rn)) as [->|Hne']; try lia.
    + rewrite list_lookup_insert_eq in Hk by exact Hrn.
      rewrite list_lookup_insert_ne in Hk' by congruence.
      injection Hk as Hk. apply Nat2Z.inj in Hk. subst k.
      apply (Hgt' j' k'); auto. subst rn. lia.
    + rewrite list_lookup_insert_ne in Hk by congruence.
      rewrite list_lookup_insert_eq in Hk' by exact Hrn.
      injection Hk' as Hk'. apply Nat2Z.inj in Hk'. subst k'.
      destruct (inv_tail i s Hinv j) as (k0 & Hk0 & Hki & _);
        [subst rn; lia|].
      rewrite Hk in Hk0. injection Hk0 as Hk0. apply Nat2Z.inj in Hk0. subst k0.
      apply (Hlt j k); auto. subst rn. lia.
    + rewrite list_lookup_insert_ne in Hk by congruence.
      rewrite list_lookup_insert_ne in Hk' by congruence.
      apply (inv_mono i s Hinv j j' k k'); auto. subst rn. lia.
  - intros t v Ht Hs Hl. rewrite (take_snoc_co i Hi) in Ht.
    apply sublist_snoc in Ht as [Ht|(t1 & -> & Ht1)].
    + destruct (inv_best i s Hinv t v Ht Hs Hl) as (Hlen & k & Hk & Hkv).
      split; [lia|].
      destruct (decide (length t = rn)) as [E|Hne].
      * exists i. subst m'. rewrite E, list_lookup_insert_eq by exact Hrn.
        split; [reflexivity|].
        assert (co i < co k); [|lia].
        apply (Hgt' (length t) k); auto. subst rn. lia.
      * exists k. subst m'. rewrite list_lookup_insert_ne by congruence. auto.
    + rewrite last_snoc in Hl. injection Hl as <-.
      rewrite length_app. cbn [length].
      apply StronglySorted_app in Hs as (Hcross & Hs1 & _).
      assert (Hlen1 : Z.of_nat (length t1) < r).
      { destruct (last t1) as [v1|] eqn:El.
        - destruct (inv_best i s Hinv t1 v1 Ht1 Hs1 El) as (Hlen & k & Hk & Hkv).
          destruct (Z.lt_ge_cases (Z.of_nat (length t1)) r) as [|Hge]; [assumption|].
          pose proof (Hgt' (length t1) k ltac:(lia) Hk).
          assert (v1 < co i).
          { apply Hcross; [|now left].
            apply last_Some in El as (t0 & ->). apply elem_of_app. right. now left. }
          lia.
        - apply last_None in El. subst t1. cbn [length]. lia. }
      split; [lia|].
      destruct (decide ((length t1 + 1)%nat = rn)) as [E|Hne].
      * exists i. subst m'. rewrite E, list_lookup_insert_eq by exact Hrn.
        split; [reflexivity|lia].
      * destruct (inv_tail i s Hinv (length t1 + 1)%nat) as (k & Hk & Hki & _);
          [subst rn; lia|].
        exists k. subst m'. rewrite list_lookup_insert_ne by congruence.
        split; [exact Hk|].
        apply Z.lt_le_incl, (Hlt (length t1 + 1)%nat k); auto. subst rn. lia.
Qed.

Lemma lis_loop_inv todo :
  forall i s,
    inv i s -> (i + todo <= length children)%nat ->
    exists s', lis_loop children todo i s = Some s' /\ inv (i + todo) s'.
Proof.
  induction todo as [|todo IH]; intros i s Hinv Hi.
  - exists s. rewrite Nat.add_0_r. now split.
  - cbn [lis_loop].
    destruct (lis_step_inv i s Hinv ltac:(lia)) as (s1 & E1 & Hinv1).
    rewrite E1. cbn [mbind option_bind].
    destruct (IH (S i) s1 Hinv1 ltac:(lia)) as (s' & E' & Hinv').
    exists s'. split; [exact E'|].
    now replace (i + S todo)%nat with (S i + todo)%nat by lia.
Qed.

(** *** Splitting the children *)

Lemma child_lookup (k : nat) : child children (Z.of_nat k) = children !! k.
Proof.
  unfold child. destruct (Z.ltb_spec (Z.of_nat k) 0); [lia|].
  now rewrite Nat2Z.id.
Qed.

Lemma push_down_spec count :
  forall (last : nat) tm,
    (count <= S last)%nat -> (last < length children)%nat ->
    push_down children count (Z.of_nat last) tm
    = Some (tm ++ rev (take count (drop (S last - count) children))).
Proof.
  induction count as [|count IH]; intros last tm Hc Hl.
  - cbn [push_down]. now rewrite take_0, app_nil_r.
  - cbn [push_down]. rewrite child_lookup.
    destruct (lookup_lt_is_Some_2 children last Hl) as [nd End].
    rewrite End. cbn [mbind option_bind].
    assert (Hget : drop (S last - S count) children !! count = Some nd).
    { rewrite lookup_drop. now replace (S last - S count + count)%nat with last by lia. }
    rewrite (take_S_r _ _ _ Hget), rev_app_distr. cbn [rev app].
    destruct count as [|count'].
    + cbn [push_down]. rewrite take_0. reflexivity.
    + replace (Z.of_nat last - 1) with (Z.of_nat (last - 1)) by lia.
      rewrite IH by lia.
      replace (S (last - 1) - S count')%nat with (S last - S (S count'))%nat by lia.
      now rewrite <- app_assoc.
Qed.

(** The children from index [a] on, [last + 1] excluded, pushed from the
    last one down. *)
Lemma move_range_spec (last : Z) (cur : nat) tm :
  -1 <= last < Z.of_nat (length children) ->
  Z.of_nat cur <= last + 1 ->
  move_range children last (Z.of_nat cur) tm
  = Some (tm ++ rev (take (Z.to_nat (last + 1) - cur) (drop cur children)),
          Z.of_nat cur - 1).
Proof.
  intros Hl Hc. unfold move_range.
  set (count := Z.to_nat (last - Z.of_nat cur + 1)).
  destruct (Z.eq_dec last (-1)) as [->|Hne].
  - assert (cur = 0%nat) by lia. subst cur. subst count.
    cbn. now rewrite app_nil_r.
  - replace last with (Z.of_nat (Z.to_nat last)) at 1 by lia.
    rewrite push_down_spec by (subst count; lia).
    cbn [mbind option_bind]. f_equal. f_equal.
    + replace (S (Z.to_nat last) - count)%nat with cur by (subst count; lia).
      replace (Z.to_nat (last + 1) - cur)%nat with count by (subst count; lia).
      reflexivity.
    + subst count. lia.
Qed.

(** The state of the second loop at its head. *)
Record collecting (p : list Z) (longest : nat) (cur last : Z)
    (lis tm : list dnode) : Prop := Collecting {
  col_last : -1 <= last < Z.of_nat (length children);
  col_perm : lis ++ tm ≡ₚ drop (Z.to_nat (last + 1)) children;
  col_sub : rev lis `sublist_of` drop (Z.to_nat (last + 1)) children;
  col_sorted : StronglySorted Z.lt (claim_order <$> rev lis);
  col_next :
    (cur = 0 /\ length lis = longest) \/
    (exists (k j : nat),
        cur = Z.of_nat k + 1 /\ Z.of_nat k <= last /\ chain p k j /\
        (length lis + j = longest)%nat /\
        forall x, x ∈ lis -> co k < claim_order x)
}.

Lemma chain_lookup p k j : chain p k j -> is_Some (p !! k).
Proof. destruct 1; eauto. Qed.

Lemma collect_spec p longest fuel :
  forall cur last lis tm,
    collecting p longest cur last lis tm ->
    (Z.to_nat cur <= fuel)%nat ->
    exists lis' tm' last',
      collect children p fuel cur last lis tm = Some (lis', tm', last') /\
      collecting p longest 0 last' lis' tm'.
Proof.
  induction fuel as [|fuel IH]; intros cur last lis tm Hcol Hfuel.
  - destruct (col_next _ _ _ _ _ _ Hcol) as [[-> Hlen]|(k & j & -> & _)]; [|lia].
    exists lis, tm, last. now split.
  - cbn [collect].
    destruct (col_next _ _ _ _ _ _ Hcol) as [[-> Hlen]|(k & j & -> & Hk & Hc & Hlen & Hlow)].
    { exists lis, tm, last. now split. }
    destruct (Z.eqb_spec (Z.of_nat k + 1) 0); [lia|].
    replace (Z.of_nat k + 1 - 1) with (Z.of_nat k) by lia.
    pose proof (col_last _ _ _ _ _ _ Hcol) as Hlast.
    rewrite child_lookup.
    destruct (lookup_lt_is_Some_2 children k ltac:(lia)) as [nd End].
    rewrite End. cbn [mbind option_bind].
    replace (Z.of_nat k + 1) with (Z.of_nat (S k)) by lia.
    rewrite move_range_spec by lia. cbn [mbind option_bind fst snd].
    replace (Z.of_nat (S k) - 1 - 1) with (Z.of_nat k - 1) by lia.
    set (mid := take (Z.to_nat (last + 1) - S k) (drop (S k) children)).
    assert (Hdrop : drop k children
                    = nd :: mid ++ drop (Z.to_nat (last + 1)) children).
    { rewrite (drop_S _ _ _ End). f_equal. subst mid.
      rewrite <- (take_drop (Z.to_nat (last + 1) - S k) (drop (S k) children)) at 1.
      f_equal. rewrite drop_drop. f_equal. lia. }
    assert (Hcol' : forall cur',
      ((cur' = 0 /\ length (lis ++ [nd]) = longest) \/
       (exists k' j' : nat,
           cur' = Z.of_nat k' + 1 /\ Z.of_nat k' <= Z.of_nat k - 1 /\
           chain p k' j' /\ (length (lis ++ [nd]) + j' = longest)%nat /\
           forall x, x ∈ lis ++ [nd] -> co k' < claim_order x)) ->
      collecting p longest cur' (Z.of_nat k - 1) (lis ++ [nd])
        (tm ++ rev mid)).
    { intros cur' Hnext. split.
      - lia.
      - replace (Z.to_nat (Z.of_nat k - 1 + 1)) with k by lia.
        rewrite Hdrop, <- (col_perm _ _ _ _ _ _ Hcol).
        rewrite (Permutation_app_comm lis [nd]). cbn [app]. constructor.
        rewrite (app_assoc lis tm), (Permutation_app_comm (lis ++ tm) (rev mid)).
        apply Permutation_app; [|reflexivity].
        symmetry. apply Permutation_rev.
      - replace (Z.to_nat (Z.of_nat k - 1 + 1)) with k by lia.
        rewrite Hdrop, rev_app_distr. cbn [rev app].
        apply sublist_skip, sublist_inserts_l, (col_sub _ _ _ _ _ _ Hcol).
      - rewrite rev_app_distr. cbn [rev app fmap list_fmap].
        apply StronglySorted_cons. split; [|apply (col_sorted _ _ _ _ _ _ Hcol)].
        apply Forall_forall. intros c Hc'.
        apply list_elem_of_fmap in Hc' as (x & -> & Hx).
        rewrite <- (co_lookup k nd End). apply Hlow.
        apply list_elem_of_In, in_rev, list_elem_of_In, Hx.
      - exact Hnext. }
    inversion Hc as [k0 Hp|k0 k' j' Hp Hlt Hco Hc']; subst.
    + unfold i32_get. destruct (Z.ltb_spec (Z.of_nat k) 0); [lia|].
      rewrite Nat2Z.id, Hp. cbn [mbind option_bind].
      apply IH; [|lia]. apply Hcol'. left. split; [reflexivity|].
      rewrite length_app. cbn [length]. lia.
    + unfold i32_get. destruct (Z.ltb_spec (Z.of_nat k) 0); [lia|].
      rewrite Nat2Z.id, Hp. cbn [mbind option_bind].
      apply IH; [|lia]. apply Hcol'. right. exists k', j'.
      split; [reflexivity|]. split; [lia|]. split; [exact Hc'|].
      split; [rewrite length_app; cbn [length]; lia|].
      intros x Hx. apply elem_of_app in Hx as [Hx|Hx].
      * specialize (Hlow x Hx). lia.
      * apply list_elem_of_singleton in Hx. subst x.
        now rewrite <- (co_lookup k nd End).
Qed.

Lemma strictly_sorted (l : list Z) :
  StronglySorted Z.le l -> NoDup l -> StronglySorted Z.lt l.
Proof.
  induction 1 as [|x l Hs IH Hall]; intros Hnd; [constructor|].
  apply NoDup_cons in Hnd as [Hx Hnd].
  constructor; [now apply IH|].
  apply Forall_forall. intros y Hy.
  rewrite Forall_forall in Hall. specialize (Hall y Hy).
  assert (x <> y) by (intros ->; contradiction). lia.
Qed.

#[local] Instance by_claim_order_trans : Transitive by_claim_order.
Proof. intros a b c. unfold by_claim_order. lia. Qed.

#[local] Instance by_claim_order_total : Total by_claim_order.
Proof. intros a b. unfold by_claim_order. lia. Qed.

Lemma sorted_claim_orders (l : list dnode) :
  NoDup (claim_order <$> l) ->
  StronglySorted Z.lt (claim_order <$> sort_by_claim_order l).
Proof.
  intros Hnd. apply strictly_sorted.
  - pose proof (StronglySorted_merge_sort by_claim_order l) as H.
    unfold sort_by_claim_order.
    induction H as [|x k Hs IH Hall]; [constructor|].
    cbn [fmap list_fmap]. constructor; [exact IH|].
    apply Forall_fmap. exact Hall.
  - unfold sort_by_claim_order. now rewrite merge_sort_Permutation.
Qed.

(** The first half of [init_hydrate]: [lis] is a longest strictly
    increasing subsequence of the children, [toMove] holds the other
    children in ascending stamp order. *)
Lemma split_lis_spec :
  exists lis tm,
    split_lis children = Some (lis, tm) /\
    lis `sublist_of` children /\
    StronglySorted Z.lt (claim_order <$> lis) /\
    lis ++ tm ≡ₚ children /\
    StronglySorted Z.lt (claim_order <$> tm) /\
    (forall t, t `sublist_of` (claim_order <$> children) ->
               StronglySorted Z.lt t -> (length t <= length lis)%nat).
Proof.
  destruct (lis_loop_inv (length children) 0 (lis_init children) inv_init)
    as (s & Es & Hinv); [lia|]. cbn [Nat.add] in Hinv.
  unfold split_lis. rewrite Es. cbn [mbind option_bind].
  pose proof (inv_longest _ _ Hinv) as HL.
  set (longest := Z.to_nat (ls_longest s)).
  assert (Htop : exists top,
    i32_get (ls_m s) (ls_longest s) = Some top /\
    collecting (ls_p s) longest (top + 1) (Z.of_nat (length children) - 1) [] []
    /\ 0 <= top + 1 <= Z.of_nat (length children)).
  { unfold i32_get. destruct (Z.ltb_spec (ls_longest s) 0); [lia|].
    assert (Hbase : forall cur,
      (cur = 0 /\ length (@nil dnode) = longest) \/
      (exists k j : nat,
          cur = Z.of_nat k + 1 /\ Z.of_nat k <= Z.of_nat (length children) - 1 /\
          chain (ls_p s) k j /\ (length (@nil dnode) + j = longest)%nat /\
          forall x, x ∈ @nil dnode -> co k < claim_order x) ->
      collecting (ls_p s) longest cur (Z.of_nat (length children) - 1) [] []).
    { intros cur Hn. split.
      - lia.
      - replace (Z.to_nat (Z.of_nat (length children) - 1 + 1))
          with (length children) by lia.
        now rewrite drop_all.
      - apply sublist_nil_l.
      - constructor.
      - exact Hn. }
    destruct (Z.eq_dec (ls_longest s) 0) as [E0|Hne].
    - exists (-1). rewrite E0. split; [apply (inv_m0 _ _ Hinv)|]. split; [|lia].
      apply Hbase. left. split; [reflexivity|]. subst longest. now rewrite E0.
    - destruct (inv_tail _ _ Hinv longest) as (k & Hk & Hkn & Hc);
        [subst longest; lia|].
      exists (Z.of_nat k). split; [exact Hk|]. split; [|lia].
      apply Hbase. right. exists k, longest. split; [reflexivity|].
      split; [lia|]. split; [exact Hc|]. split; [reflexivity|].
      intros x Hx. now apply not_elem_of_nil in Hx. }
  destruct Htop as (top & Etop & Hcol & Htop). rewrite Etop.
  cbn [mbind option_bind].
  destruct (collect_spec (ls_p s) longest (S (length children)) (top + 1)
              (Z.of_nat (length children) - 1) [] [] Hcol ltac:(lia))
    as (lis & tm & lst & Ec & Hcol').
  rewrite Ec. cbn [mbind option_bind fst snd].
  pose proof (col_last _ _ _ _ _ _ Hcol') as Hlst.
  change 0 with (Z.of_nat 0) at 1.
  rewrite move_range_spec by lia. cbn [mbind option_bind fst snd].
  rewrite Nat.sub_0_r, drop_0.
  set (tm' := tm ++ rev (take (Z.to_nat (lst + 1)) children)).
  assert (Hperm : lis ++ tm' ≡ₚ children).
  { subst tm'. rewrite app_assoc, (col_perm _ _ _ _ _ _ Hcol').
    rewrite <- (Permutation_rev (take _ children)).
    rewrite Permutation_app_comm. now rewrite take_drop. }
  exists (rev lis), (sort_by_claim_order tm'). split; [reflexivity|].
  split.
  { etransitivity; [apply (col_sub _ _ _ _ _ _ Hcol')|apply sublist_drop]. }
  split; [apply (col_sorted _ _ _ _ _ _ Hcol')|].
  split.
  { unfold sort_by_claim_order. rewrite merge_sort_Permutation.
    now rewrite <- (Permutation_rev lis). }
  split.
  { apply sorted_claim_orders.
    assert (Hnd : NoDup (claim_order <$> lis ++ tm'))
      by (now rewrite Hperm).
    rewrite fmap_app in Hnd. now apply NoDup_app in Hnd as (_ & _ & Hnd). }
  intros t Ht Hs. rewrite length_rev.
  destruct (col_next _ _ _ _ _ _ Hcol') as [[_ Hlen]|(k & j & Hk & _)]; [|lia].
  rewrite Hlen.
  destruct (last t) as [v|] eqn:El.
  - destruct (inv_best _ _ Hinv t v) as (Hle & _); auto.
    + now rewrite firstn_all2 by (rewrite length_fmap; lia).
    + subst longest. lia.
  - apply last_None in El. subst t. cbn [length]. lia.
Qed.

End Lis.

(** *** Moving the other children *)

(** [u] is somewhere before [v] among the siblings. *)
Definition before (dom : list dnode) (u v : dnode) : Prop :=
  [u; v] `sublist_of` dom.

Lemma sublist_filter_mono {A} (P : A -> Prop) `{!forall x, Decision (P x)}
    (l1 l2 : list A) :
  l1 `sublist_of` l2 -> filter P l1 `sublist_of` filter P l2.
Proof.
  induction 1 as [|x l1 l2 Hs IH|x l1 l2 Hs IH].
  - constructor.
  - rewrite !filter_cons. destruct (decide (P x)); [now constructor|exact IH].
  - rewrite filter_cons. destruct (decide (P x)); [now constructor|exact IH].
Qed.

Lemma elem_of_remove_node x y dom : y ∈ remove_node x dom <-> y ∈ dom /\ y <> x.
Proof. unfold remove_node. rewrite list_elem_of_filter. tauto. Qed.

Lemma remove_node_Permutation x dom :
  NoDup dom -> x ∈ dom -> x :: remove_node x dom ≡ₚ dom.
Proof.
  intros Hnd Hx. apply NoDup_Permutation.
  - constructor.
    + rewrite elem_of_remove_node. tauto.
    + unfold remove_node. now apply NoDup_filter.
  - exact Hnd.
  - intros y. rewrite elem_of_cons, elem_of_remove_node.
    destruct (decide (y = x)) as [->|]; tauto.
Qed.

Lemma before_remove_node x dom u v :
  u <> x -> v <> x -> before dom u v -> before (remove_node x dom) u v.
Proof.
  intros Hu Hv H. unfold before, remove_node in *.
  apply (sublist_filter_mono (fun y => y <> x)) in H.
  rewrite !filter_cons, filter_nil in H.
  now rewrite !decide_True in H by assumption.
Qed.

Lemma insert_before_spec x a dom :
  a ∈ dom ->
  exists E1 E2,
    dom = E1 ++ a :: E2 /\ insert_before x a dom = Some (E1 ++ x :: a :: E2).
Proof.
  induction dom as [|y dom IH]; intros Ha.
  - now apply not_elem_of_nil in Ha.
  - cbn [insert_before]. destruct (decide (y = a)) as [->|Hne].
    + now exists [], dom.
    + apply elem_of_cons in Ha as [->|Ha]; [congruence|].
      destruct (IH Ha) as (E1 & E2 & -> & E).
      exists (y :: E1), E2. rewrite E. now split.
Qed.

Lemma pair_left u a (E1 E2 : list dnode) :
  NoDup (E1 ++ a :: E2) -> u <> a ->
  [u; a] `sublist_of` E1 ++ a :: E2 -> u ∈ E1.
Proof.
  intros Hnd Hne H. apply NoDup_app in Hnd as (_ & Hd & Hnd2).
  apply NoDup_cons in Hnd2 as [Ha2 _].
  apply sublist_app_r in H as (t1 & t2 & E & H1 & H2).
  destruct t1 as [|u' [|a' t1]]; cbn [app] in E.
  - subst t2. apply sublist_cons_r in H2 as [H2|(l' & E2' & H2)].
    + exfalso. apply Ha2. eapply sublist_subseteq; [exact H2|]. right. now left.
    + congruence.
  - injection E as <- <-. eapply sublist_subseteq; [exact H1|]. now left.
  - injection E as <- <- _. exfalso.
    assert (Ha1 : a ∈ E1).
    { eapply sublist_subseteq; [exact H1|]. right. now left. }
    apply (Hd a Ha1). now left.
Qed.

Lemma pair_right v a (E1 E2 : list dnode) :
  NoDup (E1 ++ a :: E2) -> v <> a ->
  [a; v] `sublist_of` E1 ++ a :: E2 -> v ∈ E2.
Proof.
  intros Hnd Hne H. apply NoDup_app in Hnd as (_ & Hd & Hnd2).
  apply NoDup_cons in Hnd2 as [Ha2 _].
  apply sublist_app_r in H as (t1 & t2 & E & H1 & H2).
  destruct t1 as [|a' t1]; cbn [app] in E.
  - subst t2. apply sublist_cons_r in H2 as [H2|(l' & E2' & H2)].
    + exfalso. apply Ha2. eapply sublist_subseteq; [exact H2|]. now left.
    + injection E2' as <-. eapply sublist_subseteq; [exact H2|]. now left.
  - injection E as <- E. exfalso.
    assert (Ha1 : a ∈ E1).
    { eapply sublist_subseteq; [exact H1|]. now left. }
    apply (Hd a Ha1). now left.
Qed.

(** A list without repetition in which smaller stamps come first is in
    ascending stamp order. *)
Lemma sorted_of_before dom :
  NoDup (claim_order <$> dom) ->
  (forall u v, u ∈ dom -> v ∈ dom -> claim_order u < claim_order v ->
               before dom u v) ->
  StronglySorted Z.lt (claim_order <$> dom).
Proof.
  induction dom as [|h dom IH]; intros Hnd Hb; [constructor|].
  cbn [fmap list_fmap] in *. apply NoDup_cons in Hnd as [Hh Hnd].
  assert (Hh' : h ∉ dom).
  { intros Hin. apply Hh. apply list_elem_of_fmap. now exists h. }
  constructor.
  - apply IH; [exact Hnd|]. intros u v Hu Hv Hlt.
    specialize (Hb u v ltac:(now right) ltac:(now right) Hlt).
    apply sublist_cons_r in Hb as [Hb|(l' & E & _)]; [exact Hb|].
    injection E as -> _. contradiction.
  - apply Forall_forall. intros c Hc.
    apply list_elem_of_fmap in Hc as (y & -> & Hy).
    destruct (Z.lt_trichotomy (claim_order h) (claim_order y)) as [Hlt|[Heq|Hgt]].
    + exact Hlt.
    + exfalso. apply Hh. rewrite Heq. apply list_elem_of_fmap. now exists y.
    + exfalso. specialize (Hb y h ltac:(now right) ltac:(now left) Hgt).
      apply sublist_cons_r in Hb as [Hb|(l' & E & _)].
      * apply Hh'. eapply sublist_subseteq; [exact Hb|]. right. now left.
      * injection E as -> _. contradiction.
Qed.

Lemma advance_spec x lis :
  exists skipped,
    lis = skipped ++ advance x lis /\
    (forall l, l ∈ skipped -> claim_order l <= claim_order x) /\
    (forall a, head (advance x lis) = Some a -> claim_order x < claim_order a).
Proof.
  induction lis as [|l lis IH].
  - exists []. repeat split; [intros l Hl; now apply not_elem_of_nil in Hl|].
    intros a Ha. discriminate.
  - cbn [advance]. destruct (Z.geb_spec (claim_order x) (claim_order l)) as [Hge|Hlt].
    + destruct IH as (sk & E & Hsk & Hhd). exists (l :: sk).
      split; [cbn [app]; now f_equal|]. split; [|exact Hhd].
      intros y Hy. apply elem_of_cons in Hy as [->|Hy]; [lia|now apply Hsk].
    + exists []. repeat split; [intros y Hy; now apply not_elem_of_nil in Hy|].
      intros a Ha. injection Ha as <-. exact Hlt.
Qed.

Lemma singleton_sublist {A} (x : A) l : x ∈ l -> [x] `sublist_of` l.
Proof.
  intros H. apply list_elem_of_split in H as (l1 & l2 & ->).
  apply sublist_inserts_l, sublist_skip, sublist_nil_l.
Qed.

Lemma claim_order_inj (l : list dnode) u v :
  NoDup (claim_order <$> l) -> u ∈ l -> v ∈ l ->
  claim_order u = claim_order v -> u = v.
Proof.
  intros Hnd Hu Hv E.
  apply list_elem_of_lookup in Hu as (i & Hi).
  apply list_elem_of_lookup in Hv as (j & Hj).
  assert (i = j).
  { eapply NoDup_lookup; [exact Hnd| |].
    - rewrite list_lookup_fmap, Hi. reflexivity.
    - rewrite list_lookup_fmap, Hj. cbn. now rewrite E. }
  subst j. congruence.
Qed.

Section Moving.

Variables children lis tm : list dnode.

Hypothesis Hdistinct : NoDup (claim_order <$> children).
Hypothesis Hperm : lis ++ tm ≡ₚ children.
Hypothesis Hlis : StronglySorted Z.lt (claim_order <$> lis).
Hypothesis Htm : StronglySorted Z.lt (claim_order <$> tm).

(** The state of the last loop: the nodes moved so far, those still to
    move, the part of [lis] before index [j] and the part from [j] on. *)
Record moving (moved tm_rest lis_done lis_rest dom : list dnode)
    (ops : list (dnode * option dnode)) : Prop := Moving {
  mv_tm : tm = moved ++ tm_rest;
  mv_lis : lis = lis_done ++ lis_rest;
  mv_perm : dom ≡ₚ children;
  mv_done : forall l x, l ∈ lis_done -> x ∈ tm_rest ->
                        claim_order l < claim_order x;
  mv_before : forall u v,
    u ∈ lis ++ moved -> v ∈ lis ++ moved -> claim_order u < claim_order v ->
    before dom u v;
  mv_ops : ops.*1 = moved
}.

Lemma NoDup_children : NoDup children.
Proof. exact (NoDup_fmap_1 _ _ Hdistinct). Qed.

Lemma NoDup_lis_tm : NoDup (lis ++ tm).
Proof. rewrite Hperm. exact NoDup_children. Qed.

(** What a move of [x] must achieve for the loop to go on. *)
Lemma moving_step moved x rest lis_done sk lis_rest dom dom' ops anchor :
  moving moved (x :: rest) lis_done (sk ++ lis_rest) dom ops ->
  (forall l, l ∈ sk -> claim_order l <= claim_order x) ->
  dom' ≡ₚ dom ->
  (forall u v, u <> x -> v <> x -> before dom u v -> before dom' u v) ->
  (forall u, u ∈ lis ++ moved -> claim_order u < claim_order x ->
             before dom' u x) ->
  (forall v, v ∈ lis_rest -> before dom' x v) ->
  moving (moved ++ [x]) rest (lis_done ++ sk) lis_rest dom'
    (ops ++ [(x, anchor)]).
Proof.
  intros Hmv Hsk Hp Hold Hux Hxv.
  pose proof (mv_tm _ _ _ _ _ _ Hmv) as Etm.
  pose proof (mv_lis _ _ _ _ _ _ Hmv) as Elis.
  pose proof NoDup_lis_tm as Hnd.
  assert (Hx_lis : x ∉ lis).
  { apply NoDup_app in Hnd as (_ & Hd & _). intros Hin. apply (Hd x Hin).
    rewrite Etm. apply elem_of_app. right. now left. }
  assert (Hx_moved : x ∉ moved).
  { apply NoDup_app in Hnd as (_ & _ & Hnt). rewrite Etm in Hnt.
    apply NoDup_app in Hnt as (_ & Hd & _). intros Hin. apply (Hd x Hin). now left. }
  assert (Hin_ch : forall y, y ∈ lis ++ tm -> y ∈ children).
  { intros y Hy. now rewrite <- Hperm. }
  assert (Hx_ch : x ∈ children).
  { apply Hin_ch. rewrite Etm. apply elem_of_app. right.
    apply elem_of_app. right. now left. }
  assert (Hmoved_lt : forall y, y ∈ moved -> claim_order y < claim_order x).
  { intros y Hy. rewrite Etm, fmap_app in Htm.
    apply StronglySorted_app in Htm as (Hcross & _).
    apply Hcross; [apply list_elem_of_fmap; now exists y|].
    cbn [fmap list_fmap]. now left. }
  assert (Hrest_gt : forall y, y ∈ rest -> claim_order x < claim_order y).
  { intros y Hy. rewrite Etm, fmap_app in Htm.
    apply StronglySorted_app in Htm as (_ & _ & Hs). cbn [fmap list_fmap] in Hs.
    apply StronglySorted_cons in Hs as [Hall _].
    rewrite Forall_forall in Hall. apply Hall, list_elem_of_fmap. now exists y. }
  assert (Hdone_lt : forall l, l ∈ lis_done ++ sk ->
                               claim_order l < claim_order x).
  { intros l Hl. apply elem_of_app in Hl as [Hl|Hl].
    - apply (mv_done _ _ _ _ _ _ Hmv l x Hl). now left.
    - specialize (Hsk l Hl).
      assert (Hl_lis : l ∈ lis).
      { rewrite Elis. apply elem_of_app. right. apply elem_of_app. now left. }
      assert (claim_order l <> claim_order x); [|lia].
      intros E. apply (claim_order_inj children) in E; auto.
      + subst l. contradiction.
      + apply Hin_ch, elem_of_app. now left. }
  split.
  - rewrite Etm, <- app_assoc. reflexivity.
  - rewrite Elis, <- app_assoc. reflexivity.
  - now rewrite Hp, (mv_perm _ _ _ _ _ _ Hmv).
  - intros l y Hl Hy. specialize (Hdone_lt l Hl). specialize (Hrest_gt y Hy). lia.
  - intros u v Hu Hv Hlt.
    assert (Hcase : forall y, y ∈ lis ++ moved ++ [x] ->
                              (y ∈ lis ++ moved /\ y <> x) \/ y = x).
    { intros y Hy. rewrite app_assoc in Hy. apply elem_of_app in Hy as [Hy|Hy].
      - left. split; [exact Hy|]. intros ->.
        apply elem_of_app in Hy as [Hy|Hy]; contradiction.
      - right. now apply list_elem_of_singleton in Hy. }
    destruct (Hcase u Hu) as [[Hu' Hux']| ->];
      destruct (Hcase v Hv) as [[Hv' Hvx']| ->].
    + apply Hold; auto. apply (mv_before _ _ _ _ _ _ Hmv); auto.
    + now apply Hux.
    + apply elem_of_app in Hv' as [Hv'|Hv'].
      * rewrite Elis, app_assoc in Hv'. apply elem_of_app in Hv' as [Hv'|Hv'].
        -- specialize (Hdone_lt v Hv'). lia.
        -- now apply Hxv.
      * specialize (Hmoved_lt v Hv'). lia.
    + lia.
  - rewrite fmap_app, (mv_ops _ _ _ _ _ _ Hmv). reflexivity.
Qed.

Lemma moving_fresh moved x rest lis_done lis_rest dom ops :
  moving moved (x :: rest) lis_done lis_rest dom ops ->
  (x ∉ lis) /\ x ∈ dom /\ NoDup dom /\ (forall y, y ∈ lis -> y ∈ dom).
Proof.
  intros Hmv.
  pose proof (mv_tm _ _ _ _ _ _ Hmv) as Etm.
  pose proof (mv_perm _ _ _ _ _ _ Hmv) as Hp.
  pose proof NoDup_lis_tm as Hnd.
  assert (Hx_tm : x ∈ tm).
  { rewrite Etm. apply elem_of_app. right. now left. }
  repeat split.
  - apply NoDup_app in Hnd as (_ & Hd & _). intros Hin. exact (Hd x Hin Hx_tm).
  - rewrite Hp, <- Hperm. apply elem_of_app. now right.
  - rewrite Hp. exact NoDup_children.
  - intros y Hy. rewrite Hp, <- Hperm. apply elem_of_app. now left.
Qed.

Lemma move_all_spec tm_rest :
  forall moved lis_done lis_rest dom ops,
    moving moved tm_rest lis_done lis_rest dom ops ->
    exists dom' ops' lis_done' lis_rest',
      move_all tm_rest lis_rest dom ops = Some (dom', ops') /\
      moving tm [] lis_done' lis_rest' dom' ops'.
Proof.
  induction tm_rest as [|x rest IH]; intros moved lis_done lis_rest dom ops Hmv.
  - exists dom, ops, lis_done, lis_rest. split; [reflexivity|].
    pose proof (mv_tm _ _ _ _ _ _ Hmv) as Etm. rewrite app_nil_r in Etm.
    now rewrite Etm.
  - cbn [move_all].
    destruct (moving_fresh _ _ _ _ _ _ _ Hmv) as (Hx_lis & Hx_dom & Hnd_dom & Hlis_dom).
    pose proof (mv_lis _ _ _ _ _ _ Hmv) as Elis.
    destruct (advance_spec x lis_rest) as (sk & Esk & Hsk & Hhd).
    remember (advance x lis_rest) as adv eqn:Eadv. clear Eadv.
    subst lis_rest.
    assert (Hrm : x :: remove_node x dom ≡ₚ dom)
      by now apply remove_node_Permutation.
    destruct adv as [|a rest']; cbn [head] in *.
    + cbn [insertBefore mbind option_bind].
      apply (IH (moved ++ [x]) (lis_done ++ sk)).
      apply moving_step with (dom := dom); auto.
      * etransitivity; [|exact Hrm]. symmetry. apply Permutation_cons_append.
      * intros u v Hu Hv Hb. apply sublist_inserts_r.
        now apply before_remove_node.
      * intros u Hu Hlt. unfold before.
        apply (sublist_app [u] _ [x] [x]); [|reflexivity].
        apply singleton_sublist, elem_of_remove_node. split.
        -- rewrite (mv_perm _ _ _ _ _ _ Hmv), <- Hperm.
           rewrite (mv_tm _ _ _ _ _ _ Hmv).
           apply elem_of_app in Hu as [Hu|Hu]; apply elem_of_app; [now left|right].
           apply elem_of_app. now left.
        -- intros ->. lia.
      * intros v Hv. now apply not_elem_of_nil in Hv.
    + specialize (Hhd a eq_refl).
      assert (Ha_lis : a ∈ lis).
      { rewrite Elis. apply elem_of_app. right. apply elem_of_app. right. now left. }
      assert (Hax : a <> x) by (intros ->; contradiction).
      assert (Ha_dom : a ∈ dom) by auto.
      cbn [insertBefore]. rewrite decide_True by assumption.
      rewrite decide_False by assumption.
      assert (Ha_rm : a ∈ remove_node x dom) by now apply elem_of_remove_node.
      destruct (insert_before_spec x a _ Ha_rm) as (E1 & E2 & Erm & Eins).
      rewrite Eins. cbn [mbind option_bind].
      assert (Hnd_rm : NoDup (E1 ++ a :: E2)).
      { rewrite <- Erm. unfold remove_node. now apply NoDup_filter. }
      apply (IH (moved ++ [x]) (lis_done ++ sk)).
      apply moving_step with (dom := dom); auto.
      * etransitivity; [|exact Hrm]. rewrite Erm. symmetry. apply Permutation_middle.
      * intros u v Hu Hv Hb. apply (before_remove_node x) in Hb; auto.
        unfold before in *. rewrite Erm in Hb.
        etransitivity; [exact Hb|].
        apply sublist_app; [reflexivity|]. now apply sublist_cons.
      * intros u Hu Hlt.
        assert (Hua : u <> a) by (intros ->; lia).
        assert (Hux : u <> x) by (intros ->; lia).
        assert (Hb : before dom u a).
        { apply (mv_before _ _ _ _ _ _ Hmv); auto; [|lia].
          apply elem_of_app. now left. }
        apply (before_remove_node x) in Hb; auto.
        unfold before in *. rewrite Erm in Hb.
        apply pair_left in Hb; auto.
        apply (sublist_app [u] _ [x]); [now apply singleton_sublist|].
        apply sublist_skip, sublist_nil_l.
      * intros v Hv. unfold before.
        apply sublist_inserts_l, sublist_skip.
        apply elem_of_cons in Hv as [->|Hv].
        -- apply sublist_skip, sublist_nil_l.
        -- assert (Hav : claim_order a < claim_order v).
           { rewrite Elis, !fmap_app in Hlis.
             apply StronglySorted_app in Hlis as (_ & _ & Hs).
             apply StronglySorted_app in Hs as (_ & _ & Hs).
             cbn [fmap list_fmap] in Hs.
             apply StronglySorted_cons in Hs as [Hall _].
             rewrite Forall_forall in Hall. apply Hall, list_elem_of_fmap.
             now exists v. }
           assert (Hv_lis : v ∈ lis).
           { rewrite Elis. apply elem_of_app. right. apply elem_of_app. right.
             now right. }
           assert (Hva : v <> a) by (intros ->; lia).
           assert (Hvx : v <> x) by (intros ->; contradiction).
           assert (Hb : before dom a v).
           { apply (mv_before _ _ _ _ _ _ Hmv); auto; apply elem_of_app; now left. }
           apply (before_remove_node x) in Hb; auto.
           unfold before in *. rewrite Erm in Hb.
           apply pair_right in Hb; auto.
           apply sublist_cons. now apply singleton_sublist.
Qed.

End Moving.

(** In a strictly increasing list, the smaller of two stamps comes first. *)
Lemma sorted_before (l : list dnode) u v :
  StronglySorted Z.lt (claim_order <$> l) ->
  u ∈ l -> v ∈ l -> claim_order u < claim_order v -> before l u v.
Proof.
  unfold before. induction l as [|h l IH]; intros Hs Hu Hv Hlt.
  - now apply not_elem_of_nil in Hu.
  - cbn [fmap list_fmap] in Hs. apply StronglySorted_cons in Hs as [Hall Hs].
    rewrite Forall_forall in Hall.
    assert (Hh : forall y, y ∈ l -> claim_order h < claim_order y).
    { intros y Hy. apply Hall, list_elem_of_fmap. now exists y. }
    apply elem_of_cons in Hu as [->|Hu]; apply elem_of_cons in Hv as [->|Hv].
    + lia.
    + apply sublist_skip. now apply singleton_sublist.
    + specialize (Hh u Hu). lia.
    + apply sublist_cons. now apply IH.
Qed.

(** The nodes are in strictly ascending [claim_order]. *)
Definition ascending (l : list dnode) : Prop :=
  StronglySorted Z.lt (claim_order <$> l).

(** [lis] is a longest strictly increasing subsequence of [children]. *)
Definition longest_increasing (lis children : list dnode) : Prop :=
  lis `sublist_of` children /\ ascending lis /\
  forall s, s `sublist_of` children -> ascending s ->
            (length s <= length lis)%nat.

(** What a first run of [init_hydrate] on [children] does: the new child
    list [dom], the [insertBefore] calls [ops], the subsequence [lis] left
    in place. *)
Record reordered (children dom : list dnode)
    (ops : list (dnode * option dnode)) (lis : list dnode) : Prop := Reordered {
  ro_same_nodes : dom ≡ₚ children;
  ro_ascending : ascending dom;
  ro_lis : longest_increasing lis children;
  ro_kept : forall x, x ∈ lis -> x ∉ ops.*1;
  ro_count : length ops = (length children - length lis)%nat;
  ro_sorted_input : ascending children -> ops = []
}.

Lemma init_hydrate_reordered (t : target) :
  hydrate_init t = false ->
  Z.of_nat (length (childNodes t)) < 2 ^ 31 ->
  NoDup (claim_order <$> childNodes t) ->
  exists dom ops lis,
    init_hydrate t = Some (Target true dom, ops) /\
    reordered (childNodes t) dom ops lis.
Proof.
  intros Hflag Hsize Hnd. set (children := childNodes t) in *.
  destruct (split_lis_spec children Hsize Hnd)
    as (lis & tm & Esp & Hsub & Hlis & Hperm & Htm & Hmax).
  assert (Hinit : moving children lis tm [] tm [] lis children []).
  { split; auto.
    - intros l x Hl. now apply not_elem_of_nil in Hl.
    - intros u v Hu Hv Hlt. rewrite app_nil_r in Hu, Hv.
      unfold before. etransitivity; [|exact Hsub].
      now apply sorted_before. }
  destruct (move_all_spec children lis tm Hnd Hperm Hlis Htm _ _ _ _ _ _ Hinit)
    as (dom & ops & ld & lr & Emv & Hfin).
  exists dom, ops, lis. split.
  { unfold init_hydrate. rewrite Hflag. fold children. rewrite Esp.
    cbn [mbind option_bind fst snd]. rewrite Emv. reflexivity. }
  pose proof (mv_perm _ _ _ _ _ _ _ _ _ Hfin) as Hp.
  pose proof (mv_ops _ _ _ _ _ _ _ _ _ Hfin) as Hops.
  assert (Hlen : (length lis + length tm = length children)%nat).
  { rewrite <- length_app. now rewrite Hperm. }
  assert (Hlen_ops : length ops = length tm).
  { rewrite <- Hops. now rewrite length_fmap. }
  split.
  - exact Hp.
  - apply sorted_of_before.
    + now rewrite Hp.
    + intros u v Hu Hv Hlt. apply (mv_before _ _ _ _ _ _ _ _ _ Hfin); auto.
      * rewrite Hperm, <- Hp. exact Hu.
      * rewrite Hperm, <- Hp. exact Hv.
  - split; [exact Hsub|]. split; [exact Hlis|].
    intros s Hs Hasc. rewrite <- (length_fmap claim_order s).
    apply Hmax; [|exact Hasc]. now apply fmap_sublist.
  - intros x Hx. rewrite Hops.
    assert (Hnd' : NoDup (lis ++ tm)).
    { rewrite Hperm. exact (NoDup_fmap_1 _ _ Hnd). }
    apply NoDup_app in Hnd' as (_ & Hd & _). now apply Hd.
  - lia.
  - intros Hasc. specialize (Hmax (claim_order <$> children)).
    rewrite length_fmap in Hmax. specialize (Hmax (reflexivity _) Hasc).
    apply nil_length_inv. lia.
Qed.

(** C2. On its first run over children with pairwise distinct claim_order
    stamps (fewer than 2^31 of them, the range of the index arrays),
    init_hydrate returns, with the same nodes in strictly ascending
    claim_order; it moves no node of a longest strictly increasing
    subsequence [lis] of the children, makes exactly
    (number of children - length of [lis]) insertBefore calls, and none
    when the children are already ascending.  For the stamps
    [2,0,1,4,3] it makes the 2 calls shown and leaves the order
    [0,1,2,3,4]. *)
Theorem init_hydrate_reorders_minimally :
  (forall t : target,
     hydrate_init t = false ->
     Z.of_nat (length (childNodes t)) < 2 ^ 31 ->
     NoDup (claim_order <$> childNodes t) ->
     exists dom ops lis,
       init_hydrate t = Some (Target true dom, ops) /\
       dom ≡ₚ childNodes t /\
       ascending dom /\
       longest_increasing lis (childNodes t) /\
       (forall x, x ∈ lis -> x ∉ ops.*1) /\
       length ops = (length (childNodes t) - length lis)%nat /\
       (ascending (childNodes t) -> ops = [])) /\
  init_hydrate (Target false (stamped [2; 0; 1; 4; 3]))
  = Some (Target true (DNode 1 0 :: DNode 2 1 :: DNode 0 2 :: DNode 4 3
                         :: DNode 3 4 :: nil),
          (DNode 0 2, Some (DNode 4 3)) :: (DNode 3 4, None) :: nil).
Proof.
  split.
  - intros t Hflag Hsize Hnd.
    destruct (init_hydrate_reordered t Hflag Hsize Hnd)
      as (dom & ops & lis & E & []).
    exists dom, ops, lis. repeat split; auto; apply ro_lis0.
  - vm_compute. reflexivity.
Qed.

(** The children stamped [2,0,1,4,3] meet the hypotheses. *)
Lemma init_hydrate_reorders_witness :
  exists dom ops lis,
    init_hydrate (Target false (stamped [2; 0; 1; 4; 3]))
    = Some (Target true dom, ops) /\
    dom ≡ₚ stamped [2; 0; 1; 4; 3] /\
    ascending dom /\
    longest_increasing lis (stamped [2; 0; 1; 4; 3]) /\
    (forall x, x ∈ lis -> x ∉ ops.*1) /\
    length ops = (5 - length lis)%nat /\
    (ascending (stamped [2; 0; 1; 4; 3]) -> ops = []).
Proof.
  apply (proj1 init_hydrate_reorders_minimally
           (Target false (stamped [2; 0; 1; 4; 3]))).
  - reflexivity.
  - cbn. lia.
  - cbn. apply (bool_decide_unpack _). vm_compute. exact I.
Defined.

(** *** The search and the moves, on their own *)

(** A sorted array of keys, as [idx => arr[idx]]. *)
Definition key_of (arr : list Z) (idx : Z) : option Z :=
  if idx <? 0 then None else arr !! Z.to_nat idx.

(** The [insertBefore] calls of the last loop, without the DOM. *)
Fixpoint plan (toMove lis : list dnode) : list (dnode * option dnode) :=
  match toMove with
  | [] => []
  | x :: toMove' =>
      let lis' := advance x lis in
      (x, head lis') :: plan toMove' lis'
  end.

(** The first node of [lis] whose [claim_order] exceeds that of [x]. *)
Definition first_greater (x : dnode) (lis : list dnode) : option dnode :=
  head (filter (fun l => claim_order x < claim_order l) lis).

Lemma move_all_plan toMove :
  forall lis dom ops r,
    move_all toMove lis dom ops = Some r -> r.2 = ops ++ plan toMove lis.
Proof.
  induction toMove as [|x tm IH]; intros lis dom ops r H.
  - cbn [move_all] in H. injection H as <-. cbn [plan snd]. now rewrite app_nil_r.
  - cbn [move_all plan] in *.
    destruct (insertBefore dom x (head (advance x lis))) as [dom'|];
      cbn [mbind option_bind] in H; [|discriminate].
    rewrite (IH _ _ _ _ H), <- app_assoc. reflexivity.
Qed.

Lemma head_advance x lis : head (advance x lis) = first_greater x lis.
Proof.
  unfold first_greater. induction lis as [|l lis IH]; [reflexivity|].
  cbn [advance]. rewrite filter_cons.
  destruct (Z.geb_spec (claim_order x) (claim_order l)).
  - rewrite decide_False by lia. exact IH.
  - rewrite decide_True by lia. reflexivity.
Qed.

Lemma first_greater_skip x done rest :
  (forall l, l ∈ done -> claim_order l <= claim_order x) ->
  first_greater x (done ++ rest) = first_greater x rest.
Proof.
  intros H. unfold first_greater. rewrite filter_app.
  replace (filter _ done) with (@nil dnode); [reflexivity|].
  symmetry. induction done as [|d done IH]; [reflexivity|].
  rewrite filter_cons, decide_False.
  - apply IH. intros l Hl. apply H. now right.
  - specialize (H d). pose proof (H ltac:(now left)). lia.
Qed.

Lemma plan_anchor toMove :
  forall done rest,
    StronglySorted Z.lt (claim_order <$> toMove) ->
    (forall l y, l ∈ done -> y ∈ toMove -> claim_order l <= claim_order y) ->
    forall x a, (x, a) ∈ plan toMove rest -> a = first_greater x (done ++ rest).
Proof.
  induction toMove as [|y tm IH]; intros done rest Hs Hd x a Hin.
  - now apply not_elem_of_nil in Hin.
  - cbn [plan] in Hin. cbn [fmap list_fmap] in Hs.
    apply StronglySorted_cons in Hs as [Hall Hs]. rewrite Forall_forall in Hall.
    destruct (advance_spec y rest) as (sk & Esk & Hsk & _).
    apply elem_of_cons in Hin as [E|Hin].
    + injection E as -> ->. rewrite head_advance.
      symmetry. apply first_greater_skip. intros l Hl. apply Hd; [exact Hl|now left].
    + rewrite Esk at 1. rewrite app_assoc.
      apply (IH (done ++ sk) (advance y rest) Hs); [|exact Hin].
      intros l z Hl Hz.
      assert (claim_order y < claim_order z).
      { apply Hall, list_elem_of_fmap. now exists z. }
      apply elem_of_app in Hl as [Hl|Hl].
      * apply Hd; [exact Hl|now right].
      * specialize (Hsk l Hl). lia.
Qed.

Lemma plan_nodes toMove : forall lis, (plan toMove lis).*1 = toMove.
Proof.
  induction toMove as [|x tm IH]; intros lis; [reflexivity|].
  cbn [plan fmap list_fmap fst]. f_equal. apply IH.
Qed.

(** [upper_bound] on keys that are defined and ascending over
    [low, high), with [high] below 2^31: the result is the first index
    whose key exceeds [value], or [high] when no key does.  On an empty
    or inverted range it is [low], and [key] is not called. *)
Theorem upper_bound_first_greater :
  (forall (key : Z -> option Z) (f : Z -> Z) value low high,
     0 <= low <= high -> high < 2 ^ 31 ->
     (forall idx, low <= idx < high -> key idx = Some (f idx)) ->
     (forall a b, low <= a <= b -> b < high -> f a <= f b) ->
     exists r,
       upper_bound low high key value = Some r /\
       low <= r <= high /\
       (forall idx, low <= idx < r -> f idx <= value) /\
       (forall idx, r <= idx < high -> value < f idx)) /\
  (forall key value low high,
     high <= low -> upper_bound low high key value = Some low).
Proof.
  split.
  - intros key f value low high. apply upper_bound_spec.
  - intros key value low high H. unfold upper_bound.
    destruct (Z.to_nat (high - low)); cbn [upper_bound_loop];
      destruct (Z.ltb_spec low high); (lia || reflexivity).
Qed.

Lemma upper_bound_witness :
  exists r,
    upper_bound 0 5 (key_of [1; 3; 3; 7; 9]) 3 = Some r /\
    0 <= r <= 5 /\
    (forall idx, 0 <= idx < r ->
                 default 0 (key_of [1; 3; 3; 7; 9] idx) <= 3) /\
    (forall idx, r <= idx < 5 ->
                 3 < default 0 (key_of [1; 3; 3; 7; 9] idx)).
Proof.
  apply (proj1 upper_bound_first_greater (key_of [1; 3; 3; 7; 9])
           (fun idx => default 0 (key_of [1; 3; 3; 7; 9] idx)) 3 0 5).
  - lia.
  - lia.
  - intros idx H.
    assert (idx = 0 \/ idx = 1 \/ idx = 2 \/ idx = 3 \/ idx = 4) as
      [->|[->|[->|[->| ->]]]] by lia; reflexivity.
  - intros a b Ha Hb.
    assert (a = 0 \/ a = 1 \/ a = 2 \/ a = 3 \/ a = 4) as
      [->|[->|[->|[->| ->]]]] by lia;
    assert (b = 0 \/ b = 1 \/ b = 2 \/ b = 3 \/ b = 4) as
      [->|[->|[->|[->| ->]]]] by lia;
      try lia; vm_compute; discriminate.
Defined.

(** The moves of [init_hydrate], under the hypotheses of its first run:
    the nodes are passed to [insertBefore] in ascending [claim_order],
    and the anchor of each is the first kept node with a greater
    [claim_order], [null] when there is none. *)
Theorem init_hydrate_moves_in_order (t : target) :
  hydrate_init t = false ->
  Z.of_nat (length (childNodes t)) < 2 ^ 31 ->
  NoDup (claim_order <$> childNodes t) ->
  exists dom ops lis,
    init_hydrate t = Some (Target true dom, ops) /\
    longest_increasing lis (childNodes t) /\
    lis ++ ops.*1 ≡ₚ childNodes t /\
    ascending ops.*1 /\
    (forall x a, (x, a) ∈ ops -> a = first_greater x lis).
Proof.
  intros Hflag Hsize Hnd. set (children := childNodes t) in *.
  destruct (split_lis_spec children Hsize Hnd)
    as (lis & tm & Esp & Hsub & Hlis & Hperm & Htm & Hmax).
  assert (Hinit : moving children lis tm [] tm [] lis children []).
  { split; auto.
    - intros l x Hl. now apply not_elem_of_nil in Hl.
    - intros u v Hu Hv Hlt. rewrite app_nil_r in Hu, Hv.
      unfold before. etransitivity; [|exact Hsub].
      now apply sorted_before. }
  destruct (move_all_spec children lis tm Hnd Hperm Hlis Htm _ _ _ _ _ _ Hinit)
    as (dom & ops & ld & lr & Emv & Hfin).
  pose proof (move_all_plan _ _ _ _ _ Emv) as Eops. cbn [snd app] in Eops.
  exists dom, ops, lis. split.
  { unfold init_hydrate. rewrite Hflag. fold children. rewrite Esp.
    cbn [mbind option_bind fst snd]. rewrite Emv. reflexivity. }
  split.
  { split; [exact Hsub|]. split; [exact Hlis|].
    intros s Hs Hasc. rewrite <- (length_fmap claim_order s).
    apply Hmax; [|exact Hasc]. now apply fmap_sublist. }
  rewrite Eops, plan_nodes. split; [exact Hperm|]. split; [exact Htm|].
  intros x a Hin. apply (plan_anchor tm [] lis Htm); [|exact Hin].
  intros l y Hl. now apply not_elem_of_nil in Hl.
Qed.

Lemma init_hydrate_moves_witness :
  exists dom ops lis,
    init_hydrate (Target false (stamped [2; 0; 1; 4; 3]))
    = Some (Target true dom, ops) /\
    longest_increasing lis (stamped [2; 0; 1; 4; 3]) /\
    lis ++ ops.*1 ≡ₚ stamped [2; 0; 1; 4; 3] /\
    ascending ops.*1 /\
    (forall x a, (x, a) ∈ ops -> a = first_greater x lis).
Proof.
  apply (init_hydrate_moves_in_order (Target false (stamped [2; 0; 1; 4; 3]))).
  - reflexivity.
  - cbn. lia.
  - cbn. apply (bool_decide_unpack _). vm_compute. exact I.
Defined.

End Hydrate.

(** ** Placing nodes: [append] and [insert] *)

Module Place.
Import Hydrate.

(** One call of a mutating DOM method on the target. *)
Inductive domcall :=
| InsertBefore (x : dnode) (anchor : option dnode)   (* target.insertBefore(x, anchor) *)
| AppendChild (x : dnode).                           (* target.appendChild(x) *)

(** The target as [append] and [insert] see it: its children, the
    [hydrate_init] flag, and the [actual_end_child] property, which is
    [undefined] ([None]), [null] or a node.  A node that is not in
    [childNodes] has another parent or none. *)
Record place := MkPlace {
  tg : target;
  actual_end_child : option (option dnode)
}.

(** [x.nextSibling] for a child [x] of the target *)
Fixpoint nextSibling (dom : list dnode) (x : dnode) : option dnode :=
  match dom with
  | [] => None
  | y :: dom' => if decide (y = x) then head dom' else nextSibling dom' x
  end.

(** [[
    function append(target, node) {
        if (is_hydrating) {
            init_hydrate(target);
            if ((target.actual_end_child === undefined) || ((target.actual_end_child !== null) && (target.actual_end_child.parentElement !== target))) {
                target.actual_end_child = target.firstChild;
            }
            if (node !== target.actual_end_child) {
                target.insertBefore(node, target.actual_end_child);
            }
            else {
                target.actual_end_child = node.nextSibling;
            }
        }
        else if (node.parentNode !== target) {
            target.appendChild(node);
        }
    }
    ]]
    The result is [None] when a DOM method throws. *)
Definition append (is_hydrating : bool) (p : place) (node : dnode)
  : option (place * list domcall) :=
  if is_hydrating then
    r ← init_hydrate (tg p);
    let t := r.1 in
    let calls := (fun o => InsertBefore o.1 o.2) <$> r.2 in
    let end_child :=
      match actual_end_child p with
      | None => head (childNodes t)
      | Some None => None
      | Some (Some a) =>
          if decide (a ∈ childNodes t) then Some a else head (childNodes t)
      end in
    if decide (end_child = Some node) then
      Some (MkPlace t (Some (nextSibling (childNodes t) node)), calls)
    else
      dom ← insertBefore (childNodes t) node end_child;
      Some (MkPlace (Target (hydrate_init t) dom) (Some end_child),
            calls ++ [InsertBefore node end_child])
  else if decide (node ∈ childNodes (tg p)) then Some (p, [])
  else
    Some (MkPlace (Target (hydrate_init (tg p)) (childNodes (tg p) ++ [node]))
            (actual_end_child p),
          [AppendChild node]).

(** Whether a node was passed, not [null] or [undefined]. *)
Definition given (n : option dnode) : bool :=
  match n with Some _ => true | None => false end.

(** [[
    function insert(target, node, anchor) {
        if (is_hydrating && !anchor) {
            append(target, node);
        }
        else if (node.parentNode !== target || (anchor && node.nextSibling !== anchor)) {
            target.insertBefore(node, anchor || null);
        }
    }
    ]] *)
Definition insert (is_hydrating : bool) (p : place) (node : dnode)
    (anchor : option dnode) : option (place * list domcall) :=
  if is_hydrating && negb (given anchor) then
    append is_hydrating p node
  else if
    bool_decide (node ∉ childNodes (tg p)) ||
    match anchor with
    | Some a => bool_decide (nextSibling (childNodes (tg p)) node <> Some a)
    | None => false
    end
  then
    dom ← insertBefore (childNodes (tg p)) node anchor;
    Some (MkPlace (Target (hydrate_init (tg p)) dom) (actual_end_child p),
          [InsertBefore node anchor])
  else Some (p, []).

(** [append] of several nodes, one after the other. *)
Fixpoint append_all (is_hydrating : bool) (nodes : list dnode) (p : place)
  : option (place * list domcall) :=
  match nodes with
  | [] => Some (p, [])
  | n :: nodes' =>
      r ← append is_hydrating p n;
      r' ← append_all is_hydrating nodes' r.1;
      Some (r'.1, r.2 ++ r'.2)
  end.


Lemma nextSibling_app x l1 l2 :
  x ∉ l1 -> nextSibling (l1 ++ x :: l2) x = head l2.
Proof.
  induction l1 as [|y l1 IH]; intros Hx; cbn [app nextSibling].
  - now rewrite decide_True.
  - rewrite decide_False; [apply IH|]; intros H; apply Hx; [now right|subst; now left].
Qed.

Lemma nextSibling_Some dom x a :
  nextSibling dom x = Some a ->
  exists l1 l2, dom = l1 ++ x :: a :: l2 /\ x ∉ l1.
Proof.
  induction dom as [|y dom IH]; [discriminate|]. cbn [nextSibling].
  destruct (decide (y = x)) as [->|Hne].
  - intros H. destruct dom as [|b dom]; [discriminate|]. injection H as ->.
    exists [], dom. split; [reflexivity|apply not_elem_of_nil].
  - intros H. destruct (IH H) as (l1 & l2 & -> & Hx).
    exists (y :: l1), l2. split; [reflexivity|].
    intros Hin. apply elem_of_cons in Hin as [->|Hin]; [congruence|contradiction].
Qed.

Lemma remove_node_absent x dom : x ∉ dom -> remove_node x dom = dom.
Proof.
  intros Hx. unfold remove_node. induction dom as [|y dom IH]; [reflexivity|].
  rewrite filter_cons, decide_True.
  - f_equal. apply IH. intros H. apply Hx. now right.
  - intros ->. apply Hx. now left.
Qed.

Lemma remove_node_app x l1 l2 :
  remove_node x (l1 ++ l2) = remove_node x l1 ++ remove_node x l2.
Proof. apply filter_app. Qed.

Lemma remove_node_here x l : x ∉ l -> remove_node x (x :: l) = l.
Proof.
  intros Hx. unfold remove_node. rewrite filter_cons, decide_False by auto.
  now apply remove_node_absent.
Qed.

Lemma insert_before_first x a l1 l2 :
  a ∉ l1 -> insert_before x a (l1 ++ a :: l2) = Some (l1 ++ x :: a :: l2).
Proof.
  induction l1 as [|y l1 IH]; intros Ha; cbn [app insert_before].
  - now rewrite decide_True.
  - rewrite decide_False by (intros ->; apply Ha; now left).
    rewrite IH by (intros H; apply Ha; now right). reflexivity.
Qed.

Lemma place_eta p :
  p = MkPlace (Target (hydrate_init (tg p)) (childNodes (tg p))) (actual_end_child p).
Proof. now destruct p as [[] ?]. Qed.

(** [insert] with an anchor.  When the anchor is a child of the target
    and is not the node itself, the node ends up immediately before the
    anchor and the other children keep their order; no DOM method is
    called when it was there already, so a second [insert] calls none.
    When the anchor is not a child of the target, [insertBefore]
    throws.  Without an anchor and outside hydration, a node that is
    already a child stays where it is, and any other node becomes the
    last child. *)
Theorem insert_puts_before_anchor :
  (forall h p node a,
     NoDup (childNodes (tg p)) -> a ∈ childNodes (tg p) -> a <> node ->
     exists l1 l2 calls,
       remove_node node (childNodes (tg p)) = l1 ++ a :: l2 /\
       let p' := MkPlace (Target (hydrate_init (tg p)) (l1 ++ node :: a :: l2))
                   (actual_end_child p) in
       insert h p node (Some a) = Some (p', calls) /\
       calls = (if decide (childNodes (tg p) = l1 ++ node :: a :: l2) then []
                else [InsertBefore node (Some a)]) /\
       insert h p' node (Some a) = Some (p', [])) /\
  (forall h p node a,
     a ∉ childNodes (tg p) -> insert h p node (Some a) = None) /\
  (forall p node,
     insert false p node None
     = if decide (node ∈ childNodes (tg p)) then Some (p, [])
       else Some (MkPlace (Target (hydrate_init (tg p))
                             (childNodes (tg p) ++ [node]))
                    (actual_end_child p),
                  [InsertBefore node None])).
Proof.
  split; [|split].
  - intros h [[flag dom] aec] node a Hnd Ha Hne.
    cbn [tg childNodes hydrate_init actual_end_child] in *.
    assert (Hstay : forall l1 l2,
      node ∉ l1 ->
      insert h (MkPlace (Target flag (l1 ++ node :: a :: l2)) aec) node (Some a)
      = Some (MkPlace (Target flag (l1 ++ node :: a :: l2)) aec, [])).
    { intros l1 l2 Hn. unfold insert. cbn [given negb tg childNodes].
      rewrite andb_false_r.
      rewrite bool_decide_false; [|intros H; apply H, elem_of_app; right; now left].
      rewrite nextSibling_app by exact Hn. cbn [head orb].
      rewrite bool_decide_false by (intros H; now apply H). reflexivity. }
    destruct (decide (node ∈ dom /\ nextSibling dom node = Some a))
      as [[Hin Hnext]|Hmove].
    + apply nextSibling_Some in Hnext as (l1 & l2 & E & Hn1).
      assert (Hn2 : node ∉ a :: l2).
      { rewrite E in Hnd. apply NoDup_app in Hnd as (_ & _ & Hnd).
        now apply NoDup_cons in Hnd as [Hnd _]. }
      exists l1, l2, []. split.
      { rewrite E, remove_node_app, (remove_node_absent node l1 Hn1).
        now rewrite remove_node_here. }
      cbv zeta. rewrite decide_True by exact E. subst dom.
      split; [now apply Hstay|]. split; [reflexivity|now apply Hstay].
    + assert (Ha' : a ∈ remove_node node dom) by now apply elem_of_remove_node.
      apply list_elem_of_split in Ha' as (l1 & l2 & E).
      assert (Hnd' : NoDup (l1 ++ a :: l2)).
      { rewrite <- E. unfold remove_node. now apply NoDup_filter. }
      assert (Ha1 : a ∉ l1).
      { apply NoDup_app in Hnd' as (_ & Hd & _). intros H. apply (Hd a H). now left. }
      assert (Hn : node ∉ l1 ++ a :: l2).
      { rewrite <- E. rewrite elem_of_remove_node. intros [_ H]. now apply H. }
      exists l1, l2, [InsertBefore node (Some a)]. split; [exact E|].
      cbv zeta. split; [|split].
      * unfold insert. cbn [given negb tg childNodes hydrate_init actual_end_child].
        rewrite andb_false_r.
        assert (Hc : bool_decide (node ∉ dom)
                     || bool_decide (nextSibling dom node <> Some a) = true).
        { destruct (decide (node ∈ dom)) as [Hin|Hout].
          - rewrite (bool_decide_true (nextSibling dom node <> Some a));
              [apply orb_true_r|]. intros H. now apply Hmove.
          - now rewrite bool_decide_true. }
        rewrite Hc. cbn [insertBefore]. rewrite decide_True by exact Ha.
        rewrite decide_False by exact Hne. rewrite E, insert_before_first by exact Ha1.
        reflexivity.
      * rewrite decide_False; [reflexivity|]. intros E'.
        apply Hmove. rewrite E'. split.
        -- apply elem_of_app. right. now left.
        -- rewrite nextSibling_app; [reflexivity|].
           intros H. apply Hn, elem_of_app. now left.
      * apply Hstay. intros H. apply Hn, elem_of_app. now left.
  - intros h p node a Ha. unfold insert. cbn [given negb]. rewrite andb_false_r.
    assert (Hc : bool_decide (node ∉ childNodes (tg p))
                 || bool_decide (nextSibling (childNodes (tg p)) node <> Some a)
                 = true).
    { rewrite (bool_decide_true (nextSibling _ node <> Some a)); [apply orb_true_r|].
      intros H. apply nextSibling_Some in H as (l1 & l2 & E & _).
      apply Ha. rewrite E. apply elem_of_app. right. right. now left. }
    rewrite Hc. cbn [insertBefore]. now rewrite decide_False.
  - intros p node. unfold insert. cbn [andb orb].
    destruct (decide (node ∈ childNodes (tg p))) as [Hin|Hout].
    + rewrite bool_decide_false by (intros H; now apply H). reflexivity.
    + rewrite bool_decide_true by exact Hout. cbn [insertBefore mbind option_bind].
      now rewrite remove_node_absent.
Qed.

(** The state of a hydrating target between two [append] calls: the
    nodes appended so far are the first children, in order, and
    [actual_end_child] is the child after them. *)
Record claimed (done rest : list dnode) (p : place) : Prop := Claimed {
  cl_init : hydrate_init (tg p) = true;
  cl_dom : childNodes (tg p) = done ++ rest;
  cl_nodup : NoDup (done ++ rest);
  cl_end : actual_end_child p = Some (head rest) \/
           (done = [] /\ actual_end_child p = None)
}.

Lemma init_hydrate_done t :
  hydrate_init t = true -> init_hydrate t = Some (t, []).
Proof. intros H. unfold init_hydrate. now rewrite H. Qed.

Lemma NoDup_claimed_step (done rest : list dnode) n :
  NoDup (done ++ rest) -> n ∉ done ->
  NoDup ((done ++ [n]) ++ remove_node n rest).
Proof.
  intros Hnd Hn. apply NoDup_app in Hnd as (Hd & Hdr & Hr).
  rewrite <- app_assoc. apply NoDup_app. split; [exact Hd|]. split.
  - intros x Hx Hx'. cbn [app] in Hx'. apply elem_of_cons in Hx' as [->|Hx'].
    + contradiction.
    + apply elem_of_remove_node in Hx' as [Hx' _]. exact (Hdr x Hx Hx').
  - cbn [app]. apply NoDup_cons. split.
    + rewrite elem_of_remove_node. intros [_ H]. now apply H.
    + unfold remove_node. now apply NoDup_filter.
Qed.

Lemma append_claimed done rest p n :
  claimed done rest p -> n ∉ done ->
  exists p',
    append true p n
    = Some (p', if decide (head rest = Some n) then []
                else [InsertBefore n (head rest)]) /\
    claimed (done ++ [n]) (remove_node n rest) p'.
Proof.
  intros [Hi Hdom Hnd Hend] Hn. destruct p as [[flag dom] aec].
  cbn [tg childNodes hydrate_init actual_end_child] in *. subst flag dom.
  unfold append. rewrite init_hydrate_done by reflexivity.
  cbn [mbind option_bind fst snd fmap list_fmap tg childNodes hydrate_init
       actual_end_child app].
  assert (Hcur : match aec with
                 | None => head (done ++ rest)
                 | Some None => None
                 | Some (Some a) =>
                     if decide (a ∈ done ++ rest) then Some a
                     else head (done ++ rest)
                 end = head rest).
  { destruct Hend as [->|[-> ->]]; [|reflexivity].
    destruct rest as [|a rest]; [reflexivity|]. cbn [head].
    rewrite decide_True; [reflexivity|]. apply elem_of_app. right. now left. }
  rewrite Hcur. clear Hcur.
  destruct (decide (head rest = Some n)) as [Hh|Hh].
  - destruct rest as [|n' rest']; [discriminate|]. injection Hh as ->.
    assert (Hn' : n ∉ rest').
    { apply NoDup_app in Hnd as (_ & _ & Hnd). now apply NoDup_cons in Hnd as [? _]. }
    eexists. split; [reflexivity|].
    rewrite remove_node_here by exact Hn'. split; cbn [tg childNodes hydrate_init
                                                      actual_end_child].
    + reflexivity.
    + now rewrite <- app_assoc.
    + now rewrite <- app_assoc.
    + left. now rewrite nextSibling_app.
  - destruct rest as [|a rest'].
    + cbn [head insertBefore mbind option_bind]. rewrite app_nil_r in *.
      rewrite (remove_node_absent n done Hn).
      eexists. split; [reflexivity|].
      change (remove_node n []) with (@nil dnode).
      split; cbn [tg childNodes hydrate_init actual_end_child].
      * reflexivity.
      * now rewrite app_nil_r.
      * rewrite app_nil_r.
        apply NoDup_app. split; [exact Hnd|]. split; [|apply NoDup_singleton].
        intros x Hx Hx'. apply list_elem_of_singleton in Hx'. now subst x.
      * now left.
    + cbn [head] in *. assert (Han : a <> n) by congruence.
      assert (Ha : a ∉ done).
      { apply NoDup_app in Hnd as (_ & Hd & _). intros H. apply (Hd a H). now left. }
      cbn [insertBefore]. rewrite decide_True by (apply elem_of_app; right; now left).
      rewrite decide_False by exact Han.
      rewrite remove_node_app, (remove_node_absent n done Hn).
      assert (Er : remove_node n (a :: rest') = a :: remove_node n rest').
      { unfold remove_node. now rewrite filter_cons, decide_True. }
      rewrite Er, insert_before_first by exact Ha.
      cbn [mbind option_bind].
      eexists. split; [reflexivity|].
      split; cbn [tg childNodes hydrate_init actual_end_child].
      * reflexivity.
      * now rewrite <- app_assoc.
      * rewrite <- Er. now apply NoDup_claimed_step.
      * now left.
Qed.

Lemma filter_after_remove n (nodes rest : list dnode) :
  filter (fun x => x ∉ nodes) (remove_node n rest)
  = filter (fun x => x ∉ n :: nodes) rest.
Proof.
  unfold remove_node. induction rest as [|y rest IH]; [reflexivity|].
  rewrite !filter_cons. destruct (decide (y <> n)) as [Hy|Hy].
  - rewrite filter_cons. destruct (decide (y ∉ nodes)) as [Hm|Hm].
    + rewrite decide_True; [now f_equal|].
      intros H. apply elem_of_cons in H as [->|H]; [now apply Hy|contradiction].
    + rewrite decide_False; [exact IH|]. intros H. apply Hm. intros H'.
      apply H. now right.
  - rewrite decide_False; [exact IH|]. intros H. apply H.
    destruct (decide (y = n)) as [->|Hne]; [now left|now apply Hy in Hne].
Qed.

Lemma append_all_claimed nodes :
  forall done rest p,
    claimed done rest p -> NoDup nodes -> (forall n, n ∈ nodes -> n ∉ done) ->
    exists p' calls,
      append_all true nodes p = Some (p', calls) /\
      claimed (done ++ nodes) (filter (fun x => x ∉ nodes) rest) p' /\
      (length calls <= length nodes)%nat /\
      (nodes `prefix_of` rest -> calls = []).
Proof.
  induction nodes as [|n nodes IH]; intros done rest p Hc Hnd Hfresh.
  - exists p, []. cbn [append_all]. split; [reflexivity|].
    rewrite app_nil_r. split; [|split; [reflexivity|reflexivity]].
    replace (filter _ rest) with rest; [exact Hc|].
    symmetry. clear. induction rest as [|y rest IH]; [reflexivity|].
    rewrite filter_cons, decide_True by apply not_elem_of_nil. now f_equal.
  - apply NoDup_cons in Hnd as [Hn Hnd].
    destruct (append_claimed done rest p n Hc) as (p1 & E1 & Hc1).
    { apply Hfresh. now left. }
    destruct (IH (done ++ [n]) (remove_node n rest) p1 Hc1 Hnd)
      as (p' & calls & E & Hc' & Hlen & Hpre).
    { intros m Hm Hin. apply elem_of_app in Hin as [Hin|Hin].
      - apply (Hfresh m); [now right|exact Hin].
      - apply list_elem_of_singleton in Hin. now subst m. }
    eexists p', _. cbn [append_all]. rewrite E1. cbn [mbind option_bind fst snd].
    rewrite E. cbn [mbind option_bind fst snd]. split; [reflexivity|].
    rewrite <- app_assoc in Hc'. cbn [app] in Hc'.
    rewrite filter_after_remove in Hc'. split; [exact Hc'|]. split.
    + rewrite length_app. destruct (decide (head rest = Some n)); cbn [length]; lia.
    + intros [k Ek]. subst rest. cbn [head app]. rewrite decide_True by reflexivity.
      cbn [app]. apply Hpre. exists k.
      apply remove_node_here. destruct Hc as [_ _ Hnd' _].
      apply NoDup_app in Hnd' as (_ & _ & Hnd').
      cbn [app] in Hnd'. apply NoDup_cons in Hnd' as [Hn' _].
      intros H. apply Hn'. assumption.
Qed.

Lemma filter_own_nil (nodes l : list dnode) :
  (forall x, x ∈ l -> x ∈ nodes) -> filter (fun x => x ∉ nodes) l = [].
Proof.
  induction l as [|y l IH]; intros H; [reflexivity|].
  rewrite filter_cons, decide_False.
  - apply IH. intros x Hx. apply H. now right.
  - intros Hy. apply Hy, H. now left.
Qed.

Lemma filter_fresh_prefix (nodes k : list dnode) :
  NoDup (nodes ++ k) -> filter (fun x => x ∉ nodes) (nodes ++ k) = k.
Proof.
  intros Hnd. apply NoDup_app in Hnd as (_ & Hd & _). rewrite filter_app.
  rewrite filter_own_nil by auto.
  cbn [app]. induction k as [|y k IH]; [reflexivity|].
  rewrite filter_cons, decide_True.
  - f_equal. apply IH. intros x Hx Hy. apply (Hd x Hx). now right.
  - intros Hy. apply (Hd y Hy). now left.
Qed.

(** Hydrating [append] of distinct nodes to a target that
    [init_hydrate] has seen and whose [actual_end_child] is still
    undefined: no call throws; the nodes become the first children, in
    the order of the calls, followed by the other children in their
    old order; at most one [insertBefore] is made per node, and none at
    all when the nodes are the first children already. *)
Theorem hydrating_append_claims_in_order p nodes :
  hydrate_init (tg p) = true ->
  actual_end_child p = None ->
  NoDup (childNodes (tg p)) ->
  NoDup nodes ->
  exists p' calls,
    append_all true nodes p = Some (p', calls) /\
    childNodes (tg p')
    = nodes ++ filter (fun x => x ∉ nodes) (childNodes (tg p)) /\
    (nodes <> [] ->
     actual_end_child p'
     = Some (head (filter (fun x => x ∉ nodes) (childNodes (tg p))))) /\
    (length calls <= length nodes)%nat /\
    (nodes `prefix_of` childNodes (tg p) ->
     calls = [] /\ childNodes (tg p') = childNodes (tg p)).
Proof.
  intros Hi He Hnd Hnodes.
  assert (Hc : claimed [] (childNodes (tg p)) p).
  { split; auto. }
  destruct (append_all_claimed nodes [] _ p Hc Hnodes)
    as (p' & calls & E & [Hi' Hdom' Hnd' Hend'] & Hlen & Hpre).
  { intros n _. apply not_elem_of_nil. }
  cbn [app] in *. exists p', calls. split; [exact E|]. split; [exact Hdom'|].
  split; [|split; [exact Hlen|]].
  - intros Hne. destruct Hend' as [H|[H _]]; [exact H|contradiction].
  - intros Hp. split; [now apply Hpre|]. rewrite Hdom'.
    destruct Hp as [k Ek]. rewrite Ek in Hnd |- *.
    now rewrite filter_fresh_prefix.
Qed.

Lemma ascending_unique (l1 l2 : list dnode) :
  ascending l1 -> ascending l2 -> l1 ≡ₚ l2 -> l1 = l2.
Proof.
  intros H1 H2 Hp.
  assert (Hs : forall l, ascending l ->
                 StronglySorted (fun a b => claim_order a < claim_order b) l).
  { unfold ascending. induction l as [|x l IH]; intros H; [constructor|].
    cbn [fmap list_fmap] in H. apply StronglySorted_cons in H as [Hall H].
    constructor; [now apply IH|].
    rewrite Forall_forall in Hall. apply Forall_forall. intros y Hy.
    apply Hall, list_elem_of_fmap. now exists y. }
  apply (StronglySorted_unique_strong
           (fun a b => claim_order a < claim_order b)); auto.
  intros x1 x2 _ _ Ha Hb. lia.
Qed.

Lemma append_after_init t t' ops aec n :
  init_hydrate t = Some (t', ops) -> hydrate_init t' = true ->
  append true (MkPlace t aec) n
  = (fun r => (r.1, ((fun o => InsertBefore o.1 o.2) <$> ops) ++ r.2))
      <$> append true (MkPlace t' aec) n.
Proof.
  intros E Hi. unfold append. cbn [tg actual_end_child].
  rewrite E, (init_hydrate_done t' Hi).
  cbn [mbind option_bind fst snd fmap list_fmap app].
  destruct (decide (_ = Some n)).
  - cbn [fmap option_fmap option_map fst snd]. now rewrite app_nil_r.
  - destruct (insertBefore _ _ _); reflexivity.
Qed.

(** Hydration from the start: on a target that [init_hydrate] has not
    seen, with distinct stamps, [append] of the children in ascending
    [claim_order] makes the [insertBefore] calls of [init_hydrate], in the
    first [append], and no other; the children end up in that order. *)
Theorem hydration_moves_only_unordered_nodes (t : target) :
  hydrate_init t = false ->
  Z.of_nat (length (childNodes t)) < 2 ^ 31 ->
  NoDup (claim_order <$> childNodes t) ->
  exists dom ops p',
    init_hydrate t = Some (Target true dom, ops) /\
    append_all true (sort_by_claim_order (childNodes t)) (MkPlace t None)
    = Some (p', (fun o => InsertBefore o.1 o.2) <$> ops) /\
    childNodes (tg p') = sort_by_claim_order (childNodes t).
Proof.
  intros Hflag Hsize Hnd.
  destruct (init_hydrate_reordered t Hflag Hsize Hnd)
    as (dom & ops & lis & E & [Hperm Hasc _ _ Hcount _]).
  exists dom, ops.
  assert (Hsort : sort_by_claim_order (childNodes t) = dom).
  { apply ascending_unique; [|exact Hasc|].
    - now apply sorted_claim_orders.
    - unfold sort_by_claim_order. now rewrite merge_sort_Permutation, Hperm. }
  rewrite Hsort.
  assert (Hnd_dom : NoDup dom).
  { rewrite Hperm. exact (NoDup_fmap_1 _ _ Hnd). }
  destruct dom as [|n ns].
  - exists (MkPlace t None). split; [exact E|].
    apply Permutation_nil in Hperm.
    assert (ops = []) as ->.
    { apply nil_length_inv. rewrite Hcount, Hperm. reflexivity. }
    cbn [append_all fmap list_fmap tg]. now rewrite Hperm.
  - destruct (hydrating_append_claims_in_order
                (MkPlace (Target true (n :: ns)) None) (n :: ns))
      as (p' & calls & Eall & _ & _ & _ & Hpre); try reflexivity; try assumption.
    destruct Hpre as [-> Hdom]; [reflexivity|].
    cbn [tg childNodes] in Hdom.
    exists p'. split; [exact E|]. split; [|exact Hdom].
    cbn [append_all] in Eall |- *.
    rewrite (append_after_init t (Target true (n :: ns)) ops None n E eq_refl).
    destruct (append true (MkPlace (Target true (n :: ns)) None) n)
      as [[pa ca]|]; [|discriminate].
    cbn [mbind option_bind fmap option_fmap option_map fst snd] in Eall |- *.
    destruct (append_all true ns pa) as [[pb cb]|]; [|discriminate].
    cbn [mbind option_bind fst snd] in Eall |- *.
    injection Eall as -> Hc. rewrite <- app_assoc, Hc, app_nil_r. reflexivity.
Qed.

Lemma insert_witness :
  exists l1 l2 calls,
    remove_node (DNode 2 2) (stamped [0; 1; 2]) = l1 ++ DNode 0 0 :: l2 /\
    let p' := MkPlace (Target true (l1 ++ DNode 2 2 :: DNode 0 0 :: l2)) None in
    insert false (MkPlace (Target true (stamped [0; 1; 2])) None) (DNode 2 2)
      (Some (DNode 0 0)) = Some (p', calls) /\
    calls = (if decide (stamped [0; 1; 2] = l1 ++ DNode 2 2 :: DNode 0 0 :: l2)
             then [] else [InsertBefore (DNode 2 2) (Some (DNode 0 0))]) /\
    insert false p' (DNode 2 2) (Some (DNode 0 0)) = Some (p', []).
Proof.
  apply (proj1 insert_puts_before_anchor false
           (MkPlace (Target true (stamped [0; 1; 2])) None)
           (DNode 2 2) (DNode 0 0)).
  - apply (bool_decide_unpack _). vm_compute. exact I.
  - now left.
  - discriminate.
Defined.

Lemma hydrating_append_witness :
  exists p' calls,
    append_all true [DNode 0 0; DNode 2 2]
      (MkPlace (Target true (stamped [0; 1; 2; 3])) None) = Some (p', calls) /\
    childNodes (tg p')
    = [DNode 0 0; DNode 2 2]
      ++ filter (fun x => x ∉ [DNode 0 0; DNode 2 2]) (stamped [0; 1; 2; 3]) /\
    ([DNode 0 0; DNode 2 2] <> [] ->
     actual_end_child p'
     = Some (head (filter (fun x => x ∉ [DNode 0 0; DNode 2 2])
                     (stamped [0; 1; 2; 3])))) /\
    (length calls <= 2)%nat /\
    ([DNode 0 0; DNode 2 2] `prefix_of` stamped [0; 1; 2; 3] ->
     calls = [] /\ childNodes (tg p') = stamped [0; 1; 2; 3]).
Proof.
  apply (hydrating_append_claims_in_order
           (MkPlace (Target true (stamped [0; 1; 2; 3])) None)
           [DNode 0 0; DNode 2 2]).
  - reflexivity.
  - reflexivity.
  - apply (bool_decide_unpack _). vm_compute. exact I.
  - apply (bool_decide_unpack _). vm_compute. exact I.
Defined.

Lemma hydration_witness :
  exists dom ops p',
    init_hydrate (Target false (stamped [2; 0; 1; 4; 3]))
    = Some (Target true dom, ops) /\
    append_all true (sort_by_claim_order (stamped [2; 0; 1; 4; 3]))
      (MkPlace (Target false (stamped [2; 0; 1; 4; 3])) None)
    = Some (p', (fun o => InsertBefore o.1 o.2) <$> ops) /\
    childNodes (tg p') = sort_by_claim_order (stamped [2; 0; 1; 4; 3]).
Proof.
  apply (hydration_moves_only_unordered_nodes
           (Target false (stamped [2; 0; 1; 4; 3]))).
  - reflexivity.
  - cbn. lia.
  - cbn. apply (bool_decide_unpack _). vm_compute. exact I.
Defined.

End Place.

(** ** Numbers: the binary64 arithmetic of [Math.floor(Math.random() * pool.length)] *)

Module Double.

(** Binary64: 53 bits of mantissa, infinities at exponent 1024. *)
Definition prec : Z := 53.
Definition emax : Z := 1024.

(** The Number of an array length [n]: the double nearest to [n], which
    is [n] itself below [2^53]. *)
Definition of_length (n : nat) : spec_float :=
  binary_normalize prec emax (Z.of_nat n) 0 false.

(** A double [r] with [0 <= r < 1] and positive sign, as [Math.random()]
    returns. *)
Definition in_unit (r : spec_float) : Prop :=
  match r with
  | S754_zero false => True
  | S754_finite false m e =>
      bounded prec emax m e = true /\ Z.pos m < 2 ^ (- e)
  | _ => False
  end.

(** The element that [a[Math.floor(x)]] names: [Math.floor] of a zero or
    of a positive number is an index; [NaN], the infinities and the
    negative numbers name no element. *)
Definition floor_index (x : spec_float) : option nat :=
  match x with
  | S754_zero _ => Some 0%nat
  | S754_finite false m e => Some (Z.to_nat (Z.shiftl (Z.pos m) e))
  | _ => None
  end.

(** [Math.floor(r * n)], the product rounded to nearest, ties to even,
    as [*] rounds it. *)
Definition floor_mul (r : spec_float) (n : nat) : option nat :=
  floor_index (SFmul prec emax r (of_length n)).

(** The double next below 3/11 rounded up, 1228254443828317 / 2^52. *)
Definition just_below : spec_float :=
  binary_normalize prec emax 1228254443828317 (-52) false.

Lemma pow2_pred d : 0 < d -> 2 ^ d = 2 * 2 ^ (d - 1).
Proof. intros H. rewrite <- Z.pow_succ_r by lia. f_equal. lia. Qed.

Lemma digits2_pos_bounds p :
  2 ^ (Z.pos (digits2_pos p) - 1) <= Z.pos p < 2 ^ Z.pos (digits2_pos p).
Proof.
  induction p as [p IH|p IH|]; cbn [digits2_pos].
  - rewrite Pos2Z.inj_succ, (Pos2Z.inj_xI p).
    replace (Z.succ (Z.pos (digits2_pos p)) - 1) with (Z.pos (digits2_pos p)) by lia.
    rewrite Z.pow_succ_r by lia.
    rewrite (pow2_pred (Z.pos (digits2_pos p))) in * by lia.
    set (X := 2 ^ (Z.pos (digits2_pos p) - 1)) in *. clearbody X. lia.
  - rewrite Pos2Z.inj_succ, (Pos2Z.inj_xO p).
    replace (Z.succ (Z.pos (digits2_pos p)) - 1) with (Z.pos (digits2_pos p)) by lia.
    rewrite Z.pow_succ_r by lia.
    rewrite (pow2_pred (Z.pos (digits2_pos p))) in * by lia.
    set (X := 2 ^ (Z.pos (digits2_pos p) - 1)) in *. clearbody X. lia.
  - cbn. lia.
Qed.

Lemma shr_1_spec rec :
  0 <= shr_m rec ->
  shr_m (shr_1 rec) = shr_m rec / 2 /\
  shr_r (shr_1 rec) = Z.odd (shr_m rec).
Proof.
  destruct rec as [m r s]. cbn [shr_m]. intros Hm.
  destruct m as [|[p|p|]|p]; try lia; cbn [shr_1 shr_m shr_r].
  - now split.
  - split; [|reflexivity]. rewrite Pos2Z.inj_xI.
    apply (Z.div_unique _ _ _ 1); lia.
  - split; [|reflexivity]. rewrite Pos2Z.inj_xO.
    apply (Z.div_unique _ _ _ 0); lia.
  - now split.
Qed.

Lemma iter_shr_spec p :
  forall rec,
    0 <= shr_m rec ->
    shr_m (SpecFloat.iter_pos shr_1 p rec) = shr_m rec / 2 ^ Z.pos p /\
    shr_r (SpecFloat.iter_pos shr_1 p rec) = Z.testbit (shr_m rec) (Z.pos p - 1).
Proof.
  assert (Hdiv : forall m a b, 0 <= a -> 0 <= b -> m / 2 ^ a / 2 ^ b = m / 2 ^ (a + b)).
  { intros m a b Ha Hb. rewrite Z.pow_add_r by lia.
    pose proof (Z.pow_pos_nonneg 2 a ltac:(lia) Ha).
    pose proof (Z.pow_pos_nonneg 2 b ltac:(lia) Hb).
    rewrite Z.div_div by lia. reflexivity. }
  assert (Hpos : forall m a, 0 <= m -> 0 <= a -> 0 <= m / 2 ^ a).
  { intros m a Hm Ha. apply Z.div_pos; [exact Hm|]. apply Z.pow_pos_nonneg; lia. }
  induction p as [p IH|p IH|]; intros rec Hm; cbn [SpecFloat.iter_pos].
  - destruct (shr_1_spec rec Hm) as [E1 R1].
    assert (H1 : 0 <= shr_m (shr_1 rec)).
    { rewrite E1. apply Z.div_pos; lia. }
    destruct (IH _ H1) as [E2 R2].
    assert (H2 : 0 <= shr_m (SpecFloat.iter_pos shr_1 p (shr_1 rec))).
    { rewrite E2. now apply Hpos. }
    destruct (IH _ H2) as [E3 R3].
    rewrite E3, R3, E2, E1. split.
    + change (shr_m rec / 2) with (shr_m rec / 2 ^ 1).
      rewrite !Hdiv by lia. f_equal. f_equal. lia.
    + change (shr_m rec / 2) with (shr_m rec / 2 ^ 1).
      rewrite Hdiv by lia. rewrite <- Z.shiftr_div_pow2 by lia.
      rewrite Z.shiftr_spec by lia. f_equal. lia.
  - destruct (IH _ Hm) as [E2 R2].
    assert (H2 : 0 <= shr_m (SpecFloat.iter_pos shr_1 p rec)).
    { rewrite E2. now apply Hpos. }
    destruct (IH _ H2) as [E3 R3].
    rewrite E3, R3, E2. split.
    + rewrite Hdiv by lia. f_equal. f_equal. lia.
    + rewrite <- Z.shiftr_div_pow2 by lia.
      rewrite Z.shiftr_spec by lia. f_equal. lia.
  - destruct (shr_1_spec rec Hm) as [E1 R1]. rewrite E1, R1. split.
    + reflexivity.
    + now rewrite Z.bit0_odd.
Qed.

(** One rounding step of [binary_round_aux]: the mantissa it keeps and
    the mantissa rounded to nearest. *)
Lemma shr_fexp_spec m e :
  0 <= m ->
  let res := shr_fexp prec emax m e loc_Exact in
  let M := round_nearest_even (shr_m res.1) (loc_of_shr_record res.1) in
  e <= res.2 /\ 0 <= shr_m res.1 /\
  shr_m res.1 * 2 ^ (res.2 - e) <= m /\
  0 <= M /\
  (res.2 = e -> M = m) /\
  (e < res.2 -> M * 2 ^ (res.2 - e) <= m + 2 ^ (res.2 - e - 1) /\
                res.2 = fexp prec emax (Zdigits2 m + e)).
Proof.
  intros Hm res M. subst M res. unfold shr_fexp, shr.
  cbn [shr_record_of_loc].
  destruct (fexp prec emax (Zdigits2 m + e) - e) as [|s|s] eqn:Es;
    cbn [fst snd shr_m loc_of_shr_record round_nearest_even].
  - rewrite Z.sub_diag, Z.pow_0_r. repeat split; try lia.
  - assert (He : e + Z.pos s = fexp prec emax (Zdigits2 m + e)) by lia.
    destruct (iter_shr_spec s (Build_shr_record m false false) Hm) as [E R].
    cbn [shr_m] in E, R.
    set (rec := SpecFloat.iter_pos shr_1 s _) in *.
    replace (e + Z.pos s - e) with (Z.pos s) by lia.
    assert (H2 : 0 < 2 ^ Z.pos s) by (apply Z.pow_pos_nonneg; lia).
    pose proof (Z.div_mod m (2 ^ Z.pos s) ltac:(lia)) as Hdm.
    pose proof (Z.mod_pos_bound m (2 ^ Z.pos s) H2) as Hmod.
    assert (H0 : 0 <= shr_m rec) by (rewrite E; apply Z.div_pos; lia).
    assert (Hle : shr_m rec * 2 ^ Z.pos s <= m) by (rewrite E; nia).
    assert (Hpw : 2 ^ Z.pos s = 2 * 2 ^ (Z.pos s - 1)).
    { rewrite <- Z.pow_succ_r by lia. f_equal; lia. }
    assert (Hup : shr_r rec = true ->
                  (shr_m rec + 1) * 2 ^ Z.pos s <= m + 2 ^ (Z.pos s - 1)).
    { intros Hr. rewrite R in Hr.
      pose proof (Z.testbit_spec' m (Z.pos s - 1) ltac:(lia)) as Hb.
      rewrite Hr in Hb. cbn [Z.b2z] in Hb.
      (* bit s-1 set: m mod 2^s >= 2^(s-1) *)
      assert (Hge : 2 ^ (Z.pos s - 1) <= m mod 2 ^ Z.pos s).
      { set (q := 2 ^ (Z.pos s - 1)) in *.
        assert (Hq : 0 < q) by (apply Z.pow_pos_nonneg; lia).
        replace (2 ^ Z.pos s) with (q * 2) by lia.
        rewrite Z.rem_mul_r by lia. rewrite <- Hb.
        pose proof (Z.mod_pos_bound m q Hq). lia. }
      rewrite E. nia. }
    split; [lia|]. split; [exact H0|]. split; [exact Hle|].
    assert (HM : 0 <= round_nearest_even (shr_m rec) (loc_of_shr_record rec) /\
                 round_nearest_even (shr_m rec) (loc_of_shr_record rec) * 2 ^ Z.pos s
                 <= m + 2 ^ (Z.pos s - 1)).
    { assert (Hq : 0 <= 2 ^ (Z.pos s - 1)) by (apply Z.pow_nonneg; lia).
      destruct rec as [m1 [] []]; cbn [shr_m shr_r loc_of_shr_record round_nearest_even] in *.
      - specialize (Hup eq_refl). split; [lia|]. nia.
      - specialize (Hup eq_refl). destruct (Z.even m1); split; try lia; nia.
      - split; [lia|]. nia.
      - split; [lia|]. nia. }
    destruct HM as [HM0 HM1].
    split; [exact HM0|]. split; [lia|]. intros _. split; [exact HM1|exact He].
  - rewrite Z.sub_diag, Z.pow_0_r. repeat split; try lia.
Qed.

(** What [binary_round_aux] returns on a positive mantissa: a mantissa
    [m'] and exponent [e'] with [m' * 2^e'] at most half a unit of the
    kept precision above [m * 2^e]. *)
Lemma binary_round_aux_spec p e :
  let s := fexp prec emax (Zdigits2 (Z.pos p) + e) - e in
  exists m' e',
    e <= e' /\ 0 <= m' /\
    m' * 2 ^ (e' - e) <= Z.pos p + (if 0 <? s then 2 ^ (s - 1) else 0) /\
    binary_round_aux prec emax false (Z.pos p) e loc_Exact
    = match m' with
      | Z0 => S754_zero false
      | Zpos q => if e' <=? emax - prec then S754_finite false q e'
                  else S754_infinity false
      | Zneg _ => S754_nan
      end.
Proof.
  intros s. unfold binary_round_aux.
  pose proof (shr_fexp_spec (Z.pos p) e ltac:(lia)) as H1.
  destruct (shr_fexp prec emax (Z.pos p) e loc_Exact) as [mrs1 e1].
  cbn [fst snd] in H1. cbv zeta in H1.
  destruct H1 as (He1 & _ & _ & HM0 & Heq & Hgt).
  set (M := round_nearest_even (shr_m mrs1) (loc_of_shr_record mrs1)) in *.
  pose proof (shr_fexp_spec M e1 HM0) as H2.
  destruct (shr_fexp prec emax M e1 loc_Exact) as [mrs2 e2].
  cbn [fst snd] in H2. cbv zeta in H2.
  destruct H2 as (He2 & Hm2 & Hle2 & _).
  exists (shr_m mrs2), e2. split; [lia|]. split; [exact Hm2|].
  split; [|reflexivity].
  assert (Hpow : 2 ^ (e2 - e) = 2 ^ (e2 - e1) * 2 ^ (e1 - e)).
  { rewrite <- Z.pow_add_r by lia. f_equal; lia. }
  assert (Hp1 : 0 < 2 ^ (e1 - e)) by (apply Z.pow_pos_nonneg; lia).
  assert (HM : M * 2 ^ (e1 - e)
               <= Z.pos p + (if 0 <? s then 2 ^ (s - 1) else 0)).
  { destruct (Z.eq_dec e1 e) as [E|E].
    - rewrite (Heq E), E, Z.sub_diag, Z.pow_0_r.
      destruct (0 <? s); [|lia].
      pose proof (Z.pow_nonneg 2 (s - 1) ltac:(lia)). lia.
    - destruct (Hgt ltac:(lia)) as [Hb Hf]. subst s. rewrite <- Hf.
      destruct (0 <? e1 - e) eqn:Es; [exact Hb|].
      apply Z.ltb_ge in Es. lia. }
  rewrite Hpow. nia.
Qed.

(** [mx * 2^d], as [shl_align] computes it. *)
Lemma iter_xO p d :
  Z.pos (Pos.iter xO p d) = Z.pos p * 2 ^ Z.pos d /\
  digits2_pos (Pos.iter xO p d) = (digits2_pos p + d)%positive.
Proof.
  induction d as [|d IH] using Pos.peano_ind.
  - cbn [Pos.iter digits2_pos]. split; [lia|]. now rewrite Pos.add_1_r.
  - rewrite Pos.iter_succ. destruct IH as [IH1 IH2]. cbn [digits2_pos].
    rewrite Pos2Z.inj_xO, IH1, IH2, Pos2Z.inj_succ, Z.pow_succ_r by lia.
    split; [lia|]. now rewrite Pos.add_succ_r.
Qed.

Lemma digits2_pos_le p k : Z.pos p < 2 ^ k -> Z.pos (digits2_pos p) <= k.
Proof.
  intros H. destruct (digits2_pos_bounds p) as [H1 _].
  destruct (Z.le_gt_cases (Z.pos (digits2_pos p)) k) as [|Hk]; [assumption|].
  assert (2 ^ k <= 2 ^ (Z.pos (digits2_pos p) - 1)); [|lia].
  apply Z.pow_le_mono_r; lia.
Qed.


Lemma of_length_pos n :
  (0 < n)%nat -> Z.of_nat n < 2 ^ 53 ->
  exists mz ez,
    of_length n = S754_finite false mz ez /\ ez <= 0 /\
    Z.pos mz = Z.of_nat n * 2 ^ (- ez).
Proof.
  intros Hn Hlt. unfold of_length.
  destruct (Z.of_nat n) as [|p|p] eqn:Ep; [lia| |lia].
  cbn [binary_normalize]. unfold binary_round.
  pose proof (digits2_pos_le p 53 Hlt) as Hd.
  set (dg := digits2_pos p) in *.
  assert (Hf : fexp prec emax (Z.pos dg + 0) = Z.pos dg - 53).
  { unfold fexp, emin, prec, emax. lia. }
  rewrite Hf. unfold shl_align.
  assert (Haux : forall mz ez,
             Z.pos (digits2_pos mz) = 53 -> -52 <= ez <= 0 ->
             binary_round_aux prec emax false (Z.pos mz) ez loc_Exact
             = S754_finite false mz ez).
  { intros mz ez Hdg Hez. unfold binary_round_aux, shr_fexp.
    cbn [Zdigits2 shr_record_of_loc]. rewrite Hdg.
    replace (fexp prec emax (53 + ez) - ez) with 0
      by (unfold fexp, emin, prec, emax; lia).
    cbn [shr shr_m loc_of_shr_record round_nearest_even Zdigits2
         shr_record_of_loc].
    rewrite Hdg.
    replace (fexp prec emax (53 + ez) - ez) with 0
      by (unfold fexp, emin, prec, emax; lia).
    cbn [shr shr_m].
    replace (ez <=? emax - prec) with true; [reflexivity|].
    symmetry. apply Z.leb_le. unfold emax, prec. lia. }
  destruct (Z.pos dg - 53 - 0) as [|d|d] eqn:Ed; [|lia|].
  - exists p, 0. split; [apply Haux; lia|]. split; [lia|].
    cbn. lia.
  - destruct (iter_xO p d) as [H1 H2].
    exists (Pos.iter xO p d), (Z.pos dg - 53).
    split; [apply Haux; [rewrite H2; fold dg; lia|lia]|].
    split; [lia|]. rewrite H1. f_equal. f_equal. lia.
Qed.




Lemma bounded_inv m e :
  bounded prec emax m e = true -> Z.pos m < 2 ^ 53 /\ -1074 <= e.
Proof.
  unfold bounded, canonical_mantissa. intros H.
  apply andb_true_iff in H as [H _]. apply Z.eqb_eq in H.
  unfold fexp, emin, prec, emax in H.
  destruct (digits2_pos_bounds m) as [_ H2]. split; [|lia].
  eapply Z.lt_le_trans; [exact H2|]. apply Z.pow_le_mono_r; lia.
Qed.

Lemma floor_mul_lt r n :
  in_unit r -> (0 < n)%nat -> Z.of_nat n < 2 ^ 53 ->
  exists k, floor_mul r n = Some k /\ (k < n)%nat.
Proof.
  intros Hr Hn Hlt.
  destruct (of_length_pos n Hn Hlt) as (mz & ez & E & Hez & Hmz).
  unfold floor_mul. rewrite E.
  destruct r as [[]| | |[] mr er]; cbn [in_unit] in Hr; try contradiction.
  { exists 0%nat. split; [reflexivity|exact Hn]. }
  destruct Hr as [Hb Hr1]. apply bounded_inv in Hb as [Hmr Her].
  assert (Her0 : er < 0).
  { destruct (Z.lt_ge_cases er 0) as [|H0]; [assumption|].
    destruct (Z.eq_dec er 0) as [->|]; [cbn in Hr1; lia|].
    rewrite Z.pow_neg_r in Hr1 by lia. lia. }
  cbn [SFmul xorb].
  destruct (binary_round_aux_spec (mr * mz) (er + ez))
    as (m' & e' & He & Hm0 & Hle & ->).
  cbv zeta in Hle. set (e := er + ez) in *.
  set (N := Z.of_nat n) in *.
  assert (HN : 1 <= N) by lia.
  assert (Hpz : 0 < 2 ^ (- ez)) by (apply Z.pow_pos_nonneg; lia).
  assert (Hpr : 0 < 2 ^ (- er)) by (apply Z.pow_pos_nonneg; lia).
  assert (Hpe : 2 ^ (- e) = 2 ^ (- er) * 2 ^ (- ez)).
  { rewrite <- Z.pow_add_r by lia. f_equal; lia. }
  (* the slack is below [mz] *)
  assert (Hslack : (if 0 <? fexp prec emax (Zdigits2 (Z.pos (mr * mz)) + e) - e
                    then 2 ^ (fexp prec emax (Zdigits2 (Z.pos (mr * mz)) + e) - e - 1)
                    else 0) < Z.pos mz).
  { destruct (0 <? _) eqn:Es; [|lia]. apply Z.ltb_lt in Es.
    cbn [Zdigits2] in *.
    destruct (digits2_pos_bounds (mr * mz)) as [Hd1 _].
    set (D := Z.pos (digits2_pos (mr * mz))) in *.
    unfold fexp, emin, prec, emax in *.
    destruct (Z.max_spec (D + e - 53) (3 - 1024 - 53)) as [[_ Hmax]|[_ Hmax]];
      rewrite Hmax in *.
    - (* subnormal result *)
      apply Z.lt_le_trans with (2 ^ (- ez)); [|nia].
      apply Z.pow_lt_mono_r; lia.
    - replace (D + e - 53 - e - 1) with (D - 54) by lia.
      assert (Hd : 2 ^ (D - 1) = 2 ^ (D - 54) * 2 ^ 53).
      { rewrite <- Z.pow_add_r by lia. f_equal; lia. }
      assert (0 < 2 ^ (D - 54)) by (apply Z.pow_pos_nonneg; lia).
      rewrite Pos2Z.inj_mul in Hd1. nia. }
  assert (Hval : m' * 2 ^ (e' - e) < N * 2 ^ (- e)).
  { eapply Z.le_lt_trans; [exact Hle|].
    match goal with |- _ + ?S0 < _ => set (S := S0) in * end.
    clearbody S. rename Hslack into HS.
    rewrite Hpe, Pos2Z.inj_mul.
    assert (Hm1 : (Z.pos mr + 1) * Z.pos mz <= 2 ^ (- er) * Z.pos mz)
      by (apply Z.mul_le_mono_nonneg_r; lia).
    rewrite Hmz in Hm1, HS. rewrite Hmz. clear - Hm1 HS.
    set (A := 2 ^ (- er)) in *. set (B := 2 ^ (- ez)) in *.
    clearbody A B. nia. }
  assert (Hpee : 0 < 2 ^ (e' - e)) by (apply Z.pow_pos_nonneg; lia).
  assert (Hpne : 0 < 2 ^ (- e)) by (apply Z.pow_pos_nonneg; lia).
  destruct m' as [|q|q]; [| |lia].
  { exists 0%nat. split; [reflexivity|exact Hn]. }
  assert (He' : e' < 53).
  { assert (H2 : 2 ^ (e' - e) < 2 ^ (53 - e)).
    { replace (53 - e) with (53 + - e) by lia. rewrite Z.pow_add_r by lia.
      nia. }
    apply Z.pow_lt_mono_r_iff in H2; lia. }
  replace (e' <=? emax - prec) with true
    by (symmetry; apply Z.leb_le; unfold emax, prec; lia).
  cbn [floor_index]. eexists. split; [reflexivity|].
  assert (0 <= Z.shiftl (Z.pos q) e' < N); [|lia].
  split; [apply Z.shiftl_nonneg; lia|].
  destruct (Z.le_gt_cases 0 e') as [H0|H0].
  - rewrite Z.shiftl_mul_pow2 by lia.
    assert (Hs : 2 ^ (e' - e) = 2 ^ e' * 2 ^ (- e)).
    { rewrite <- Z.pow_add_r by lia. f_equal; lia. }
    assert (0 < 2 ^ e') by (apply Z.pow_pos_nonneg; lia).
    rewrite Hs in Hval. nia.
  - rewrite Z.shiftl_div_pow2 by lia.
    assert (Hs : 2 ^ (- e) = 2 ^ (- e') * 2 ^ (e' - e)).
    { rewrite <- Z.pow_add_r by lia. f_equal; lia. }
    assert (0 < 2 ^ (- e')) by (apply Z.pow_pos_nonneg; lia).
    apply Z.div_lt_upper_bound; [lia|].
    rewrite Hs in Hval. nia.
Qed.


Lemma floor_mul_rounds : floor_mul just_below 11 = Some 3%nat.
Proof. vm_compute. reflexivity. Qed.

End Double.

(** ** The quiz: the handlers of [Quiz.svelte] *)

Module Quiz.

(** The tables [teams], [players] and [data], by the fields the quiz
    reads. *)
Record team_t := Team { name : list string; abbr : string }.
Record player_t := Player { ign : string }.
Record lineup := Lineup { TOP : player_t; JG : player_t; MID : player_t;
                          BOT : player_t; SPT : player_t }.
Record entry := Entry { team : team_t; year : string; split : string;
                        players : lineup }.

(** The [answer] of a form field: the array of the default form and of
    the team question, or a string. *)
Inductive answer_t := AList (l : list string) | AStr (s : string).

Record field := Field { value : string; answer : answer_t; correct : bool }.

(** [Object.keys(defaultAnswerForm)] *)
Definition keys : list string :=
  ["team"; "year"; "split"; "top"; "jungle"; "mid"; "bot"; "support"]%string.

Definition defaultAnswerForm : gmap string field :=
  list_to_map ((fun k => (k, Field "" (AList []) false)) <$> keys).

(** The variables of the closure of [instance$1], and the slots passed
    to [$$invalidate], in order. *)
Record state := State {
  quizNo : option nat;                    (* undefined, or an index *)
  answeredPool : list (option nat);
  quiz : option entry;
  answerForm : option (gmap string field);
  currentQ : option string;
  qs : list string;
  invalidated : list nat
}.

Inductive outcome := Returned | Threw.

(** [s.includes(sub)] on strings *)
Fixpoint str_includes (s sub : string) : bool :=
  String.prefix sub s ||
  match s with
  | EmptyString => false
  | String _ s' => str_includes s' sub
  end.

Section Instance.

Variable data : list entry.

(** [String.prototype.toLowerCase] *)
Variable toLowerCase : string -> string.

Definition init : state :=
  State None [] None None (Some "team"%string) keys [].

Definition invalidate (i : nat) (st : state) : state :=
  State (quizNo st) (answeredPool st) (quiz st) (answerForm st) (currentQ st)
    (qs st) (invalidated st ++ [i]).

Definition set_answerForm (f : gmap string field) (st : state) : state :=
  State (quizNo st) (answeredPool st) (quiz st) (Some f) (currentQ st)
    (qs st) (invalidated st).

(** [const fullPool = data.map((_, i) => i)] *)
Definition fullPool : list nat := seq 0 (length data).

(** [[
    function resetAnswerForm() {
        $$invalidate(1, answerForm = JSON.parse(JSON.stringify(defaultAnswerForm)));
    }
    ]] *)
Definition resetAnswerForm (st : state) : state :=
  invalidate 1 (set_answerForm defaultAnswerForm st).

(** [$$invalidate(1, answerForm[key].<field> = ..., answerForm)]; the
    assignment throws when [answerForm] or [answerForm[key]] is
    undefined.  The form is read by its own properties: [key] is the
    name of a question, as [Input] passes it, or a name that is no
    property at all, not one the form inherits from [Object.prototype]. *)
Definition assign (key : string) (upd : field -> field) (st : state)
  : state * outcome :=
  match answerForm st with
  | None => (st, Threw)
  | Some f =>
      match f !! key with
      | None => (st, Threw)
      | Some fld => (invalidate 1 (set_answerForm (<[key := upd fld]> f) st), Returned)
      end
  end.

Definition set_answer (a : answer_t) (fld : field) : field :=
  Field (value fld) a (correct fld).
Definition set_value (v : string) (fld : field) : field :=
  Field v (answer fld) (correct fld).

Definition and_then (m : state -> state * outcome) (k : state -> state * outcome)
    (st : state) : state * outcome :=
  match m st with
  | (st', Returned) => k st'
  | (st', Threw) => (st', Threw)
  end.

(** The pool of [createQuiz]:
    [fullPool.filter(i => !answeredPool.includes(i))] *)
Definition pool (st : state) : list nat :=
  filter (fun i => Some i ∉ answeredPool st) fullPool.

(** [[
    function createQuiz() {
        resetAnswerForm();
        const pool = fullPool.filter(i => !answeredPool.includes(i));
        quizNo = pool[Math.floor(Math.random() * pool.length)];
        answeredPool.push(quizNo);
        $$invalidate(0, quiz = data[quizNo]);
        $$invalidate(1, answerForm.team.answer = [...quiz.team.name.map(n => n.toLowerCase()), quiz.team.abbr.toLowerCase()], answerForm);
        $$invalidate(1, answerForm.year.answer = quiz.year, answerForm);
        $$invalidate(1, answerForm.split.answer = quiz.split.toLowerCase(), answerForm);
        $$invalidate(1, answerForm.top.answer = quiz.players.TOP.ign.toLowerCase(), answerForm);
        ...
        $$invalidate(1, answerForm.support.answer = quiz.players.SPT.ign.toLowerCase(), answerForm);
    }
    ]]
    [r] is the value of [Math.random()]; [quiz.team] throws when [quiz]
    is undefined. *)
Definition createQuiz (r : spec_float) (st : state) : state * outcome :=
  let st := resetAnswerForm st in
  let pool := pool st in
  let no := Double.floor_mul r (length pool) ≫= (pool !!.) in
  let q := no ≫= (data !!.) in
  let st := invalidate 0
              (State no (answeredPool st ++ [no]) q (answerForm st)
                 (currentQ st) (qs st) (invalidated st)) in
  match q with
  | None => (st, Threw)
  | Some q =>
      and_then (assign "team" (set_answer
                  (AList ((toLowerCase <$> name (team q))
                          ++ [toLowerCase (abbr (team q))]))))
     (and_then (assign "year" (set_answer (AStr (year q))))
     (and_then (assign "split" (set_answer (AStr (toLowerCase (split q)))))
     (and_then (assign "top" (set_answer (AStr (toLowerCase (ign (TOP (players q)))))))
     (and_then (assign "jungle" (set_answer (AStr (toLowerCase (ign (JG (players q)))))))
     (and_then (assign "mid" (set_answer (AStr (toLowerCase (ign (MID (players q)))))))
     (and_then (assign "bot" (set_answer (AStr (toLowerCase (ign (BOT (players q)))))))
               (assign "support" (set_answer (AStr (toLowerCase (ign (SPT (players q)))))))))))))
       st
  end.

(** [[
    function handleInputChance(key, value) {
        $$invalidate(1, answerForm[key].value = value, answerForm);
    }
    ]] *)
Definition handleInputChance (key v : string) (st : state) : state * outcome :=
  assign key (set_value v) st.

(** The test of [handleInputEnter]; [None] when it throws.  [key] as in
    [assign]. *)
Definition accepted (key : string) (st : state) : option bool :=
  f ← answerForm st;
  if decide (key = "team"%string) then
    fld ← f !! "team"%string;
    Some (match answer fld with
          | AList l => bool_decide (toLowerCase (value fld) ∈ l)
          | AStr s => str_includes s (toLowerCase (value fld))
          end)
  else
    fld ← f !! key;
    Some (match answer fld with
          | AList _ => false
          | AStr s => bool_decide (s = toLowerCase (value fld))
          end).





(** A run of [createQuiz] calls, one per random number, up to the first
    that throws. *)
Fixpoint createQuizzes (rs : list spec_float) (st : state) : state * outcome :=
  match rs with
  | [] => (st, Returned)
  | r :: rs' => and_then (createQuiz r) (createQuizzes rs') st
  end.

(** The answer [createQuiz] stores for a key. *)
Definition expected (q : entry) (key : string) : option answer_t :=
  if decide (key = "team"%string) then
    Some (AList ((toLowerCase <$> name (team q)) ++ [toLowerCase (abbr (team q))]))
  else if decide (key = "year"%string) then Some (AStr (year q))
  else if decide (key = "split"%string) then Some (AStr (toLowerCase (split q)))
  else if decide (key = "top"%string) then
    Some (AStr (toLowerCase (ign (TOP (players q)))))
  else if decide (key = "jungle"%string) then
    Some (AStr (toLowerCase (ign (JG (players q)))))
  else if decide (key = "mid"%string) then
    Some (AStr (toLowerCase (ign (MID (players q)))))
  else if decide (key = "bot"%string) then
    Some (AStr (toLowerCase (ign (BOT (players q)))))
  else if decide (key = "support"%string) then
    Some (AStr (toLowerCase (ign (SPT (players q)))))
  else None.

(** The form [createQuiz] leaves for entry [q]. *)
Definition fill (q : entry) : gmap string field :=
  <["support"%string := Field "" (AStr (toLowerCase (ign (SPT (players q))))) false]>
  (<["bot"%string := Field "" (AStr (toLowerCase (ign (BOT (players q))))) false]>
  (<["mid"%string := Field "" (AStr (toLowerCase (ign (MID (players q))))) false]>
  (<["jungle"%string := Field "" (AStr (toLowerCase (ign (JG (players q))))) false]>
  (<["top"%string := Field "" (AStr (toLowerCase (ign (TOP (players q))))) false]>
  (<["split"%string := Field "" (AStr (toLowerCase (split q))) false]>
  (<["year"%string := Field "" (AStr (year q)) false]>
  (<["team"%string := Field "" (AList ((toLowerCase <$> name (team q))
                                        ++ [toLowerCase (abbr (team q))])) false]>
     defaultAnswerForm))))))).


(** The entries asked so far are [l], each once. *)
Definition asked (st : state) (l : list nat) : Prop :=
  answeredPool st = Some <$> l /\ NoDup l /\
  forall i, i ∈ l -> (i < length data)%nat.

(** A number of [[0, 1)] picks an element of a non-empty array. *)
Lemma pick_elem {A} r (a : list A) :
  Double.in_unit r -> a <> [] -> Z.of_nat (length a) < 2 ^ 53 ->
  exists x, Double.floor_mul r (length a) ≫= (a !!.) = Some x /\ x ∈ a.
Proof.
  intros Hr Ha Hlen.
  destruct (Double.floor_mul_lt r (length a) Hr) as (k & Ek & Hk);
    [destruct a; [congruence|cbn; lia]|exact Hlen|].
  apply lookup_lt_is_Some_2 in Hk as [x Hx].
  exists x. rewrite Ek. split; [exact Hx|].
  eapply list_elem_of_lookup_2. exact Hx.
Qed.

Lemma pick_nil {A} (k : option nat) : k ≫= ((@nil A) !!.) = None.
Proof. now destruct k. Qed.

Lemma pool_length st : (length (pool st) <= length data)%nat.
Proof.
  unfold pool, fullPool.
  etransitivity; [apply length_filter|]. now rewrite length_seq.
Qed.

Lemma elem_of_pool st i :
  i ∈ pool st <-> (i < length data)%nat /\ Some i ∉ answeredPool st.
Proof.
  unfold pool, fullPool. rewrite list_elem_of_filter, elem_of_seq. split.
  - intros [H1 H2]. split; [lia|exact H1].
  - intros [H1 H2]. split; [exact H2|lia].
Qed.

Lemma default_lookup k :
  k ∈ keys -> defaultAnswerForm !! k = Some (Field "" (AList []) false).
Proof.
  intros H. unfold keys in H.
  repeat (apply elem_of_cons in H as [->|H]; [vm_compute; reflexivity|]).
  now apply not_elem_of_nil in H.
Qed.

Lemma default_lookup_None k : k ∉ keys -> defaultAnswerForm !! k = None.
Proof.
  intros H. apply not_elem_of_list_to_map_1. exact H.
Qed.

Lemma assign_some key upd st f fld :
  answerForm st = Some f -> f !! key = Some fld ->
  assign key upd st
  = (invalidate 1 (set_answerForm (<[key := upd fld]> f) st), Returned).
Proof. intros Hf Hk. unfold assign. now rewrite Hf, Hk. Qed.

Lemma state_ext s1 s2 :
  quizNo s1 = quizNo s2 -> answeredPool s1 = answeredPool s2 ->
  quiz s1 = quiz s2 -> answerForm s1 = answerForm s2 ->
  currentQ s1 = currentQ s2 -> qs s1 = qs s2 ->
  invalidated s1 = invalidated s2 -> s1 = s2.
Proof. destruct s1, s2. cbn. congruence. Qed.

Ltac in_keys :=
  unfold keys; repeat (apply elem_of_cons; first [left; reflexivity | right]).

Ltac form_lookup :=
  lazymatch goal with
  | |- (<[?k := _]> _) !! ?k = _ => apply lookup_insert_eq
  | |- (<[_ := _]> _) !! _ = _ =>
      rewrite lookup_insert_ne by discriminate; form_lookup
  | |- defaultAnswerForm !! _ = _ => apply default_lookup; in_keys
  end.

Lemma createQuiz_ok r st n q :
  Double.floor_mul r (length (pool st)) ≫= (pool st !!.) = Some n ->
  data !! n = Some q ->
  createQuiz r st
  = (State (Some n) (answeredPool st ++ [Some n]) (Some q) (Some (fill q))
       (currentQ st) (qs st)
       (invalidated st ++ [1; 0; 1; 1; 1; 1; 1; 1; 1; 1]%nat), Returned).
Proof.
  intros Hn Hq. unfold createQuiz.
  change (pool (resetAnswerForm st)) with (pool st). rewrite Hn.
  cbn [mbind option_bind]. rewrite Hq.
  unfold and_then.
  do 8 (erewrite assign_some; [|reflexivity|form_lookup]).
  f_equal. apply state_ext; try reflexivity.
  cbn [invalidated invalidate set_answerForm resetAnswerForm].
  repeat (rewrite <- app_assoc; cbn [app]). reflexivity.
Qed.

Lemma fill_lookup q k :
  fill q !! k = (fun a => Field "" a false) <$> expected q k.
Proof.
  unfold fill, expected.
  repeat (destruct (decide _) as [->|?];
          [cbn [fmap option_fmap option_map]; form_lookup|]).
  cbn [fmap option_fmap option_map].
  do 8 (rewrite lookup_insert_ne by congruence).
  apply default_lookup_None. unfold keys. intros H.
  repeat (apply elem_of_cons in H as [H|H]; [congruence|]).
  now apply not_elem_of_nil in H.
Qed.





Lemma pool_nil st :
  (forall i, (i < length data)%nat -> Some i ∈ answeredPool st) -> pool st = [].
Proof.
  intros H. destruct (pool st) as [|i l] eqn:E; [reflexivity|].
  assert (Hi : i ∈ pool st) by (rewrite E; now left).
  apply elem_of_pool in Hi as [H1 H2]. now specialize (H i H1).
Qed.

Lemma createQuiz_exhausted r st :
  (forall i, (i < length data)%nat -> Some i ∈ answeredPool st) ->
  createQuiz r st
  = (State None (answeredPool st ++ [None]) None (Some defaultAnswerForm)
       (currentQ st) (qs st) (invalidated st ++ [1; 0]%nat), Threw).
Proof.
  intros H. unfold createQuiz.
  change (pool (resetAnswerForm st)) with (pool st).
  rewrite (pool_nil st H), pick_nil.
  cbn. unfold invalidate. cbn. now rewrite <- app_assoc.
Qed.

Lemma asked_step r st l :
  Z.of_nat (length data) < 2 ^ 53 ->
  Double.in_unit r -> asked st l -> (length l < length data)%nat ->
  exists n st',
    createQuiz r st = (st', Returned) /\ asked st' (l ++ [n]).
Proof.
  intros Hdata Hr (Ha & Hnd & Hlt) Hlen.
  destruct (pool st) as [|i0 p0] eqn:Ep.
  { exfalso.
    assert (Hsub : seq 0 (length data) ⊆+ l).
    { apply NoDup_submseteq; [apply NoDup_seq|].
      intros i Hi. apply elem_of_seq in Hi.
      destruct (decide (i ∈ l)) as [|Hn]; [assumption|].
      assert (Hp : i ∈ pool st).
      { apply elem_of_pool. split; [lia|]. rewrite Ha.
        intros Hin. apply list_elem_of_fmap in Hin as (j & [= <-] & Hj).
        contradiction. }
      rewrite Ep in Hp. now apply not_elem_of_nil in Hp. }
    apply submseteq_length in Hsub. rewrite length_seq in Hsub. lia. }
  destruct (pick_elem r (pool st) Hr) as (n & Hn & Hin).
  { rewrite Ep. discriminate. }
  { pose proof (pool_length st). lia. }
  apply elem_of_pool in Hin as [Hn1 Hn2].
  apply lookup_lt_is_Some_2 in Hn1 as Hq. destruct Hq as [q Hq].
  exists n. eexists. split; [apply (createQuiz_ok r st n q Hn Hq)|].
  split; [|split].
  - cbn [answeredPool]. rewrite Ha, fmap_app. reflexivity.
  - apply NoDup_app. split; [exact Hnd|]. split; [|apply NoDup_singleton].
    intros x Hx Hx'. apply list_elem_of_singleton in Hx'. subst x.
    apply Hn2. rewrite Ha. apply list_elem_of_fmap. now exists n.
  - intros i Hi. apply elem_of_app in Hi as [Hi|Hi]; [now apply Hlt|].
    apply list_elem_of_singleton in Hi. now subst i.
Qed.

Lemma asked_run rs :
  Z.of_nat (length data) < 2 ^ 53 ->
  forall st l,
    Forall Double.in_unit rs -> asked st l ->
    (length l + length rs <= length data)%nat ->
    exists st' l',
      createQuizzes rs st = (st', Returned) /\ asked st' l' /\
      length l' = (length l + length rs)%nat.
Proof.
  intros Hdata. induction rs as [|r rs IH]; intros st l Hrs Ha Hlen.
  - exists st, l. cbn. repeat split; try apply Ha. lia.
  - apply Forall_cons in Hrs as [Hr Hrs]. cbn [length] in Hlen.
    destruct (asked_step r st l Hdata Hr Ha) as (n & st1 & E1 & Ha1); [lia|].
    destruct (IH st1 (l ++ [n]) Hrs Ha1) as (st' & l' & E & Ha' & Hl').
    { rewrite length_app. cbn. lia. }
    exists st', l'. cbn [createQuizzes]. unfold and_then. rewrite E1.
    split; [exact E|]. split; [exact Ha'|].
    rewrite Hl', length_app. cbn. lia.
Qed.




End Instance.

(** [createQuiz] while an entry is left that was not asked, [data]
    having fewer than [2^53] entries as every array has, and
    [Math.random()] giving a double of [[0, 1)]: the product
    [Math.random() * pool.length], rounded as binary64 rounds it, stays
    below [pool.length], so [createQuiz] returns, the entry chosen is one
    not asked before, it is recorded in [answeredPool], the form is the
    fresh one for that entry (no input, nothing marked correct, the
    answers in lower case), and the question shown does not change. *)
Theorem createQuiz_asks_new_entry data toLowerCase r st i :
  Z.of_nat (length data) < 2 ^ 53 ->
  Double.in_unit r ->
  (i < length data)%nat -> Some i ∉ answeredPool st ->
  exists n q,
    data !! n = Some q /\ (Some n ∉ answeredPool st) /\
    createQuiz data toLowerCase r st
    = (State (Some n) (answeredPool st ++ [Some n]) (Some q)
         (Some (fill toLowerCase q)) (currentQ st) (qs st)
         (invalidated st ++ [1; 0; 1; 1; 1; 1; 1; 1; 1; 1]%nat), Returned) /\
    forall k, fill toLowerCase q !! k
              = (fun a => Field "" a false) <$> expected toLowerCase q k.
Proof.
  intros Hdata Hr Hi Hni.
  assert (Hp : i ∈ pool data st) by now apply elem_of_pool.
  destruct (pick_elem r (pool data st) Hr) as (n & Hn & Hin).
  { intros E. rewrite E in Hp. now apply not_elem_of_nil in Hp. }
  { pose proof (pool_length data st). lia. }
  apply elem_of_pool in Hin as [Hn1 Hn2].
  apply lookup_lt_is_Some_2 in Hn1 as [q Hq].
  exists n, q. split; [exact Hq|]. split; [exact Hn2|].
  split; [now apply createQuiz_ok|]. apply fill_lookup.
Qed.

(** [createQuiz] once every entry has been asked throws, whatever
    [Math.random()] gives: [quiz] is left undefined and [undefined] is
    pushed on [answeredPool].  From the initial state, with fewer than
    [2^53] entries in [data] and doubles of [[0, 1)] from
    [Math.random()], as many calls as [data] has entries all return,
    having asked every entry exactly once; the next call is the one that
    throws. *)
Theorem createQuiz_runs_out data toLowerCase :
  (forall r st,
     (forall i, (i < length data)%nat -> Some i ∈ answeredPool st) ->
     createQuiz data toLowerCase r st
     = (State None (answeredPool st ++ [None]) None (Some defaultAnswerForm)
          (currentQ st) (qs st) (invalidated st ++ [1; 0]%nat), Threw)) /\
  (forall rs,
     Z.of_nat (length data) < 2 ^ 53 ->
     Forall Double.in_unit rs -> length rs = length data ->
     exists st l,
       createQuizzes data toLowerCase rs init = (st, Returned) /\
       answeredPool st = Some <$> l /\
       l ≡ₚ seq 0 (length data) /\
       forall r, (createQuiz data toLowerCase r st).2 = Threw).
Proof.
  split; [intros r st; apply createQuiz_exhausted|].
  intros rs Hdata Hrs Hlen.
  destruct (asked_run data toLowerCase rs Hdata init [] Hrs)
    as (st & l & E & Ha & Hl).
  { repeat split; [constructor|]. intros i Hi. now apply not_elem_of_nil in Hi. }
  { cbn. lia. }
  destruct Ha as (Ha & Hnd & Hlt). cbn in Hl.
  assert (Hperm : l ≡ₚ seq 0 (length data)).
  { apply submseteq_length_Permutation.
    - apply NoDup_submseteq; [exact Hnd|].
      intros i Hi. apply elem_of_seq. specialize (Hlt i Hi). lia.
    - rewrite length_seq. lia. }
  exists st, l. repeat split; auto.
  intros r. rewrite createQuiz_exhausted; [reflexivity|].
  intros i Hi. rewrite Ha. apply list_elem_of_fmap. exists i. split; [reflexivity|].
  rewrite Hperm. apply elem_of_seq. lia.
Qed.

(** Whether the input [v] answers question [key] of entry [q]. *)
Definition matches (toLowerCase : string -> string) (q : entry) (key v : string)
  : bool :=
  match expected toLowerCase q key with
  | Some (AList l) => bool_decide (toLowerCase v ∈ l)
  | Some (AStr s) => bool_decide (s = toLowerCase v)
  | None => false
  end.

(** Which inputs are accepted.  With the form that [createQuiz] made for
    entry [q], once [v] has been typed for a question, the test of
    [handleInputEnter] holds exactly when the lower-cased input is one of
    the lower-cased team names or the lower-cased abbreviation (team), is
    the year as stored (year), or is the lower-cased split or player name
    (the other questions). *)
Theorem typed_answer_is_matched toLowerCase q st key v :
  answerForm st = Some (fill toLowerCase q) ->
  key ∈ keys ->
  accepted toLowerCase key (handleInputChance key v st).1
  = Some (matches toLowerCase q key v).
Proof.
  intros Hf Hk.
  pose proof (fill_lookup toLowerCase q key) as Hl.
  assert (He : exists a, expected toLowerCase q key = Some a /\
                         (key = "team"%string -> exists l, a = AList l) /\
                         (key <> "team"%string -> exists s, a = AStr s)).
  { unfold expected, keys in *.
    repeat (apply elem_of_cons in Hk as [->|Hk];
            [eexists; split; [reflexivity|];
             split; [intros E; try discriminate E; eexists; reflexivity
                    |intros E; try (now contradiction E); eexists; reflexivity]|]).
    now apply not_elem_of_nil in Hk. }
  destruct He as (a & Ea & Hteam & Hother).
  rewrite Ea in Hl. cbn [fmap option_fmap option_map] in Hl.
  unfold handleInputChance, assign. rewrite Hf, Hl. cbn [fst].
  unfold accepted, matches. rewrite Ea.
  cbn [answerForm invalidate set_answerForm mbind option_bind].
  destruct (decide (key = "team"%string)) as [->|Hne].
  - rewrite lookup_insert_eq. cbn [mbind option_bind set_value answer value].
    destruct (Hteam eq_refl) as (l & ->). reflexivity.
  - rewrite lookup_insert_eq. cbn [mbind option_bind set_value answer value].
    destruct (Hother Hne) as (s & ->). reflexivity.
Qed.

(** Two entries of [data], lower case on the letters A to Z, and the
    double 1/2. *)
Definition tsm_2013 : entry :=
  Entry (Team ["Team Solo Mid"] "TSM") "2013" "spring"
    (Lineup (Player "Dyrus") (Player "TheOddOne") (Player "Reginald")
            (Player "Chaox") (Player "Xpecial")).

Definition c9_2013 : entry :=
  Entry (Team ["Cloud 9"; "cloud nine"] "C9") "2013" "summer"
    (Lineup (Player "Balls") (Player "Meteos") (Player "Hai")
            (Player "Sneaky") (Player "LemonNation")).

Definition sample : list entry := [tsm_2013; c9_2013].

Definition lower_char (c : Ascii.ascii) : Ascii.ascii :=
  let n := Ascii.nat_of_ascii c in
  if ((65 <=? n) && (n <=? 90))%nat then Ascii.ascii_of_nat (n + 32) else c.

Fixpoint lower_ascii (s : string) : string :=
  match s with
  | EmptyString => EmptyString
  | String c s' => String (lower_char c) (lower_ascii s')
  end.

Definition half : spec_float := S754_finite false 4503599627370496 (-53).

Lemma createQuiz_new_entry_witness :
  exists n q,
    sample !! n = Some q /\ (Some n ∉ answeredPool init) /\
    createQuiz sample lower_ascii half init
    = (State (Some n) (answeredPool init ++ [Some n]) (Some q)
         (Some (fill lower_ascii q)) (currentQ init) (qs init)
         (invalidated init ++ [1; 0; 1; 1; 1; 1; 1; 1; 1; 1]%nat), Returned) /\
    forall k, fill lower_ascii q !! k
              = (fun a => Field "" a false) <$> expected lower_ascii q k.
Proof.
  apply (createQuiz_asks_new_entry sample lower_ascii half init 0).
  - reflexivity.
  - split; reflexivity.
  - cbn. lia.
  - apply not_elem_of_nil.
Defined.

Lemma createQuiz_runs_out_witness :
  exists st l,
    createQuizzes sample lower_ascii [half; S754_zero false] init
    = (st, Returned) /\
    answeredPool st = Some <$> l /\
    l ≡ₚ seq 0 (length sample) /\
    forall r, (createQuiz sample lower_ascii r st).2 = Threw.
Proof.
  apply (proj2 (createQuiz_runs_out sample lower_ascii)).
  - reflexivity.
  - repeat constructor.
  - reflexivity.
Defined.

(** The first entry is shown and TSM has been typed. *)
Definition typed : state :=
  (handleInputChance "team" "TSM"
     (createQuiz sample lower_ascii (S754_zero false) init).1).1.

Lemma typed_answer_witness :
  accepted lower_ascii "team" typed = Some (matches lower_ascii tsm_2013 "team" "TSM").
Proof.
  apply (typed_answer_is_matched lower_ascii tsm_2013
           (createQuiz sample lower_ascii (S754_zero false) init).1 "team" "TSM").
  - vm_compute. reflexivity.
  - now left.
Defined.

End Quiz.

(** * Event listeners of a component: [$on] (src/bundle.js, lines 402-410) *)

Module Events.
Import JS.

(** The part of a component that [$on] uses: [$$.callbacks], a blank
    object from event type to an array, and the arrays themselves, which
    the closures returned by [$on] share with [$$.callbacks]. *)
Record component := Component {
  callbacks : gmap string nat;
  arrays : gmap nat (list value);
  next_ref : nat
}.

(** A component as [init] leaves it: [callbacks: blank_object()]. *)
Definition created : component := Component ∅ ∅ 0.

(** The closure [$on] returns: it holds the array and the callback. *)
Record remover := Remover { r_callbacks : nat; r_callback : value }.

(** [callbacks.push(callback)] *)
Definition push (l : nat) (callback : value) (c : component) : component :=
  Component (callbacks c) (alter (fun fs => fs ++ [callback]) l (arrays c))
            (next_ref c).

(** [callbacks.indexOf(callback)]: the first index holding a value
    strictly equal to [callback]; [None] stands for -1. *)
Fixpoint indexOf (fs : list value) (callback : value) : option nat :=
  match fs with
  | [] => None
  | f :: fs' => if strict_eq f callback then Some 0%nat
                else S <$> indexOf fs' callback
  end.

(** [callbacks.splice(index, 1)] *)
Definition splice1 (fs : list value) (index : nat) : list value :=
  take index fs ++ drop (S index) fs.

(** [[
    $on(type, callback) {
        const callbacks = (this.$$.callbacks[type] || (this.$$.callbacks[type] = []));
        callbacks.push(callback);
        return () => { ... };
    }
    ]] *)
Definition dollar_on (type : string) (callback : value) (c : component)
  : component * remover :=
  match callbacks c !! type with
  | Some l => (push l callback c, Remover l callback)
  | None =>
      let l := next_ref c in
      (push l callback
         (Component (<[type := l]> (callbacks c)) (<[l := []]> (arrays c)) (S l)),
       Remover l callback)
  end.

(** [[
    () => {
        const index = callbacks.indexOf(callback);
        if (index !== -1)
            callbacks.splice(index, 1);
    }
    ]] *)
Definition remove (r : remover) (c : component) : component :=
  match arrays c !! r_callbacks r with
  | Some fs =>
      match indexOf fs (r_callback r) with
      | Some index =>
          Component (callbacks c)
                    (<[r_callbacks r := splice1 fs index]> (arrays c))
                    (next_ref c)
      | None => c
      end
  | None => c
  end.

(** The callbacks registered for an event type, in calling order. *)
Definition listeners (c : component) (type : string) : list value :=
  match callbacks c !! type with
  | Some l => default [] (arrays c !! l)
  | None => []
  end.

(** The list without its first element strictly equal to [callback]. *)
Fixpoint without_first (callback : value) (fs : list value) : list value :=
  match fs with
  | [] => []
  | f :: fs' => if strict_eq f callback then fs'
                else f :: without_first callback fs'
  end.

(** Every type has its own array. *)
Record wf (c : component) : Prop := {
  wf_array : forall t l, callbacks c !! t = Some l ->
                         is_Some (arrays c !! l) /\ (l < next_ref c)%nat;
  wf_own : forall t1 t2 l, callbacks c !! t1 = Some l ->
                           callbacks c !! t2 = Some l -> t1 = t2
}.

Lemma wf_created : wf created.
Proof. split; intros *; unfold created; cbn; now rewrite lookup_empty. Qed.

Lemma splice_indexOf fs callback :
  match indexOf fs callback with
  | Some index => splice1 fs index
  | None => fs
  end = without_first callback fs.
Proof.
  induction fs as [|f fs IH]; [reflexivity|]. cbn [indexOf without_first].
  destruct (strict_eq f callback); [reflexivity|].
  destruct (indexOf fs callback) as [index|]; cbn [fmap option_fmap option_map].
  - unfold splice1 in *. simpl. now rewrite IH.
  - now rewrite <- IH.
Qed.

Lemma without_first_last fs callback :
  is_nan callback = false ->
  without_first callback (fs ++ [callback])
  = match indexOf fs callback with
    | Some _ => without_first callback fs ++ [callback]
    | None => fs
    end.
Proof.
  intros Hn. induction fs as [|f fs IH]; cbn [app without_first indexOf].
  - now rewrite strict_eq_refl.
  - destruct (strict_eq f callback); [reflexivity|]. rewrite IH.
    now destruct (indexOf fs callback).
Qed.

Lemma listeners_push c t l callback :
  wf c -> callbacks c !! t = Some l ->
  listeners (push l callback c) t = listeners c t ++ [callback] /\
  (forall t', t' <> t -> listeners (push l callback c) t' = listeners c t') /\
  wf (push l callback c).
Proof.
  intros [Ha Ho] Ht. destruct (Ha _ _ Ht) as [[fs Hfs] Hl].
  unfold listeners, push. cbn [callbacks arrays]. split; [|split].
  - rewrite Ht, lookup_alter_eq, Hfs. reflexivity.
  - intros t' Hne. destruct (callbacks c !! t') as [l'|] eqn:Ht'; [|reflexivity].
    rewrite lookup_alter_ne; [reflexivity|].
    intros E. apply Hne. subst. eapply Ho; eauto.
  - split; cbn [callbacks arrays next_ref].
    + intros t0 l0 H0. destruct (Ha _ _ H0) as [[fs0 H1] H2]. split; [|exact H2].
      destruct (decide (l0 = l)) as [->|Hne].
      * rewrite lookup_alter_eq, Hfs. now eexists.
      * rewrite lookup_alter_ne by congruence. rewrite H1. now eexists.
    + exact Ho.
Qed.

Lemma listeners_remove c t l callback :
  wf c -> callbacks c !! t = Some l ->
  listeners (remove (Remover l callback) c) t
  = without_first callback (listeners c t) /\
  (forall t', t' <> t ->
     listeners (remove (Remover l callback) c) t' = listeners c t') /\
  callbacks (remove (Remover l callback) c) = callbacks c /\
  wf (remove (Remover l callback) c).
Proof.
  intros [Ha Ho] Ht. destruct (Ha _ _ Ht) as [[fs Hfs] Hl].
  pose proof (splice_indexOf fs callback) as Hs.
  unfold remove. cbn [r_callbacks r_callback]. rewrite Hfs.
  destruct (indexOf fs callback) as [index|].
  - unfold listeners. cbn [callbacks arrays]. split; [|split; [|split]].
    + rewrite Ht, lookup_insert_eq, Hfs. exact Hs.
    + intros t' Hne. destruct (callbacks c !! t') as [l'|] eqn:Ht'; [|reflexivity].
      rewrite lookup_insert_ne; [reflexivity|].
      intros E. apply Hne. subst. eapply Ho; eauto.
    + reflexivity.
    + split; cbn [callbacks arrays next_ref]; [|exact Ho].
      intros t0 l0 H0. destruct (Ha _ _ H0) as [[fs0 H1] H2]. split; [|exact H2].
      destruct (decide (l0 = l)) as [->|Hne].
      * rewrite lookup_insert_eq. now eexists.
      * rewrite lookup_insert_ne by congruence. rewrite H1. now eexists.
  - split; [|split; [|split]]; auto.
    + unfold listeners. now rewrite Ht, Hfs.
    + now split.
Qed.

Lemma dollar_on_spec type callback c :
  wf c ->
  exists l,
    (dollar_on type callback c).2 = Remover l callback /\
    callbacks (dollar_on type callback c).1 !! type = Some l /\
    (forall t l', callbacks c !! t = Some l' ->
                  callbacks (dollar_on type callback c).1 !! t = Some l') /\
    listeners (dollar_on type callback c).1 type = listeners c type ++ [callback] /\
    (forall t', t' <> type ->
       listeners (dollar_on type callback c).1 t' = listeners c t') /\
    wf (dollar_on type callback c).1.
Proof.
  intros Hwf. unfold dollar_on.
  destruct (callbacks c !! type) as [l|] eqn:Ht; cbn [fst snd].
  - exists l. destruct (listeners_push c type l callback Hwf Ht) as (H1 & H2 & H3).
    split; [reflexivity|]. split; [exact Ht|]. split; [intros t l' H; exact H|].
    split; [exact H1|]. split; [exact H2|exact H3].
  - set (c0 := Component (<[type:=next_ref c]> (callbacks c))
                 (<[next_ref c:=[]]> (arrays c)) (S (next_ref c))).
    destruct Hwf as [Ha Ho].
    assert (Hwf0 : wf c0).
    { split; unfold c0; cbn [callbacks arrays next_ref].
      - intros t l H. destruct (decide (t = type)) as [->|Hne].
        + rewrite lookup_insert_eq in H. injection H as <-.
          rewrite lookup_insert_eq. split; [now eexists|lia].
        + rewrite lookup_insert_ne in H by congruence.
          destruct (Ha _ _ H) as [[fs Hfs] Hl]. split; [|lia].
          rewrite lookup_insert_ne by lia. rewrite Hfs. now eexists.
      - intros t1 t2 l H1 H2.
        destruct (decide (t1 = type)) as [->|Hn1];
          destruct (decide (t2 = type)) as [->|Hn2]; auto.
        + rewrite lookup_insert_eq in H1. injection H1 as <-.
          rewrite lookup_insert_ne in H2 by congruence.
          destruct (Ha _ _ H2) as [_ Hl]. lia.
        + rewrite lookup_insert_eq in H2. injection H2 as <-.
          rewrite lookup_insert_ne in H1 by congruence.
          destruct (Ha _ _ H1) as [_ Hl]. lia.
        + rewrite lookup_insert_ne in H1, H2 by congruence.
          now apply (Ho t1 t2 l). }
    assert (Ht0 : callbacks c0 !! type = Some (next_ref c))
      by (unfold c0; cbn [callbacks]; apply lookup_insert_eq).
    destruct (listeners_push c0 type (next_ref c) callback Hwf0 Ht0)
      as (H1 & H2 & H3).
    assert (Hl0 : listeners c0 type = []).
    { unfold listeners. rewrite Ht0. unfold c0. cbn [arrays].
      now rewrite lookup_insert_eq. }
    assert (Hl1 : forall t', t' <> type -> listeners c0 t' = listeners c t').
    { intros t' Hne. unfold listeners, c0. cbn [callbacks arrays].
      rewrite lookup_insert_ne by congruence.
      destruct (callbacks c !! t') as [l'|] eqn:Ht'; [|reflexivity].
      destruct (Ha _ _ Ht') as [_ Hl]. rewrite lookup_insert_ne by lia.
      reflexivity. }
    exists (next_ref c). split; [reflexivity|]. split; [exact Ht0|].
    split; [|split; [|split]].
    + intros t l' H. unfold push, c0. cbn [callbacks].
      rewrite lookup_insert_ne; [exact H|]. intros <-. congruence.
    + rewrite H1, Hl0. unfold listeners. now rewrite Ht.
    + intros t' Hne. rewrite (H2 t' Hne). now apply Hl1.
    + exact H3.
Qed.

(** [$on] and the function it returns.  [$on(type, callback)] appends
    the callback to the listeners of [type] and leaves the other types
    alone.  The returned function, whenever it is called later, removes
    the first listener of [type] strictly equal to the callback, which
    need not be the registration it came from, keeps the order of the
    others, and does nothing when there is none.  Called right away it
    restores the listeners only if the callback was not registered
    before; otherwise the earlier registration goes and the new one stays
    at the end. *)
Theorem on_returns_first_match_remover type callback c :
  wf c ->
  let c1 := (dollar_on type callback c).1 in
  let off := (dollar_on type callback c).2 in
  listeners c1 type = listeners c type ++ [callback] /\
  (forall t, t <> type -> listeners c1 t = listeners c t) /\
  wf c1 /\
  (forall c2, wf c2 -> callbacks c2 !! type = callbacks c1 !! type ->
     listeners (remove off c2) type = without_first callback (listeners c2 type) /\
     (forall t, t <> type -> listeners (remove off c2) t = listeners c2 t) /\
     callbacks (remove off c2) = callbacks c2 /\
     wf (remove off c2)) /\
  (is_nan callback = false ->
   listeners (remove off c1) type
   = match indexOf (listeners c type) callback with
     | Some _ => without_first callback (listeners c type) ++ [callback]
     | None => listeners c type
     end).
Proof.
  intros Hwf c1 off.
  destruct (dollar_on_spec type callback c Hwf) as (l & Hoff & Hl & _ & H1 & H2 & H3).
  fold c1 in Hl, H1, H2, H3. fold off in Hoff.
  split; [exact H1|]. split; [exact H2|]. split; [exact H3|]. split.
  - intros c2 Hwf2 Hc2. rewrite Hl in Hc2. rewrite Hoff.
    apply (listeners_remove c2 type l callback Hwf2 Hc2).
  - intros Hn. rewrite Hoff.
    rewrite (proj1 (listeners_remove c1 type l callback H3 Hl)), H1.
    now apply without_first_last.
Qed.

Definition f1 : value := VFun 1.
Definition f2 : value := VFun 2.

(** [f1], [f2] and [f1] again registered for "done". *)
Definition thrice : component :=
  (dollar_on "done" f1 (dollar_on "done" f2 (dollar_on "done" f1 created).1).1).1.

Lemma on_remover_witness :
  listeners thrice "done" = [f1; f2; f1] /\
  listeners (remove (dollar_on "done" f2 (dollar_on "done" f1 created).1).2 thrice)
    "done" = [f1; f1].
Proof.
  assert (Hwf : wf (dollar_on "done" f1 created).1).
  { apply (on_returns_first_match_remover "done" f1 created wf_created). }
  split.
  - vm_compute. reflexivity.
  - destruct (on_returns_first_match_remover "done" f2
                (dollar_on "done" f1 created).1 Hwf) as (_ & _ & Hwf1 & Hrm & _).
    destruct (Hrm thrice) as (E & _).
    + apply (on_returns_first_match_remover "done" f1 _ Hwf1).
    + vm_compute. reflexivity.
    + rewrite E. vm_compute. reflexivity.
Defined.

End Events.
